(** * Habitto blog pipeline: scorer, link placer, post-processor, dispatcher

    A shallow embedding of the content-generation pipeline:

    - [src/lib/neuronwriter.ts]  ([calculateScore], [countOccurrences],
      [escapeRegex])
    - [src/lib/habitto-context.ts] ([HABITTO_PAGES], [suggestLinks],
      [insertLinks])
    - [src/lib/supabase.ts] (the store access layer)
    - [src/lib/pipeline.ts] ([getNextJobToProcess], [processOneStep] and the
      three stage handlers)
    - [supabase/functions/process-batch/index.ts] (the edge function: its own
      copies of the scorer, the link placer, the post-processor and the stage
      handlers).

    JavaScript strings are sequences of UTF-16 code units, numbers are IEEE-754
    binary64 values, and the persisted store is explicit state. *)

From Stdlib Require Import ZArith NArith List Bool Lia Arith Ascii.
From Stdlib Require String.
Import String.StringSyntax.
Delimit Scope string_scope with string.
From Stdlib Require Import Sorting.Sorted Sorting.Permutation.
From Stdlib Require Import Floats.SpecFloat.
Import ListNotations.

Set Implicit Arguments.

(* ====================================================================== *)
(** * JavaScript strings and arrays *)
(* ====================================================================== *)

Module Js.

(** A string is the list of its UTF-16 code units. *)
Definition code_unit := N.
Definition str := list code_unit.

(** An ASCII literal as a JavaScript string. *)
Fixpoint lit (s : String.string) : str :=
  match s with
  | String.EmptyString => []
  | String.String c r => N_of_ascii c :: lit r
  end.

Fixpoint str_eqb (a b : str) : bool :=
  match a, b with
  | [], [] => true
  | x :: a', y :: b' => N.eqb x y && str_eqb a' b'
  | _, _ => false
  end.

(** [s.startsWith(p)] *)
Fixpoint startsWith (s p : str) : bool :=
  match p, s with
  | [], _ => true
  | _ :: _, [] => false
  | x :: p', y :: s' => N.eqb x y && startsWith s' p'
  end.

(** [s.includes(t)] *)
Fixpoint includes (s t : str) : bool :=
  startsWith s t ||
  match s with
  | [] => false
  | _ :: s' => includes s' t
  end.

(** [a.slice(b, e)] and [a.slice(b)] for non-negative bounds. *)
Definition slice {A} (b e : nat) (a : list A) : list A :=
  firstn (e - b) (skipn b a).

Definition slice_from {A} (b : nat) (a : list A) : list A := skipn b a.

(** [set.has(x)] on a [Set<string>], kept as the list of its elements. *)
Definition has (set : list str) (x : str) : bool := existsb (str_eqb x) set.

(** [set.add(x)] *)
Definition add (set : list str) (x : str) : list str :=
  if has set x then set else set ++ [x].

(** [s.split(sep)] for a two-unit separator [c1 c2]: the pieces between the
    non-overlapping occurrences found from the left. *)
Fixpoint split2_aux (c1 c2 : code_unit) (cur : str) (skip : bool) (s : str)
  : list str :=
  match s with
  | [] => [rev cur]
  | x :: s' =>
      if skip then split2_aux c1 c2 cur false s'
      else
        match s' with
        | y :: _ =>
            if N.eqb x c1 && N.eqb y c2
            then rev cur :: split2_aux c1 c2 [] true s'
            else split2_aux c1 c2 (x :: cur) false s'
        | [] => split2_aux c1 c2 (x :: cur) false s'
        end
  end.

Definition split2 (c1 c2 : code_unit) (s : str) : list str :=
  split2_aux c1 c2 [] false s.

(** [parts.join(sep)] *)
Fixpoint join (sep : str) (parts : list str) : str :=
  match parts with
  | [] => []
  | [p] => p
  | p :: rest => p ++ sep ++ join sep rest
  end.

Lemma str_eqb_eq (a b : str) : str_eqb a b = true <-> a = b.
Proof.
  revert b; induction a as [|x a IH]; intros [|y b]; simpl;
    try (split; intro H; congruence).
  rewrite andb_true_iff, N.eqb_eq, IH. split.
  - intros [-> ->]; reflexivity.
  - intros H; injection H as -> ->; split; reflexivity.
Qed.

Lemma str_eqb_refl (a : str) : str_eqb a a = true.
Proof. apply str_eqb_eq; reflexivity. Qed.

Lemma has_In (set : list str) (x : str) : has set x = true <-> In x set.
Proof.
  unfold has. rewrite existsb_exists. split.
  - intros (y & Hy & E). apply str_eqb_eq in E. subst; assumption.
  - intros H. exists x. split; [assumption | apply str_eqb_refl].
Qed.

Lemma has_false (set : list str) (x : str) : has set x = false <-> ~ In x set.
Proof.
  rewrite <- has_In. destruct (has set x); split; congruence.
Qed.

Lemma add_In (set : list str) (x u : str) :
  In u (add set x) <-> In u set \/ u = x.
Proof.
  unfold add. destruct (has set x) eqn:E.
  - apply has_In in E. split; [intros H; left; exact H|].
    intros [H | ->]; assumption.
  - rewrite in_app_iff. simpl. split.
    + intros [H|[H|[]]]; [left; exact H | right; symmetry; exact H].
    + intros [H | ->]; [left; exact H | right; left; reflexivity].
Qed.

(** ** [Array.prototype.sort] with a comparator *)

(** The sort is stable; it is modelled by insertion from the right, which
    keeps elements that compare equal in their original order. *)
Section Sort.
Context {A : Type}.
Variable cmp : A -> A -> Z.

Fixpoint insert (x : A) (l : list A) : list A :=
  match l with
  | [] => [x]
  | y :: l' => if (cmp x y <=? 0)%Z then x :: l else y :: insert x l'
  end.

Definition sort (l : list A) : list A := fold_right insert [] l.

Definition before (x y : A) : Prop := (cmp x y <= 0)%Z.

Lemma insert_perm (x : A) (l : list A) : Permutation (x :: l) (insert x l).
Proof.
  induction l as [|y l IH]; simpl.
  - apply Permutation_refl.
  - destruct (cmp x y <=? 0)%Z.
    + apply Permutation_refl.
    + eapply perm_trans; [apply perm_swap|]. apply perm_skip. exact IH.
Qed.

Lemma sort_perm (l : list A) : Permutation l (sort l).
Proof.
  induction l as [|x l IH]; simpl.
  - apply perm_nil.
  - eapply perm_trans; [apply perm_skip; exact IH|]. apply insert_perm.
Qed.

Hypothesis cmp_total : forall x y, (0 < cmp x y)%Z -> (cmp y x <= 0)%Z.
Hypothesis cmp_trans :
  forall x y z, (cmp x y <= 0)%Z -> (cmp y z <= 0)%Z -> (cmp x z <= 0)%Z.

Lemma insert_sorted (x : A) (l : list A) :
  StronglySorted before l -> StronglySorted before (insert x l).
Proof.
  induction 1 as [|y l Hs IH Hy]; simpl.
  - constructor; constructor.
  - destruct (cmp x y <=? 0)%Z eqn:E.
    + apply Z.leb_le in E. constructor.
      * constructor; assumption.
      * constructor; [exact E|].
        eapply Forall_impl; [|exact Hy]. intros z Hz.
        eapply cmp_trans; eassumption.
    + apply Z.leb_gt in E. constructor; [exact IH|].
      assert (Hin : Forall (before y) (x :: l)).
      { constructor; [apply cmp_total; exact E | exact Hy]. }
      eapply Permutation_Forall; [apply insert_perm | exact Hin].
Qed.

Lemma sort_sorted (l : list A) : StronglySorted before (sort l).
Proof.
  induction l as [|x l IH]; simpl.
  - constructor.
  - apply insert_sorted. exact IH.
Qed.

End Sort.

(** A list keeps its order in a longer one. *)
Inductive subsequence {A} : list A -> list A -> Prop :=
| subsequence_nil : subsequence [] []
| subsequence_skip x l1 l2 : subsequence l1 l2 -> subsequence l1 (x :: l2)
| subsequence_take x l1 l2 : subsequence l1 l2 -> subsequence (x :: l1) (x :: l2).

(** [array.entries()] *)
Definition entries {A} (l : list A) : list (nat * A) :=
  combine (seq 0 (length l)) l.

End Js.

(* ====================================================================== *)
(** * JavaScript numbers *)
(* ====================================================================== *)

Module Num.

(** A number is an IEEE-754 binary64 value. *)
Definition prec : Z := 53.
Definition emax : Z := 1024.
Definition number := spec_float.

Definition of_Z (z : Z) : number := binary_normalize prec emax z 0 false.
Definition of_nat (n : nat) : number := of_Z (Z.of_nat n).

Definition add : number -> number -> number := SFadd prec emax.
Definition mul : number -> number -> number := SFmul prec emax.
Definition div : number -> number -> number := SFdiv prec emax.
Definition ltb : number -> number -> bool := SFltb.

(** [Math.round]: the nearest integer, ties towards plus infinity; the
    argument itself when it is integral or not finite; a zero of the
    argument's sign when the result is zero. *)
Definition Math_round (x : number) : number :=
  match x with
  | S754_finite s m e =>
      if (0 <=? e)%Z then x
      else
        let d := Z.pow 2 (- e) in
        let v := if s then Z.opp (Z.pos m) else Z.pos m in
        let r := Z.div (2 * v + d) (2 * d) in
        if (r =? 0)%Z then S754_zero s else binary_normalize prec emax r 0 s
  | _ => x
  end.

End Num.

(* ====================================================================== *)
(** * SEO scorer ([calculateScore]) *)
(* ====================================================================== *)

Module Scorer.
Import Js Num.

Record NeuronWriterAnalysis := {
  queryId : option str;
  recommendedTerms : list str;
  competitorHeadings : list str;
  wordCountTarget : nat;
  topKeywords : list (str * number)
}.

(** The result of [calculateScore].  The library copy also returns
    [suggestions], display texts for the chat UI, which are not kept here;
    the edge function's copy returns [percentage] and [missingTerms] only. *)
Record NeuronWriterScore := {
  score : nat;
  maxScore : nat;
  percentage : number;
  missingTerms : list str
}.

(** The syntax characters of [/[.*+?^${}()|[\]\\]/]. *)
Definition syntax_character (c : code_unit) : bool :=
  existsb (N.eqb c) (lit ".*+?^${}()|[]\"%string).

(** [escapeRegex]: every syntax character gets a backslash in front. *)
Fixpoint escapeRegex (s : str) : str :=
  match s with
  | [] => []
  | c :: s' =>
      if syntax_character c then 92%N :: c :: escapeRegex s'
      else c :: escapeRegex s'
  end.

(** The pattern source read back as the sequence of characters it matches:
    [\c] is the identity escape of [c], any other unit stands for itself. *)
Fixpoint pattern_characters (escaped : bool) (src : str) : str :=
  match src with
  | [] => []
  | c :: rest =>
      if escaped then c :: pattern_characters false rest
      else if N.eqb c 92 then pattern_characters true rest
      else c :: pattern_characters false rest
  end.

Section Builtins.

(** [String.prototype.toLowerCase] and the case folding of the [i] flag
    (the specification's [Canonicalize]) are tables of the language, taken
    as given. *)
Variable toLowerCase : str -> str.
Variable canonicalize : code_unit -> code_unit.

(** Does the character sequence [p] match at the start of [s], ignoring
    case? *)
Fixpoint matches_at (p s : str) : bool :=
  match p, s with
  | [], _ => true
  | _ :: _, [] => false
  | x :: p', y :: s' =>
      N.eqb (canonicalize x) (canonicalize y) && matches_at p' s'
  end.

(** The matches of a global search for a non-empty [p] in [s]: after a
    match the search resumes behind it. *)
Fixpoint count_matches (p : str) (skip : nat) (s : str) : nat :=
  match s with
  | [] => 0
  | _ :: s' =>
      match skip with
      | S k => count_matches p k s'
      | O =>
          if matches_at p s then S (count_matches p (length p - 1) s')
          else count_matches p 0 s'
      end
  end.

(** [content.match(new RegExp(source, 'gi'))], counted; the empty pattern
    matches once at every index, the end included. *)
Definition match_count (source content : str) : nat :=
  match pattern_characters false source with
  | [] => S (length content)
  | p => count_matches p 0 content
  end.

Definition countOccurrences (content term : str) : nat :=
  match_count (escapeRegex term) content.

(** The three loops of [calculateScore]. *)
Definition critical_step (contentLower : str)
  (acc : nat * list str) (term : str) : nat * list str :=
  let count := countOccurrences contentLower (toLowerCase term) in
  if 3 <=? count then (fst acc + 3, snd acc)
  else if 1 <=? count then (fst acc + count, snd acc ++ [term])
  else (fst acc, snd acc ++ [term]).

Definition important_step (contentLower : str)
  (acc : nat * list str) (term : str) : nat * list str :=
  let count := countOccurrences contentLower (toLowerCase term) in
  if 1 <=? count then (fst acc + Nat.min count 2, snd acc)
  else (fst acc, snd acc ++ [term]).

Definition supporting_step (contentLower : str) (acc : nat) (term : str)
  : nat :=
  if includes contentLower (toLowerCase term) then acc + 1 else acc.

(** The local variables of [calculateScore] once its loops have run. *)
Record Tally := {
  criticalTerms : list str;
  importantTerms : list str;
  supportingTerms : list str;
  criticalScore : nat;
  importantScore : nat;
  supportingScore : nat;
  missingCritical : list str;
  missingImportant : list str
}.

Definition tally (content : str) (analysis : NeuronWriterAnalysis) : Tally :=
  let contentLower := toLowerCase content in
  let criticalTerms := slice 0 10 (recommendedTerms analysis) in
  let importantTerms := slice 10 25 (recommendedTerms analysis) in
  let supportingTerms := slice_from 25 (recommendedTerms analysis) in
  let critical := fold_left (critical_step contentLower) criticalTerms (0, []) in
  let important := fold_left (important_step contentLower) importantTerms (0, []) in
  let supporting := fold_left (supporting_step contentLower) supportingTerms 0 in
  {| criticalTerms := criticalTerms;
     importantTerms := importantTerms;
     supportingTerms := supportingTerms;
     criticalScore := fst critical;
     importantScore := fst important;
     supportingScore := supporting;
     missingCritical := snd critical;
     missingImportant := snd important |}.

Definition maxCritical (t : Tally) : nat := length (criticalTerms t) * 3.
Definition maxImportant (t : Tally) : nat := length (importantTerms t) * 2.
Definition maxSupporting (t : Tally) : nat := length (supportingTerms t).

Definition criticalPct (t : Tally) : number :=
  if 0 <? maxCritical t
  then mul (div (of_nat (criticalScore t)) (of_nat (maxCritical t))) (of_Z 50)
  else of_Z 50.

Definition importantPct (t : Tally) : number :=
  if 0 <? maxImportant t
  then mul (div (of_nat (importantScore t)) (of_nat (maxImportant t))) (of_Z 30)
  else of_Z 30.

Definition supportingPct (t : Tally) : number :=
  if 0 <? maxSupporting t
  then mul (div (of_nat (supportingScore t)) (of_nat (maxSupporting t))) (of_Z 20)
  else of_Z 20.

Definition calculateScore (content : str) (analysis : NeuronWriterAnalysis)
  : NeuronWriterScore :=
  let t := tally content analysis in
  let totalScore := criticalScore t + importantScore t + supportingScore t in
  let maxScore := maxCritical t + maxImportant t + maxSupporting t in
  let percentage :=
    Math_round (add (add (criticalPct t) (importantPct t)) (supportingPct t)) in
  let allMissing := missingCritical t ++ slice 0 5 (missingImportant t) in
  {| score := totalScore;
     maxScore := maxScore;
     percentage := percentage;
     missingTerms := allMissing |}.


(** ** The scorer in the words of the specification *)

(** Critical terms: up to 3 points, full credit from 3 occurrences on,
    1 or 2 points for 1 or 2 occurrences. *)
Definition critical_credit (occurrences : nat) : nat :=
  match occurrences with
  | 0 => 0
  | 1 => 1
  | 2 => 2
  | _ => 3
  end.

(** Important terms: up to 2 points, full credit from 2 occurrences on. *)
Definition important_credit (occurrences : nat) : nat :=
  match occurrences with
  | 0 => 0
  | 1 => 1
  | _ => 2
  end.

(** Supporting terms: 1 point for presence. *)
Definition supporting_credit (present : bool) : nat :=
  if present then 1 else 0.

(** A tier's share of the percentage: its full weight when the tier has no
    term, the achieved fraction of the weight otherwise. *)
Definition tier_share (achieved possible : nat) (weight : Z) : number :=
  match possible with
  | 0 => of_Z weight
  | _ => mul (div (of_nat achieved) (of_nat possible)) (of_Z weight)
  end.

Definition occurrences (content term : str) : nat :=
  countOccurrences (toLowerCase content) (toLowerCase term).

Definition present (content term : str) : bool :=
  includes (toLowerCase content) (toLowerCase term).

Definition critical_tier (a : NeuronWriterAnalysis) : list str :=
  firstn 10 (recommendedTerms a).
Definition important_tier (a : NeuronWriterAnalysis) : list str :=
  firstn 15 (skipn 10 (recommendedTerms a)).
Definition supporting_tier (a : NeuronWriterAnalysis) : list str :=
  skipn 25 (recommendedTerms a).

Definition tier_points (credit : str -> nat) (tier : list str) : nat :=
  list_sum (map credit tier).

Definition spec_percentage (content : str) (a : NeuronWriterAnalysis) : number :=
  let critical :=
    tier_points (fun t => critical_credit (occurrences content t)) (critical_tier a) in
  let important :=
    tier_points (fun t => important_credit (occurrences content t)) (important_tier a) in
  let supporting :=
    tier_points (fun t => supporting_credit (present content t)) (supporting_tier a) in
  Math_round
    (add (add (tier_share critical (3 * length (critical_tier a)) 50)
              (tier_share important (2 * length (important_tier a)) 30))
         (tier_share supporting (length (supporting_tier a)) 20)).

(** ** The loops, as sums and filters *)

Lemma tier_points_cons (credit : str -> nat) (t : str) (tier : list str) :
  tier_points credit (t :: tier) = credit t + tier_points credit tier.
Proof. reflexivity. Qed.

Lemma critical_credit_spec (n : nat) :
  critical_credit n = (if 3 <=? n then 3 else if 1 <=? n then n else 0).
Proof. destruct n as [|[|[|n]]]; reflexivity. Qed.

Lemma important_credit_spec (n : nat) :
  important_credit n = (if 1 <=? n then Nat.min n 2 else 0).
Proof. destruct n as [|[|[|n]]]; reflexivity. Qed.

Lemma critical_loop (contentLower : str) (terms : list str) (acc : nat * list str) :
  fold_left (critical_step contentLower) terms acc =
  (fst acc +
     tier_points (fun t => critical_credit
                   (countOccurrences contentLower (toLowerCase t))) terms,
   snd acc ++
     filter (fun t => countOccurrences contentLower (toLowerCase t) <? 3) terms).
Proof.
  revert acc; induction terms as [|t terms IH]; intros [sc ms].
  - simpl. rewrite Nat.add_0_r, app_nil_r; reflexivity.
  - cbn [fold_left filter]. rewrite IH, tier_points_cons. unfold critical_step.
    cbn [fst snd]. match goal with |- context [tier_points ?f terms] =>
      generalize (tier_points f terms); intros rest end.
    destruct (countOccurrences contentLower (toLowerCase t)) as [|[|[|c]]];
      cbn; rewrite <- ?app_assoc; cbn; f_equal; lia.
Qed.

Lemma important_loop (contentLower : str) (terms : list str) (acc : nat * list str) :
  fold_left (important_step contentLower) terms acc =
  (fst acc +
     tier_points (fun t => important_credit
                   (countOccurrences contentLower (toLowerCase t))) terms,
   snd acc ++
     filter (fun t => countOccurrences contentLower (toLowerCase t) =? 0) terms).
Proof.
  revert acc; induction terms as [|t terms IH]; intros [sc ms].
  - simpl. rewrite Nat.add_0_r, app_nil_r; reflexivity.
  - cbn [fold_left filter]. rewrite IH, tier_points_cons. unfold important_step.
    cbn [fst snd]. match goal with |- context [tier_points ?f terms] =>
      generalize (tier_points f terms); intros rest end.
    destruct (countOccurrences contentLower (toLowerCase t)) as [|[|[|c]]];
      cbn; rewrite <- ?app_assoc; cbn; f_equal; lia.
Qed.

Lemma supporting_loop (contentLower : str) (terms : list str) (acc : nat) :
  fold_left (supporting_step contentLower) terms acc =
  acc + tier_points (fun t => supporting_credit
                      (includes contentLower (toLowerCase t))) terms.
Proof.
  revert acc; induction terms as [|t terms IH]; intros acc.
  - cbn. lia.
  - cbn [fold_left]. rewrite IH, tier_points_cons.
    unfold supporting_step, supporting_credit.
    destruct (includes contentLower (toLowerCase t)); lia.
Qed.

Lemma tiers_of_tally (content : str) (a : NeuronWriterAnalysis) :
  criticalTerms (tally content a) = critical_tier a /\
  importantTerms (tally content a) = important_tier a /\
  supportingTerms (tally content a) = supporting_tier a.
Proof. repeat split. Qed.

Lemma tier_share_guard (achieved possible : nat) (weight : Z) :
  (if 0 <? possible
   then mul (div (of_nat achieved) (of_nat possible)) (of_Z weight)
   else of_Z weight) = tier_share achieved possible weight.
Proof. destruct possible; reflexivity. Qed.

Lemma criticalPct_share (content : str) (a : NeuronWriterAnalysis) :
  criticalPct (tally content a) =
  tier_share
    (tier_points (fun t => critical_credit (occurrences content t)) (critical_tier a))
    (3 * length (critical_tier a)) 50.
Proof.
  unfold criticalPct, maxCritical. rewrite tier_share_guard.
  simpl criticalScore. simpl criticalTerms. rewrite critical_loop. simpl fst.
  rewrite (Nat.mul_comm _ 3). reflexivity.
Qed.

Lemma importantPct_share (content : str) (a : NeuronWriterAnalysis) :
  importantPct (tally content a) =
  tier_share
    (tier_points (fun t => important_credit (occurrences content t)) (important_tier a))
    (2 * length (important_tier a)) 30.
Proof.
  unfold importantPct, maxImportant. rewrite tier_share_guard.
  simpl importantScore. simpl importantTerms. rewrite important_loop. simpl fst.
  rewrite (Nat.mul_comm _ 2). reflexivity.
Qed.

Lemma supportingPct_share (content : str) (a : NeuronWriterAnalysis) :
  supportingPct (tally content a) =
  tier_share
    (tier_points (fun t => supporting_credit (present content t)) (supporting_tier a))
    (length (supporting_tier a)) 20.
Proof.
  unfold supportingPct, maxSupporting. rewrite tier_share_guard.
  simpl supportingScore. simpl supportingTerms. rewrite supporting_loop.
  reflexivity.
Qed.

(** C1. For every content and analysis the ranked list is the critical tier
    (its first 10 terms) followed by the important tier (the next 15) and the
    supporting tier (the rest); the credits are 3 from three occurrences on
    and 1 or 2 below for a critical term, 2 from two occurrences on for an
    important one, 1 for a present supporting one; and the percentage
    returned is the rounded sum of the three tier shares of 50, 30 and 20,
    a tier without terms contributing its whole weight. *)
Theorem calculateScore_percentage (content : str) (a : NeuronWriterAnalysis) :
  recommendedTerms a = critical_tier a ++ important_tier a ++ supporting_tier a /\
  length (critical_tier a) <= 10 /\ length (important_tier a) <= 15 /\
  (forall n, critical_credit n <= 3 /\ (critical_credit n = 3 <-> 3 <= n) /\
             (n < 3 -> critical_credit n = n)) /\
  (forall n, important_credit n <= 2 /\ (important_credit n = 2 <-> 2 <= n) /\
             (n < 2 -> important_credit n = n)) /\
  tier_share 0 0 50 = of_Z 50 /\ tier_share 0 0 30 = of_Z 30 /\
  tier_share 0 0 20 = of_Z 20 /\
  percentage (calculateScore content a) = spec_percentage content a.
Proof.
  split; [|split; [|split; [|split; [|split]]]].
  - unfold critical_tier, important_tier, supporting_tier.
    rewrite <- (firstn_skipn 10 (recommendedTerms a)) at 1. f_equal.
    rewrite <- (firstn_skipn 15 (skipn 10 (recommendedTerms a))) at 1. f_equal.
    rewrite skipn_skipn. reflexivity.
  - unfold critical_tier. rewrite length_firstn. lia.
  - unfold important_tier. rewrite length_firstn. lia.
  - intros [|[|[|n]]]; simpl; repeat split; intros; lia.
  - intros [|[|n]]; simpl; repeat split; intros; lia.
  - repeat split.
    unfold calculateScore, spec_percentage. simpl percentage.
    rewrite criticalPct_share, importantPct_share, supportingPct_share.
    reflexivity.
Qed.

(** ** The scenario of 10 critical, 15 important and 5 supporting terms *)

Lemma tier_points_const (credit : str -> nat) (k : nat) (tier : list str) :
  Forall (fun t => credit t = k) tier ->
  tier_points credit tier = k * length tier.
Proof.
  unfold tier_points. induction 1 as [|t tier Ht _ IH]; simpl.
  - lia.
  - rewrite Ht, IH. lia.
Qed.

Lemma tier_lengths_30 (a : NeuronWriterAnalysis) :
  length (recommendedTerms a) = 30 ->
  length (critical_tier a) = 10 /\ length (important_tier a) = 15 /\
  length (supporting_tier a) = 5.
Proof.
  intros H. unfold critical_tier, important_tier, supporting_tier.
  rewrite !length_firstn, !length_skipn. lia.
Qed.

(** C2, as the code has it.  With 10 critical, 15 important and 5 supporting
    terms, every critical term at least 3 times in the content and no
    important or supporting term in it, the critical tier contributes 50 of
    50 and the important tier 0 of 30; the supporting tier is not empty, so
    there is no default and it contributes 0 of 20: the percentage is 50. *)
Theorem calculateScore_critical_only (content : str) (a : NeuronWriterAnalysis) :
  length (recommendedTerms a) = 30 ->
  Forall (fun t => 3 <= occurrences content t) (critical_tier a) ->
  Forall (fun t => occurrences content t = 0) (important_tier a) ->
  Forall (fun t => present content t = false) (supporting_tier a) ->
  criticalPct (tally content a) = of_Z 50 /\
  importantPct (tally content a) = of_Z 0 /\
  supportingPct (tally content a) = of_Z 0 /\
  percentage (calculateScore content a) = of_Z 50.
Proof.
  intros Hlen Hc Hi Hs.
  destruct (tier_lengths_30 a Hlen) as (Lc & Li & Ls).
  assert (Ec : criticalPct (tally content a) = of_Z 50).
  { rewrite criticalPct_share.
    rewrite (@tier_points_const _ 3).
    - rewrite Lc. vm_compute. reflexivity.
    - eapply Forall_impl; [|exact Hc]. simpl. intros t Ht.
      rewrite critical_credit_spec.
      apply Nat.leb_le in Ht. rewrite Ht. reflexivity. }
  assert (Ei : importantPct (tally content a) = of_Z 0).
  { rewrite importantPct_share.
    rewrite (@tier_points_const _ 0).
    - rewrite Li. vm_compute. reflexivity.
    - eapply Forall_impl; [|exact Hi]. simpl. intros t Ht.
      rewrite Ht. reflexivity. }
  assert (Es : supportingPct (tally content a) = of_Z 0).
  { rewrite supportingPct_share.
    rewrite (@tier_points_const _ 0).
    - rewrite Ls. vm_compute. reflexivity.
    - eapply Forall_impl; [|exact Hs]. simpl. intros t Ht.
      rewrite Ht. reflexivity. }
  repeat split; try assumption.
  unfold calculateScore. simpl percentage. rewrite Ec, Ei, Es.
  vm_compute. reflexivity.
Qed.

(** ** The missing terms *)

(** C3, as the code has it.  The missing terms are the critical terms with
    fewer than three occurrences (a critical term found once or twice is
    still listed), in rank order, followed by the first five important terms
    with no occurrence. *)
Theorem calculateScore_missingTerms (content : str) (a : NeuronWriterAnalysis) :
  missingTerms (calculateScore content a) =
  filter (fun t => occurrences content t <? 3) (critical_tier a) ++
  firstn 5 (filter (fun t => occurrences content t =? 0) (important_tier a)).
Proof.
  unfold calculateScore. simpl missingTerms.
  unfold tally. simpl missingCritical. simpl missingImportant.
  rewrite critical_loop, important_loop. reflexivity.
Qed.

(** The pattern built from an escaped term matches the term's own
    characters. *)
Lemma pattern_characters_escapeRegex (term : str) :
  pattern_characters false (escapeRegex term) = term.
Proof.
  induction term as [|c term IH]; simpl; [reflexivity|].
  destruct (syntax_character c) eqn:E; simpl.
  - rewrite IH. reflexivity.
  - destruct (N.eqb c 92) eqn:E92.
    + apply N.eqb_eq in E92. subst c. discriminate E.
    + rewrite IH. reflexivity.
Qed.

End Builtins.

(** The ASCII fragment of the two tables, for concrete runs on ASCII text. *)
Definition ascii_lower (c : code_unit) : code_unit :=
  if (65 <=? c)%N && (c <=? 90)%N then (c + 32)%N else c.

Definition ascii_toLowerCase (s : str) : str := map ascii_lower s.

Definition ascii_canonicalize (c : code_unit) : code_unit :=
  if (97 <=? c)%N && (c <=? 122)%N then (c - 32)%N else c.


(** ** Concrete runs *)

Definition score_ascii : str -> NeuronWriterAnalysis -> NeuronWriterScore :=
  calculateScore ascii_toLowerCase ascii_canonicalize.

Definition analysis_of (terms : list str) : NeuronWriterAnalysis :=
  {| queryId := None;
     recommendedTerms := terms;
     competitorHeadings := [];
     wordCountTarget := 3000;
     topKeywords := [] |}.

(** Ten critical terms [k0..k9], fifteen important terms [m10..m24] and five
    supporting terms [s25..s29]; the content holds each critical term three
    times and nothing else. *)
Definition thirty_terms : list str :=
    [lit "k0"%string;
     lit "k1"%string;
     lit "k2"%string;
     lit "k3"%string;
     lit "k4"%string;
     lit "k5"%string;
     lit "k6"%string;
     lit "k7"%string;
     lit "k8"%string;
     lit "k9"%string;
     lit "m10"%string;
     lit "m11"%string;
     lit "m12"%string;
     lit "m13"%string;
     lit "m14"%string;
     lit "m15"%string;
     lit "m16"%string;
     lit "m17"%string;
     lit "m18"%string;
     lit "m19"%string;
     lit "m20"%string;
     lit "m21"%string;
     lit "m22"%string;
     lit "m23"%string;
     lit "m24"%string;
     lit "s25"%string;
     lit "s26"%string;
     lit "s27"%string;
     lit "s28"%string;
     lit "s29"%string].

Definition critical_only_content : str :=
  lit "k0 k0 k0 k1 k1 k1 k2 k2 k2 k3 k3 k3 k4 k4 k4 k5 k5 k5 k6 k6 k6 k7 k7 k7 k8 k8 k8 k9 k9 k9"%string.

Lemma Forall_of_forallb {A} (P : A -> Prop) (f : A -> bool) (l : list A) :
  (forall x, f x = true -> P x) -> forallb f l = true -> Forall P l.
Proof.
  intros Hf H. apply Forall_forall. intros x Hx.
  apply Hf. rewrite forallb_forall in H. apply H. exact Hx.
Qed.

Lemma thirty_terms_scenario :
  length (recommendedTerms (analysis_of thirty_terms)) = 30 /\
  Forall (fun t => 3 <= occurrences ascii_toLowerCase ascii_canonicalize
                          critical_only_content t)
         (critical_tier (analysis_of thirty_terms)) /\
  Forall (fun t => occurrences ascii_toLowerCase ascii_canonicalize
                     critical_only_content t = 0)
         (important_tier (analysis_of thirty_terms)) /\
  Forall (fun t => present ascii_toLowerCase critical_only_content t = false)
         (supporting_tier (analysis_of thirty_terms)).
Proof.
  split; [reflexivity|]. split; [|split].
  - apply Forall_of_forallb with
      (f := fun t => 3 <=? occurrences ascii_toLowerCase ascii_canonicalize
                             critical_only_content t).
    + intros t. apply Nat.leb_le.
    + vm_compute. reflexivity.
  - apply Forall_of_forallb with
      (f := fun t => occurrences ascii_toLowerCase ascii_canonicalize
                       critical_only_content t =? 0).
    + intros t. apply Nat.eqb_eq.
    + vm_compute. reflexivity.
  - apply Forall_of_forallb with
      (f := fun t => negb (present ascii_toLowerCase critical_only_content t)).
    + intros t. apply negb_true_iff.
    + vm_compute. reflexivity.
Qed.

(** The scenario of C2 run on the code: the percentage is 50. *)
Lemma calculateScore_critical_only_run :
  criticalPct (tally ascii_toLowerCase ascii_canonicalize
                 critical_only_content (analysis_of thirty_terms)) = of_Z 50 /\
  importantPct (tally ascii_toLowerCase ascii_canonicalize
                  critical_only_content (analysis_of thirty_terms)) = of_Z 0 /\
  supportingPct (tally ascii_toLowerCase ascii_canonicalize
                   critical_only_content (analysis_of thirty_terms)) = of_Z 0 /\
  percentage (score_ascii critical_only_content (analysis_of thirty_terms))
    = of_Z 50.
Proof.
  destruct thirty_terms_scenario as (H30 & Hc & Hi & Hs).
  exact (calculateScore_critical_only ascii_toLowerCase ascii_canonicalize
           critical_only_content (analysis_of thirty_terms) H30 Hc Hi Hs).
Defined.

(** C2 as stated (70 overall, the supporting tier at its default 20) does not
    hold: the scenario above meets its premises and scores 50. *)
Lemma calculateScore_critical_only_not_70 :
  ~ (forall (toLowerCase : str -> str) (canonicalize : code_unit -> code_unit)
            (content : str) (a : NeuronWriterAnalysis),
       length (recommendedTerms a) = 30 ->
       Forall (fun t => 3 <= occurrences toLowerCase canonicalize content t)
              (critical_tier a) ->
       Forall (fun t => occurrences toLowerCase canonicalize content t = 0)
              (important_tier a) ->
       Forall (fun t => present toLowerCase content t = false)
              (supporting_tier a) ->
       supportingPct (tally toLowerCase canonicalize content a) = of_Z 20 /\
       percentage (calculateScore toLowerCase canonicalize content a) = of_Z 70).
Proof.
  intros H.
  destruct thirty_terms_scenario as (H30 & Hc & Hi & Hs).
  destruct (H _ _ _ _ H30 Hc Hi Hs) as [_ H70].
  vm_compute in H70. discriminate H70.
Qed.

(** C3 as stated (only critical terms with no occurrence at all are listed)
    does not hold: a critical term found once is listed as missing. *)
Lemma calculateScore_missingTerms_lists_partial :
  occurrences ascii_toLowerCase ascii_canonicalize
    (lit "alpha beta"%string) (lit "alpha"%string) = 1 /\
  missingTerms (score_ascii (lit "alpha beta"%string)
                  (analysis_of [lit "alpha"%string]))
    = [lit "alpha"%string] /\
  ~ (forall (toLowerCase : str -> str) (canonicalize : code_unit -> code_unit)
            (content : str) (a : NeuronWriterAnalysis),
       missingTerms (calculateScore toLowerCase canonicalize content a) =
       filter (fun t => occurrences toLowerCase canonicalize content t =? 0)
              (critical_tier a) ++
       firstn 5 (filter (fun t => occurrences toLowerCase canonicalize content t =? 0)
                        (important_tier a))).
Proof.
  split; [vm_compute; reflexivity|]. split; [vm_compute; reflexivity|].
  intros H.
  specialize (H ascii_toLowerCase ascii_canonicalize
                (lit "alpha beta"%string) (analysis_of [lit "alpha"%string])).
  vm_compute in H. discriminate H.
Qed.

(** The shares are binary64 values and so is their sum: with 1 of 30
    critical points, no important point and 13 of 24 supporting points the
    sum is the double just below 12.5 and the percentage is 12 (the exact
    fractions 5/3 + 0 + 65/6 add up to 12.5). *)
Lemma tier_shares_are_binary64 :
  Math_round (add (add (tier_share 1 30 50) (tier_share 0 30 30))
                  (tier_share 13 24 20)) = of_Z 12.
Proof. vm_compute. reflexivity. Qed.

End Scorer.

(* ====================================================================== *)
(** * Link placer ([suggestLinks], [insertLinks]) *)
(* ====================================================================== *)

Module LinkPlacer.
Import Js.

(** A suggested insertion: the paragraph, the anchor text and the URL. *)
Record Link := {
  paragraph : nat;
  anchorText : str;
  url : str
}.

(** [Math.abs(a - b)] on paragraph indices. *)
Definition distance (a b : nat) : Z := Z.abs (Z.of_nat a - Z.of_nat b).

(** Every pick after the first two lies at least three paragraphs away from
    every earlier pick. *)
Definition spread (picks : list Link) : Prop :=
  forall earlier x later,
    picks = earlier ++ x :: later ->
    2 <= length earlier ->
    Forall (fun s => (3 <= distance (paragraph s) (paragraph x))%Z) earlier.

(** ** The edge function's placer *)

Module Edge.

Record HabittoPage := {
  page_url : str;
  page_keywords : list str;
  page_priority : nat
}.

Definition HABITTO_PAGES : list HabittoPage :=
  [{| page_url := lit "https://www.habitto.com/account/"%string;
     page_keywords :=
       [[36015; 33988; 21475; 24231]%N; (* 貯蓄口座 *)
        [37329; 21033]%N; (* 金利 *)
        lit "0.5%"%string;
        [24180; 21033]%N; (* 年利 *)
        [38928; 37329]%N; (* 預金 *)
        [36015; 12417; 12427]%N; (* 貯める *)
        [21033; 24687]%N; (* 利息 *)
        [39640; 37329; 21033]%N; (* 高金利 *)
        [23450; 26399; 38928; 37329]%N; (* 定期預金 *)
        [12493; 12483; 12488; 37504; 34892]%N; (* ネット銀行 *)
        [26222; 36890; 38928; 37329]%N] (* 普通預金 *);
     page_priority := 1 |};
   {| page_url := lit "https://www.habitto.com/card/"%string;
     page_keywords :=
       [[12487; 12499; 12483; 12488; 12459; 12540; 12489]%N; (* デビットカード *)
        [12461; 12515; 12483; 12471; 12517; 12496; 12483; 12463]%N; (* キャッシュバック *)
        lit "0.8%"%string;
        [36996; 20803]%N; (* 還元 *)
        lit "Visa"%string;
        lit "ATM"%string;
        [20351; 12356; 12377; 12366]%N; (* 使いすぎ *)
        [12461; 12515; 12483; 12471; 12517; 12524; 12473]%N; (* キャッシュレス *)
        [27770; 28168]%N] (* 決済 *);
     page_priority := 1 |};
   {| page_url := lit "https://www.habitto.com/advisor/"%string;
     page_keywords :=
       [[12450; 12489; 12496; 12452; 12470; 12540]%N; (* アドバイザー *)
        [30456; 35527]%N; (* 相談 *)
        [28961; 26009; 30456; 35527]%N; (* 無料相談 *)
        lit "FP"%string;
        lit "NISA"%string;
        [20445; 38522]%N; (* 保険 *)
        [12521; 12452; 12501; 12503; 12521; 12531]%N; (* ライフプラン *)
        [25237; 36039; 20449; 35351]%N; (* 投資信託 *)
        lit "iDeCo"%string;
        [32769; 24460; 36039; 37329]%N; (* 老後資金 *)
        [12501; 12449; 12452; 12490; 12531; 12471; 12515; 12523]%N] (* ファイナンシャル *);
     page_priority := 1 |};
   {| page_url := lit "https://www.habitto.com/people-like-you/"%string;
     page_keywords :=
       [[12524; 12499; 12517; 12540]%N; (* レビュー *)
        [21475; 12467; 12511]%N; (* 口コミ *)
        [20307; 39443; 35527]%N; (* 体験談 *)
        [35413; 21028]%N; (* 評判 *)
        [21033; 29992; 32773]%N; (* 利用者 *)
        [12518; 12540; 12470; 12540]%N] (* ユーザー *);
     page_priority := 2 |};
   {| page_url := lit "https://www.habitto.com/"%string;
     page_keywords :=
       [lit "Habitto"%string;
        [12495; 12499; 12488]%N] (* ハビト *);
     page_priority := 3 |}].

Record Opportunity := {
  opp_link : Link;
  opp_priority : nat
}.

(** The keyword loop of one page: the first keyword found in the paragraph
    gives the page's one opportunity there. *)
Definition page_opportunity (index : nat) (text : str) (page : HabittoPage)
  : list Opportunity :=
  match find (fun keyword => includes text keyword) (page_keywords page) with
  | Some keyword =>
      [{| opp_link := {| paragraph := index; anchorText := keyword;
                         url := page_url page |};
          opp_priority := page_priority page |}]
  | None => []
  end.

Definition paragraph_opportunities (pages : list HabittoPage)
  (entry : nat * str) : list Opportunity :=
  let (index, text) := entry in
  if startsWith text (lit "#"%string) || (length text <? 30) then []
  else if includes text (lit "](http"%string) then []
  else flat_map (page_opportunity index text) pages.

Definition allOpportunities (pages : list HabittoPage) (articleContent : str)
  : list Opportunity :=
  flat_map (paragraph_opportunities pages) (entries (split2 10%N 10%N articleContent)).

(** The comparator of the second pass. *)
Definition by_priority_then_position (a b : Opportunity) : Z :=
  if negb (opp_priority a =? opp_priority b)
  then Z.of_nat (opp_priority a) - Z.of_nat (opp_priority b)
  else Z.of_nat (paragraph (opp_link a)) - Z.of_nat (paragraph (opp_link b)).

Definition sortedOpportunities (pages : list HabittoPage) (articleContent : str)
  : list Opportunity :=
  sort by_priority_then_position (allOpportunities pages articleContent).

(** [suggestions.some(s => Math.abs(s.paragraph - opp.paragraph) < 3)] *)
Definition hasNearbyLink (suggestions : list Link) (opp : Opportunity) : bool :=
  existsb (fun s => (distance (paragraph s) (paragraph (opp_link opp)) <? 3)%Z)
          suggestions.

(** The selection loop, with its two [continue]s and its [break]. *)
Fixpoint select (opps : list Opportunity) (suggestions : list Link)
  (usedUrls : list str) : list Link :=
  match opps with
  | [] => suggestions
  | opp :: rest =>
      if has usedUrls (url (opp_link opp)) then select rest suggestions usedUrls
      else
        if hasNearbyLink suggestions opp && (2 <=? length suggestions)
        then select rest suggestions usedUrls
        else
          let suggestions' := suggestions ++ [opp_link opp] in
          let usedUrls' := add usedUrls (url (opp_link opp)) in
          if 5 <=? length suggestions' then suggestions'
          else select rest suggestions' usedUrls'
  end.

Definition suggestLinks_in (pages : list HabittoPage) (articleContent : str)
  : list Link :=
  select (sortedOpportunities pages articleContent) [] [].

Definition suggestLinks (articleContent : str) : list Link :=
  suggestLinks_in HABITTO_PAGES articleContent.

(** The order the second pass sorts by: lower priority number first, then
    earlier paragraph first. *)
Definition ranked_before (a b : Opportunity) : Prop :=
  opp_priority a < opp_priority b \/
  (opp_priority a = opp_priority b /\
   paragraph (opp_link a) <= paragraph (opp_link b)).

Lemma by_priority_then_position_le (a b : Opportunity) :
  (by_priority_then_position a b <= 0)%Z <-> ranked_before a b.
Proof.
  unfold by_priority_then_position, ranked_before.
  destruct (opp_priority a =? opp_priority b) eqn:E; simpl.
  - apply Nat.eqb_eq in E. split; [intros H; right; split; lia|].
    intros [H|[_ H]]; lia.
  - apply Nat.eqb_neq in E. split; [intros H; left; lia|].
    intros [H|[H _]]; lia.
Qed.

Lemma sortedOpportunities_sorted (pages : list HabittoPage) (content : str) :
  StronglySorted ranked_before (sortedOpportunities pages content).
Proof.
  assert (S : StronglySorted (before by_priority_then_position)
                (sortedOpportunities pages content)).
  { apply sort_sorted.
    - intros x y H. apply by_priority_then_position_le.
      assert (N : ~ ranked_before x y).
      { intros R. apply by_priority_then_position_le in R. lia. }
      unfold ranked_before in *. lia.
    - intros x y z H1 H2.
      apply by_priority_then_position_le in H1.
      apply by_priority_then_position_le in H2.
      apply by_priority_then_position_le.
      unfold ranked_before in *. lia. }
  induction S as [|x l Hs IH Hx]; constructor.
  - exact IH.
  - eapply Forall_impl; [|exact Hx]. intros y.
    apply by_priority_then_position_le.
Qed.

(** What one pass of the selection loop keeps true. *)
Section SelectInvariant.
Variable I : list Link -> list str -> Prop.
Hypothesis I_push :
  forall suggestions usedUrls opp,
    I suggestions usedUrls ->
    has usedUrls (url (opp_link opp)) = false ->
    hasNearbyLink suggestions opp && (2 <=? length suggestions) = false ->
    length suggestions < 5 ->
    I (suggestions ++ [opp_link opp]) (add usedUrls (url (opp_link opp))).

Lemma select_invariant (opps : list Opportunity) :
  forall suggestions usedUrls,
    I suggestions usedUrls -> length suggestions < 5 ->
    exists usedUrls', I (select opps suggestions usedUrls) usedUrls' /\
                      length (select opps suggestions usedUrls) <= 5.
Proof.
  induction opps as [|opp rest IH]; intros suggestions usedUrls HI Hlen;
    cbn [select].
  - exists usedUrls. split; [exact HI | lia].
  - destruct (has usedUrls (url (opp_link opp))) eqn:Hused.
    { apply IH; assumption. }
    destruct (hasNearbyLink suggestions opp && (2 <=? length suggestions)) eqn:Hnear.
    { apply IH; assumption. }
    pose proof (I_push opp HI Hused Hnear Hlen) as HI'.
    destruct (5 <=? length (suggestions ++ [opp_link opp])) eqn:Hfull.
    + exists (add usedUrls (url (opp_link opp))). split; [exact HI'|].
      rewrite length_app. simpl. lia.
    + apply IH; [exact HI'|]. apply Nat.leb_gt in Hfull. exact Hfull.
Qed.

End SelectInvariant.

Lemma select_urls_distinct (opps : list Opportunity) :
  NoDup (map url (select opps [] [])).
Proof.
  destruct (@select_invariant
              (fun suggestions usedUrls =>
                 NoDup (map url suggestions) /\
                 forall u, In u (map url suggestions) -> In u usedUrls))
    with (opps := opps) (suggestions := @nil Link) (usedUrls := @nil str)
    as (used' & [H _] & _).
  - intros suggestions usedUrls opp [Hnd Hsub] Hused _ _. split.
    + rewrite map_app. simpl.
      apply NoDup_app; [exact Hnd | constructor; [intros []|constructor] |].
      intros u Hu [<-|[]]. apply has_false in Hused. apply Hused.
      apply Hsub. exact Hu.
    + intros u. rewrite map_app, in_app_iff, add_In. simpl.
      intros [Hu|[<-|[]]]; [left; apply Hsub; exact Hu | right; reflexivity].
  - split; [constructor | intros u []].
  - simpl. lia.
  - exact H.
Qed.

Lemma select_at_most_5 (opps : list Opportunity) :
  length (select opps [] []) <= 5.
Proof.
  destruct (@select_invariant (fun _ _ => True))
    with (opps := opps) (suggestions := @nil Link) (usedUrls := @nil str)
    as (used' & _ & H); auto. simpl; lia.
Qed.

Lemma spread_push (suggestions : list Link) (x : Link) :
  spread suggestions ->
  (2 <= length suggestions ->
   Forall (fun s => (3 <= distance (paragraph s) (paragraph x))%Z) suggestions) ->
  spread (suggestions ++ [x]).
Proof.
  intros Hs Hx earlier y later E Hlen.
  destruct (exists_last (l := y :: later)) as (later' & z & El); [discriminate|].
  destruct later' as [|y' later'].
  - simpl in El. injection El as Ey El'. subst later.
    replace (earlier ++ [y]) with (earlier ++ [y]) in E by reflexivity.
    apply app_inj_tail in E. destruct E as [-> ->]. subst z.
    apply Hx. exact Hlen.
  - simpl in El. injection El as Ey El'. subst y'.
    rewrite El' in E.
    change (earlier ++ y :: later' ++ [z]) with (earlier ++ (y :: later') ++ [z]) in E.
    rewrite app_assoc in E. apply app_inj_tail in E. destruct E as [E _].
    eapply Hs; [exact E | exact Hlen].
Qed.

Lemma select_spread (opps : list Opportunity) : spread (select opps [] []).
Proof.
  destruct (@select_invariant (fun suggestions _ => spread suggestions))
    with (opps := opps) (suggestions := @nil Link) (usedUrls := @nil str)
    as (used' & H & _).
  - intros suggestions usedUrls opp Hs _ Hnear _.
    apply spread_push; [exact Hs|]. intros Hlen.
    apply andb_false_iff in Hnear. destruct Hnear as [Hnear|Hnear].
    + apply Forall_forall. intros s Hin.
      assert (F : (distance (paragraph s) (paragraph (opp_link opp)) <? 3)%Z = false).
      { destruct (distance (paragraph s) (paragraph (opp_link opp)) <? 3)%Z eqn:E;
          [|reflexivity].
        rewrite <- Hnear. symmetry. apply existsb_exists. exists s.
        split; assumption. }
      apply Z.ltb_ge in F. exact F.
    + apply Nat.leb_gt in Hnear. lia.
  - intros earlier x later E. destruct earlier; discriminate E.
  - simpl. lia.
  - exact H.
Qed.

Lemma select_subsequence (opps : list Opportunity) :
  forall suggestions usedUrls,
  exists picked,
    subsequence picked opps /\
    select opps suggestions usedUrls = suggestions ++ map opp_link picked.
Proof.
  induction opps as [|opp rest IH]; intros suggestions usedUrls; cbn [select].
  - exists []. split; [constructor | rewrite app_nil_r; reflexivity].
  - destruct (has usedUrls (url (opp_link opp))).
    { destruct (IH suggestions usedUrls) as (picked & Hs & E).
      exists picked. split; [constructor; exact Hs | exact E]. }
    destruct (hasNearbyLink suggestions opp && (2 <=? length suggestions)).
    { destruct (IH suggestions usedUrls) as (picked & Hs & E).
      exists picked. split; [constructor; exact Hs | exact E]. }
    destruct (5 <=? length (suggestions ++ [opp_link opp])).
    + exists [opp]. split; [|reflexivity].
      apply subsequence_take. clear. induction rest; constructor; assumption.
    + destruct (IH (suggestions ++ [opp_link opp])
                   (add usedUrls (url (opp_link opp)))) as (picked & Hs & E).
      exists (opp :: picked). split; [apply subsequence_take; exact Hs|].
      rewrite E, <- app_assoc. reflexivity.
Qed.

End Edge.


(** ** The library's placer *)

Module Lib.

Record HabittoPage := {
  page_url : str;
  page_title : str;
  page_keywords : list str;
  page_anchors : list str;
  page_priority : nat
}.

Definition HABITTO_PAGES : list HabittoPage :=
  [{| page_url := lit "https://www.habitto.com/account/"%string;
     page_title := [36015; 33988; 21475; 24231]%N (* 貯蓄口座 *);
     page_keywords :=
       [[36015; 33988; 21475; 24231]%N; (* 貯蓄口座 *)
        [37329; 21033]%N; (* 金利 *)
        lit "0.5%"%string;
        [24180; 21033]%N; (* 年利 *)
        [38928; 37329]%N; (* 預金 *)
        [36015; 12417; 12427]%N; (* 貯める *)
        [21033; 24687]%N; (* 利息 *)
        [39640; 37329; 21033]%N; (* 高金利 *)
        [23450; 26399; 38928; 37329]%N; (* 定期預金 *)
        [12493; 12483; 12488; 37504; 34892]%N; (* ネット銀行 *)
        [26222; 36890; 38928; 37329]%N] (* 普通預金 *);
     page_anchors :=
       [[72; 97; 98; 105; 116; 116; 111; 12398; 36015; 33988; 21475; 24231]%N; (* Habittoの貯蓄口座 *)
        [24180; 21033; 48; 46; 53; 37; 12398; 21475; 24231]%N; (* 年利0.5%の口座 *)
        [39640; 37329; 21033; 12398; 36015; 33988; 21475; 24231]%N; (* 高金利の貯蓄口座 *)
        [26465; 20214; 12394; 12375; 12391; 24180; 21033; 48; 46; 53; 37]%N] (* 条件なしで年利0.5% *);
     page_priority := 1 |};
   {| page_url := lit "https://www.habitto.com/card/"%string;
     page_title := [12487; 12499; 12483; 12488; 12459; 12540; 12489]%N (* デビットカード *);
     page_keywords :=
       [[12487; 12499; 12483; 12488; 12459; 12540; 12489]%N; (* デビットカード *)
        [12461; 12515; 12483; 12471; 12517; 12496; 12483; 12463]%N; (* キャッシュバック *)
        lit "0.8%"%string;
        [36996; 20803]%N; (* 還元 *)
        lit "Visa"%string;
        lit "ATM"%string;
        [20351; 12356; 12377; 12366]%N; (* 使いすぎ *)
        [12461; 12515; 12483; 12471; 12517; 12524; 12473]%N; (* キャッシュレス *)
        [27770; 28168]%N] (* 決済 *);
     page_anchors :=
       [[72; 97; 98; 105; 116; 116; 111; 12398; 12487; 12499; 12483; 12488; 12459; 12540; 12489]%N; (* Habittoのデビットカード *)
        [48; 46; 56; 37; 36996; 20803; 12398; 12487; 12499; 12483; 12488; 12459; 12540; 12489]%N; (* 0.8%還元のデビットカード *)
        [12461; 12515; 12483; 12471; 12517; 12496; 12483; 12463; 20184; 12365; 12459; 12540; 12489]%N] (* キャッシュバック付きカード *);
     page_priority := 1 |};
   {| page_url := lit "https://www.habitto.com/advisor/"%string;
     page_title := [72; 97; 98; 105; 116; 116; 111; 12450; 12489; 12496; 12452; 12470; 12540]%N (* Habittoアドバイザー *);
     page_keywords :=
       [[12450; 12489; 12496; 12452; 12470; 12540]%N; (* アドバイザー *)
        [30456; 35527]%N; (* 相談 *)
        [28961; 26009; 30456; 35527]%N; (* 無料相談 *)
        lit "FP"%string;
        lit "NISA"%string;
        [20445; 38522]%N; (* 保険 *)
        [12521; 12452; 12501; 12503; 12521; 12531]%N; (* ライフプラン *)
        [25237; 36039; 20449; 35351]%N; (* 投資信託 *)
        lit "iDeCo"%string;
        [32769; 24460; 36039; 37329]%N; (* 老後資金 *)
        [12501; 12449; 12452; 12490; 12531; 12471; 12515; 12523]%N] (* ファイナンシャル *);
     page_anchors :=
       [[72; 97; 98; 105; 116; 116; 111; 12450; 12489; 12496; 12452; 12470; 12540]%N; (* Habittoアドバイザー *)
        [28961; 26009; 12398; 12501; 12449; 12452; 12490; 12531; 12471; 12515; 12523; 12450; 12489; 12496; 12452; 12470; 12540]%N; (* 無料のファイナンシャルアドバイザー *)
        [12503; 12525; 12395; 30456; 35527]%N] (* プロに相談 *);
     page_priority := 1 |};
   {| page_url := lit "https://www.habitto.com/people-like-you/"%string;
     page_title := [12362; 23458; 27096; 12398; 22768]%N (* お客様の声 *);
     page_keywords :=
       [[12524; 12499; 12517; 12540]%N; (* レビュー *)
        [21475; 12467; 12511]%N; (* 口コミ *)
        [20307; 39443; 35527]%N; (* 体験談 *)
        [35413; 21028]%N; (* 評判 *)
        [21033; 29992; 32773]%N; (* 利用者 *)
        [12518; 12540; 12470; 12540]%N] (* ユーザー *);
     page_anchors :=
       [[23455; 38555; 12395; 20351; 12387; 12390; 12356; 12427; 20154; 12398; 22768]%N; (* 実際に使っている人の声 *)
        [12362; 23458; 27096; 12398; 20307; 39443; 35527]%N; (* お客様の体験談 *)
        [72; 97; 98; 105; 116; 116; 111; 12518; 12540; 12470; 12540; 12398; 22768]%N] (* Habittoユーザーの声 *);
     page_priority := 2 |};
   {| page_url := lit "https://www.habitto.com/"%string;
     page_title := [72; 97; 98; 105; 116; 116; 111; 20844; 24335]%N (* Habitto公式 *);
     page_keywords :=
       [lit "Habitto"%string;
        [12495; 12499; 12488]%N] (* ハビト *);
     page_anchors :=
       [lit "Habitto"%string;
        [72; 97; 98; 105; 116; 116; 111; 20844; 24335; 12469; 12452; 12488]%N] (* Habitto公式サイト *);
     page_priority := 3 |};
   {| page_url := lit "https://www.habitto.com/app/"%string;
     page_title := [12450; 12503; 12522]%N (* アプリ *);
     page_keywords :=
       [[12450; 12503; 12522]%N; (* アプリ *)
        [12480; 12454; 12531; 12525; 12540; 12489]%N; (* ダウンロード *)
        lit "iOS"%string;
        lit "Android"%string;
        [12473; 12510; 12507]%N] (* スマホ *);
     page_anchors :=
       [[72; 97; 98; 105; 116; 116; 111; 12450; 12503; 12522]%N; (* Habittoアプリ *)
        [12450; 12503; 12522; 12434; 12480; 12454; 12531; 12525; 12540; 12489]%N; (* アプリをダウンロード *)
        [12473; 12510; 12507; 12391; 31649; 29702]%N] (* スマホで管理 *);
     page_priority := 3 |}].

Record Suggestion := {
  link : Link;
  pageTitle : str;
  priority : nat
}.

(** The keyword loop of one page: at the first keyword found, the anchor is
    the first of the page's anchors found in the paragraph, or else the
    keyword ([find(...) || keyword]); the page's URL is marked as used. *)
Definition push_page (index : nat) (text : str) (page : HabittoPage)
  (st : list Suggestion * list str) : list Suggestion * list str :=
  match find (fun keyword => includes text keyword) (page_keywords page) with
  | Some keyword =>
      let anchor :=
        match find (fun a => includes text a) (page_anchors page) with
        | Some (c :: a) => c :: a
        | _ => keyword
        end in
      (fst st ++
         [{| link := {| paragraph := index; anchorText := anchor;
                        url := page_url page |};
             pageTitle := page_title page;
             priority := page_priority page |}],
       add (snd st) (page_url page))
  | None => st
  end.

(** The page loop of one paragraph: used pages are skipped, service pages
    (priority 1) are skipped in the first half, and the loop ends once the
    paragraph has a suggestion. *)
Fixpoint page_loop (index : nat) (text : str) (isSecondHalf : bool)
  (pages : list HabittoPage) (st : list Suggestion * list str)
  : list Suggestion * list str :=
  match pages with
  | [] => st
  | page :: rest =>
      if has (snd st) (page_url page)
      then page_loop index text isSecondHalf rest st
      else if (page_priority page =? 1) && negb isSecondHalf
      then page_loop index text isSecondHalf rest st
      else
        let st' := push_page index text page st in
        if existsb (fun s => paragraph (link s) =? index) (fst st') then st'
        else page_loop index text isSecondHalf rest st'
  end.

Definition paragraph_step (pages : list HabittoPage) (halfwayPoint : nat)
  (st : list Suggestion * list str) (entry : nat * str)
  : list Suggestion * list str :=
  let (index, text) := entry in
  if startsWith text (lit "#"%string) || (length text <? 50) then st
  else if includes text (lit "](http"%string) then st
  else page_loop index text (halfwayPoint <=? index) pages st.

Definition by_priority (a b : Suggestion) : Z :=
  Z.of_nat (priority a) - Z.of_nat (priority b).

Definition suggestLinks_in (pages : list HabittoPage) (articleContent : str)
  : list Suggestion :=
  let paragraphs := split2 10%N 10%N articleContent in
  let totalParagraphs := length paragraphs in
  let halfwayPoint := totalParagraphs / 2 in
  let st := fold_left (paragraph_step pages halfwayPoint) (entries paragraphs)
                      ([], []) in
  slice 0 6 (sort by_priority (fst st)).

Definition suggestLinks (articleContent : str) : list Suggestion :=
  suggestLinks_in HABITTO_PAGES articleContent.

Definition suggestion_url (s : Suggestion) : str := url (link s).

(** The used URLs cover the suggestions made so far, which are distinct. *)
Definition distinct_so_far (st : list Suggestion * list str) : Prop :=
  NoDup (map suggestion_url (fst st)) /\
  forall u, In u (map suggestion_url (fst st)) -> In u (snd st).

Lemma push_page_distinct (index : nat) (text : str) (page : HabittoPage)
  (st : list Suggestion * list str) :
  distinct_so_far st -> has (snd st) (page_url page) = false ->
  distinct_so_far (push_page index text page st).
Proof.
  intros [Hnd Hsub] Hused. unfold push_page.
  destruct (find _ (page_keywords page)) as [keyword|]; [|split; assumption].
  split; cbn [fst snd].
  - rewrite map_app. cbn.
    apply NoDup_app; [exact Hnd | constructor; [intros []|constructor] |].
    intros u Hu [<-|[]]. apply has_false in Hused. apply Hused.
    apply Hsub. exact Hu.
  - intros u. rewrite map_app, in_app_iff, add_In. cbn.
    intros [Hu|[<-|[]]]; [left; apply Hsub; exact Hu | right; reflexivity].
Qed.

Lemma page_loop_distinct (index : nat) (text : str) (isSecondHalf : bool)
  (pages : list HabittoPage) :
  forall st, distinct_so_far st ->
             distinct_so_far (page_loop index text isSecondHalf pages st).
Proof.
  induction pages as [|page rest IH]; intros st H; cbn [page_loop].
  - exact H.
  - destruct (has (snd st) (page_url page)) eqn:Hused; [apply IH; exact H|].
    destruct ((page_priority page =? 1) && negb isSecondHalf);
      [apply IH; exact H|].
    pose proof (push_page_distinct index text page H Hused) as H'.
    destruct (existsb _ (fst (push_page index text page st)));
      [exact H' | apply IH; exact H'].
Qed.

Lemma paragraph_loop_distinct (pages : list HabittoPage) (halfwayPoint : nat)
  (paragraphs : list (nat * str)) :
  forall st, distinct_so_far st ->
             distinct_so_far
               (fold_left (paragraph_step pages halfwayPoint) paragraphs st).
Proof.
  induction paragraphs as [|[index text] rest IH]; intros st H; cbn [fold_left].
  - exact H.
  - apply IH. unfold paragraph_step.
    destruct (startsWith text (lit "#"%string) || (length text <? 50));
      [exact H|].
    destruct (includes text (lit "](http"%string)); [exact H|].
    apply page_loop_distinct. exact H.
Qed.

End Lib.

(** ** [insertLinks] (the same text in both copies) *)

(** [s.replace(pattern, replacement)] with a string pattern rewrites the
    first occurrence.  In the replacement text [$$] stands for a dollar sign,
    [$&] for the matched text, [$`] for the text before the match and [$']
    for the text after it; there are no captures, so any other [$] stands
    for itself. *)
Fixpoint substitution (matched before after replacement : str) : str :=
  match replacement with
  | [] => []
  | 36%N :: 36%N :: rest => 36%N :: substitution matched before after rest
  | 36%N :: 38%N :: rest => matched ++ substitution matched before after rest
  | 36%N :: 96%N :: rest => before ++ substitution matched before after rest
  | 36%N :: 39%N :: rest => after ++ substitution matched before after rest
  | c :: rest => c :: substitution matched before after rest
  end.

Fixpoint replace_from (before s pattern replacement : str) : str :=
  if startsWith s pattern then
    let after := skipn (length pattern) s in
    substitution pattern before after replacement ++ after
  else
    match s with
    | [] => []
    | c :: s' => c :: replace_from (before ++ [c]) s' pattern replacement
    end.

Definition replace_first (s pattern replacement : str) : str :=
  replace_from [] s pattern replacement.

(** [a[i] = x] for an index within the array. *)
Fixpoint set_nth {A} (i : nat) (x : A) (a : list A) : list A :=
  match a, i with
  | [], _ => []
  | _ :: a', 0 => x :: a'
  | y :: a', S i' => y :: set_nth i' x a'
  end.

Definition by_paragraph_descending (a b : Link) : Z :=
  Z.of_nat (paragraph b) - Z.of_nat (paragraph a).

Definition link_markup (l : Link) : str :=
  lit "["%string ++ anchorText l ++ lit "]("%string ++ url l ++ lit ")"%string.

(** One turn of the loop; a missing or empty paragraph is skipped, and so is
    one that already links to the URL. *)
Definition insert_link (paragraphs : list str) (l : Link) : list str :=
  match nth_error paragraphs (paragraph l) with
  | None => paragraphs
  | Some [] => paragraphs
  | Some text =>
      if includes text (lit "]("%string ++ url l ++ lit ")"%string)
      then paragraphs
      else set_nth (paragraph l)
                   (replace_first text (anchorText l) (link_markup l))
                   paragraphs
  end.

Definition insertLinks (content : str) (links : list Link) : str :=
  join [10; 10]%N
       (fold_left insert_link (sort by_paragraph_descending links)
                  (split2 10%N 10%N content)).

Lemma firstn_sorted {A} (R : A -> A -> Prop) (n : nat) (l : list A) :
  StronglySorted R l -> StronglySorted R (firstn n l).
Proof.
  intros H. revert n. induction H as [|x l Hs IH Hx]; intros [|n]; simpl;
    try constructor.
  - apply IH.
  - apply Forall_forall. intros y Hy. rewrite Forall_forall in Hx.
    apply Hx. rewrite <- (firstn_skipn n l). apply in_or_app. left. exact Hy.
Qed.

Lemma firstn_NoDup {A} (n : nat) (l : list A) : NoDup l -> NoDup (firstn n l).
Proof.
  intros H. rewrite <- (firstn_skipn n l) in H.
  eapply NoDup_app_remove_r. exact H.
Qed.

(** A draft of three long paragraphs: the first names Habitto, the second
    iOS, the third Visa. *)
Definition three_paragraphs : str :=
  lit "Habitto helps people build a simple saving habit every month."%string
  ++ [10; 10]%N ++
  lit "The iOS release lets you check your balance in a few taps every day."%string
  ++ [10; 10]%N ++
  lit "You can pay with Visa wherever cards are accepted around town."%string.

(** C5, as the code has it.  For every draft, the edge function's placer
    returns insertions with pairwise distinct URLs, at most 5 of them, picked
    in order from the candidates sorted by (priority, paragraph), and every
    pick after the first two is at least three paragraphs away from every
    earlier pick.  The library's placer returns insertions with pairwise
    distinct URLs, at most 6 of them, in priority order; it has no rule on
    the distance between paragraphs. *)
Theorem suggestLinks_selection (articleContent : str) :
  (NoDup (map url (Edge.suggestLinks articleContent)) /\
   length (Edge.suggestLinks articleContent) <= 5 /\
   Permutation (Edge.allOpportunities Edge.HABITTO_PAGES articleContent)
               (Edge.sortedOpportunities Edge.HABITTO_PAGES articleContent) /\
   StronglySorted Edge.ranked_before
     (Edge.sortedOpportunities Edge.HABITTO_PAGES articleContent) /\
   (exists picked,
      subsequence picked
        (Edge.sortedOpportunities Edge.HABITTO_PAGES articleContent) /\
      Edge.suggestLinks articleContent = map Edge.opp_link picked) /\
   spread (Edge.suggestLinks articleContent)) /\
  (NoDup (map Lib.suggestion_url (Lib.suggestLinks articleContent)) /\
   length (Lib.suggestLinks articleContent) <= 6 /\
   StronglySorted (fun a b => Lib.priority a <= Lib.priority b)
     (Lib.suggestLinks articleContent)).
Proof.
  split.
  - unfold Edge.suggestLinks, Edge.suggestLinks_in.
    split; [apply Edge.select_urls_distinct|].
    split; [apply Edge.select_at_most_5|].
    split; [apply sort_perm|].
    split; [apply Edge.sortedOpportunities_sorted|].
    split; [|apply Edge.select_spread].
    destruct (Edge.select_subsequence
                (Edge.sortedOpportunities Edge.HABITTO_PAGES articleContent)
                [] []) as (picked & Hs & E).
    exists picked. split; [exact Hs | exact E].
  - unfold Lib.suggestLinks, Lib.suggestLinks_in, slice.
    cbn [skipn]. rewrite Nat.sub_0_r.
    set (st := fold_left _ _ _).
    assert (D : Lib.distinct_so_far st).
    { apply Lib.paragraph_loop_distinct. split; [constructor | intros u []]. }
    split; [|split].
    + rewrite <- firstn_map. apply firstn_NoDup.
      eapply Permutation_NoDup; [|exact (proj1 D)].
      apply Permutation_map. apply sort_perm.
    + rewrite length_firstn. lia.
    + apply firstn_sorted.
      assert (S : StronglySorted (before Lib.by_priority)
                    (sort Lib.by_priority (fst st))).
      { apply sort_sorted; unfold Lib.by_priority; intros; lia. }
      induction S as [|x l Hs IH Hx]; constructor; [exact IH|].
      eapply Forall_impl; [|exact Hx]. unfold before, Lib.by_priority.
      intros y Hy. lia.
Qed.

(** C5 as stated (the distance rule in both copies) does not hold: the
    library's placer links the three adjacent paragraphs of
    [three_paragraphs]. *)
Lemma suggestLinks_library_adjacent :
  map (fun s => paragraph (Lib.link s)) (Lib.suggestLinks three_paragraphs)
    = [2; 0; 1] /\
  ~ spread (map Lib.link (Lib.suggestLinks three_paragraphs)).
Proof.
  split; [vm_compute; reflexivity|].
  intros H.
  remember (map Lib.link (Lib.suggestLinks three_paragraphs)) as picks eqn:E.
  vm_compute in E.
  match type of E with
  | picks = [?a; ?b; ?c] =>
      specialize (H [a; b] c [] E (le_n 2))
  end.
  apply Forall_inv in H. vm_compute in H. apply H. reflexivity.
Qed.

End LinkPlacer.

(* ====================================================================== *)
(** * Content post-processor ([dedupeInternalLinks]) *)
(* ====================================================================== *)

Module PostProcess.
Import Js.

(** ** The pattern [/\[([^\]]+)\]\((https:\/\/www\.habitto\.com[^)]+)\)/g] *)

(** The longest prefix of [s] without the unit [c], and what follows it. *)
Fixpoint span_not (c : code_unit) (s : str) : str * str :=
  match s with
  | [] => ([], [])
  | x :: s' =>
      if N.eqb x c then ([], s)
      else let (run, rest) := span_not c s' in (x :: run, rest)
  end.

Definition internal_prefix : str := lit "https://www.habitto.com"%string.

(** The text a match stands for: [[text](url)]. *)
Definition markup (text url : str) : str :=
  lit "["%string ++ text ++ lit "]("%string ++ url ++ lit ")"%string.

(** A match of the pattern at the start of [s]: the two groups and what
    follows the match.  Each of the two greedy classes is followed by the
    one character it excludes, so the only length at which the rest of the
    pattern can match is the whole run; backtracking finds nothing else. *)
Definition match_link (s : str) : option (str * str * str) :=
  match s with
  | c :: s1 =>
      if N.eqb c 91 then
        let (text, s2) := span_not 93%N s1 in
        match text, s2 with
        | _ :: _, c1 :: c2 :: s3 =>
            if N.eqb c1 93 && N.eqb c2 40 && startsWith s3 internal_prefix
            then
              let (tail, s5) :=
                span_not 41%N (skipn (length internal_prefix) s3) in
              match tail, s5 with
              | _ :: _, c3 :: rest =>
                  if N.eqb c3 41
                  then Some (text, internal_prefix ++ tail, rest)
                  else None
              | _, _ => None
              end
            else None
        | _, _ => None
        end
      else None
  | [] => None
  end.

(** [content.replace(pattern, callback)] for the global pattern: the matches
    are found from the left, each search resuming behind the last match; the
    callback sees the match and its groups and may keep state between
    calls. *)
Section Replace.
Context {St : Type}.
Variable callback : St -> str -> str -> str -> St * str.

Fixpoint replace_links (skip : nat) (st : St) (s : str) : str :=
  match s with
  | [] => []
  | c :: s' =>
      match skip with
      | S k => replace_links k st s'
      | O =>
          match match_link s with
          | Some (text, url, _) =>
              let whole := markup text url in
              let (st', out) := callback st whole text url in
              out ++ replace_links (length whole - 1) st' s'
          | None => c :: replace_links 0 st s'
          end
      end
  end.

End Replace.

(** [url.replace(/\/$/, '')] *)
Definition strip_trailing_slash (url : str) : str :=
  match rev url with
  | c :: r => if N.eqb c 47 then rev r else url
  | [] => url
  end.

(** The callback of [dedupeInternalLinks]; [seenUrls] is its closure state. *)
Definition dedupe_callback (seenUrls : list str) (whole text url : str)
  : list str * str :=
  let normalizedUrl := strip_trailing_slash url in
  if has seenUrls normalizedUrl then (seenUrls, text)
  else (add seenUrls normalizedUrl, whole).

Definition dedupeInternalLinks (content : str) : str :=
  replace_links dedupe_callback 0 [] content.


(** ** The pattern [/\[([^\]]+)\]\((https?:\/\/[^)]+)\)/g] of the link list *)

(** [https?:\/\/] at the start of [s]: the part matched and what follows. *)
Definition http_head (s : str) : option (str * str) :=
  if startsWith s (lit "https://"%string)
  then Some (lit "https://"%string, skipn 8 s)
  else if startsWith s (lit "http://"%string)
  then Some (lit "http://"%string, skipn 7 s)
  else None.

Definition match_http_link (s : str) : option (str * str * str) :=
  match s with
  | c :: s1 =>
      if N.eqb c 91 then
        let (text, s2) := span_not 93%N s1 in
        match text, s2 with
        | _ :: _, c1 :: c2 :: s3 =>
            if N.eqb c1 93 && N.eqb c2 40 then
              match http_head s3 with
              | Some (head, s4) =>
                  let (tail, s5) := span_not 41%N s4 in
                  match tail, s5 with
                  | _ :: _, c3 :: rest =>
                      if N.eqb c3 41 then Some (text, head ++ tail, rest)
                      else None
                  | _, _ => None
                  end
              | None => None
              end
            else None
        | _, _ => None
        end
      else None
  | [] => None
  end.

(** The loop [while ((match = linkRegex.exec(content)) !== null)]: the URLs
    of the matches, in document order. *)
Fixpoint link_urls (skip : nat) (s : str) : list str :=
  match s with
  | [] => []
  | _ :: s' =>
      match skip with
      | S k => link_urls k s'
      | O =>
          match match_http_link s with
          | Some (text, url, _) =>
              url :: link_urls (length (markup text url) - 1) s'
          | None => link_urls 0 s'
          end
      end
  end.

(** The internal links of a text: the URLs that hold [habitto.com]. *)
Definition internal_links_of (content : str) : list str :=
  filter (fun url => includes url (lit "habitto.com"%string))
         (link_urls 0 content).

(** ** The links the pass finds, in document order *)

Inductive piece :=
| Plain (c : code_unit)
| Linked (text url : str).

Definition source (p : piece) : str :=
  match p with
  | Plain c => [c]
  | Linked text url => markup text url
  end.

(** The document cut at the matches of the pattern, by the same search. *)
Fixpoint pieces (skip : nat) (s : str) : list piece :=
  match s with
  | [] => []
  | c :: s' =>
      match skip with
      | S k => pieces k s'
      | O =>
          match match_link s with
          | Some (text, url, _) =>
              Linked text url :: pieces (length (markup text url) - 1) s'
          | None => Plain c :: pieces 0 s'
          end
      end
  end.

Definition document_pieces (content : str) : list piece := pieces 0 content.

(** The normalized URLs of the links among [ps]. *)
Definition linked_urls (ps : list piece) : list str :=
  flat_map (fun p => match p with
                     | Linked _ url => [strip_trailing_slash url]
                     | Plain _ => []
                     end) ps.

(** A link is kept when no earlier link has its normalized URL and is
    replaced by its anchor text otherwise; plain text stays. *)
Definition rewritten (earlier : list piece) (p : piece) : str :=
  match p with
  | Plain c => [c]
  | Linked text url =>
      if has (linked_urls earlier) (strip_trailing_slash url) then text
      else markup text url
  end.

Fixpoint rewrite_from (earlier ps : list piece) : str :=
  match ps with
  | [] => []
  | p :: ps' => rewritten earlier p ++ rewrite_from (earlier ++ [p]) ps'
  end.

Lemma span_not_spec (c : code_unit) (s : str) :
  s = fst (span_not c s) ++ snd (span_not c s) /\
  ~ In c (fst (span_not c s)).
Proof.
  induction s as [|x s [IH1 IH2]]; simpl.
  - split; [reflexivity | intros []].
  - destruct (N.eqb x c) eqn:E; simpl.
    + split; [reflexivity | intros []].
    + destruct (span_not c s) as [run rest]. simpl in *. split.
      * f_equal. exact IH1.
      * intros [H|H]; [apply N.eqb_neq in E; congruence | exact (IH2 H)].
Qed.

Lemma span_not_app (c : code_unit) (run rest : str) :
  ~ In c run -> span_not c (run ++ c :: rest) = (run, c :: rest).
Proof.
  induction run as [|x run IH]; intros H; simpl.
  - rewrite N.eqb_refl. reflexivity.
  - destruct (N.eqb x c) eqn:E.
    + apply N.eqb_eq in E. exfalso. apply H. left. exact E.
    + rewrite IH; [reflexivity|]. intros Hin. apply H. right. exact Hin.
Qed.

Lemma startsWith_app (p s : str) : startsWith (p ++ s) p = true.
Proof.
  induction p as [|x p IH]; simpl.
  - destruct s; reflexivity.
  - rewrite N.eqb_refl. exact IH.
Qed.

Lemma startsWith_spec (s p : str) :
  startsWith s p = true -> s = p ++ skipn (length p) s.
Proof.
  revert s; induction p as [|x p IH]; intros s H.
  - reflexivity.
  - destruct s as [|y s]; [discriminate H|]. simpl in H.
    apply andb_true_iff in H. destruct H as [E H]. apply N.eqb_eq in E.
    subst y. simpl. f_equal. apply IH. exact H.
Qed.

(** A match is the markup of its two groups. *)
Lemma match_link_sound (s text url rest : str) :
  match_link s = Some (text, url, rest) -> s = markup text url ++ rest.
Proof.
  unfold match_link. destruct s as [|c s1]; [discriminate|].
  destruct (N.eqb c 91) eqn:E91; [|discriminate]. apply N.eqb_eq in E91.
  destruct (span_not_spec 93%N s1) as [S1 _].
  destruct (span_not 93%N s1) as [run s2]. simpl in S1.
  destruct run as [|r0 run]; [discriminate|].
  destruct s2 as [|c1 [|c2 s3]]; try discriminate.
  destruct (N.eqb c1 93) eqn:E93; [|discriminate].
  destruct (N.eqb c2 40) eqn:E40; [|discriminate].
  destruct (startsWith s3 internal_prefix) eqn:Ep; [|discriminate].
  apply N.eqb_eq in E93, E40. apply startsWith_spec in Ep.
  destruct (span_not_spec 41%N (skipn (length internal_prefix) s3)) as [S2 _].
  destruct (span_not 41%N (skipn (length internal_prefix) s3)) as [tail s5].
  simpl fst in S2. simpl snd in S2. cbn beta iota.
  destruct tail as [|t0 tail]; [discriminate|].
  destruct s5 as [|c3 s6]; [discriminate|].
  destruct (N.eqb c3 41) eqn:E41; [|discriminate]. apply N.eqb_eq in E41.
  intros H. injection H as <- <- <-. subst c c1 c2 c3.
  rewrite S1. rewrite Ep at 1. rewrite S2 at 1.
  unfold markup. cbn [lit]. repeat (rewrite <- ?app_assoc; cbn [app]).
  reflexivity.
Qed.

(** The markup of a link with a bracket-free anchor and an internal URL is
    matched as it stands. *)
Lemma match_link_markup (text tail rest : str) :
  text <> [] -> ~ In 93%N text -> tail <> [] -> ~ In 41%N tail ->
  match_link (markup text (internal_prefix ++ tail) ++ rest) =
  Some (text, internal_prefix ++ tail, rest).
Proof.
  intros Ht Ht' Hu Hu'.
  assert (E : markup text (internal_prefix ++ tail) ++ rest =
              91%N :: text ++ 93%N :: 40%N ::
                internal_prefix ++ tail ++ 41%N :: rest).
  { unfold markup. cbn [lit]. repeat (rewrite <- ?app_assoc; cbn [app]).
    reflexivity. }
  rewrite E. unfold match_link. rewrite N.eqb_refl.
  rewrite span_not_app by assumption.
  destruct text as [|t0 text]; [congruence|].
  rewrite !N.eqb_refl, startsWith_app. cbn [andb].
  assert (K : skipn (length internal_prefix)
                (internal_prefix ++ tail ++ 41%N :: rest) = tail ++ 41%N :: rest).
  { rewrite skipn_app, Nat.sub_diag, skipn_all. reflexivity. }
  rewrite K, span_not_app by assumption.
  destruct tail as [|u0 tail]; [congruence|].
  rewrite N.eqb_refl. reflexivity.
Qed.

Section ReplaceFacts.
Context {St : Type}.
Variable callback : St -> str -> str -> str -> St * str.

Lemma replace_links_skip (m rest : str) (st : St) :
  replace_links callback (length m) st (m ++ rest) =
  replace_links callback 0 st rest.
Proof.
  induction m as [|c m IH]; simpl.
  - destruct rest; reflexivity.
  - exact IH.
Qed.

(** The search steps over a match as a whole. *)
Lemma replace_links_match (s text url rest : str) (st : St) :
  match_link s = Some (text, url, rest) ->
  replace_links callback 0 st s =
  snd (callback st (markup text url) text url) ++
  replace_links callback 0 (fst (callback st (markup text url) text url)) rest.
Proof.
  intros H. pose proof (@match_link_sound _ _ _ _ H) as E.
  destruct s as [|c s']; [discriminate H|].
  assert (E' : s' = tl (markup text url) ++ rest).
  { unfold markup in *. cbn [lit app] in *. injection E as _ E. exact E. }
  assert (L : length (markup text url) - 1 = length (tl (markup text url))).
  { unfold markup. cbn [lit app tl length]. lia. }
  cbn [replace_links]. rewrite H, L.
  destruct (callback st (markup text url) text url) as [st' out].
  cbn [fst snd]. f_equal. rewrite E'. apply replace_links_skip.
Qed.

Lemma replace_links_no_match (c : code_unit) (s : str) (st : St) :
  match_link (c :: s) = None ->
  replace_links callback 0 st (c :: s) = c :: replace_links callback 0 st s.
Proof. intros H. cbn [replace_links]. rewrite H. reflexivity. Qed.

End ReplaceFacts.

Lemma pieces_skip (m rest : str) :
  pieces (length m) (m ++ rest) = pieces 0 rest.
Proof.
  induction m as [|c m IH]; simpl.
  - destruct rest; reflexivity.
  - exact IH.
Qed.

Lemma pieces_match (s text url rest : str) :
  match_link s = Some (text, url, rest) ->
  pieces 0 s = Linked text url :: pieces 0 rest.
Proof.
  intros H. pose proof (@match_link_sound _ _ _ _ H) as E.
  destruct s as [|c s']; [discriminate H|].
  assert (E' : s' = tl (markup text url) ++ rest).
  { unfold markup in *. cbn [lit app] in *. injection E as _ E. exact E. }
  assert (L : length (markup text url) - 1 = length (tl (markup text url))).
  { unfold markup. cbn [lit app tl length]. lia. }
  cbn [pieces]. rewrite H, L. f_equal. rewrite E'. apply pieces_skip.
Qed.

Lemma has_same (a b : list str) (x : str) :
  (In x a <-> In x b) -> has a x = has b x.
Proof.
  intros H. destruct (has a x) eqn:Ea, (has b x) eqn:Eb; try reflexivity.
  - apply has_In in Ea. apply has_false in Eb. tauto.
  - apply has_false in Ea. apply has_In in Eb. tauto.
Qed.

Lemma linked_urls_app (ps qs : list piece) :
  linked_urls (ps ++ qs) = linked_urls ps ++ linked_urls qs.
Proof. unfold linked_urls. apply flat_map_app. Qed.

(** Strong induction on the length of the document: the search resumes on
    a proper suffix after every step. *)
Lemma suffix_induction (P : str -> Prop) :
  (forall s, (forall r, length r < length s -> P r) -> P s) -> forall s, P s.
Proof.
  intros H s. remember (length s) as n eqn:E.
  revert s E. induction n as [n IH] using lt_wf_ind. intros s ->.
  apply H. intros r Hr. eapply IH; [exact Hr | reflexivity].
Qed.

Lemma match_link_shorter (s text url rest : str) :
  match_link s = Some (text, url, rest) -> length rest < length s.
Proof.
  intros H. apply match_link_sound in H. subst s.
  rewrite length_app. unfold markup. cbn [lit app length]. lia.
Qed.

Lemma dedupe_rewrites (content : str) :
  forall seenUrls earlier,
    (forall x, In x seenUrls <-> In x (linked_urls earlier)) ->
    replace_links dedupe_callback 0 seenUrls content =
    rewrite_from earlier (pieces 0 content).
Proof.
  induction content as [content IH] using suffix_induction.
  intros seenUrls earlier Hseen.
  destruct content as [|c s]; [reflexivity|].
  destruct (match_link (c :: s)) as [[[text url] rest]|] eqn:M.
  - rewrite (@replace_links_match _ dedupe_callback _ _ _ _ seenUrls M),
      (@pieces_match _ _ _ _ M).
    cbn [rewrite_from rewritten]. unfold dedupe_callback.
    rewrite (@has_same _ _ _ (Hseen (strip_trailing_slash url))).
    destruct (has (linked_urls earlier) (strip_trailing_slash url)) eqn:Hhas;
      cbn [fst snd]; f_equal;
      apply IH; try (eapply match_link_shorter; exact M);
      intros x; rewrite linked_urls_app, in_app_iff; cbn;
      rewrite ?add_In, (Hseen x).
    + apply has_In in Hhas. split; [tauto|].
      intros [H|[<-|[]]]; assumption.
    + split; [intros [H | ->]; tauto | intros [H|[<-|[]]]; tauto].
  - rewrite (@replace_links_no_match _ dedupe_callback _ _ seenUrls M).
    cbn [pieces]. rewrite M.
    cbn [rewrite_from rewritten app]. f_equal.
    apply IH; [simpl; lia|].
    intros x. rewrite linked_urls_app, in_app_iff, (Hseen x). cbn. tauto.
Qed.

Lemma pieces_cover (content : str) :
  concat (map source (pieces 0 content)) = content.
Proof.
  induction content as [content IH] using suffix_induction.
  destruct content as [|c s]; [reflexivity|].
  destruct (match_link (c :: s)) as [[[text url] rest]|] eqn:M.
  - rewrite (@pieces_match _ _ _ _ M). cbn [map concat source].
    rewrite IH by (eapply match_link_shorter; exact M).
    symmetry. apply match_link_sound. exact M.
  - cbn [pieces]. rewrite M. cbn [map concat source app]. f_equal.
    apply IH. simpl; lia.
Qed.


(** ** Documents made of plain text and links *)

Inductive segment :=
| Text (t : str)
| Anchor (text url : str).

Definition segment_source (g : segment) : str :=
  match g with
  | Text t => t
  | Anchor text url => markup text url
  end.

Definition render (segs : list segment) : str :=
  concat (map segment_source segs).

Definition no_unit (c : code_unit) (s : str) : bool :=
  forallb (fun x => negb (N.eqb x c)) s.

Definition nonempty (s : str) : bool :=
  match s with
  | [] => false
  | _ :: _ => true
  end.

(** Plain text holds no opening bracket. *)
Definition plain_text (t : str) : bool := no_unit 91%N t.

(** An anchor text is not empty and holds no bracket. *)
Definition anchor_text (a : str) : bool :=
  nonempty a && no_unit 93%N a && no_unit 91%N a.

(** An internal URL continues the site's prefix with at least one unit and
    holds no closing parenthesis behind it. *)
Definition internal_url (u : str) : bool :=
  startsWith u internal_prefix &&
  nonempty (skipn (length internal_prefix) u) &&
  no_unit 41%N (skipn (length internal_prefix) u).

Definition well_formed_segment (g : segment) : bool :=
  match g with
  | Text t => plain_text t
  | Anchor text url => anchor_text text && internal_url url
  end.

Definition well_formed (segs : list segment) : bool :=
  forallb well_formed_segment segs.

(** The pass on a document given by its segments. *)
Fixpoint dedupe_segments (seenUrls : list str) (segs : list segment)
  : list segment :=
  match segs with
  | [] => []
  | Text t :: rest => Text t :: dedupe_segments seenUrls rest
  | Anchor text url :: rest =>
      if has seenUrls (strip_trailing_slash url)
      then Text text :: dedupe_segments seenUrls rest
      else Anchor text url ::
           dedupe_segments (add seenUrls (strip_trailing_slash url)) rest
  end.

Lemma no_unit_In (c : code_unit) (s : str) : no_unit c s = true -> ~ In c s.
Proof.
  unfold no_unit. rewrite forallb_forall. intros H Hin.
  specialize (H c Hin). rewrite N.eqb_refl in H. discriminate H.
Qed.

Lemma nonempty_spec (s : str) : nonempty s = true -> s <> [].
Proof. destruct s; [discriminate | intros _; discriminate]. Qed.

Lemma replace_links_plain {St} (callback : St -> str -> str -> str -> St * str)
  (t rest : str) (st : St) :
  plain_text t = true ->
  replace_links callback 0 st (t ++ rest) =
  t ++ replace_links callback 0 st rest.
Proof.
  induction t as [|c t IH]; intros H; [reflexivity|].
  simpl in H. apply andb_true_iff in H. destruct H as [Hc Ht].
  apply negb_true_iff in Hc.
  cbn [app]. rewrite replace_links_no_match.
  - f_equal. apply IH. exact Ht.
  - unfold match_link. rewrite Hc. reflexivity.
Qed.

Lemma replace_links_anchor {St} (callback : St -> str -> str -> str -> St * str)
  (text url rest : str) (st : St) :
  anchor_text text = true -> internal_url url = true ->
  replace_links callback 0 st (markup text url ++ rest) =
  snd (callback st (markup text url) text url) ++
  replace_links callback 0 (fst (callback st (markup text url) text url)) rest.
Proof.
  intros Ha Hu. apply replace_links_match.
  unfold anchor_text in Ha. unfold internal_url in Hu.
  apply andb_true_iff in Ha. destruct Ha as [Ha _].
  apply andb_true_iff in Ha. destruct Ha as [Ha1 Ha2].
  apply andb_true_iff in Hu. destruct Hu as [Hu Hu3].
  apply andb_true_iff in Hu. destruct Hu as [Hu1 Hu2].
  apply startsWith_spec in Hu1.
  remember (skipn (length internal_prefix) url) as tail eqn:Et.
  clear Et. subst url.
  apply match_link_markup.
  - apply nonempty_spec; assumption.
  - apply no_unit_In; assumption.
  - apply nonempty_spec; assumption.
  - apply no_unit_In; assumption.
Qed.

Lemma dedupe_render (segs : list segment) :
  forall seenUrls,
    well_formed segs = true ->
    replace_links dedupe_callback 0 seenUrls (render segs) =
    render (dedupe_segments seenUrls segs).
Proof.
  unfold well_formed.
  induction segs as [|g segs IH]; intros seenUrls H; [reflexivity|].
  cbn [forallb] in H. apply andb_true_iff in H. destruct H as [Hg Hs].
  destruct g as [t|text url]; unfold render in *; cbn [map concat segment_source].
  - rewrite replace_links_plain by exact Hg.
    cbn [dedupe_segments map concat segment_source]. f_equal.
    apply IH. exact Hs.
  - cbn [well_formed_segment] in Hg.
    apply andb_true_iff in Hg. destruct Hg as [Ha Hu].
    rewrite replace_links_anchor by assumption.
    unfold dedupe_callback. cbn [dedupe_segments].
    destruct (has seenUrls (strip_trailing_slash url));
      cbn [fst snd map concat segment_source]; f_equal; apply IH; exact Hs.
Qed.

Lemma dedupe_segments_well_formed (segs : list segment) :
  forall seenUrls,
    well_formed segs = true ->
    well_formed (dedupe_segments seenUrls segs) = true.
Proof.
  unfold well_formed.
  induction segs as [|g segs IH]; intros seenUrls H; [reflexivity|].
  cbn [forallb] in H. apply andb_true_iff in H. destruct H as [Hg Hs].
  destruct g as [t|text url]; cbn [dedupe_segments].
  - cbn [forallb]. apply andb_true_iff. split; [exact Hg | apply IH; exact Hs].
  - destruct (has seenUrls (strip_trailing_slash url)); cbn [forallb];
      apply andb_true_iff; (split; [|apply IH; exact Hs]).
    + cbn [well_formed_segment] in *. unfold anchor_text in Hg.
      apply andb_true_iff in Hg. destruct Hg as [Hg _].
      apply andb_true_iff in Hg. destruct Hg as [_ Hg]. exact Hg.
    + exact Hg.
Qed.

Lemma dedupe_segments_again (segs : list segment) :
  forall seenUrls,
    dedupe_segments seenUrls (dedupe_segments seenUrls segs) =
    dedupe_segments seenUrls segs.
Proof.
  induction segs as [|g segs IH]; intros seenUrls; [reflexivity|].
  destruct g as [t|text url]; cbn [dedupe_segments].
  - f_equal. apply IH.
  - destruct (has seenUrls (strip_trailing_slash url)) eqn:E;
      cbn [dedupe_segments].
    + f_equal. apply IH.
    + rewrite E. f_equal. apply IH.
Qed.



(** On a document made of bracket-free text and links with bracket-free
    anchors to internal URLs, a second pass changes nothing. *)
Theorem dedupeInternalLinks_idempotent_on_documents (segs : list segment) :
  well_formed segs = true ->
  dedupeInternalLinks (dedupeInternalLinks (render segs)) =
  dedupeInternalLinks (render segs).
Proof.
  intros H. unfold dedupeInternalLinks.
  rewrite (dedupe_render segs [] H).
  rewrite (dedupe_render _ [] (dedupe_segments_well_formed segs [] H)).
  rewrite dedupe_segments_again. reflexivity.
Qed.

Lemma dedupeInternalLinks_idempotent_run :
  dedupeInternalLinks
    (dedupeInternalLinks
       (render [Text (lit "See "%string);
                Anchor (lit "the account"%string)
                       (lit "https://www.habitto.com/account/"%string);
                Text (lit " or "%string);
                Anchor (lit "our account"%string)
                       (lit "https://www.habitto.com/account"%string)])) =
  dedupeInternalLinks
    (render [Text (lit "See "%string);
             Anchor (lit "the account"%string)
                    (lit "https://www.habitto.com/account/"%string);
             Text (lit " or "%string);
             Anchor (lit "our account"%string)
                    (lit "https://www.habitto.com/account"%string)]).
Proof.
  apply dedupeInternalLinks_idempotent_on_documents. reflexivity.
Defined.

(** C10, at the input where the code breaks it.  When a link that the pass
    strips sits inside brackets that are followed by a link target, its
    anchor text becomes the anchor of a new link: the text the pass returns
    links the same URL twice, though each URL should appear only once, and a
    second pass strips that link, so the pass is not idempotent. *)
Theorem dedupeInternalLinks_not_idempotent :
  dedupeInternalLinks
    (lit "[a](https://www.habitto.com/x)[[b](https://www.habitto.com/x)](https://www.habitto.com/x)"%string)
  = lit "[a](https://www.habitto.com/x)[b](https://www.habitto.com/x)"%string /\
  internal_links_of
    (dedupeInternalLinks
       (lit "[a](https://www.habitto.com/x)[[b](https://www.habitto.com/x)](https://www.habitto.com/x)"%string))
  = [lit "https://www.habitto.com/x"%string;
     lit "https://www.habitto.com/x"%string] /\
  dedupeInternalLinks
    (lit "[a](https://www.habitto.com/x)[b](https://www.habitto.com/x)"%string)
  = lit "[a](https://www.habitto.com/x)b"%string /\
  ~ (forall s, dedupeInternalLinks (dedupeInternalLinks s) = dedupeInternalLinks s).
Proof.
  split; [vm_compute; reflexivity|]. split; [vm_compute; reflexivity|].
  split; [vm_compute; reflexivity|].
  intros H.
  specialize (H (lit "[a](https://www.habitto.com/x)[[b](https://www.habitto.com/x)](https://www.habitto.com/x)"%string)).
  vm_compute in H. discriminate H.
Qed.

End PostProcess.

(* ====================================================================== *)
(** * The persisted store and the collaborators *)
(* ====================================================================== *)

Module Store.
Import Js Num.

Inductive JobStatus :=
| pending | researching | analyzing | writing | completed | failed.

Inductive BatchStatus :=
| batch_pending | batch_running | batch_completed | batch_failed.

Definition JobStatus_eqb (a b : JobStatus) : bool :=
  match a, b with
  | pending, pending | researching, researching | analyzing, analyzing
  | writing, writing | completed, completed | failed, failed => true
  | _, _ => false
  end.

(** The two statuses a job never leaves by the fixed sequence. *)
Definition terminal (s : JobStatus) : bool :=
  match s with
  | completed | failed => true
  | _ => false
  end.

(** [.in('status', ['researching', 'analyzing', 'writing'])] *)
Definition in_progress (s : JobStatus) : bool :=
  match s with
  | researching | analyzing | writing => true
  | _ => false
  end.

(** Rows of [simple_batches], [simple_jobs] and [simple_blogs]; identifiers
    and timestamps are numbers. *)
Module Batch.
Record t := {
  id : nat;
  use_neuronwriter : bool;
  total_keywords : nat;
  completed_keywords : nat;
  failed_keywords : nat;
  status : BatchStatus;
  created_at : nat;
  updated_at : nat
}.
End Batch.

Module Job.
Record t := {
  id : nat;
  batch_id : nat;
  keyword : str;
  status : JobStatus;
  error : option str;
  research_raw : option str;
  research_analyzed : option str;
  neuronwriter_data : option Scorer.NeuronWriterAnalysis;
  started_at : option nat;
  completed_at : option nat;
  created_at : nat
}.
End Job.

Module Blog.
Record t := {
  id : nat;
  job_id : nat;
  keyword : str;
  title : str;
  content : str;
  meta_description : option str;
  word_count : option nat;
  internal_links : list str;
  neuronwriter_score : option number;
  neuronwriter_editor_url : option str;
  created_at : nat
}.
End Blog.

(** The arguments and the result of the writing fetcher. *)
Record SeoHints := {
  hint_recommendedTerms : list str;
  hint_competitorHeadings : list str;
  hint_wordCountTarget : nat
}.

Record RetryContext := {
  missingKeywords : list str;
  previousScore : number;
  attempt : nat
}.

Record WriteBlogArgs := {
  arg_keyword : str;
  arg_analyzedResearch : str;
  arg_neuronwriterData : option SeoHints;
  arg_systemPrompt : option str;
  arg_retryContext : option RetryContext
}.

Record BlogResult := {
  title : str;
  content : str;
  metaDescription : str
}.

Record NeuronWriterImportResult := {
  success : bool;
  contentScore : option number;
  editorUrl : option str
}.

(** What the pipeline takes as given: the fetchers (an answer is [inl] an
    error message or [inr] a value), the store's verdict on a request, each
    asked at a time (the number of requests made before); the order in which
    the store returns rows of equal [created_at], as a rank it gives the
    rows' identifiers at a time; the static writing context; the pattern
    table of [removePushyCTAs], a text-to-text pass; and the language's own
    [String.prototype.trim], [toLowerCase] and case folding. *)
Record Env := {
  store_error : nat -> option str;
  tie_rank : nat -> nat -> nat;
  research : nat -> str -> str + str;
  analyzeResearch : nat -> str -> str -> str + str;
  analyzeKeyword : nat -> str -> str + Scorer.NeuronWriterAnalysis;
  writeBlog : nat -> WriteBlogArgs -> str + BlogResult;
  importToNeuronWriter : nat -> str -> str -> str -> str -> NeuronWriterImportResult;
  getFullWritingContext : str;
  removePushyCTAs : str -> str;
  trim : str -> str;
  toLowerCase : str -> str;
  canonicalize : code_unit -> code_unit
}.

(** The store, the clock of requests, the identifier source, and two
    records kept for the proofs: the calls of the writing fetcher with their
    answers, and every write of a job's status as (job, from, to). *)
Record World := {
  simple_batches : list Batch.t;
  simple_jobs : list Job.t;
  simple_blogs : list Blog.t;
  clock : nat;
  next_id : nat;
  writeBlog_calls : list (WriteBlogArgs * (str + BlogResult));
  transitions : list (nat * JobStatus * JobStatus)
}.

Definition empty_world : World :=
  {| simple_batches := []; simple_jobs := []; simple_blogs := [];
     clock := 0; next_id := 0; writeBlog_calls := []; transitions := [] |}.

(** ** Computations on the store that may throw *)

Inductive outcome (A : Type) :=
| Returned (a : A)
| Thrown (message : str).
Arguments Returned {A} a.
Arguments Thrown {A} message.

Definition M (A : Type) : Type := World -> outcome A * World.

Definition ret {A} (a : A) : M A := fun w => (Returned a, w).

Definition bind {A B} (m : M A) (k : A -> M B) : M B :=
  fun w =>
    match m w with
    | (Returned a, w') => k a w'
    | (Thrown e, w') => (Thrown e, w')
    end.

Definition throw {A} (message : str) : M A := fun w => (Thrown message, w).

(** [try { m } catch (error) { handler(error.message) }] *)
Definition try_catch {A} (m : M A) (handler : str -> M A) : M A :=
  fun w =>
    match m w with
    | (Returned a, w') => (Returned a, w')
    | (Thrown e, w') => handler e w'
    end.

Definition get : M World := fun w => (Returned w, w).

Definition put (f : World -> World) : M unit := fun w => (Returned tt, f w).

Declare Scope store_scope.
Delimit Scope store_scope with store.
Notation "x <- m ;; k" := (bind m (fun x => k))
  (at level 61, m at next level, right associativity) : store_scope.
Notation "m ;;; k" := (bind m (fun _ => k))
  (at level 61, right associativity) : store_scope.
Open Scope store_scope.

Definition set_tables (batches : list Batch.t) (jobs : list Job.t) (w : World)
  : World :=
  {| simple_batches := batches; simple_jobs := jobs;
     simple_blogs := simple_blogs w; clock := clock w; next_id := next_id w;
     writeBlog_calls := writeBlog_calls w; transitions := transitions w |}.

Definition tick (w : World) : World :=
  {| simple_batches := simple_batches w; simple_jobs := simple_jobs w;
     simple_blogs := simple_blogs w; clock := S (clock w);
     next_id := next_id w; writeBlog_calls := writeBlog_calls w;
     transitions := transitions w |}.

Definition log_call (c : WriteBlogArgs * (str + BlogResult)) (w : World)
  : World :=
  {| simple_batches := simple_batches w; simple_jobs := simple_jobs w;
     simple_blogs := simple_blogs w; clock := clock w; next_id := next_id w;
     writeBlog_calls := writeBlog_calls w ++ [c];
     transitions := transitions w |}.

Definition log_transitions (l : list (nat * JobStatus * JobStatus)) (w : World)
  : World :=
  {| simple_batches := simple_batches w; simple_jobs := simple_jobs w;
     simple_blogs := simple_blogs w; clock := clock w; next_id := next_id w;
     writeBlog_calls := writeBlog_calls w;
     transitions := transitions w ++ l |}.

Definition add_blog (b : Blog.t) (w : World) : World :=
  {| simple_batches := simple_batches w; simple_jobs := simple_jobs w;
     simple_blogs := simple_blogs w ++ [b]; clock := clock w;
     next_id := S (next_id w); writeBlog_calls := writeBlog_calls w;
     transitions := transitions w |}.

(** ** Rows and their updates *)

Definition set_batch_status (s : BatchStatus) (now : nat) (b : Batch.t)
  : Batch.t :=
  {| Batch.id := Batch.id b;
     Batch.use_neuronwriter := Batch.use_neuronwriter b;
     Batch.total_keywords := Batch.total_keywords b;
     Batch.completed_keywords := Batch.completed_keywords b;
     Batch.failed_keywords := Batch.failed_keywords b;
     Batch.status := s;
     Batch.created_at := Batch.created_at b;
     Batch.updated_at := now |}.

Inductive ProgressField := completed_keywords_field | failed_keywords_field.

Definition progress (field : ProgressField) (b : Batch.t) : nat :=
  match field with
  | completed_keywords_field => Batch.completed_keywords b
  | failed_keywords_field => Batch.failed_keywords b
  end.

Definition set_progress (field : ProgressField) (value now : nat) (b : Batch.t)
  : Batch.t :=
  {| Batch.id := Batch.id b;
     Batch.use_neuronwriter := Batch.use_neuronwriter b;
     Batch.total_keywords := Batch.total_keywords b;
     Batch.completed_keywords :=
       match field with
       | completed_keywords_field => value
       | failed_keywords_field => Batch.completed_keywords b
       end;
     Batch.failed_keywords :=
       match field with
       | completed_keywords_field => Batch.failed_keywords b
       | failed_keywords_field => value
       end;
     Batch.status := Batch.status b;
     Batch.created_at := Batch.created_at b;
     Batch.updated_at := now |}.

(** The columns an update of a job row may set; [None] leaves a column as
    it is. *)
Record JobUpdate := {
  set_status : option JobStatus;
  set_error : option str;
  set_research_raw : option str;
  set_research_analyzed : option str;
  set_neuronwriter_data : option Scorer.NeuronWriterAnalysis;
  set_started_at : option nat;
  set_completed_at : option nat
}.

Definition no_update : JobUpdate :=
  {| set_status := None; set_error := None; set_research_raw := None;
     set_research_analyzed := None; set_neuronwriter_data := None;
     set_started_at := None; set_completed_at := None |}.

Definition or_else {A} (new : option A) (old : A) : A :=
  match new with
  | Some a => a
  | None => old
  end.

Definition or_keep {A} (new old : option A) : option A :=
  match new with
  | Some a => Some a
  | None => old
  end.

Definition apply_update (u : JobUpdate) (j : Job.t) : Job.t :=
  {| Job.id := Job.id j;
     Job.batch_id := Job.batch_id j;
     Job.keyword := Job.keyword j;
     Job.status := or_else (set_status u) (Job.status j);
     Job.error := or_keep (set_error u) (Job.error j);
     Job.research_raw := or_keep (set_research_raw u) (Job.research_raw j);
     Job.research_analyzed :=
       or_keep (set_research_analyzed u) (Job.research_analyzed j);
     Job.neuronwriter_data :=
       or_keep (set_neuronwriter_data u) (Job.neuronwriter_data j);
     Job.started_at := or_keep (set_started_at u) (Job.started_at j);
     Job.completed_at := or_keep (set_completed_at u) (Job.completed_at j);
     Job.created_at := Job.created_at j |}.

(** [.update(u).eq('id', jobId)] on [simple_jobs]; a write of the status is
    recorded with the status it replaces. *)
Definition update_job_rows (jobId : nat) (u : JobUpdate) (jobs : list Job.t)
  : list Job.t :=
  map (fun j => if Job.id j =? jobId then apply_update u j else j) jobs.

Definition status_writes (jobId : nat) (u : JobUpdate) (jobs : list Job.t)
  : list (nat * JobStatus * JobStatus) :=
  match set_status u with
  | Some s =>
      map (fun j => (Job.id j, Job.status j, s))
          (filter (fun j => Job.id j =? jobId) jobs)
  | None => []
  end.

Definition update_job (jobId : nat) (u : JobUpdate) (w : World) : World :=
  log_transitions (status_writes jobId u (simple_jobs w))
    (set_tables (simple_batches w)
                (update_job_rows jobId u (simple_jobs w)) w).

(** [.update(f).eq('id', batchId)] on [simple_batches]. *)
Definition update_batch (batchId : nat) (f : Batch.t -> Batch.t) (w : World)
  : World :=
  set_tables
    (map (fun b => if Batch.id b =? batchId then f b else b) (simple_batches w))
    (simple_jobs w) w.

(** [.eq('id', x).single()] *)
Definition find_job (jobId : nat) (w : World) : option Job.t :=
  find (fun j => Job.id j =? jobId) (simple_jobs w).

Definition find_batch (batchId : nat) (w : World) : option Batch.t :=
  find (fun b => Batch.id b =? batchId) (simple_batches w).

(** [.eq('batch_id', b).order('created_at', { ascending: true })]: the rows
    come by creation time, and rows of equal time (the jobs of a batch are
    inserted by one statement) in the order the store chooses, here by the
    rank it gives their identifiers. *)
Definition by_created_at (rank : nat -> nat) (a b : Job.t) : Z :=
  if Job.created_at a =? Job.created_at b
  then Z.of_nat (rank (Job.id a)) - Z.of_nat (rank (Job.id b))
  else Z.of_nat (Job.created_at a) - Z.of_nat (Job.created_at b).

Definition jobs_of (batchId : nat) (jobs : list Job.t) : list Job.t :=
  filter (fun j => Job.batch_id j =? batchId) jobs.

Definition select_jobs (env : Env) (batchId : nat) (p : JobStatus -> bool)
  (w : World) : list Job.t :=
  sort (by_created_at (tie_rank env (clock w)))
    (filter (fun j => p (Job.status j)) (jobs_of batchId (simple_jobs w))).

(** A request: the store's verdict at the current time; the clock
    advances. *)
Definition request (env : Env) : M (option str) :=
  fun w => (Returned (store_error env (clock w)), tick w).

(** [const { data } = await query]: a read whose error the code does not
    look at; a refused read gives [null]. *)
Definition read_unchecked {A} (env : Env) (rows : World -> A) : M (option A) :=
  error <- request env ;;
  w <- get ;;
  match error with
  | Some _ => ret None
  | None => ret (Some (rows w))
  end.

(** A request to a fetcher. *)
Definition fetch {A} (answer : nat -> str + A) : M A :=
  fun w =>
    match answer (clock w) with
    | inl e => (Thrown e, tick w)
    | inr a => (Returned a, tick w)
    end.

(** [m] with its exception caught and handed back as a value. *)
Definition caught {A} (m : M A) : M (str + A) :=
  try_catch (a <- m ;; ret (inr a)) (fun e => ret (inl e)).

(** The result of one dispatcher invocation. *)
Inductive StepStatus := processing | step_completed | no_work.

Inductive StepName := research_name | analyze_name | write_name | completed_name.

Inductive Message :=
| batch_complete (completed failed : nat)
| no_jobs_to_process
| unexpected_status (s : JobStatus)
| research_complete
| research_failed
| analysis_complete (terms : option nat)
| analysis_failed
| blog_complete (title : str) (chars : option nat) (score : option number)
| write_failed
| error_will_retry.

Record StepResult := {
  result_status : StepStatus;
  jobId : option nat;
  keyword : option str;
  step : option StepName;
  nextStep : option StepName;
  message : Message;
  batchComplete : bool;
  error : option str
}.

End Store.

(* ====================================================================== *)
(** * The library pipeline ([supabase.ts], [pipeline.ts]) *)
(* ====================================================================== *)

Module Lib.
Import Js Num Store.

Definition MIN_ACCEPTABLE_SCORE : number := of_Z 60.

(** The error of [.single()] when no row is found. *)
Definition no_row : str :=
  lit "JSON object requested, multiple (or no) rows returned"%string.

(** The error of an insert that repeats a [job_id] of [simple_blogs]. *)
Definition duplicate_job_id : str :=
  lit "duplicate key value violates unique constraint"%string.

Definition field_name (field : ProgressField) : str :=
  match field with
  | completed_keywords_field => lit "completed_keywords"%string
  | failed_keywords_field => lit "failed_keywords"%string
  end.

Section WithEnv.
Variable env : Env.

(** ** [supabase.ts] *)

Definition new_batch (useNeuronwriter : bool) (total : nat) (w : World)
  : Batch.t :=
  {| Batch.id := next_id w;
     Batch.use_neuronwriter := useNeuronwriter;
     Batch.total_keywords := total;
     Batch.completed_keywords := 0;
     Batch.failed_keywords := 0;
     Batch.status := batch_pending;
     Batch.created_at := clock w;
     Batch.updated_at := clock w |}.

Definition new_job (batchId now : nat) (ident : nat) (keyword : str) : Job.t :=
  {| Job.id := ident;
     Job.batch_id := batchId;
     Job.keyword := keyword;
     Job.status := pending;
     Job.error := None;
     Job.research_raw := None;
     Job.research_analyzed := None;
     Job.neuronwriter_data := None;
     Job.started_at := None;
     Job.completed_at := None;
     Job.created_at := now |}.

Definition insert_batch (b : Batch.t) (w : World) : World :=
  {| simple_batches := simple_batches w ++ [b];
     simple_jobs := simple_jobs w;
     simple_blogs := simple_blogs w; clock := clock w;
     next_id := S (next_id w); writeBlog_calls := writeBlog_calls w;
     transitions := transitions w |}.

Definition insert_jobs (batchId : nat) (keywords : list str) (w : World)
  : World :=
  {| simple_batches := simple_batches w;
     simple_jobs :=
       simple_jobs w ++
       map (fun entry => new_job batchId (clock w) (next_id w + fst entry)
                                 (snd entry))
           (entries keywords);
     simple_blogs := simple_blogs w; clock := clock w;
     next_id := next_id w + length keywords;
     writeBlog_calls := writeBlog_calls w;
     transitions := transitions w |}.

Definition createBatch (keywords : list str) (useNeuronwriter : bool)
  : M Batch.t :=
  batchError <- request env ;;
  match batchError with
  | Some e => throw (lit "Failed to create batch: "%string ++ e)
  | None =>
      w <- get ;;
      let batch := new_batch useNeuronwriter (length keywords) w in
      put (insert_batch batch) ;;;
      jobsError <- request env ;;
      match jobsError with
      | Some e => throw (lit "Failed to create jobs: "%string ++ e)
      | None =>
          put (insert_jobs (Batch.id batch) (map (trim env) keywords)) ;;;
          ret batch
      end
  end.

Definition updateBatchStatus (batchId : nat) (status : BatchStatus) : M unit :=
  error <- request env ;;
  match error with
  | Some e => throw (lit "Failed to update batch status: "%string ++ e)
  | None =>
      put (fun w => update_batch batchId (set_batch_status status (clock w)) w)
  end.

Definition incrementBatchProgress (batchId : nat) (field : ProgressField)
  : M unit :=
  fetchError <- request env ;;
  w <- get ;;
  match fetchError, find_batch batchId w with
  | Some e, _ => throw (lit "Failed to fetch batch: "%string ++ e)
  | None, None => throw (lit "Failed to fetch batch: "%string ++ no_row)
  | None, Some batch =>
      let currentValue := progress field batch in
      error <- request env ;;
      match error with
      | Some e =>
          throw (lit "Failed to increment "%string ++ field_name field ++
                 lit ": "%string ++ e)
      | None =>
          put (fun w => update_batch batchId
                          (set_progress field (currentValue + 1) (clock w)) w)
      end
  end.

Definition getJobsForBatch (batchId : nat) : M (list Job.t) :=
  error <- request env ;;
  match error with
  | Some e => throw (lit "Failed to get jobs: "%string ++ e)
  | None => w <- get ;; ret (select_jobs env batchId (fun _ => true) w)
  end.

(** [updateJobStatus(jobId, status, additionalData)]; the only additional
    datum any caller passes is the error text of [setJobError]. *)
Definition updateJobStatus (jobId : nat) (status : JobStatus)
  (additionalError : option str) : M unit :=
  w <- get ;;
  let started_at :=
    if negb (JobStatus_eqb status pending) then
      match find_job jobId w with
      | Some data =>
          match Job.started_at data with
          | None => Some (clock w)
          | Some _ => None
          end
      | None => None
      end
    else None in
  let completed_at := if terminal status then Some (clock w) else None in
  error <- request env ;;
  match error with
  | Some e => throw (lit "Failed to update job: "%string ++ e)
  | None =>
      put (update_job jobId
             {| set_status := Some status;
                set_error := additionalError;
                set_research_raw := None;
                set_research_analyzed := None;
                set_neuronwriter_data := None;
                set_started_at := started_at;
                set_completed_at := completed_at |})
  end.

Definition setJobError (jobId : nat) (error : str) : M unit :=
  updateJobStatus jobId failed (Some error).

Definition saveNeuronwriterData (jobId : nat)
  (data : Scorer.NeuronWriterAnalysis) : M unit :=
  error <- request env ;;
  match error with
  | Some e => throw (lit "Failed to save NeuronWriter data: "%string ++ e)
  | None =>
      put (update_job jobId
             {| set_status := None; set_error := None;
                set_research_raw := None; set_research_analyzed := None;
                set_neuronwriter_data := Some data;
                set_started_at := None; set_completed_at := None |})
  end.

Definition saveBlog (jobId : nat) (keyword title content : str)
  (metaDescription : option str) (neuronwriterScore : option number)
  : M Blog.t :=
  let wordCount := length content in
  let internalLinks := PostProcess.internal_links_of content in
  error <- request env ;;
  w <- get ;;
  match error with
  | Some e => throw (lit "Failed to save blog: "%string ++ e)
  | None =>
      if existsb (fun b => Blog.job_id b =? jobId) (simple_blogs w)
      then throw (lit "Failed to save blog: "%string ++ duplicate_job_id)
      else
        let data :=
          {| Blog.id := next_id w;
             Blog.job_id := jobId;
             Blog.keyword := keyword;
             Blog.title := title;
             Blog.content := content;
             Blog.meta_description := metaDescription;
             Blog.word_count := Some wordCount;
             Blog.internal_links := internalLinks;
             Blog.neuronwriter_score := neuronwriterScore;
             Blog.neuronwriter_editor_url := None;
             Blog.created_at := clock w |} in
        put (add_blog data) ;;; ret data
  end.

(** ** [pipeline.ts] *)

(** [getNextJobToProcess]: the oldest job in progress, or else the oldest
    pending job.  Neither read looks at its error: a refused read counts as
    one that found no job.  (The reads of a single job row, in
    [updateJobStatus] above and in the handlers below, do not look at their
    error either; they are answered from the store.) *)
Definition getNextJobToProcess (batchId : nat) : M (option Job.t) :=
  inProgressJobs <-
    read_unchecked env
      (fun w => firstn 1 (select_jobs env batchId in_progress w)) ;;
  match inProgressJobs with
  | Some (job :: _) => ret (Some job)
  | _ =>
      pendingJobs <-
        read_unchecked env
          (fun w => firstn 1 (select_jobs env batchId
                                (fun s => JobStatus_eqb s pending) w)) ;;
      match pendingJobs with
      | Some (job :: _) => ret (Some job)
      | _ => ret None
      end
  end.

Definition step_result (status : StepStatus) (job : option Job.t)
  (step nextStep : option StepName) (message : Message) (error : option str)
  : StepResult :=
  {| result_status := status;
     jobId := option_map Job.id job;
     keyword := option_map Job.keyword job;
     step := step;
     nextStep := nextStep;
     message := message;
     batchComplete := false;
     error := error |}.

Definition doResearchStep (job : Job.t) : M StepResult :=
  updateJobStatus (Job.id job) researching None ;;;
  try_catch
    (rawResearch <- fetch (fun t => research env t (Job.keyword job)) ;;
     updateError <- request env ;;
     match updateError with
     | Some e => throw (lit "Failed to save research: "%string ++ e)
     | None =>
         put (update_job (Job.id job)
                {| set_status := Some analyzing; set_error := None;
                   set_research_raw := Some rawResearch;
                   set_research_analyzed := None;
                   set_neuronwriter_data := None;
                   set_started_at := None; set_completed_at := None |}) ;;;
         ret (step_result processing (Some job) (Some research_name)
                (Some analyze_name) research_complete None)
     end)
    (fun error =>
       setJobError (Job.id job) error ;;;
       ret (step_result processing (Some job) (Some research_name) None
              research_failed (Some error))).

Definition doAnalyzeStep (job : Job.t) (useNeuronwriter : bool)
  : M StepResult :=
  try_catch
    (w <- get ;;
     match option_map Job.research_raw (find_job (Job.id job) w) with
     | Some (Some (c :: raw)) =>
         let research_raw := c :: raw in
         analyzedResearch <-
           fetch (fun t => analyzeResearch env t (Job.keyword job) research_raw) ;;
         neuronwriterData <-
           (if useNeuronwriter then
              answer <- caught (fetch (fun t => analyzeKeyword env t (Job.keyword job))) ;;
              match answer with
              | inr data =>
                  caught (saveNeuronwriterData (Job.id job) data) ;;;
                  ret (Some data)
              | inl _ => ret None
              end
            else ret None) ;;
         updateError <- request env ;;
         match updateError with
         | Some e => throw (lit "Failed to save analysis: "%string ++ e)
         | None =>
             put (update_job (Job.id job)
                    {| set_status := Some writing; set_error := None;
                       set_research_raw := None;
                       set_research_analyzed := Some analyzedResearch;
                       set_neuronwriter_data := None;
                       set_started_at := None; set_completed_at := None |}) ;;;
             ret (step_result processing (Some job) (Some analyze_name)
                    (Some write_name)
                    (analysis_complete
                       (option_map (fun d => length (Scorer.recommendedTerms d))
                                   neuronwriterData))
                    None)
         end
     | _ => throw (lit "No research data found"%string)
     end)
    (fun error =>
       setJobError (Job.id job) error ;;;
       ret (step_result processing (Some job) (Some analyze_name) None
              analysis_failed (Some error))).

Definition seo_hints (d : Scorer.NeuronWriterAnalysis) : SeoHints :=
  {| hint_recommendedTerms := Scorer.recommendedTerms d;
     hint_competitorHeadings := Scorer.competitorHeadings d;
     hint_wordCountTarget := Scorer.wordCountTarget d |}.

(** The writing fetcher; each call is recorded with its answer. *)
Definition call_writeBlog (args : WriteBlogArgs) : M BlogResult :=
  fun w =>
    let answer := writeBlog env (clock w) args in
    match answer with
    | inl e => (Thrown e, log_call (args, answer) (tick w))
    | inr blog => (Returned blog, log_call (args, answer) (tick w))
    end.

(** [suggestLinks] and, when it suggests anything, [insertLinks]. *)
Definition with_links (content : str) : str :=
  let links := map LinkPlacer.Lib.link (LinkPlacer.Lib.suggestLinks content) in
  match links with
  | [] => content
  | _ :: _ => LinkPlacer.insertLinks content links
  end.

Definition score_of (content : str) (d : Scorer.NeuronWriterAnalysis)
  : Scorer.NeuronWriterScore :=
  Scorer.calculateScore (toLowerCase env) (canonicalize env) content d.

(** The first draft, its links and its score, and the one retry
    (lines 302 to 358 of [doWriteStep]): the draft kept, its text with links
    and its score. *)
Definition first_call (job : Job.t) (research_analyzed : str)
  (neuronwriterData : option Scorer.NeuronWriterAnalysis)
  (systemPrompt : option str) : WriteBlogArgs :=
  {| arg_keyword := Job.keyword job;
     arg_analyzedResearch := research_analyzed;
     arg_neuronwriterData := option_map seo_hints neuronwriterData;
     arg_systemPrompt := systemPrompt;
     arg_retryContext := None |}.

Definition retry_call (job : Job.t) (research_analyzed : str)
  (d : Scorer.NeuronWriterAnalysis) (systemPrompt : option str)
  (scoreResult : Scorer.NeuronWriterScore) : WriteBlogArgs :=
  {| arg_keyword := Job.keyword job;
     arg_analyzedResearch := research_analyzed;
     arg_neuronwriterData := Some (seo_hints d);
     arg_systemPrompt := systemPrompt;
     arg_retryContext :=
       Some {| missingKeywords := Scorer.missingTerms scoreResult;
               previousScore := Scorer.percentage scoreResult;
               attempt := 2 |} |}.

Definition write_draft (job : Job.t) (research_analyzed : str)
  (neuronwriterData : option Scorer.NeuronWriterAnalysis)
  : M (BlogResult * str * option number) :=
  let systemPrompt := getFullWritingContext env in
  blogResult <-
    call_writeBlog
      (first_call job research_analyzed neuronwriterData (Some systemPrompt)) ;;
  let content := with_links (content blogResult) in
  match neuronwriterData with
  | Some d =>
      let scoreResult := score_of content d in
      let score := Scorer.percentage scoreResult in
      if ltb score MIN_ACCEPTABLE_SCORE then
        blogResult' <-
          call_writeBlog
            (retry_call job research_analyzed d (Some systemPrompt)
                        scoreResult) ;;
        let content' := with_links (Store.content blogResult') in
        let newScoreResult := score_of content' d in
        ret (blogResult', content', Some (Scorer.percentage newScoreResult))
      else ret (blogResult, content, Some score)
  | None => ret (blogResult, content, None)
  end.

Definition doWriteStep (job : Job.t) (batchId : nat) : M StepResult :=
  try_catch
    (w <- get ;;
     let jobData := find_job (Job.id job) w in
     match option_map Job.research_analyzed jobData with
     | Some (Some (c :: analyzed)) =>
         let research_analyzed := c :: analyzed in
         let neuronwriterData :=
           match jobData with
           | Some data => Job.neuronwriter_data data
           | None => None
           end in
         final <- write_draft job research_analyzed neuronwriterData ;;
         let '(blogResult, content, score) := final in
         savedBlog <-
           saveBlog (Job.id job) (Job.keyword job) (title blogResult) content
                    (Some (metaDescription blogResult)) score ;;
         updateJobStatus (Job.id job) completed None ;;;
         incrementBatchProgress batchId completed_keywords_field ;;;
         ret (step_result processing (Some job) (Some write_name)
                (Some completed_name)
                (blog_complete (title blogResult) (Blog.word_count savedBlog)
                               score)
                None)
     | _ => throw (lit "No analyzed research found"%string)
     end)
    (fun error =>
       setJobError (Job.id job) error ;;;
       incrementBatchProgress batchId failed_keywords_field ;;;
       ret (step_result processing (Some job) (Some write_name) None
              write_failed (Some error))).

Definition count_status (s : JobStatus) (jobs : list Job.t) : nat :=
  length (filter (fun j => JobStatus_eqb (Job.status j) s) jobs).

(** [processOneStep]: one step for one job, or the batch's final status. *)
Definition processOneStep (batchId : nat) (useNeuronwriter : bool)
  : M StepResult :=
  try_catch
    (updateBatchStatus batchId batch_running ;;;
     next <- getNextJobToProcess batchId ;;
     match next with
     | None =>
         jobs <- getJobsForBatch batchId ;;
         let completed := count_status completed jobs in
         let failed := count_status failed jobs in
         let total := length jobs in
         if completed + failed =? total then
           updateBatchStatus batchId
             (if failed =? total then batch_failed else batch_completed) ;;;
           ret {| result_status := step_completed;
                  jobId := None; keyword := None; step := None;
                  nextStep := None;
                  message := batch_complete completed failed;
                  batchComplete := true;
                  error := None |}
         else
           ret (step_result no_work None None None no_jobs_to_process None)
     | Some job =>
         match Job.status job with
         | pending => doResearchStep job
         | researching => doResearchStep job
         | analyzing => doAnalyzeStep job useNeuronwriter
         | writing => doWriteStep job batchId
         | other =>
             ret (step_result no_work (Some job) None None
                    (unexpected_status other) None)
         end
     end)
    (fun error =>
       ret (step_result processing None None None error_will_retry
              (Some error))).

End WithEnv.

End Lib.

(* ====================================================================== *)
(** * The edge function ([process-batch/index.ts]) *)
(* ====================================================================== *)

Module Edge.
Import Js Num Store.

Definition MIN_ACCEPTABLE_SCORE : number := of_Z 60.

Section WithEnv.
Variable env : Env.

(** The edge function looks at the error of few of its store requests.
    Its updates, its reads of a single row and its count of the jobs of a
    batch are answered from the store; the two reads of the job selection
    are requests that the store may refuse ([next_job] below). *)
Definition update_job_unchecked (jobId : nat) (u : JobUpdate) : M unit :=
  put (update_job jobId u).

Definition status_update (s : JobStatus) (error : option str)
  (completed_at : option nat) : JobUpdate :=
  {| set_status := Some s; set_error := error; set_research_raw := None;
     set_research_analyzed := None; set_neuronwriter_data := None;
     set_started_at := None; set_completed_at := completed_at |}.

Definition doResearchStep (job : Job.t) : M StepResult :=
  update_job_unchecked (Job.id job) (status_update researching None None) ;;;
  try_catch
    (rawResearch <- fetch (fun t => research env t (Job.keyword job)) ;;
     updateError <- request env ;;
     match updateError with
     | Some e => throw (lit "Failed to save research: "%string ++ e)
     | None =>
         put (update_job (Job.id job)
                {| set_status := Some analyzing; set_error := None;
                   set_research_raw := Some rawResearch;
                   set_research_analyzed := None;
                   set_neuronwriter_data := None;
                   set_started_at := None; set_completed_at := None |}) ;;;
         ret (Lib.step_result processing (Some job) (Some research_name)
                (Some analyze_name) research_complete None)
     end)
    (fun error =>
       update_job_unchecked (Job.id job)
         (status_update failed (Some error) None) ;;;
       ret (Lib.step_result processing (Some job) (Some research_name) None
              research_failed (Some error))).

Definition doAnalyzeStep (job : Job.t) (useNeuronwriter : bool)
  : M StepResult :=
  try_catch
    (w <- get ;;
     match option_map Job.research_raw (find_job (Job.id job) w) with
     | Some (Some (c :: raw)) =>
         let research_raw := c :: raw in
         analysis <-
           caught (fetch (fun t => analyzeResearch env t (Job.keyword job)
                                     research_raw)) ;;
         neuronwriterData <-
           (if useNeuronwriter then
              answer <- caught (fetch (fun t => analyzeKeyword env t
                                                  (Job.keyword job))) ;;
              match answer with
              | inr data => ret (Some data)
              | inl _ => ret None
              end
            else ret None) ;;
         match analysis with
         | inl e => throw e
         | inr analyzedResearch =>
             match neuronwriterData with
             | Some data =>
                 update_job_unchecked (Job.id job)
                   {| set_status := None; set_error := None;
                      set_research_raw := None;
                      set_research_analyzed := None;
                      set_neuronwriter_data := Some data;
                      set_started_at := None; set_completed_at := None |}
             | None => ret tt
             end ;;;
             updateError <- request env ;;
             match updateError with
             | Some e => throw (lit "Failed to save analysis: "%string ++ e)
             | None =>
                 put (update_job (Job.id job)
                        {| set_status := Some writing; set_error := None;
                           set_research_raw := None;
                           set_research_analyzed := Some analyzedResearch;
                           set_neuronwriter_data := None;
                           set_started_at := None;
                           set_completed_at := None |}) ;;;
                 ret (Lib.step_result processing (Some job)
                        (Some analyze_name) (Some write_name)
                        (analysis_complete
                           (option_map
                              (fun d => length (Scorer.recommendedTerms d))
                              neuronwriterData))
                        None)
             end
         end
     | _ => throw (lit "No research data found"%string)
     end)
    (fun error =>
       update_job_unchecked (Job.id job)
         (status_update failed (Some error) None) ;;;
       ret (Lib.step_result processing (Some job) (Some analyze_name) None
              analysis_failed (Some error))).

(** [suggestLinks] and, when it suggests anything, [insertLinks] with all
    it suggests. *)
Definition with_links (content : str) : str :=
  let links := LinkPlacer.Edge.suggestLinks content in
  match links with
  | [] => content
  | _ :: _ => LinkPlacer.insertLinks content links
  end.

(** [postProcessContent]: the link pass, then the softening pass; the brand
    keyword validation that follows only logs. *)
Definition postProcessContent (content : str) : str :=
  removePushyCTAs env (PostProcess.dedupeInternalLinks content).

(** The request of the batch counter with the update that follows a row
    found ([if (batch)]). *)
Definition increment_unchecked (batchId : nat) (field : ProgressField)
  : M unit :=
  w <- get ;;
  match find_batch batchId w with
  | Some batch =>
      put (fun w => update_batch batchId
                      (set_progress field (progress field batch + 1) (clock w))
                      w)
  | None => ret tt
  end.

(** The insert into [simple_blogs]; a second row for a job is refused by
    the column's uniqueness. *)
Definition insert_blog_unchecked (b : Blog.t) : M unit :=
  w <- get ;;
  if existsb (fun b' => Blog.job_id b' =? Blog.job_id b) (simple_blogs w)
  then ret tt
  else put (add_blog b).

Definition nonempty_text (s : option str) : bool :=
  match s with
  | Some (_ :: _) => true
  | _ => false
  end.

(** The first draft, its links and its score, and the one retry
    (lines 1482 to 1531 of [doWriteStep]). *)
Definition write_draft (job : Job.t) (research_analyzed : str)
  (neuronwriterData : option Scorer.NeuronWriterAnalysis)
  : M (BlogResult * str * option number) :=
  blogResult <-
    Lib.call_writeBlog env
      (Lib.first_call job research_analyzed neuronwriterData None) ;;
  let content := with_links (content blogResult) in
  match neuronwriterData with
  | Some d =>
      let scoreResult := Lib.score_of env content d in
      let score := Scorer.percentage scoreResult in
      if ltb score MIN_ACCEPTABLE_SCORE then
        blogResult' <-
          Lib.call_writeBlog env
            (Lib.retry_call job research_analyzed d None scoreResult) ;;
        let content' := with_links (Store.content blogResult') in
        let newScoreResult := Lib.score_of env content' d in
        ret (blogResult', content', Some (Scorer.percentage newScoreResult))
      else ret (blogResult, content, Some score)
  | None => ret (blogResult, content, None)
  end.

(** The import into the provider's editor when the analysis has a query
    handle: the provider's own score and the editor URL of a successful
    import. *)
Definition import_answer (d : Scorer.NeuronWriterAnalysis)
  (blogResult : BlogResult) (content : str) (now : nat)
  : option number * option str :=
  let importResult :=
    importToNeuronWriter env now
      (or_else (Scorer.queryId d) [])
      (title blogResult) (metaDescription blogResult) content in
  if success importResult
  then (contentScore importResult, editorUrl importResult)
  else (None, None).

Definition import_draft (neuronwriterData : option Scorer.NeuronWriterAnalysis)
  (blogResult : BlogResult) (content : str)
  : M (option number * option str) :=
  match neuronwriterData with
  | Some d =>
      if nonempty_text (Scorer.queryId d) then
        fun w => (Returned (import_answer d blogResult content (clock w)),
                  tick w)
      else ret (None, None)
  | None => ret (None, None)
  end.

(** [neuronwriterRealScore ?? score] *)
Definition finalScore (neuronwriterRealScore score : option number)
  : option number :=
  match neuronwriterRealScore with
  | Some real => Some real
  | None => score
  end.

Definition doWriteStep (job : Job.t) (batchId : nat) : M StepResult :=
  try_catch
    (w <- get ;;
     let jobData := find_job (Job.id job) w in
     match option_map Job.research_analyzed jobData with
     | Some (Some (c :: analyzed)) =>
         let research_analyzed := c :: analyzed in
         let neuronwriterData :=
           match jobData with
           | Some data => Job.neuronwriter_data data
           | None => None
           end in
         final <- write_draft job research_analyzed neuronwriterData ;;
         let '(blogResult, content, score) := final in
         let content := postProcessContent content in
         let internalLinks := PostProcess.internal_links_of content in
         let wordCount := length content in
         imported <- import_draft neuronwriterData blogResult content ;;
         let '(neuronwriterRealScore, neuronwriterEditorUrl) := imported in
         w' <- get ;;
         insert_blog_unchecked
           {| Blog.id := next_id w';
              Blog.job_id := Job.id job;
              Blog.keyword := Job.keyword job;
              Blog.title := title blogResult;
              Blog.content := content;
              Blog.meta_description := Some (metaDescription blogResult);
              Blog.word_count := Some wordCount;
              Blog.internal_links := internalLinks;
              Blog.neuronwriter_score :=
                finalScore neuronwriterRealScore score;
              Blog.neuronwriter_editor_url := neuronwriterEditorUrl;
              Blog.created_at := clock w' |} ;;;
         update_job_unchecked (Job.id job)
           (status_update completed None (Some (clock w'))) ;;;
         increment_unchecked batchId completed_keywords_field ;;;
         ret (Lib.step_result processing (Some job) (Some write_name)
                (Some completed_name)
                (blog_complete (title blogResult) (Some wordCount) score)
                None)
     | _ => throw (lit "No analyzed research found"%string)
     end)
    (fun error =>
       update_job_unchecked (Job.id job)
         (status_update failed (Some error) None) ;;;
       increment_unchecked batchId failed_keywords_field ;;;
       ret (Lib.step_result processing (Some job) (Some write_name) None
              write_failed (Some error))).

(** The job selection of the handler (lines 1684 to 1711); as in the
    library, a refused read counts as one that found no job. *)
Definition next_job (batchId : nat) : M (option Job.t) :=
  inProgressJobs <-
    read_unchecked env
      (fun w => firstn 1 (select_jobs env batchId in_progress w)) ;;
  match inProgressJobs with
  | Some (inProgress :: _) => ret (Some inProgress)
  | _ =>
      pendingJobs <-
        read_unchecked env
          (fun w => firstn 1 (select_jobs env batchId
                                (fun s => JobStatus_eqb s pending) w)) ;;
      match pendingJobs with
      | Some (pendingJob :: _) => ret (Some pendingJob)
      | _ => ret None
      end
  end.

(** The handler of [Deno.serve], from the point where the request has been
    read: [inl] is the answer with status 500. *)
Definition serve (batchId : nat) (useNeuronwriter : option bool)
  : M (str + StepResult) :=
  caught
    (put (fun w => update_batch batchId
                     (set_batch_status batch_running (clock w)) w) ;;;
     job <- next_job batchId ;;
     match job with
     | None =>
         w <- get ;;
         let allJobs := jobs_of batchId (simple_jobs w) in
         let completed := Lib.count_status completed allJobs in
         let failed := Lib.count_status failed allJobs in
         let total := length allJobs in
         if completed + failed =? total then
           put (fun w => update_batch batchId
                           (set_batch_status
                              (if failed =? total then batch_failed
                               else batch_completed) (clock w)) w) ;;;
           ret {| result_status := step_completed;
                  jobId := None; keyword := None; step := None;
                  nextStep := None;
                  message := batch_complete completed failed;
                  batchComplete := true;
                  error := None |}
         else
           ret (Lib.step_result no_work None None None no_jobs_to_process None)
     | Some job =>
         match Job.status job with
         | pending | researching => doResearchStep job
         | analyzing => doAnalyzeStep job (or_else useNeuronwriter true)
         | writing => doWriteStep job batchId
         | other =>
             ret (Lib.step_result no_work (Some job) None None
                    (unexpected_status other) None)
         end
     end).

End WithEnv.

End Edge.

(* ====================================================================== *)
(** * Reasoning about computations on the store *)
(* ====================================================================== *)

Module Triples.
Import Js Store.

(** From a world in [P], [m] returns in [Q] or throws in [E]. *)
Definition triple {A} (P : World -> Prop) (m : M A)
  (Q : A -> World -> Prop) (E : World -> Prop) : Prop :=
  forall w, P w ->
    match m w with
    | (Returned a, w') => Q a w'
    | (Thrown _, w') => E w'
    end.

Lemma triple_ret {A} (P : World -> Prop) (a : A) (E : World -> Prop) :
  triple P (ret a) (fun _ => P) E.
Proof. intros w H. exact H. Qed.

Lemma triple_throw {A} (P : World -> Prop) (e : str) (Q : A -> World -> Prop) :
  triple P (throw e) Q P.
Proof. intros w H. exact H. Qed.

Lemma triple_bind {A B} (P : World -> Prop) (m : M A) (k : A -> M B)
  (Q : A -> World -> Prop) (R : B -> World -> Prop) (E : World -> Prop) :
  triple P m Q E -> (forall a, triple (Q a) (k a) R E) ->
  triple P (bind m k) R E.
Proof.
  intros Hm Hk w H. unfold bind. specialize (Hm w H).
  destruct (m w) as [[a|e] w']; [apply Hk; exact Hm | exact Hm].
Qed.

Lemma triple_try_catch {A} (P : World -> Prop) (m : M A) (h : str -> M A)
  (Q : A -> World -> Prop) (E' E : World -> Prop) :
  triple P m Q E' -> (forall e, triple E' (h e) Q E) ->
  triple P (try_catch m h) Q E.
Proof.
  intros Hm Hh w H. unfold try_catch. specialize (Hm w H).
  destruct (m w) as [[a|e] w']; [exact Hm | apply Hh; exact Hm].
Qed.

Lemma triple_weaken {A} (P P' : World -> Prop) (m : M A)
  (Q Q' : A -> World -> Prop) (E E' : World -> Prop) :
  triple P' m Q' E' ->
  (forall w, P w -> P' w) -> (forall a w, Q' a w -> Q a w) ->
  (forall w, E' w -> E w) ->
  triple P m Q E.
Proof.
  intros Hm HP HQ HE w H. specialize (Hm w (HP w H)).
  destruct (m w) as [[a|e] w']; [apply HQ | apply HE]; exact Hm.
Qed.

Lemma triple_get (P : World -> Prop) (E : World -> Prop) :
  triple P get (fun w0 w => w0 = w /\ P w) E.
Proof. intros w H. split; [reflexivity | exact H]. Qed.

Lemma triple_put (P Q : World -> Prop) (f : World -> World) (E : World -> Prop) :
  (forall w, P w -> Q (f w)) -> triple P (put f) (fun _ => Q) E.
Proof. intros Hf w H. apply Hf. exact H. Qed.

Lemma triple_caught {A} (P : World -> Prop) (m : M A)
  (Q : World -> Prop) (E : World -> Prop) :
  triple P m (fun _ => Q) Q -> triple P (caught m) (fun _ => Q) E.
Proof.
  intros Hm w H. unfold caught, try_catch, bind, ret. specialize (Hm w H).
  destruct (m w) as [[a|e] w']; exact Hm.
Qed.

(** A predicate that the clock does not touch. *)
Definition timeless (P : World -> Prop) : Prop :=
  forall w, P w -> P (tick w).

Lemma triple_request (env : Env) (P : World -> Prop) (E : World -> Prop) :
  timeless P -> triple P (request env) (fun _ => P) E.
Proof. intros HP w H. apply HP. exact H. Qed.

Lemma triple_fetch {A} (answer : nat -> str + A) (P : World -> Prop) :
  timeless P -> triple P (fetch answer) (fun _ => P) P.
Proof.
  intros HP w H. unfold fetch.
  destruct (answer (clock w)); apply HP; exact H.
Qed.

(** The same rules, with the postcondition to be shown. *)
Lemma triple_ret_to {A} (P : World -> Prop) (a : A)
  (Q : A -> World -> Prop) (E : World -> Prop) :
  (forall w, P w -> Q a w) -> triple P (ret a) Q E.
Proof. intros HQ w H. apply HQ. exact H. Qed.

Lemma triple_throw_to {A} (P : World -> Prop) (e : str)
  (Q : A -> World -> Prop) (E : World -> Prop) :
  (forall w, P w -> E w) -> triple P (throw e) Q E.
Proof. intros HE w H. apply HE. exact H. Qed.

Lemma triple_get_to (P : World -> Prop) (Q : World -> World -> Prop)
  (E : World -> Prop) :
  (forall w, P w -> Q w w) -> triple P get Q E.
Proof. intros HQ w H. apply HQ. exact H. Qed.

Lemma triple_put_to (P : World -> Prop) (f : World -> World)
  (Q : unit -> World -> Prop) (E : World -> Prop) :
  (forall w, P w -> Q tt (f w)) -> triple P (put f) Q E.
Proof. intros HQ w H. apply HQ. exact H. Qed.

Lemma triple_request_to (env : Env) (P : World -> Prop)
  (Q : option str -> World -> Prop) (E : World -> Prop) :
  (forall w, P w -> Q (store_error env (clock w)) (tick w)) ->
  triple P (request env) Q E.
Proof. intros HQ w H. apply HQ. exact H. Qed.

Lemma read_unchecked_run {A} (env : Env) (rows : World -> A) (w : World) :
  read_unchecked env rows w =
  (Returned match store_error env (clock w) with
            | Some _ => None
            | None => Some (rows (tick w))
            end,
   tick w).
Proof.
  unfold read_unchecked, bind, request, get, ret.
  destruct (store_error env (clock w)); reflexivity.
Qed.

Lemma triple_read_unchecked {A} (env : Env) (rows : World -> A)
  (P : World -> Prop) (Q : option A -> World -> Prop) (E : World -> Prop) :
  (forall w, P w ->
     (store_error env (clock w) <> None -> Q None (tick w)) /\
     (store_error env (clock w) = None ->
      Q (Some (rows (tick w))) (tick w))) ->
  triple P (read_unchecked env rows) Q E.
Proof.
  intros HQ w H. rewrite read_unchecked_run.
  destruct (HQ w H) as [H1 H2].
  destruct (store_error env (clock w)); [apply H1; discriminate|].
  apply H2. reflexivity.
Qed.

Lemma triple_fetch_to {A} (answer : nat -> str + A) (P : World -> Prop)
  (Q : A -> World -> Prop) (E : World -> Prop) :
  (forall w, P w -> (forall a, Q a (tick w)) /\ E (tick w)) ->
  triple P (fetch answer) Q E.
Proof.
  intros HQ w H. unfold fetch. destruct (HQ w H) as [H1 H2].
  destruct (answer (clock w)); [exact H2 | apply H1].
Qed.

End Triples.

(* ====================================================================== *)
(** * What every reachable store satisfies *)
(* ====================================================================== *)

Module Invariants.
Import Js Store Triples.

(** The statuses of the jobs of a batch, in table order. *)
Definition statuses (b : nat) (jobs : list Job.t) : list JobStatus :=
  map Job.status (jobs_of b jobs).

Definition is_failed (s : JobStatus) : bool := JobStatus_eqb s failed.

Definition terminal_count (b : nat) (jobs : list Job.t) : nat :=
  length (filter terminal (statuses b jobs)).

Definition all_terminal (b : nat) (jobs : list Job.t) : bool :=
  forallb terminal (statuses b jobs).

Definition all_failed (b : nat) (jobs : list Job.t) : bool :=
  forallb is_failed (statuses b jobs).

(** A batch row against the jobs table; [owed] is the number of jobs that
    are terminal already and not counted yet. *)
Definition batch_ok (owed : nat -> nat) (jobs : list Job.t) (B : Batch.t)
  : Prop :=
  Batch.completed_keywords B + Batch.failed_keywords B + owed (Batch.id B)
    <= terminal_count (Batch.id B) jobs /\
  length (statuses (Batch.id B) jobs) <= Batch.total_keywords B /\
  (Batch.status B = batch_completed ->
   all_terminal (Batch.id B) jobs = true /\
   all_failed (Batch.id B) jobs = false) /\
  (Batch.status B = batch_failed -> all_failed (Batch.id B) jobs = true).

(** Identifiers are unique and were all handed out by the store. *)
Definition well_keyed (w : World) : Prop :=
  NoDup (map Job.id (simple_jobs w)) /\
  NoDup (map Batch.id (simple_batches w)) /\
  (forall j, In j (simple_jobs w) ->
             Job.id j < next_id w /\ Job.batch_id j < next_id w) /\
  (forall B, In B (simple_batches w) -> Batch.id B < next_id w).

Definition consistent (owed : nat -> nat) (w : World) : Prop :=
  well_keyed w /\
  forall B, In B (simple_batches w) -> batch_ok owed (simple_jobs w) B.

Definition nothing_owed : nat -> nat := fun _ => 0.

Definition one_owed (b : nat) : nat -> nat :=
  fun b' => if b' =? b then 1 else 0.

Definition invariant (w : World) : Prop := consistent nothing_owed w.

(** While a handler runs on job [jid] of batch [b]. *)
Definition running (b : nat) (w : World) : Prop :=
  forall B, In B (simple_batches w) -> Batch.id B = b ->
            Batch.status B = batch_running.

Definition job_in (b jid : nat) (w : World) : Prop :=
  forall j, In j (simple_jobs w) -> Job.id j = jid -> Job.batch_id j = b.

Definition non_terminal (jid : nat) (w : World) : Prop :=
  forall j, In j (simple_jobs w) -> Job.id j = jid ->
            terminal (Job.status j) = false.

Definition present (jid : nat) (w : World) : Prop :=
  exists j, In j (simple_jobs w) /\ Job.id j = jid.

(** The job is not terminal yet. *)
Definition live (b jid : nat) (w : World) : Prop :=
  invariant w /\ running b w /\ job_in b jid w /\
  non_terminal jid w /\ present jid w.

(** The job is terminal and the batch counter has not been raised yet. *)
Definition owing (b jid : nat) (w : World) : Prop :=
  consistent (one_owed b) w /\ running b w /\ job_in b jid w.

(** ** Worlds that agree on the tables *)

Definition extends (w w' : World) : Prop :=
  simple_batches w' = simple_batches w /\
  simple_jobs w' = simple_jobs w /\
  next_id w <= next_id w'.

Lemma extends_refl (w : World) : extends w w.
Proof. repeat split. apply Nat.le_refl. Qed.

Lemma extends_tick (w : World) : extends w (tick w).
Proof. repeat split. apply Nat.le_refl. Qed.

Lemma extends_log_call c (w : World) : extends w (log_call c w).
Proof. repeat split. apply Nat.le_refl. Qed.

Lemma extends_add_blog b (w : World) : extends w (add_blog b w).
Proof. repeat split. simpl. apply Nat.le_succ_diag_r. Qed.

Lemma extends_trans (w1 w2 w3 : World) :
  extends w1 w2 -> extends w2 w3 -> extends w1 w3.
Proof.
  intros (B1 & J1 & N1) (B2 & J2 & N2). repeat split.
  - rewrite B2. exact B1.
  - rewrite J2. exact J1.
  - eapply Nat.le_trans; eassumption.
Qed.

Lemma well_keyed_extends (w w' : World) :
  extends w w' -> well_keyed w -> well_keyed w'.
Proof.
  intros (EB & EJ & EN) (H1 & H2 & H3 & H4). unfold well_keyed.
  rewrite EB, EJ. repeat split; try assumption.
  - destruct (H3 j H). lia.
  - destruct (H3 j H). lia.
  - intros B HB. specialize (H4 B HB). lia.
Qed.

Lemma consistent_extends (owed : nat -> nat) (w w' : World) :
  extends w w' -> consistent owed w -> consistent owed w'.
Proof.
  intros Hx [Hk Hb]. split; [eapply well_keyed_extends; eassumption|].
  destruct Hx as (EB & EJ & _). rewrite EB, EJ. exact Hb.
Qed.

Lemma running_extends (b : nat) (w w' : World) :
  extends w w' -> running b w -> running b w'.
Proof. intros (EB & _ & _) H. unfold running. rewrite EB. exact H. Qed.

Lemma job_in_extends (b jid : nat) (w w' : World) :
  extends w w' -> job_in b jid w -> job_in b jid w'.
Proof. intros (_ & EJ & _) H. unfold job_in. rewrite EJ. exact H. Qed.

Lemma non_terminal_extends (jid : nat) (w w' : World) :
  extends w w' -> non_terminal jid w -> non_terminal jid w'.
Proof. intros (_ & EJ & _) H. unfold non_terminal. rewrite EJ. exact H. Qed.

Lemma present_extends (jid : nat) (w w' : World) :
  extends w w' -> present jid w -> present jid w'.
Proof. intros (_ & EJ & _) H. unfold present. rewrite EJ. exact H. Qed.

Lemma live_extends (b jid : nat) (w w' : World) :
  extends w w' -> live b jid w -> live b jid w'.
Proof.
  intros Hx (H1 & H2 & H3 & H4 & H5).
  exact (conj (consistent_extends Hx H1)
          (conj (running_extends Hx H2)
             (conj (job_in_extends Hx H3)
                (conj (non_terminal_extends Hx H4)
                      (present_extends Hx H5))))).
Qed.

Lemma owing_extends (b jid : nat) (w w' : World) :
  extends w w' -> owing b jid w -> owing b jid w'.
Proof.
  intros Hx (H1 & H2 & H3).
  exact (conj (consistent_extends Hx H1)
          (conj (running_extends Hx H2) (job_in_extends Hx H3))).
Qed.

Lemma batch_ok_less (owed owed' : nat -> nat) (jobs : list Job.t) (B : Batch.t) :
  owed' (Batch.id B) <= owed (Batch.id B) ->
  batch_ok owed jobs B -> batch_ok owed' jobs B.
Proof.
  intros Hle (H1 & H2 & H3 & H4). repeat split; try assumption; try lia.
  - apply H3; assumption.
  - apply H3; assumption.
Qed.

Lemma owing_invariant (b jid : nat) (w : World) : owing b jid w -> invariant w.
Proof.
  intros ([Hk Hb] & _). split; [exact Hk|].
  intros B HB. eapply batch_ok_less; [|apply Hb; exact HB].
  unfold nothing_owed. lia.
Qed.

Lemma live_invariant (b jid : nat) (w : World) : live b jid w -> invariant w.
Proof. intros [H _]. exact H. Qed.

(** ** Updates of job rows *)

Definition updated (jid : nat) (u : JobUpdate) (j : Job.t) : Job.t :=
  if Job.id j =? jid then apply_update u j else j.

Lemma update_job_rows_map (jid : nat) (u : JobUpdate) (jobs : list Job.t) :
  update_job_rows jid u jobs = map (updated jid u) jobs.
Proof. reflexivity. Qed.

Lemma updated_id (jid : nat) (u : JobUpdate) (j : Job.t) :
  Job.id (updated jid u j) = Job.id j.
Proof. unfold updated. destruct (Job.id j =? jid); reflexivity. Qed.

Lemma updated_batch_id (jid : nat) (u : JobUpdate) (j : Job.t) :
  Job.batch_id (updated jid u j) = Job.batch_id j.
Proof. unfold updated. destruct (Job.id j =? jid); reflexivity. Qed.

Lemma updated_status (jid : nat) (u : JobUpdate) (j : Job.t) :
  Job.status (updated jid u j) =
  if Job.id j =? jid then or_else (set_status u) (Job.status j)
  else Job.status j.
Proof. unfold updated. destruct (Job.id j =? jid); reflexivity. Qed.

Lemma jobs_of_updated (b jid : nat) (u : JobUpdate) (jobs : list Job.t) :
  jobs_of b (map (updated jid u) jobs) = map (updated jid u) (jobs_of b jobs).
Proof.
  unfold jobs_of. induction jobs as [|j jobs IH]; [reflexivity|].
  cbn [map filter]. rewrite updated_batch_id, IH.
  destruct (Job.batch_id j =? b); reflexivity.
Qed.

Lemma well_keyed_update_job (jid : nat) (u : JobUpdate) (w : World) :
  well_keyed w -> well_keyed (update_job jid u w).
Proof.
  intros (H1 & H2 & H3 & H4). unfold well_keyed. cbn.
  rewrite update_job_rows_map. split; [|split; [exact H2|split; [|exact H4]]].
  - rewrite map_map.
    rewrite (map_ext _ Job.id (fun j => updated_id jid u j)). exact H1.
  - intros j' Hj'. apply in_map_iff in Hj'. destruct Hj' as (j & <- & Hj).
    rewrite updated_id, updated_batch_id. apply H3. exact Hj.
Qed.

(** Rows of another batch keep their status. *)
Lemma statuses_other_batch (b b' jid : nat) (u : JobUpdate) (jobs : list Job.t) :
  (forall j, In j jobs -> Job.id j = jid -> Job.batch_id j = b) ->
  b' <> b ->
  statuses b' (map (updated jid u) jobs) = statuses b' jobs.
Proof.
  intros Hin Hne. unfold statuses. rewrite jobs_of_updated, map_map.
  apply map_ext_in. intros j Hj. unfold jobs_of in Hj.
  apply filter_In in Hj. destruct Hj as [Hj Hb]. apply Nat.eqb_eq in Hb.
  rewrite updated_status. destruct (Job.id j =? jid) eqn:E; [|reflexivity].
  apply Nat.eqb_eq in E. specialize (Hin j Hj E). congruence.
Qed.

Lemma statuses_length (b jid : nat) (u : JobUpdate) (jobs : list Job.t) :
  length (statuses b (map (updated jid u) jobs)) = length (statuses b jobs).
Proof.
  unfold statuses. rewrite jobs_of_updated, !length_map. reflexivity.
Qed.

(** An update that leaves the status column alone. *)
Lemma statuses_same (b jid : nat) (u : JobUpdate) (jobs : list Job.t) :
  set_status u = None ->
  statuses b (map (updated jid u) jobs) = statuses b jobs.
Proof.
  intros Hu. unfold statuses. rewrite jobs_of_updated, map_map.
  apply map_ext. intros j. rewrite updated_status, Hu.
  destruct (Job.id j =? jid); reflexivity.
Qed.

Lemma terminal_rows_grow (jid : nat) (u : JobUpdate) (s : JobStatus)
  (rows : list Job.t) :
  set_status u = Some s -> terminal s = true ->
  length (filter terminal (map Job.status rows)) <=
  length (filter terminal (map Job.status (map (updated jid u) rows))).
Proof.
  intros Hu Hs. induction rows as [|j rows IH]; [apply Nat.le_refl|].
  cbn [map filter]. rewrite updated_status, Hu. cbn [or_else].
  destruct (Job.id j =? jid).
  - rewrite Hs. destruct (terminal (Job.status j)); cbn [length]; lia.
  - destruct (terminal (Job.status j)); cbn [length]; lia.
Qed.

Lemma terminal_count_grows (b jid : nat) (u : JobUpdate) (s : JobStatus)
  (jobs : list Job.t) :
  set_status u = Some s -> terminal s = true ->
  terminal_count b jobs <= terminal_count b (map (updated jid u) jobs).
Proof.
  intros Hu Hs. unfold terminal_count, statuses.
  rewrite jobs_of_updated. apply (@terminal_rows_grow jid u s (jobs_of b jobs) Hu Hs).
Qed.

Lemma terminal_count_grows_by_one (b jid : nat) (u : JobUpdate)
  (s : JobStatus) (jobs : list Job.t) (j : Job.t) :
  set_status u = Some s -> terminal s = true ->
  In j jobs -> Job.id j = jid -> Job.batch_id j = b ->
  terminal (Job.status j) = false ->
  terminal_count b jobs + 1 <= terminal_count b (map (updated jid u) jobs).
Proof.
  intros Hu Hs Hj Hid Hb Hnt.
  assert (Hin : In j (jobs_of b jobs)).
  { unfold jobs_of. apply filter_In. split; [exact Hj|].
    apply Nat.eqb_eq. exact Hb. }
  unfold terminal_count, statuses. rewrite jobs_of_updated.
  revert Hin. generalize (jobs_of b jobs). intros l.
  induction l as [|j' l IH]; intros Hin; [destruct Hin|].
  cbn [map filter]. rewrite updated_status, Hu. cbn [or_else].
  destruct Hin as [->|Hin].
  - rewrite Hid, Nat.eqb_refl, Hs, Hnt. cbn [length].
    pose proof (@terminal_rows_grow jid u s l Hu Hs). lia.
  - specialize (IH Hin).
    destruct (Job.id j' =? jid).
    + rewrite Hs. destruct (terminal (Job.status j')); cbn [length]; lia.
    + destruct (terminal (Job.status j')); cbn [length]; lia.
Qed.

Lemma terminal_count_same (b jid : nat) (u : JobUpdate) (s : JobStatus)
  (jobs : list Job.t) :
  set_status u = Some s -> terminal s = false ->
  (forall j, In j jobs -> Job.id j = jid -> terminal (Job.status j) = false) ->
  terminal_count b (map (updated jid u) jobs) = terminal_count b jobs.
Proof.
  intros Hu Hs Hnt. unfold terminal_count, statuses.
  rewrite jobs_of_updated.
  assert (Hl : forall j, In j (jobs_of b jobs) -> In j jobs).
  { intros j Hj. unfold jobs_of in Hj. apply filter_In in Hj. tauto. }
  revert Hl. generalize (jobs_of b jobs). intros l Hl.
  induction l as [|j l IH]; [reflexivity|].
  cbn [map filter]. rewrite updated_status, Hu. cbn [or_else].
  assert (IH' := IH (fun j0 H0 => Hl j0 (or_intror H0))).
  destruct (Job.id j =? jid) eqn:E.
  - apply Nat.eqb_eq in E. rewrite Hs, (Hnt j (Hl j (or_introl eq_refl)) E).
    exact IH'.
  - destruct (terminal (Job.status j)); cbn [length]; rewrite IH';
      reflexivity.
Qed.

(** A batch row after an update of the rows of job [jid] of batch [b],
    while batch [b] is running. *)
Lemma batch_ok_update (owed owed' : nat -> nat) (b jid : nat) (u : JobUpdate)
  (jobs : list Job.t) (B : Batch.t) :
  (forall j, In j jobs -> Job.id j = jid -> Job.batch_id j = b) ->
  (Batch.id B = b -> Batch.status B = batch_running) ->
  (Batch.id B = b ->
   Batch.completed_keywords B + Batch.failed_keywords B + owed' b
     <= terminal_count b (map (updated jid u) jobs)) ->
  (Batch.id B <> b -> owed' (Batch.id B) <= owed (Batch.id B)) ->
  batch_ok owed jobs B ->
  batch_ok owed' (map (updated jid u) jobs) B.
Proof.
  intros Hin Hrun Hcount Howed (H1 & H2 & H3 & H4).
  destruct (Nat.eq_dec (Batch.id B) b) as [E|E].
  - unfold batch_ok. rewrite statuses_length.
    split; [rewrite E; apply Hcount; exact E|].
    split; [exact H2|].
    rewrite (Hrun E). split; discriminate.
  - unfold batch_ok, terminal_count, all_terminal, all_failed.
    rewrite (statuses_other_batch u jobs Hin E).
    split; [specialize (Howed E); unfold terminal_count in H1; lia|].
    split; [exact H2|]. split; assumption.
Qed.

Lemma live_update_job (b jid : nat) (u : JobUpdate) (w : World) :
  live b jid w ->
  (set_status u = None \/
   exists s, set_status u = Some s /\ terminal s = false) ->
  live b jid (update_job jid u w).
Proof.
  intros ([Hk Hb] & Hrun & Hin & Hnt & Hpr) Hu.
  assert (Hcount : forall b', terminal_count b' (map (updated jid u) (simple_jobs w))
                              = terminal_count b' (simple_jobs w)).
  { intros b'. destruct Hu as [Hu|(s & Hu & Hs)].
    - unfold terminal_count. rewrite (@statuses_same b' jid u _ Hu).
      reflexivity.
    - apply (@terminal_count_same b' jid u s _ Hu Hs Hnt). }
  split; [split|split; [|split; [|split]]].
  - apply well_keyed_update_job. exact Hk.
  - cbn. intros B HB. rewrite update_job_rows_map.
    apply (@batch_ok_update nothing_owed nothing_owed b jid u _ B Hin).
    + intros E. apply (Hrun B HB E).
    + intros E. rewrite Hcount. destruct (Hb B HB) as [H1 _].
      rewrite E in H1. exact H1.
    + intros _. apply Nat.le_refl.
    + apply Hb. exact HB.
  - exact Hrun.
  - intros j' Hj' Hid. cbn in Hj'. rewrite update_job_rows_map in Hj'.
    apply in_map_iff in Hj'. destruct Hj' as (j & <- & Hj).
    rewrite updated_id in Hid. rewrite updated_batch_id. apply (Hin j Hj Hid).
  - intros j' Hj' Hid. cbn in Hj'. rewrite update_job_rows_map in Hj'.
    apply in_map_iff in Hj'. destruct Hj' as (j & <- & Hj).
    rewrite updated_id in Hid. rewrite updated_status.
    apply Nat.eqb_eq in Hid. rewrite Hid. apply Nat.eqb_eq in Hid.
    destruct Hu as [Hu|(s & Hu & Hs)]; rewrite Hu; cbn [or_else].
    + apply (Hnt j Hj Hid).
    + exact Hs.
  - destruct Hpr as (j & Hj & Hid). exists (updated jid u j). split.
    + cbn. rewrite update_job_rows_map. apply in_map. exact Hj.
    + rewrite updated_id. exact Hid.
Qed.

Lemma job_in_update_job (b jid : nat) (u : JobUpdate) (w : World) :
  job_in b jid w -> job_in b jid (update_job jid u w).
Proof.
  intros Hin j' Hj' Hid. cbn in Hj'. rewrite update_job_rows_map in Hj'.
  apply in_map_iff in Hj'. destruct Hj' as (j & <- & Hj).
  rewrite updated_id in Hid. rewrite updated_batch_id. apply (Hin j Hj Hid).
Qed.

(** The write of a terminal status ends the live phase. *)
Lemma live_update_job_terminal (b jid : nat) (u : JobUpdate) (s : JobStatus)
  (w : World) :
  live b jid w -> set_status u = Some s -> terminal s = true ->
  owing b jid (update_job jid u w).
Proof.
  intros ([Hk Hb] & Hrun & Hin & Hnt & (j & Hj & Hid)) Hu Hs.
  split; [split|split].
  - apply well_keyed_update_job. exact Hk.
  - cbn. intros B HB. rewrite update_job_rows_map.
    apply (@batch_ok_update nothing_owed (one_owed b) b jid u _ B Hin).
    + intros E. apply (Hrun B HB E).
    + intros E. destruct (Hb B HB) as [H1 _]. rewrite E in H1.
      pose proof (@terminal_count_grows_by_one b jid u s (simple_jobs w) j
                    Hu Hs Hj Hid (Hin j Hj Hid) (Hnt j Hj Hid)) as G.
      unfold one_owed. rewrite Nat.eqb_refl. unfold nothing_owed in H1. lia.
    + intros E. unfold one_owed, nothing_owed.
      apply Nat.eqb_neq in E. rewrite E. apply Nat.le_refl.
    + apply Hb. exact HB.
  - exact Hrun.
  - apply job_in_update_job. exact Hin.
Qed.

Lemma owing_update_job (b jid : nat) (u : JobUpdate) (w : World) :
  owing b jid w ->
  (set_status u = None \/
   exists s, set_status u = Some s /\ terminal s = true) ->
  owing b jid (update_job jid u w).
Proof.
  intros ([Hk Hb] & Hrun & Hin) Hu.
  assert (Hcount : terminal_count b (simple_jobs w)
                   <= terminal_count b (map (updated jid u) (simple_jobs w))).
  { destruct Hu as [Hu|(s & Hu & Hs)].
    - unfold terminal_count. rewrite (@statuses_same b jid u _ Hu).
      apply Nat.le_refl.
    - apply (@terminal_count_grows b jid u s _ Hu Hs). }
  split; [split|split].
  - apply well_keyed_update_job. exact Hk.
  - cbn. intros B HB. rewrite update_job_rows_map.
    apply (@batch_ok_update (one_owed b) (one_owed b) b jid u _ B Hin).
    + intros E. apply (Hrun B HB E).
    + intros E. destruct (Hb B HB) as [H1 _]. rewrite E in H1.
      unfold one_owed in *. rewrite Nat.eqb_refl in *. lia.
    + intros _. apply Nat.le_refl.
    + apply Hb. exact HB.
  - exact Hrun.
  - apply job_in_update_job. exact Hin.
Qed.

(** ** Updates of batch rows *)

Lemma In_update_batch (b : nat) (f : Batch.t -> Batch.t) (w : World) (B' : Batch.t) :
  In B' (simple_batches (update_batch b f w)) ->
  exists B, In B (simple_batches w) /\
            B' = if Batch.id B =? b then f B else B.
Proof.
  cbn. intros H. apply in_map_iff in H. destruct H as (B & <- & HB).
  exists B. split; [exact HB | reflexivity].
Qed.

Lemma well_keyed_update_batch (b : nat) (f : Batch.t -> Batch.t) (w : World) :
  (forall B, Batch.id (f B) = Batch.id B) ->
  well_keyed w -> well_keyed (update_batch b f w).
Proof.
  intros Hf (H1 & H2 & H3 & H4).
  assert (Hid : forall B, Batch.id (if Batch.id B =? b then f B else B)
                          = Batch.id B).
  { intros B. destruct (Batch.id B =? b); [apply Hf | reflexivity]. }
  unfold well_keyed. cbn. split; [exact H1|]. split; [|split; [exact H3|]].
  - rewrite map_map. rewrite (map_ext _ Batch.id Hid). exact H2.
  - intros B' HB'. apply in_map_iff in HB'. destruct HB' as (B & <- & HB).
    rewrite Hid. apply H4. exact HB.
Qed.

Lemma find_batch_unique (b : nat) (w : World) (B : Batch.t) :
  NoDup (map Batch.id (simple_batches w)) ->
  In B (simple_batches w) -> Batch.id B = b ->
  find_batch b w = Some B.
Proof.
  unfold find_batch. generalize (simple_batches w). intros l.
  induction l as [|B' l IH]; intros Hnd HB Hid; [destruct HB|].
  cbn [find]. inversion Hnd as [|? ? Hnotin Hnd']; subst.
  destruct HB as [->|HB].
  - rewrite Nat.eqb_refl. reflexivity.
  - destruct (Batch.id B' =? Batch.id B) eqn:E.
    + apply Nat.eqb_eq in E. exfalso. apply Hnotin. rewrite E.
      apply in_map. exact HB.
    + apply IH; [exact Hnd' | exact HB | reflexivity].
Qed.

(** Marking the batch as running. *)
Lemma invariant_running (b now : nat) (w : World) :
  invariant w ->
  invariant (update_batch b (set_batch_status batch_running now) w) /\
  running b (update_batch b (set_batch_status batch_running now) w).
Proof.
  intros [Hk Hb]. split; [split|].
  - apply well_keyed_update_batch; [reflexivity | exact Hk].
  - intros B' HB'. apply In_update_batch in HB'.
    destruct HB' as (B & HB & ->). specialize (Hb B HB).
    destruct (Batch.id B =? b); [|exact Hb].
    destruct Hb as (H1 & H2 & _ & _).
    split; [exact H1|]. split; [exact H2|]. split; discriminate.
  - intros B' HB' Hid. apply In_update_batch in HB'.
    destruct HB' as (B & HB & ->).
    destruct (Batch.id B =? b) eqn:E; [reflexivity|].
    apply Nat.eqb_neq in E. contradiction.
Qed.

(** Raising a counter of the batch that is owed one. *)
Lemma owing_increment (b jid now : nat) (field : ProgressField) (w : World)
  (B0 : Batch.t) :
  owing b jid w -> find_batch b w = Some B0 ->
  invariant
    (update_batch b (set_progress field (progress field B0 + 1) now) w).
Proof.
  intros ([Hk Hb] & Hrun & Hin) Hfind. split.
  - apply well_keyed_update_batch; [reflexivity | exact Hk].
  - intros B' HB'. apply In_update_batch in HB'.
    destruct HB' as (B & HB & ->). specialize (Hb B HB).
    destruct (Batch.id B =? b) eqn:E.
    + apply Nat.eqb_eq in E.
      destruct Hk as (_ & Hnd & _).
      rewrite (@find_batch_unique b w B Hnd HB E) in Hfind.
      injection Hfind as <-.
      destruct Hb as (H1 & H2 & H3 & H4).
      unfold one_owed in H1. rewrite E, Nat.eqb_refl in H1.
      unfold batch_ok, nothing_owed. cbn.
      rewrite E in *. split; [|split; [exact H2|split; assumption]].
      unfold terminal_count, statuses, jobs_of in *.
      destruct field; cbn; lia.
    + eapply batch_ok_less; [|exact Hb].
      unfold nothing_owed. lia.
Qed.

(** ** The final status of a batch *)

Lemma count_completed_failed_le (l : list Job.t) :
  Lib.count_status completed l + Lib.count_status failed l <= length l.
Proof.
  unfold Lib.count_status. induction l as [|j l IH]; [apply Nat.le_refl|].
  cbn [filter length].
  destruct (Job.status j); cbn [JobStatus_eqb length]; lia.
Qed.

Lemma count_terminal_all (l : list Job.t) :
  Lib.count_status completed l + Lib.count_status failed l = length l ->
  forallb terminal (map Job.status l) = true.
Proof.
  induction l as [|j l IH]; [reflexivity|].
  pose proof (count_completed_failed_le l) as L.
  unfold Lib.count_status in *. cbn [filter map forallb length].
  destruct (Job.status j); cbn [JobStatus_eqb terminal length andb];
    intros H; try lia; apply IH; lia.
Qed.

Lemma count_failed_all (l : list Job.t) :
  Lib.count_status failed l = length l <->
  forallb is_failed (map Job.status l) = true.
Proof.
  unfold Lib.count_status, is_failed. induction l as [|j l IH]; [tauto|].
  cbn [filter map forallb length].
  pose proof (filter_length_le
                (fun j => JobStatus_eqb (Job.status j) failed) l) as L.
  destruct (JobStatus_eqb (Job.status j) failed); cbn [length andb].
  - rewrite <- IH. split; lia.
  - split; [lia | discriminate].
Qed.

Lemma count_status_perm (s : JobStatus) (l l' : list Job.t) :
  Permutation l l' -> Lib.count_status s l = Lib.count_status s l'.
Proof.
  intros H. unfold Lib.count_status.
  apply Permutation_length. induction H; cbn [filter].
  - apply perm_nil.
  - destruct (JobStatus_eqb (Job.status x) s);
      [apply perm_skip|]; assumption.
  - destruct (JobStatus_eqb (Job.status x) s),
             (JobStatus_eqb (Job.status y) s);
      try apply Permutation_refl; try apply perm_swap.
  - eapply perm_trans; eassumption.
Qed.

Lemma filter_all {A} (l : list A) : filter (fun _ => true) l = l.
Proof. induction l as [|x l IH]; [reflexivity|]. cbn. rewrite IH. reflexivity. Qed.

Lemma select_all_perm (env : Env) (b : nat) (w : World) :
  Permutation (jobs_of b (simple_jobs w))
              (select_jobs env b (fun _ => true) w).
Proof. unfold select_jobs. rewrite filter_all. apply sort_perm. Qed.

Definition final_status (jobs : list Job.t) : BatchStatus :=
  if Lib.count_status failed jobs =? length jobs then batch_failed
  else batch_completed.

Lemma invariant_final (b now : nat) (w : World) (jobs : list Job.t) :
  invariant w ->
  Permutation (jobs_of b (simple_jobs w)) jobs ->
  Lib.count_status completed jobs + Lib.count_status failed jobs = length jobs ->
  invariant (update_batch b (set_batch_status (final_status jobs) now) w).
Proof.
  intros [Hk Hb] Hperm Hall. split.
  - apply well_keyed_update_batch; [reflexivity | exact Hk].
  - intros B' HB'.
    change (simple_jobs
              (update_batch b (set_batch_status (final_status jobs) now) w))
      with (simple_jobs w).
    apply In_update_batch in HB'.
    destruct HB' as (B & HB & ->). specialize (Hb B HB).
    destruct (Batch.id B =? b) eqn:E; [|exact Hb].
    apply Nat.eqb_eq in E. destruct Hb as (H1 & H2 & _ & _).
    rewrite <- (count_status_perm completed Hperm),
            <- (count_status_perm failed Hperm),
            <- (Permutation_length Hperm) in Hall.
    unfold final_status.
    rewrite <- (count_status_perm failed Hperm), <- (Permutation_length Hperm).
    pose proof (count_terminal_all _ Hall) as Ht.
    pose proof (count_failed_all (jobs_of b (simple_jobs w))) as Hf.
    unfold batch_ok. cbn [Batch.id Batch.status set_batch_status
                          Batch.completed_keywords Batch.failed_keywords
                          Batch.total_keywords].
    split; [exact H1|]. split; [exact H2|].
    unfold all_terminal, all_failed, statuses. rewrite E.
    destruct (Lib.count_status failed (jobs_of b (simple_jobs w))
              =? length (jobs_of b (simple_jobs w))) eqn:F.
    + apply Nat.eqb_eq in F. split; [discriminate|].
      intros _. apply Hf. exact F.
    + apply Nat.eqb_neq in F. split; [|discriminate].
      intros _. split; [exact Ht|].
      destruct (forallb is_failed (map Job.status (jobs_of b (simple_jobs w))))
        eqn:G; [|reflexivity].
      exfalso. apply F. apply Hf. reflexivity.
Qed.

(** ** Selecting a job *)

Lemma NoDup_map_injective {A B} (f : A -> B) (l : list A) (x y : A) :
  NoDup (map f l) -> In x l -> In y l -> f x = f y -> x = y.
Proof.
  induction l as [|a l IH]; intros Hnd Hx Hy Hf; [destruct Hx|].
  cbn in Hnd. inversion Hnd as [|? ? Hnotin Hnd']; subst.
  destruct Hx as [->|Hx], Hy as [->|Hy].
  - reflexivity.
  - exfalso. apply Hnotin. rewrite Hf. apply in_map. exact Hy.
  - exfalso. apply Hnotin. rewrite <- Hf. apply in_map. exact Hx.
  - apply IH; assumption.
Qed.

Lemma select_jobs_In (env : Env) (b : nat) (p : JobStatus -> bool)
  (w : World) (j : Job.t) :
  In j (select_jobs env b p w) <->
  In j (simple_jobs w) /\ Job.batch_id j = b /\ p (Job.status j) = true.
Proof.
  unfold select_jobs, jobs_of. split.
  - intros H. apply (Permutation_in _ (Permutation_sym (sort_perm _ _))) in H.
    apply filter_In in H. destruct H as [H Hp].
    apply filter_In in H. destruct H as [H Hb].
    apply Nat.eqb_eq in Hb. tauto.
  - intros (H & Hb & Hp). apply (Permutation_in _ (sort_perm _ _)).
    apply filter_In. split; [|exact Hp].
    apply filter_In. split; [exact H|]. apply Nat.eqb_eq. exact Hb.
Qed.

Lemma selected_live (b : nat) (w : World) (job : Job.t) :
  invariant w -> running b w ->
  In job (simple_jobs w) -> Job.batch_id job = b ->
  terminal (Job.status job) = false ->
  live b (Job.id job) w.
Proof.
  intros Hinv Hrun Hj Hb Hnt.
  assert (U : forall j, In j (simple_jobs w) -> Job.id j = Job.id job -> j = job).
  { intros j H E. destruct Hinv as [(Hnd & _) _].
    apply (@NoDup_map_injective _ _ Job.id _ j job Hnd H Hj E). }
  split; [exact Hinv|]. split; [exact Hrun|]. split; [|split].
  - intros j H E. rewrite (U j H E). exact Hb.
  - intros j H E. rewrite (U j H E). exact Hnt.
  - exists job. split; [exact Hj | reflexivity].
Qed.

(** ** The library's store operations *)

(** A predicate kept by everything that leaves the two tables alone. *)
Definition stable (P : World -> Prop) : Prop :=
  forall w w', extends w w' -> P w -> P w'.

Definition mid (b jid : nat) (w : World) : Prop :=
  live b jid w \/ owing b jid w.

Lemma stable_invariant : stable invariant.
Proof. intros w w' Hx H. apply (consistent_extends Hx H). Qed.

Lemma stable_live (b jid : nat) : stable (live b jid).
Proof. intros w w' Hx H. apply (live_extends Hx H). Qed.

Lemma stable_owing (b jid : nat) : stable (owing b jid).
Proof. intros w w' Hx H. apply (owing_extends Hx H). Qed.

Lemma stable_mid (b jid : nat) : stable (mid b jid).
Proof.
  intros w w' Hx [H|H]; [left; apply (live_extends Hx H)
                        | right; apply (owing_extends Hx H)].
Qed.

Lemma mid_invariant (b jid : nat) (w : World) : mid b jid w -> invariant w.
Proof. intros [H|H]; [apply (live_invariant H) | apply (owing_invariant H)]. Qed.

Section LibTriples.
Variable env : Env.

(** A checked request followed by a write. *)
Lemma triple_checked_put (P : World -> Prop) (Q : unit -> World -> Prop)
  (E : World -> Prop) (f : World -> World) (msg : str -> str) :
  (forall w, P w -> E (tick w)) ->
  (forall w, P w -> Q tt (f (tick w))) ->
  triple P
    (bind (request env)
          (fun error => match error with
                        | Some e => throw (msg e)
                        | None => put f
                        end))
    Q E.
Proof.
  intros HE HQ w H. unfold bind, request.
  destruct (store_error env (clock w)); cbn; [apply HE | apply HQ]; exact H.
Qed.

Lemma updateJobStatus_live (b jid : nat) (s : JobStatus) (e : option str) :
  terminal s = false ->
  triple (live b jid) (Lib.updateJobStatus env jid s e)
         (fun _ => live b jid) (live b jid).
Proof.
  intros Hs. unfold Lib.updateJobStatus.
  eapply triple_bind; [apply triple_get_to with (Q := fun _ => live b jid);
                       intros w H; exact H|].
  intros w0. cbv zeta. apply triple_checked_put.
  - intros w H. apply (live_extends (extends_tick w) H).
  - intros w H. apply live_update_job.
    + apply (live_extends (extends_tick w) H).
    + right. exists s. split; [reflexivity | exact Hs].
Qed.

Lemma updateJobStatus_terminal (b jid : nat) (s : JobStatus) (e : option str) :
  terminal s = true ->
  triple (mid b jid) (Lib.updateJobStatus env jid s e)
         (fun _ => owing b jid) (mid b jid).
Proof.
  intros Hs. unfold Lib.updateJobStatus.
  eapply triple_bind; [apply triple_get_to with (Q := fun _ => mid b jid);
                       intros w H; exact H|].
  intros w0. cbv zeta. apply triple_checked_put.
  - intros w H. apply (stable_mid (extends_tick w) H).
  - intros w [H|H].
    + eapply live_update_job_terminal;
        [apply (live_extends (extends_tick w) H) | reflexivity | exact Hs].
    + apply owing_update_job.
      * apply (owing_extends (extends_tick w) H).
      * right. exists s. split; [reflexivity | exact Hs].
Qed.

Lemma incrementBatchProgress_owing (b jid : nat) (field : ProgressField) :
  triple (owing b jid) (Lib.incrementBatchProgress env b field)
         (fun _ => invariant) (owing b jid).
Proof.
  unfold Lib.incrementBatchProgress.
  eapply triple_bind;
    [apply triple_request_to with (Q := fun _ => owing b jid);
     intros w H; apply (owing_extends (extends_tick w) H)|].
  intros fetchError.
  eapply triple_bind;
    [apply triple_get_to with (Q := fun w0 w => w0 = w /\ owing b jid w);
     intros w H; split; [reflexivity | exact H]|].
  intros w0. destruct fetchError as [e|].
  { apply triple_throw_to. intros w [_ H]. exact H. }
  destruct (find_batch b w0) as [batch|] eqn:F.
  2: { apply triple_throw_to. intros w [_ H]. exact H. }
  cbv zeta. apply triple_checked_put.
  - intros w [_ H]. apply (owing_extends (extends_tick w) H).
  - intros w [-> H].
    apply (@owing_increment b jid (clock (tick w)) field (tick w) batch).
    + apply (owing_extends (extends_tick w) H).
    + exact F.
Qed.

Lemma saveNeuronwriterData_live (b jid : nat) (d : Scorer.NeuronWriterAnalysis) :
  triple (live b jid) (Lib.saveNeuronwriterData env jid d)
         (fun _ => live b jid) (live b jid).
Proof.
  unfold Lib.saveNeuronwriterData. apply triple_checked_put.
  - intros w H. apply (live_extends (extends_tick w) H).
  - intros w H. apply live_update_job.
    + apply (live_extends (extends_tick w) H).
    + left. reflexivity.
Qed.

Lemma saveBlog_stable (P : World -> Prop) (jid : nat) (k t c : str)
  (m : option str) (sc : option Num.number) :
  stable P ->
  triple P (Lib.saveBlog env jid k t c m sc) (fun _ => P) P.
Proof.
  intros HP w H. unfold Lib.saveBlog, bind, request, get, throw, put, ret.
  cbn.
  assert (Ht : P (tick w)) by (apply (HP _ _ (extends_tick w) H)).
  destruct (store_error env (clock w)); [exact Ht|]. cbn.
  destruct (existsb _ (simple_blogs w)); [exact Ht|]. cbn.
  apply (HP _ _ (extends_add_blog _ _) Ht).
Qed.

Lemma call_writeBlog_stable (P : World -> Prop) (args : WriteBlogArgs) :
  stable P ->
  triple P (Lib.call_writeBlog env args) (fun _ => P) P.
Proof.
  intros HP w H. unfold Lib.call_writeBlog.
  assert (Ht : P (log_call (args, writeBlog env (clock w) args) (tick w))).
  { apply (HP _ _ (extends_log_call _ _)), (HP _ _ (extends_tick w) H). }
  destruct (writeBlog env (clock w) args); exact Ht.
Qed.

Lemma write_draft_stable (P : World -> Prop) (job : Job.t) (ra : str)
  (d : option Scorer.NeuronWriterAnalysis) :
  stable P ->
  triple P (Lib.write_draft env job ra d) (fun _ => P) P.
Proof.
  intros HP. unfold Lib.write_draft. cbv zeta.
  eapply triple_bind; [apply call_writeBlog_stable; exact HP|].
  intros blogResult. destruct d as [d|]; [|apply triple_ret].
  destruct (Num.ltb _ Lib.MIN_ACCEPTABLE_SCORE); [|apply triple_ret].
  eapply triple_bind; [apply call_writeBlog_stable; exact HP|].
  intros blogResult'. apply triple_ret.
Qed.

(** ** The stage handlers *)

Lemma doResearchStep_invariant (b : nat) (job : Job.t) :
  triple (live b (Job.id job)) (Lib.doResearchStep env job)
         (fun _ => invariant) invariant.
Proof.
  unfold Lib.doResearchStep.
  eapply triple_bind.
  { eapply triple_weaken;
      [apply (@updateJobStatus_live b (Job.id job) researching None eq_refl)
      | auto | intros ? ? H; exact H | apply live_invariant]. }
  intros ? .
  apply triple_try_catch with (E' := mid b (Job.id job)).
  - eapply triple_bind.
    { apply triple_fetch_to with (Q := fun _ => live b (Job.id job)).
      intros w H. split; [intros _|left];
        apply (live_extends (extends_tick w) H). }
    intros rawResearch.
    eapply triple_bind.
    { apply triple_request_to with (Q := fun _ => live b (Job.id job)).
      intros w H. apply (live_extends (extends_tick w) H). }
    intros [e|].
    + apply triple_throw_to. intros w H. left. exact H.
    + eapply triple_bind.
      * apply triple_put_to with (Q := fun _ => invariant).
        intros w H. eapply live_invariant. apply live_update_job; [exact H|].
        right. exists analyzing. split; reflexivity.
      * intros ? . apply triple_ret.
  - intros e. eapply triple_bind.
    + eapply triple_weaken;
        [apply (@updateJobStatus_terminal b (Job.id job) failed (Some e) eq_refl)
        | auto | intros ? ? H; exact H | apply mid_invariant].
    + intros ? . apply triple_ret_to. intros w H. apply (owing_invariant H).
Qed.

Lemma doAnalyzeStep_invariant (b : nat) (job : Job.t) (useNeuronwriter : bool) :
  triple (live b (Job.id job)) (Lib.doAnalyzeStep env job useNeuronwriter)
         (fun _ => invariant) invariant.
Proof.
  unfold Lib.doAnalyzeStep.
  apply triple_try_catch with (E' := mid b (Job.id job)).
  - eapply triple_bind;
      [apply triple_get_to with (Q := fun _ => live b (Job.id job));
       intros w H; exact H|].
    intros w0.
    destruct (option_map Job.research_raw (find_job (Job.id job) w0))
      as [[[|c raw]|]|];
      try (apply triple_throw_to; intros w H; left; exact H).
    cbv zeta.
    eapply triple_bind.
    { apply triple_fetch_to with (Q := fun _ => live b (Job.id job)).
      intros w H. split; [intros _|left];
        apply (live_extends (extends_tick w) H). }
    intros analyzedResearch.
    eapply triple_bind with (Q := fun _ => live b (Job.id job)).
    { destruct useNeuronwriter; [|apply triple_ret].
      eapply triple_bind.
      - apply triple_caught.
        apply triple_fetch_to with (Q := fun _ => live b (Job.id job)).
        intros w H. split; [intros _|];
          apply (live_extends (extends_tick w) H).
      - intros [e|data]; [apply triple_ret|].
        eapply triple_bind; [|intros ?; apply triple_ret].
        apply triple_caught. apply saveNeuronwriterData_live. }
    intros neuronwriterData.
    eapply triple_bind.
    { apply triple_request_to with (Q := fun _ => live b (Job.id job)).
      intros w H. apply (live_extends (extends_tick w) H). }
    intros [e|].
    + apply triple_throw_to. intros w H. left. exact H.
    + eapply triple_bind.
      * apply triple_put_to with (Q := fun _ => invariant).
        intros w H. eapply live_invariant. apply live_update_job; [exact H|].
        right. exists writing. split; reflexivity.
      * intros ? . apply triple_ret.
  - intros e. eapply triple_bind.
    + eapply triple_weaken;
        [apply (@updateJobStatus_terminal b (Job.id job) failed (Some e) eq_refl)
        | auto | intros ? ? H; exact H | apply mid_invariant].
    + intros ? . apply triple_ret_to. intros w H. apply (owing_invariant H).
Qed.

Lemma doWriteStep_invariant (b : nat) (job : Job.t) :
  triple (live b (Job.id job)) (Lib.doWriteStep env job b)
         (fun _ => invariant) invariant.
Proof.
  unfold Lib.doWriteStep.
  apply triple_try_catch with (E' := mid b (Job.id job)).
  - eapply triple_bind;
      [apply triple_get_to with (Q := fun _ => live b (Job.id job));
       intros w H; exact H|].
    intros w0.
    destruct (option_map Job.research_analyzed (find_job (Job.id job) w0))
      as [[[|c analyzed]|]|];
      try (apply triple_throw_to; intros w H; left; exact H).
    cbv zeta.
    eapply triple_bind.
    { eapply triple_weaken;
        [apply write_draft_stable; apply (@stable_live b (Job.id job))
        | auto | intros ? ? H; exact H | intros w H; left; exact H]. }
    intros [[blogResult content] score].
    eapply triple_bind.
    { eapply triple_weaken;
        [apply saveBlog_stable; apply (@stable_live b (Job.id job))
        | auto | intros ? ? H; exact H | intros w H; left; exact H]. }
    intros savedBlog.
    eapply triple_bind.
    { eapply triple_weaken;
        [apply (@updateJobStatus_terminal b (Job.id job) completed None eq_refl)
        | intros w H; left; exact H | intros ? ? H; exact H | auto]. }
    intros ? .
    eapply triple_bind.
    { eapply triple_weaken;
        [apply (@incrementBatchProgress_owing b (Job.id job))
        | auto | intros ? ? H; exact H | intros w H; right; exact H]. }
    intros ? . apply triple_ret.
  - intros e. eapply triple_bind.
    + eapply triple_weaken;
        [apply (@updateJobStatus_terminal b (Job.id job) failed (Some e) eq_refl)
        | auto | intros ? ? H; exact H | apply mid_invariant].
    + intros ? . eapply triple_bind.
      * eapply triple_weaken;
          [apply (@incrementBatchProgress_owing b (Job.id job))
          | auto | intros ? ? H; exact H | apply owing_invariant].
      * intros ? . apply triple_ret.
Qed.

(** ** The dispatcher *)

Lemma firstn_1_In {A} (l : list A) (x : A) (rest : list A) :
  firstn 1 l = x :: rest -> In x l.
Proof.
  destruct l as [|y l]; [discriminate|]. cbn. intros H.
  injection H as <- _. left. reflexivity.
Qed.

(** A job the selection returns is a row of the batch that is in progress
    or pending, whatever the store answers to the two reads, which change
    nothing but the clock. *)
Definition selectable (b : nat) (job : Job.t) (w : World) : Prop :=
  In job (simple_jobs w) /\ Job.batch_id job = b /\
  (in_progress (Job.status job) = true \/ Job.status job = pending).

Lemma selectable_first (b : nat) (p : JobStatus -> bool) (w : World)
  (job : Job.t) (rest : list Job.t) :
  (forall s, p s = true -> in_progress s = true \/ s = pending) ->
  firstn 1 (select_jobs env b p w) = job :: rest ->
  selectable b job w.
Proof.
  intros Hp F. apply firstn_1_In, select_jobs_In in F.
  destruct F as (Hj & Hb & Hs). split; [exact Hj|]. split; [exact Hb|].
  apply Hp. exact Hs.
Qed.

Lemma pending_only (s : JobStatus) :
  JobStatus_eqb s pending = true -> in_progress s = true \/ s = pending.
Proof. destruct s; try discriminate. right. reflexivity. Qed.

Lemma none_first (b : nat) (p : JobStatus -> bool) (w : World) :
  firstn 1 (select_jobs env b p w) = [] ->
  forall j, In j (simple_jobs w) -> Job.batch_id j = b ->
            p (Job.status j) = false.
Proof.
  intros F j Hj Hb.
  destruct (select_jobs env b p w) as [|x l] eqn:E; [|discriminate F].
  destruct (p (Job.status j)) eqn:Hp; [|reflexivity].
  assert (Hin : In j (select_jobs env b p w)).
  { apply select_jobs_In. repeat split; assumption. }
  rewrite E in Hin. destruct Hin.
Qed.

(** What one read of the selection found: a job, no job among those asked
    for, or nothing because the store refused. *)
Definition found (b : nat) (p : JobStatus -> bool)
  (r : option (list Job.t)) (w : World) : Prop :=
  match r with
  | Some (job :: _) => selectable b job w
  | Some [] =>
      forall j, In j (simple_jobs w) -> Job.batch_id j = b ->
                p (Job.status j) = false
  | None => exists t, store_error env t <> None
  end.

Lemma read_found (b : nat) (p : JobStatus -> bool) (P E : World -> Prop) :
  timeless P ->
  (forall s, p s = true -> in_progress s = true \/ s = pending) ->
  triple P
         (read_unchecked env (fun w => firstn 1 (select_jobs env b p w)))
         (fun r w => P w /\ found b p r w) E.
Proof.
  intros HP Hp. apply triple_read_unchecked. intros w H. split.
  - intros Hr. split; [apply HP; exact H|]. exists (clock w). exact Hr.
  - intros _. split; [apply HP; exact H|]. unfold found.
    destruct (firstn 1 (select_jobs env b p (tick w)))
      as [|job rest] eqn:F.
    + apply (@none_first b p (tick w) F).
    + apply (@selectable_first b _ _ _ _ Hp F).
Qed.

(** No job is returned with the store answering only when every job of the
    batch is completed or failed. *)
Definition none_left (b : nat) (w : World) : Prop :=
  (forall t, store_error env t = None) ->
  all_terminal b (simple_jobs w) = true.

Lemma found_none_left (b : nat) (r1 r2 : option (list Job.t)) (w : World) :
  found b in_progress r1 w ->
  found b (fun s => JobStatus_eqb s pending) r2 w ->
  match r1 with Some (_ :: _) => False | _ => True end ->
  match r2 with Some (_ :: _) => False | _ => True end ->
  none_left b w.
Proof.
  intros F1 F2 N1 N2 Hok.
  destruct r1 as [[|? ?]|]; [|destruct N1|];
    [|destruct F1 as [t Ht]; destruct (Ht (Hok t))].
  destruct r2 as [[|? ?]|]; [|destruct N2|];
    [|destruct F2 as [t Ht]; destruct (Ht (Hok t))].
  cbn [found] in F1, F2.
  unfold all_terminal, statuses. apply forallb_forall.
  intros s Hs. apply in_map_iff in Hs. destruct Hs as (j & <- & Hj).
  unfold jobs_of in Hj. apply filter_In in Hj. destruct Hj as [Hj Hb].
  apply Nat.eqb_eq in Hb.
  specialize (F1 j Hj Hb). specialize (F2 j Hj Hb).
  destruct (Job.status j); try discriminate; reflexivity.
Qed.

Lemma getNextJobToProcess_selected (b : nat) (P E : World -> Prop) :
  timeless P ->
  triple P (Lib.getNextJobToProcess env b)
         (fun next w =>
            P w /\
            match next with
            | Some job => selectable b job w
            | None => none_left b w
            end)
         E.
Proof.
  intros HP. unfold Lib.getNextJobToProcess.
  eapply triple_bind;
    [apply (@read_found b in_progress P E HP (fun s H => or_introl H))|].
  intros r1.
  assert (HP' : timeless (fun w => P w /\ found b in_progress r1 w)).
  { intros w [H F]. split; [apply HP; exact H|].
    destruct r1 as [[|? ?]|]; exact F. }
  assert (Second :
            match r1 with Some (_ :: _) => False | _ => True end ->
            triple (fun w => P w /\ found b in_progress r1 w)
              (pendingJobs <-
                 read_unchecked env
                   (fun w => firstn 1 (select_jobs env b
                                         (fun s => JobStatus_eqb s pending) w)) ;;
               match pendingJobs with
               | Some (job :: _) => ret (Some job)
               | _ => ret None
               end)
              (fun next w =>
                 P w /\
                 match next with
                 | Some job => selectable b job w
                 | None => none_left b w
                 end)
              E).
  { intros N1. eapply triple_bind;
      [apply (@read_found b (fun s => JobStatus_eqb s pending) _ E HP'
                pending_only)|].
    intros r2. destruct r2 as [[|job rest]|] eqn:R2;
      apply triple_ret_to; intros w [[H F1] F2];
      (split; [exact H|]); try exact F2.
    - apply (@found_none_left b r1 (Some []) w F1 F2 N1 I).
    - apply (@found_none_left b r1 None w F1 F2 N1 I). }
  destruct r1 as [[|job rest]|].
  - apply Second. exact I.
  - apply triple_ret_to. intros w H. exact H.
  - apply Second. exact I.
Qed.

Lemma getNextJobToProcess_live (b : nat) :
  triple (fun w => invariant w /\ running b w)
         (Lib.getNextJobToProcess env b)
         (fun next w =>
            match next with
            | Some job => live b (Job.id job) w
            | None => invariant w
            end)
         invariant.
Proof.
  eapply triple_weaken.
  - apply getNextJobToProcess_selected
      with (P := fun w => invariant w /\ running b w) (E := invariant).
    intros w [Hinv Hrun]. split.
    + apply (stable_invariant (extends_tick w) Hinv).
    + apply (running_extends (extends_tick w) Hrun).
  - intros w H. exact H.
  - intros [job|] w [[Hinv Hrun] Hsel]; [|exact Hinv].
    destruct Hsel as (Hj & Hb & Hs).
    apply selected_live; try assumption.
    destruct Hs as [Hs|Hs]; [|rewrite Hs; reflexivity].
    destruct (Job.status job); try discriminate Hs; reflexivity.
  - intros w H. exact H.
Qed.

Lemma getJobsForBatch_all (b : nat) :
  triple invariant (Lib.getJobsForBatch env b)
         (fun jobs w => invariant w /\
                        Permutation (jobs_of b (simple_jobs w)) jobs)
         invariant.
Proof.
  intros w H. unfold Lib.getJobsForBatch, bind, request, get, ret, throw.
  assert (Ht : invariant (tick w)) by apply (stable_invariant (extends_tick w) H).
  destruct (store_error env (clock w)); [exact Ht|].
  split; [exact Ht|]. apply (select_all_perm env b (tick w)).
Qed.

Lemma processOneStep_invariant (b : nat) (useNeuronwriter : bool) :
  triple invariant (Lib.processOneStep env b useNeuronwriter)
         (fun _ => invariant) invariant.
Proof.
  unfold Lib.processOneStep.
  apply triple_try_catch with (E' := invariant); [|intros e; apply triple_ret].
  eapply triple_bind.
  { unfold Lib.updateBatchStatus.
    apply triple_checked_put
      with (Q := fun _ w => invariant w /\ running b w).
    - intros w H. apply (stable_invariant (extends_tick w) H).
    - intros w H. apply invariant_running.
      apply (stable_invariant (extends_tick w) H). }
  intros ? .
  eapply triple_bind; [apply getNextJobToProcess_live|].
  intros [job|].
  - destruct (Job.status job).
    + apply doResearchStep_invariant.
    + apply doResearchStep_invariant.
    + apply doAnalyzeStep_invariant.
    + apply doWriteStep_invariant.
    + apply triple_ret_to. apply live_invariant.
    + apply triple_ret_to. apply live_invariant.
  - eapply triple_bind; [apply getJobsForBatch_all|].
    intros jobs. cbv zeta.
    destruct (Lib.count_status completed jobs + Lib.count_status failed jobs
              =? length jobs) eqn:C.
    + apply Nat.eqb_eq in C.
      eapply triple_bind; [|intros ?; apply triple_ret].
      unfold Lib.updateBatchStatus.
      apply triple_checked_put with (Q := fun _ => invariant).
      * intros w [H _]. apply (stable_invariant (extends_tick w) H).
      * intros w [H Hperm].
        apply (@invariant_final b (clock (tick w)) (tick w) jobs).
        -- apply (stable_invariant (extends_tick w) H).
        -- exact Hperm.
        -- exact C.
    + apply triple_ret_to. intros w [H _]. exact H.
Qed.

(** ** Creating a batch *)

Lemma entries_fst {A} (l : list A) : map fst (entries l) = seq 0 (length l).
Proof.
  unfold entries. generalize 0. induction l as [|x l IH]; intros n;
    [reflexivity|].
  cbn. f_equal. apply IH.
Qed.

Lemma seq_offset (n a k : nat) :
  map (fun i => n + i) (seq a k) = seq (n + a) k.
Proof.
  revert a. induction k as [|k IH]; intros a; [reflexivity|].
  cbn. f_equal. rewrite IH. f_equal. lia.
Qed.

Lemma statuses_app (b : nat) (l l' : list Job.t) :
  statuses b (l ++ l') = statuses b l ++ statuses b l'.
Proof. unfold statuses, jobs_of. rewrite filter_app, map_app. reflexivity. Qed.

Lemma statuses_none (b : nat) (l : list Job.t) :
  (forall j, In j l -> Job.batch_id j <> b) -> statuses b l = [].
Proof.
  intros H. unfold statuses, jobs_of.
  induction l as [|j l IH]; [reflexivity|]. cbn [filter].
  destruct (Job.batch_id j =? b) eqn:E.
  - apply Nat.eqb_eq in E. exfalso. apply (H j (or_introl eq_refl) E).
  - apply IH. intros j' Hj'. apply H. right. exact Hj'.
Qed.

(** The new batch row is in the table and has no job yet. *)
Definition batch_created (bid total : nat) (w : World) : Prop :=
  invariant w /\ bid < next_id w /\
  (forall j, In j (simple_jobs w) -> Job.batch_id j <> bid) /\
  (forall B, In B (simple_batches w) -> Batch.id B = bid ->
             Batch.total_keywords B = total /\
             Batch.status B = batch_pending).

Lemma batch_created_extends (bid total : nat) (w w' : World) :
  extends w w' -> batch_created bid total w -> batch_created bid total w'.
Proof.
  intros Hx (H1 & H2 & H3 & H4).
  split; [apply (stable_invariant Hx H1)|].
  destruct Hx as (EB & EJ & EN). rewrite EB, EJ.
  split; [lia|]. split; assumption.
Qed.

Lemma insert_batch_created (useNeuronwriter : bool) (total : nat) (w : World) :
  invariant w ->
  batch_created (next_id w) total
    (Lib.insert_batch (Lib.new_batch useNeuronwriter total w) w).
Proof.
  intros [(K1 & K2 & K3 & K4) Hb].
  assert (Hnone : forall j, In j (simple_jobs w) ->
                            Job.batch_id j <> next_id w).
  { intros j Hj. destruct (K3 j Hj). lia. }
  split; [split; [split; [|split; [|split]]|]|split; [|split]]; cbn.
  - exact K1.
  - rewrite map_app. cbn. apply NoDup_app; [exact K2 | |].
    + constructor; [intros []|constructor].
    + intros x Hx [<-|[]]. apply in_map_iff in Hx.
      destruct Hx as (B & E & HB). specialize (K4 B HB). lia.
  - intros j Hj. destruct (K3 j Hj). lia.
  - intros B HB. apply in_app_iff in HB. destruct HB as [HB|[<-|[]]].
    + specialize (K4 B HB). lia.
    + cbn. lia.
  - intros B HB. apply in_app_iff in HB. destruct HB as [HB|[<-|[]]].
    + apply Hb. exact HB.
    + unfold batch_ok, terminal_count, all_terminal, all_failed,
        nothing_owed. cbn.
      rewrite (statuses_none _ Hnone). cbn.
      split; [lia|]. split; [lia|]. split; discriminate.
  - lia.
  - exact Hnone.
  - intros B HB E. apply in_app_iff in HB. destruct HB as [HB|[<-|[]]].
    + specialize (K4 B HB). lia.
    + split; reflexivity.
Qed.

Lemma insert_jobs_invariant (bid : nat) (keywords : list str) (w : World) :
  batch_created bid (length keywords) w ->
  invariant (Lib.insert_jobs bid keywords w).
Proof.
  intros ([(K1 & K2 & K3 & K4) Hb] & Hbid & Hnone & Hrow).
  set (fresh := map (fun entry => Lib.new_job bid (clock w)
                                    (next_id w + fst entry) (snd entry))
                    (entries keywords)).
  assert (Hids : map Job.id fresh = map (fun i => next_id w + i)
                                        (seq 0 (length keywords))).
  { unfold fresh. rewrite map_map. cbn. rewrite <- entries_fst, map_map.
    reflexivity. }
  assert (Hfresh : forall j, In j fresh ->
             Job.batch_id j = bid /\ Job.status j = pending /\
             next_id w <= Job.id j < next_id w + length keywords).
  { intros j Hj. unfold fresh in Hj. apply in_map_iff in Hj.
    destruct Hj as ([i k] & <- & Hik). cbn.
    split; [reflexivity|]. split; [reflexivity|].
    assert (Hi : In i (map fst (entries keywords)))
      by (apply in_map_iff; exists (i, k); split; [reflexivity | exact Hik]).
    rewrite entries_fst in Hi. apply in_seq in Hi. lia. }
  assert (Hst : statuses bid fresh = map (fun _ => pending) fresh).
  { unfold statuses, jobs_of.
    assert (F : filter (fun j => Job.batch_id j =? bid) fresh = fresh).
    { apply forallb_filter_id. apply forallb_forall. intros j Hj.
      apply Nat.eqb_eq. apply (Hfresh j Hj). }
    rewrite F. apply map_ext_in. intros j Hj. apply (Hfresh j Hj). }
  assert (Hlen : length fresh = length keywords).
  { unfold fresh, entries. rewrite length_map, length_combine, length_seq.
    lia. }
  split; [split; [|split; [|split]]|]; cbn; fold fresh.
  - rewrite map_app. apply NoDup_app; [exact K1 | |].
    + rewrite Hids, seq_offset. apply seq_NoDup.
    + intros x Hx Hx'. apply in_map_iff in Hx, Hx'.
      destruct Hx as (j & E & Hj), Hx' as (j' & E' & Hj').
      destruct (K3 j Hj). destruct (Hfresh j' Hj') as (_ & _ & ?). lia.
  - exact K2.
  - intros j Hj. apply in_app_iff in Hj. destruct Hj as [Hj|Hj].
    + destruct (K3 j Hj). lia.
    + destruct (Hfresh j Hj) as (-> & _ & ?). lia.
  - intros B HB. specialize (K4 B HB). lia.
  - intros B HB. destruct (Hb B HB) as (H1 & H2 & H3 & H4).
    destruct (Nat.eq_dec (Batch.id B) bid) as [E|E].
    + destruct (Hrow B HB E) as [Ht Hs].
      unfold batch_ok, terminal_count. rewrite E, statuses_app.
      rewrite (statuses_none _ Hnone), Hst. cbn [app].
      rewrite Hs, Ht, length_map, Hlen.
      split; [|split; [apply Nat.le_refl | split; discriminate]].
      unfold terminal_count in H1. rewrite E, (statuses_none _ Hnone) in H1.
      cbn in H1. unfold nothing_owed in *. lia.
    + assert (Hz : statuses (Batch.id B) fresh = []).
      { apply statuses_none. intros j Hj.
        destruct (Hfresh j Hj) as (-> & _). congruence. }
      unfold batch_ok, terminal_count, all_terminal, all_failed.
      rewrite statuses_app, Hz, app_nil_r.
      split; [exact H1|]. split; [exact H2|]. split; assumption.
Qed.

Lemma createBatch_invariant (keywords : list str) (useNeuronwriter : bool) :
  triple invariant (Lib.createBatch env keywords useNeuronwriter)
         (fun _ => invariant) invariant.
Proof.
  intros w H.
  unfold Lib.createBatch, bind, request, get, put, ret, throw.
  assert (Ht : invariant (tick w)) by apply (stable_invariant (extends_tick w) H).
  destruct (store_error env (clock w)); [exact Ht|]. cbn [fst snd].
  pose proof (@insert_batch_created useNeuronwriter (length keywords)
                (tick w) Ht) as Hc.
  cbn [clock tick Lib.insert_batch].
  match goal with
  | |- context [store_error env ?t] => destruct (store_error env t)
  end.
  - destruct Hc as [Hc _].
    apply (stable_invariant (extends_tick _) Hc).
  - apply insert_jobs_invariant. rewrite length_map.
    apply (batch_created_extends (extends_tick _) Hc).
Qed.

(** ** Reachable stores *)

(** The stores reached from the empty one by creating batches and invoking
    the dispatcher, one call after the other. *)
Inductive reachable : World -> Prop :=
| reachable_empty : reachable empty_world
| reachable_createBatch (w : World) (keywords : list str) (use : bool) :
    reachable w -> reachable (snd (Lib.createBatch env keywords use w))
| reachable_processOneStep (w : World) (batchId : nat) (use : bool) :
    reachable w -> reachable (snd (Lib.processOneStep env batchId use w)).

Lemma triple_snd {A} (P : World -> Prop) (m : M A) (Q : World -> Prop) :
  triple P m (fun _ => Q) Q -> forall w, P w -> Q (snd (m w)).
Proof.
  intros H w HP. specialize (H w HP). destruct (m w) as [[a|e] w']; exact H.
Qed.

Lemma invariant_empty : invariant empty_world.
Proof.
  split; [|intros B []].
  split; [constructor|]. split; [constructor|].
  split; [intros j [] | intros B []].
Qed.

Lemma reachable_invariant (w : World) : reachable w -> invariant w.
Proof.
  induction 1 as [|w keywords use _ IH|w b use _ IH].
  - apply invariant_empty.
  - apply (@triple_snd _ _ _ _ (createBatch_invariant keywords use) w IH).
  - apply (@triple_snd _ _ _ _ (processOneStep_invariant b use) w IH).
Qed.

(** ** An invocation that finds every job of the batch terminal *)

Lemma all_terminal_none (b : nat) (p : JobStatus -> bool) (w : World) :
  all_terminal b (simple_jobs w) = true ->
  (forall s, terminal s = true -> p s = false) ->
  select_jobs env b p w = [].
Proof.
  intros Hall Hp. unfold select_jobs.
  assert (F : filter (fun j => p (Job.status j)) (jobs_of b (simple_jobs w)) = []).
  { unfold all_terminal, statuses in Hall.
    induction (jobs_of b (simple_jobs w)) as [|j l IH]; [reflexivity|].
    cbn in Hall. apply andb_true_iff in Hall. destruct Hall as [Hj Hl].
    cbn [filter]. rewrite (Hp _ Hj). apply IH. exact Hl. }
  rewrite F. reflexivity.
Qed.

Lemma all_terminal_count (l : list Job.t) :
  forallb terminal (map Job.status l) = true ->
  Lib.count_status completed l + Lib.count_status failed l = length l.
Proof.
  unfold Lib.count_status. induction l as [|j l IH]; [reflexivity|].
  cbn [map forallb filter length]. intros H.
  apply andb_true_iff in H. destruct H as [Hj Hl]. specialize (IH Hl).
  destruct (Job.status j); try discriminate Hj;
    cbn [JobStatus_eqb length]; lia.
Qed.

Lemma updateBatchStatus_run (b : nat) (status : BatchStatus) (w : World) :
  store_error env (clock w) = None ->
  Lib.updateBatchStatus env b status w =
  (Returned tt,
   update_batch b (set_batch_status status (S (clock w))) (tick w)).
Proof.
  intros E. unfold Lib.updateBatchStatus, bind, request. rewrite E.
  reflexivity.
Qed.

(** With every job of the batch terminal the selection finds no job,
    whether the store answers its two reads or not. *)
Lemma getNextJobToProcess_none (b : nat) (w : World) :
  all_terminal b (simple_jobs w) = true ->
  Lib.getNextJobToProcess env b w = (Returned None, tick (tick w)).
Proof.
  intros Hall.
  assert (Second :
            bind (read_unchecked env
                    (fun w => firstn 1 (select_jobs env b
                                          (fun s => JobStatus_eqb s pending) w)))
                 (fun pendingJobs =>
                    match pendingJobs with
                    | Some (job :: _) => ret (Some job)
                    | _ => ret None
                    end) (tick w)
            = (Returned None, tick (tick w))).
  { unfold bind. rewrite read_unchecked_run.
    rewrite (@all_terminal_none b (fun s => JobStatus_eqb s pending)
               (tick (tick w)) Hall)
      by (intros []; try discriminate; reflexivity).
    destruct (store_error env (clock (tick w))); reflexivity. }
  unfold Lib.getNextJobToProcess. unfold bind at 1.
  rewrite read_unchecked_run.
  rewrite (@all_terminal_none b in_progress (tick w) Hall)
    by (intros []; try discriminate; reflexivity).
  destruct (store_error env (clock w)); exact Second.
Qed.

Lemma getJobsForBatch_run (b : nat) (w : World) :
  store_error env (clock w) = None ->
  Lib.getJobsForBatch env b w =
  (Returned (select_jobs env b (fun _ => true) (tick w)), tick w).
Proof.
  intros E. unfold Lib.getJobsForBatch, bind, request. rewrite E.
  reflexivity.
Qed.

Lemma processOneStep_finalizes (b : nat) (use : bool) (w : World) :
  all_terminal b (simple_jobs w) = true ->
  store_error env (clock w) = None ->
  store_error env (3 + clock w) = None ->
  store_error env (4 + clock w) = None ->
  forall B, In B (simple_batches (snd (Lib.processOneStep env b use w))) ->
            Batch.id B = b ->
            Batch.status B =
            if all_failed b (simple_jobs w) then batch_failed
            else batch_completed.
Proof.
  intros Hall E0 E1 E2.
  set (w1 := update_batch b (set_batch_status batch_running (S (clock w)))
                          (tick w)).
  set (w2 := tick (tick w1)).
  set (jobs := select_jobs env b (fun _ => true) (tick w2)).
  assert (Hperm : Permutation (jobs_of b (simple_jobs w)) jobs)
    by apply (select_all_perm env b (tick w2)).
  assert (Hcount : Lib.count_status completed jobs +
                   Lib.count_status failed jobs = length jobs).
  { rewrite <- (count_status_perm completed Hperm),
            <- (count_status_perm failed Hperm),
            <- (Permutation_length Hperm).
    apply all_terminal_count. exact Hall. }
  assert (Run : snd (Lib.processOneStep env b use w) =
                update_batch b
                  (set_batch_status (final_status jobs) (5 + clock w))
                  (tick (tick w2))).
  { unfold Lib.processOneStep, try_catch.
    unfold bind at 1. rewrite (updateBatchStatus_run b batch_running w E0).
    fold w1. unfold bind at 1.
    rewrite (getNextJobToProcess_none b w1 Hall). fold w2.
    unfold bind at 1. rewrite (getJobsForBatch_run b w2 E1).
    fold jobs. cbv zeta. rewrite Hcount, Nat.eqb_refl.
    unfold bind at 1.
    rewrite (updateBatchStatus_run b _ (tick w2) E2). reflexivity. }
  rewrite Run. clear Run.
  intros B HB Hid.
  apply In_update_batch in HB. destruct HB as (B1 & HB1 & ->).
  change (simple_batches (tick (tick w2))) with (simple_batches w1) in HB1.
  apply In_update_batch in HB1. destruct HB1 as (B0 & HB0 & ->).
  destruct (Batch.id B0 =? b) eqn:E0'.
  2: { rewrite E0' in *. apply Nat.eqb_neq in E0'. contradiction. }
  cbn [Batch.id set_batch_status] in *. rewrite E0' in *.
  cbn [Batch.status set_batch_status].
  unfold final_status.
  rewrite <- (count_status_perm failed Hperm), <- (Permutation_length Hperm).
  pose proof (count_failed_all (jobs_of b (simple_jobs w))) as Hf.
  unfold all_failed, statuses.
  destruct (Lib.count_status failed (jobs_of b (simple_jobs w))
            =? length (jobs_of b (simple_jobs w))) eqn:F.
  - apply Nat.eqb_eq in F. apply Hf in F. rewrite F. reflexivity.
  - apply Nat.eqb_neq in F.
    destruct (forallb is_failed (map Job.status (jobs_of b (simple_jobs w))))
      eqn:G; [|reflexivity].
    exfalso. apply F. apply Hf. reflexivity.
Qed.

End LibTriples.

(** C8, as the code has it.  In every store reached by creating batches and
    invoking the dispatcher one call after the other, every batch has
    completed_keywords + failed_keywords at most total_keywords; a batch
    whose status is failed has only failed jobs, and a batch whose status is
    completed has only terminal jobs, not all of them failed; and an
    invocation that finds every job of its batch terminal, and whose three
    checked store requests succeed (its first, fourth and fifth; the two
    between are the reads of the job selection), sets the batch status:
    failed when all jobs failed, completed otherwise.  (Between the step
    that ends the last job and that invocation the status is still
    running.) *)
Theorem batch_progress (env : Env) (w : World) :
  reachable env w ->
  (forall B, In B (simple_batches w) ->
     Batch.completed_keywords B + Batch.failed_keywords B
       <= Batch.total_keywords B /\
     (Batch.status B = batch_failed ->
      all_failed (Batch.id B) (simple_jobs w) = true) /\
     (Batch.status B = batch_completed ->
      all_terminal (Batch.id B) (simple_jobs w) = true /\
      all_failed (Batch.id B) (simple_jobs w) = false)) /\
  (forall b use,
     all_terminal b (simple_jobs w) = true ->
     store_error env (clock w) = None ->
     store_error env (3 + clock w) = None ->
     store_error env (4 + clock w) = None ->
     forall B, In B (simple_batches (snd (Lib.processOneStep env b use w))) ->
               Batch.id B = b ->
               Batch.status B =
               if all_failed b (simple_jobs w) then batch_failed
               else batch_completed).
Proof.
  intros Hr. split.
  - intros B HB. destruct (reachable_invariant Hr) as [_ Hb].
    destruct (Hb B HB) as (H1 & H2 & H3 & H4).
    split; [|split; assumption].
    unfold terminal_count, nothing_owed in H1.
    pose proof (filter_length_le terminal (statuses (Batch.id B) (simple_jobs w))).
    lia.
  - intros b use. apply processOneStep_finalizes.
Qed.

End Invariants.

(* ====================================================================== *)
(** * Job selection *)
(* ====================================================================== *)

Module Selection.
Import Js Store.

Lemma sort_head {A} (cmp : A -> A -> Z) (l : list A) (x : A) (rest : list A) :
  (forall a b, (0 < cmp a b)%Z -> (cmp b a <= 0)%Z) ->
  (forall a b c, (cmp a b <= 0)%Z -> (cmp b c <= 0)%Z -> (cmp a c <= 0)%Z) ->
  (forall a, (cmp a a <= 0)%Z) ->
  sort cmp l = x :: rest ->
  In x l /\ forall y, In y l -> (cmp x y <= 0)%Z.
Proof.
  intros Htot Htrans Hrefl E.
  pose proof (sort_perm cmp l) as P. rewrite E in P.
  pose proof (sort_sorted cmp Htot Htrans l) as S. rewrite E in S.
  split.
  - apply (Permutation_in _ (Permutation_sym P)). left. reflexivity.
  - intros y Hy. apply (Permutation_in _ P) in Hy.
    destruct Hy as [<-|Hy]; [apply Hrefl|].
    inversion S as [|? ? _ F]; subst. rewrite Forall_forall in F.
    apply F. exact Hy.
Qed.

Lemma sort_nil {A} (cmp : A -> A -> Z) (l : list A) :
  sort cmp l = [] -> l = [].
Proof.
  intros E. pose proof (sort_perm cmp l) as P. rewrite E in P.
  apply Permutation_sym, Permutation_nil in P. exact P.
Qed.

Lemma by_created_at_total (rank : nat -> nat) (x y : Job.t) :
  (0 < by_created_at rank x y)%Z -> (by_created_at rank y x <= 0)%Z.
Proof.
  unfold by_created_at.
  destruct (Nat.eqb_spec (Job.created_at x) (Job.created_at y));
    destruct (Nat.eqb_spec (Job.created_at y) (Job.created_at x)); lia.
Qed.

Lemma by_created_at_trans (rank : nat -> nat) (x y z : Job.t) :
  (by_created_at rank x y <= 0)%Z -> (by_created_at rank y z <= 0)%Z ->
  (by_created_at rank x z <= 0)%Z.
Proof.
  unfold by_created_at.
  destruct (Nat.eqb_spec (Job.created_at x) (Job.created_at y));
    destruct (Nat.eqb_spec (Job.created_at y) (Job.created_at z));
    destruct (Nat.eqb_spec (Job.created_at x) (Job.created_at z)); lia.
Qed.

Lemma by_created_at_refl (rank : nat -> nat) (x : Job.t) :
  (by_created_at rank x x <= 0)%Z.
Proof. unfold by_created_at. rewrite Nat.eqb_refl. lia. Qed.

Lemma by_created_at_le (rank : nat -> nat) (x y : Job.t) :
  (by_created_at rank x y <= 0)%Z -> Job.created_at x <= Job.created_at y.
Proof.
  unfold by_created_at.
  destruct (Nat.eqb_spec (Job.created_at x) (Job.created_at y)); lia.
Qed.

(** The job the query [.order('created_at').limit(1)] returns is one of the
    oldest matching jobs. *)
Lemma oldest_selected (env : Env) (b : nat) (p : JobStatus -> bool)
  (w : World) (job : Job.t) (rest : list Job.t) :
  firstn 1 (select_jobs env b p w) = job :: rest ->
  In job (simple_jobs w) /\ Job.batch_id job = b /\
  p (Job.status job) = true /\
  forall j, In j (simple_jobs w) -> Job.batch_id j = b ->
            p (Job.status j) = true ->
            Job.created_at job <= Job.created_at j.
Proof.
  intros F.
  destruct (select_jobs env b p w) as [|x l] eqn:E; [discriminate F|].
  cbn in F. injection F as -> _.
  assert (Hin : In job (select_jobs env b p w))
    by (rewrite E; left; reflexivity).
  apply Invariants.select_jobs_In in Hin. destruct Hin as (H1 & H2 & H3).
  split; [exact H1|]. split; [exact H2|]. split; [exact H3|].
  intros j Hj Hb Hp.
  unfold select_jobs in E.
  apply sort_head in E;
    [| apply by_created_at_total | apply by_created_at_trans
     | apply by_created_at_refl].
  destruct E as [_ Hmin].
  assert (Hj' : In j (filter (fun j => p (Job.status j))
                             (jobs_of b (simple_jobs w)))).
  { apply filter_In. split; [|exact Hp]. unfold jobs_of.
    apply filter_In. split; [exact Hj|]. apply Nat.eqb_eq. exact Hb. }
  apply (@by_created_at_le _ _ _ (Hmin j Hj')).
Qed.

Lemma none_selected (env : Env) (b : nat) (p : JobStatus -> bool)
  (w : World) :
  firstn 1 (select_jobs env b p w) = [] ->
  forall j, In j (simple_jobs w) -> Job.batch_id j = b ->
            p (Job.status j) = false.
Proof.
  intros F j Hj Hb.
  destruct (select_jobs env b p w) as [|x l] eqn:E; [|discriminate F].
  destruct (p (Job.status j)) eqn:Hp; [|reflexivity].
  assert (Hin : In j (select_jobs env b p w)).
  { apply Invariants.select_jobs_In. repeat split; assumption. }
  rewrite E in Hin. destruct Hin.
Qed.

(** The selection is the same text in the library and in the handler of
    the edge function. *)
Lemma next_job_same (env : Env) (b : nat) :
  Edge.next_job env b = Lib.getNextJobToProcess env b.
Proof. reflexivity. Qed.

Lemma getNextJobToProcess_answered (env : Env) (b : nat) (w : World) :
  store_error env (clock w) = None ->
  exists next w',
    Lib.getNextJobToProcess env b w = (Returned next, w') /\
    simple_batches w' = simple_batches w /\
    simple_jobs w' = simple_jobs w /\
    simple_blogs w' = simple_blogs w /\
    match next with
    | Some job =>
        In job (simple_jobs w) /\ Job.batch_id job = b /\
        ((in_progress (Job.status job) = true /\
          forall j, In j (simple_jobs w) -> Job.batch_id j = b ->
                    in_progress (Job.status j) = true ->
                    Job.created_at job <= Job.created_at j) \/
         (Job.status job = pending /\
          (forall j, In j (simple_jobs w) -> Job.batch_id j = b ->
                     in_progress (Job.status j) = false) /\
          forall j, In j (simple_jobs w) -> Job.batch_id j = b ->
                    Job.status j = pending ->
                    Job.created_at job <= Job.created_at j))
    | None =>
        (forall j, In j (simple_jobs w) -> Job.batch_id j = b ->
                   in_progress (Job.status j) = false) /\
        (store_error env (S (clock w)) = None ->
         forall j, In j (simple_jobs w) -> Job.batch_id j = b ->
                   Job.status j <> pending)
    end.
Proof.
  intros E0.
  unfold Lib.getNextJobToProcess. unfold bind at 1.
  rewrite Triples.read_unchecked_run, E0.
  destruct (firstn 1 (select_jobs env b in_progress (tick w)))
    as [|job rest] eqn:F.
  - pose proof (@none_selected _ _ _ _ F) as Hnone.
    change (simple_jobs (tick w)) with (simple_jobs w) in Hnone.
    unfold bind. rewrite Triples.read_unchecked_run.
    change (clock (tick w)) with (S (clock w)).
    destruct (store_error env (S (clock w))) as [e|] eqn:E1.
    + exists None, (tick (tick w)). repeat (split; [reflexivity|]).
      split; [exact Hnone|]. intros H. discriminate H.
    + destruct (firstn 1 (select_jobs env b
                            (fun s => JobStatus_eqb s pending)
                            (tick (tick w))))
        as [|job rest] eqn:G.
      * pose proof (@none_selected _ _ _ _ G) as Hnone'.
        change (simple_jobs (tick (tick w))) with (simple_jobs w) in Hnone'.
        exists None, (tick (tick w)). repeat (split; [reflexivity|]).
        split; [exact Hnone|].
        intros _ j Hj Hb Ej. specialize (Hnone' j Hj Hb).
        rewrite Ej in Hnone'. discriminate Hnone'.
      * apply oldest_selected in G. destruct G as (H1 & H2 & H3 & H4).
        change (simple_jobs (tick (tick w))) with (simple_jobs w) in H1, H4.
        exists (Some job), (tick (tick w)). repeat (split; [reflexivity|]).
        split; [exact H1|]. split; [exact H2|]. right.
        split; [destruct (Job.status job); try discriminate H3; reflexivity|].
        split; [exact Hnone|].
        intros j Hj Hb Ej. apply H4; try assumption. rewrite Ej. reflexivity.
  - apply oldest_selected in F. destruct F as (H1 & H2 & H3 & H4).
    change (simple_jobs (tick w)) with (simple_jobs w) in H1, H4.
    exists (Some job), (tick w). repeat (split; [reflexivity|]).
    split; [exact H1|]. split; [exact H2|]. left.
    split; [exact H3 | exact H4].
Qed.

(** The selection when the store answers its first read, in the library and
    in the edge function alike: the job selected is a job of the batch; if
    any job of the batch is researching, analyzing or writing, it is one of
    those, and none of them was created earlier; only when there is none, it
    is a pending job, and no pending job of the batch was created earlier;
    and when no job is selected, none is in progress, and none is pending
    either if the store answered the second read too.  The selection changes
    no table. *)
Theorem next_job_prefers_in_progress (env : Env) (b : nat) (w : World) :
  store_error env (clock w) = None ->
  exists next w',
    Lib.getNextJobToProcess env b w = (Returned next, w') /\
    Edge.next_job env b w = (Returned next, w') /\
    simple_batches w' = simple_batches w /\
    simple_jobs w' = simple_jobs w /\
    simple_blogs w' = simple_blogs w /\
    match next with
    | Some job =>
        In job (simple_jobs w) /\ Job.batch_id job = b /\
        ((in_progress (Job.status job) = true /\
          forall j, In j (simple_jobs w) -> Job.batch_id j = b ->
                    in_progress (Job.status j) = true ->
                    Job.created_at job <= Job.created_at j) \/
         (Job.status job = pending /\
          (forall j, In j (simple_jobs w) -> Job.batch_id j = b ->
                     in_progress (Job.status j) = false) /\
          forall j, In j (simple_jobs w) -> Job.batch_id j = b ->
                    Job.status j = pending ->
                    Job.created_at job <= Job.created_at j))
    | None =>
        (forall j, In j (simple_jobs w) -> Job.batch_id j = b ->
                   in_progress (Job.status j) = false) /\
        (store_error env (S (clock w)) = None ->
         forall j, In j (simple_jobs w) -> Job.batch_id j = b ->
                   Job.status j <> pending)
    end.
Proof.
  intros E0.
  destruct (@getNextJobToProcess_answered env b w E0) as (next & w' & Run & H).
  exists next, w'. split; [exact Run|]. split; [exact Run | exact H].
Qed.

(** ** Every order of the rows of equal time is an answer of the store *)

(** The place of the row with identifier [id] in a list. *)
Fixpoint position (id : nat) (l : list Job.t) : nat :=
  match l with
  | [] => 0
  | j :: l' => if Job.id j =? id then 0 else S (position id l')
  end.

Lemma by_created_at_opp (rank : nat -> nat) (x y : Job.t) :
  by_created_at rank y x = (- by_created_at rank x y)%Z.
Proof.
  unfold by_created_at. rewrite (Nat.eqb_sym (Job.created_at y)).
  destruct (Job.created_at x =? Job.created_at y); lia.
Qed.

Lemma by_created_at_shift (rank rank' : nat -> nat) (k : nat) (x y : Job.t) :
  rank' (Job.id x) = k + rank (Job.id x) ->
  rank' (Job.id y) = k + rank (Job.id y) ->
  by_created_at rank' x y = by_created_at rank x y.
Proof.
  intros Hx Hy. unfold by_created_at. rewrite Hx, Hy.
  destruct (Job.created_at x =? Job.created_at y); lia.
Qed.

Lemma StronglySorted_In_impl {A} (R R' : A -> A -> Prop) (l : list A) :
  (forall x y, In x l -> In y l -> R x y -> R' x y) ->
  StronglySorted R l -> StronglySorted R' l.
Proof.
  intros H S. induction S as [|x t S IH Hx]; [constructor|].
  constructor.
  - apply IH. intros a b Ha Hb. apply H; right; assumption.
  - rewrite Forall_forall in Hx |- *. intros y Hy.
    apply H; [left; reflexivity | right; exact Hy | apply Hx; exact Hy].
Qed.

Lemma sorted_strictly (l : list Job.t) :
  NoDup (map Job.id l) ->
  StronglySorted (fun x y => Job.created_at x <= Job.created_at y) l ->
  StronglySorted
    (fun x y => (by_created_at (fun id => position id l) x y < 0)%Z) l.
Proof.
  induction l as [|x t IH]; intros Hnd Hs; [constructor|].
  cbn [map] in Hnd. inversion Hnd as [|? ? Hx Hnd']; subst.
  inversion Hs as [|? ? Hs' Hle]; subst.
  assert (Hpos : forall y, In y t ->
            position (Job.id y) (x :: t) = 1 + position (Job.id y) t).
  { intros y Hy. cbn [position].
    destruct (Nat.eqb_spec (Job.id x) (Job.id y)) as [E|_]; [|reflexivity].
    exfalso. apply Hx. rewrite E. apply in_map. exact Hy. }
  constructor.
  - apply StronglySorted_In_impl with (2 := IH Hnd' Hs').
    intros a b Ha Hb H.
    rewrite (@by_created_at_shift (fun id => position id t)
               (fun id => position id (x :: t)) 1 a b (Hpos a Ha) (Hpos b Hb)).
    exact H.
  - rewrite Forall_forall in Hle |- *. intros y Hy. specialize (Hle y Hy).
    unfold by_created_at. rewrite (Hpos y Hy). cbn [position].
    rewrite Nat.eqb_refl.
    destruct (Nat.eqb_spec (Job.created_at x) (Job.created_at y)); lia.
Qed.

(** A list sorted strictly is the only sorted arrangement of its elements. *)
Lemma sorted_unique (rank : nat -> nat) (l m : list Job.t) :
  Permutation l m ->
  StronglySorted (fun x y => (by_created_at rank x y < 0)%Z) l ->
  StronglySorted (before (by_created_at rank)) m ->
  m = l.
Proof.
  revert m. induction l as [|x t IH]; intros m P Sl Sm.
  - apply Permutation_nil in P. exact P.
  - destruct m as [|y m'].
    { apply Permutation_sym, Permutation_nil in P. discriminate P. }
    inversion Sl as [|? ? St Hx]; subst.
    inversion Sm as [|? ? Sm' Hy]; subst.
    rewrite Forall_forall in Hx, Hy.
    assert (E : y = x).
    { assert (Hyin : In y (x :: t))
        by (apply (Permutation_in _ (Permutation_sym P)); left; reflexivity).
      destruct Hyin as [->|Hyt]; [reflexivity|].
      assert (Hxin : In x (y :: m'))
        by (apply (Permutation_in _ P); left; reflexivity).
      destruct Hxin as [->|Hxm]; [reflexivity|].
      specialize (Hx y Hyt). specialize (Hy x Hxm). unfold before in Hy.
      rewrite by_created_at_opp in Hy. lia. }
    subst y. f_equal. apply IH; [|exact St | exact Sm'].
    apply (Permutation_cons_inv P).
Qed.

(** The rows kept by a filter have distinct identifiers when all rows
    have. *)
Lemma distinct_ids_kept (keep : Job.t -> bool) (jobs : list Job.t) :
  NoDup (map Job.id jobs) -> NoDup (map Job.id (filter keep jobs)).
Proof.
  induction jobs as [|j jobs IH]; intros H; [constructor|].
  cbn [map] in H. inversion H as [|? ? Hj Hrest]; subst. cbn [filter].
  destruct (keep j); [|apply IH; exact Hrest].
  cbn [map]. constructor; [|apply IH; exact Hrest].
  intros Hin. apply Hj. apply in_map_iff in Hin.
  destruct Hin as (j' & E & Hj'). apply filter_In in Hj'.
  rewrite <- E. apply in_map. tauto.
Qed.

(** Whatever arrangement by creation time of the rows asked for the store
    returns, the model returns it, for the rank that gives every row its
    place in that arrangement. *)
Lemma select_jobs_any_order (env : Env) (b : nat) (p : JobStatus -> bool)
  (w : World) (answer : list Job.t) :
  NoDup (map Job.id (simple_jobs w)) ->
  Permutation (filter (fun j => p (Job.status j)) (jobs_of b (simple_jobs w)))
              answer ->
  StronglySorted (fun x y => Job.created_at x <= Job.created_at y) answer ->
  (forall id, tie_rank env (clock w) id = position id answer) ->
  select_jobs env b p w = answer.
Proof.
  intros Hnd P S Hrank. unfold select_jobs.
  set (l := filter (fun j => p (Job.status j)) (jobs_of b (simple_jobs w))) in *.
  assert (Hnd' : NoDup (map Job.id answer)).
  { apply (Permutation_NoDup (Permutation_map Job.id P)).
    unfold l, jobs_of. do 2 apply distinct_ids_kept. exact Hnd. }
  assert (R : forall x y,
             by_created_at (tie_rank env (clock w)) x y =
             by_created_at (fun id => position id answer) x y).
  { intros x y. apply by_created_at_shift with (k := 0); apply Hrank. }
  apply sorted_unique with (rank := tie_rank env (clock w)).
  - eapply perm_trans; [apply Permutation_sym; exact P | apply sort_perm].
  - apply StronglySorted_In_impl with (2 := sorted_strictly Hnd' S).
    intros x y _ _ H. rewrite R. exact H.
  - apply sort_sorted;
      [apply Selection.by_created_at_total | apply Selection.by_created_at_trans].
Qed.

End Selection.

(* ====================================================================== *)
(** * The write stage: one retry, and the score that is stored *)
(* ====================================================================== *)

Module WriteStage.
Import Js Num Store Triples.

Definition Call : Type := WriteBlogArgs * (str + BlogResult).

(** A draft that is kept: the fetcher's answer, its text with links and the
    percentage computed for that text. *)
Definition Kept : Type := BlogResult * str * number.

Section Policy.
Variable env : Env.
Variable links : str -> str.
Variable systemPrompt : option str.
Variable job : Job.t.
Variable research_analyzed : str.
Variable d : Scorer.NeuronWriterAnalysis.
Variable now : nat.

Definition rescored (blog : BlogResult) : Scorer.NeuronWriterScore :=
  Lib.score_of env (links (content blog)) d.

Definition below_threshold (blog : BlogResult) : bool :=
  ltb (Scorer.percentage (rescored blog)) (of_Z 60).

Definition keep (blog : BlogResult) : Kept :=
  (blog, links (content blog), Scorer.percentage (rescored blog)).

Definition first_args : WriteBlogArgs :=
  Lib.first_call job research_analyzed (Some d) systemPrompt.

Definition retry_args (first : BlogResult) : WriteBlogArgs :=
  Lib.retry_call job research_analyzed d systemPrompt (rescored first).

(** The retry policy in the specification's words: the calls of the writing
    fetcher with their answers, and the draft that is kept, if any.  The
    fetcher is asked at [now]; a second call, at [now + 1], is made exactly
    when the first draft scores below 60, and its draft is kept whatever it
    scores. *)
Inductive retry_once : list Call -> option Kept -> Prop :=
| first_fails (e : str) :
    writeBlog env now first_args = inl e ->
    retry_once [(first_args, inl e)] None
| first_accepted (b1 : BlogResult) :
    writeBlog env now first_args = inr b1 ->
    below_threshold b1 = false ->
    retry_once [(first_args, inr b1)] (Some (keep b1))
| retry_fails (b1 : BlogResult) (e : str) :
    writeBlog env now first_args = inr b1 ->
    below_threshold b1 = true ->
    writeBlog env (S now) (retry_args b1) = inl e ->
    retry_once [(first_args, inr b1); (retry_args b1, inl e)] None
| retry_kept (b1 b2 : BlogResult) :
    writeBlog env now first_args = inr b1 ->
    below_threshold b1 = true ->
    writeBlog env (S now) (retry_args b1) = inr b2 ->
    retry_once [(first_args, inr b1); (retry_args b1, inr b2)]
               (Some (keep b2)).

Lemma retry_once_at_most_two (calls : list Call) (kept : option Kept) :
  retry_once calls kept -> 1 <= length calls <= 2.
Proof. intros H. destruct H; cbn; lia. Qed.

Lemma retry_args_context (first : BlogResult) :
  arg_retryContext (retry_args first) =
  Some {| missingKeywords := Scorer.missingTerms (rescored first);
          previousScore := Scorer.percentage (rescored first);
          attempt := 2 |}.
Proof. reflexivity. Qed.

End Policy.

(** What a run of [write_draft] has done to the store. *)
Definition drafting (w w1 : World) (calls : list Call) : Prop :=
  writeBlog_calls w1 = writeBlog_calls w ++ calls /\
  simple_blogs w1 = simple_blogs w /\
  clock w1 = clock w + length calls.

Definition returns_kept (r : outcome (BlogResult * str * option number))
  (kept : option Kept) : Prop :=
  match r with
  | Returned (blog, text, score) =>
      exists pct, score = Some pct /\ kept = Some (blog, text, pct)
  | Thrown _ => kept = None
  end.

Ltac close_drafting :=
  repeat split; cbn; try lia; rewrite <- app_assoc; reflexivity.

Ltac run_retry w E1 Elt :=
  let E2 := fresh "E2" in
  match goal with
  | |- context [writeBlog ?env (clock (log_call ?c (tick w))) ?a] =>
      change (clock (log_call c (tick w))) with (S (clock w));
      destruct (writeBlog env (S (clock w)) a) eqn:E2
  end;
  [ eexists; exists None; split;
    [eapply retry_fails; [exact E1 | exact Elt | exact E2]|];
    split; [|reflexivity]; close_drafting
  | eexists; eexists; split;
    [eapply retry_kept; [exact E1 | exact Elt | exact E2]|];
    split; [|eexists; split; reflexivity]; close_drafting ].

Ltac run_write_draft w :=
  let E1 := fresh "E1" in
  let Elt := fresh "Elt" in
  unfold bind, Lib.call_writeBlog, ret;
  match goal with
  | |- context [writeBlog ?env (clock w) ?a] =>
      destruct (writeBlog env (clock w) a) eqn:E1
  end;
  [ eexists; exists None; split; [apply first_fails; exact E1|];
    split; [|reflexivity]; repeat split; cbn; lia
  | match goal with
    | |- context [ltb ?x ?y] => destruct (ltb x y) eqn:Elt
    end;
    [ run_retry w E1 Elt
    | eexists; eexists; split;
      [eapply first_accepted; [exact E1 | exact Elt]|];
      split; [|eexists; split; reflexivity];
      repeat split; cbn; lia ] ].

Lemma lib_write_draft (env : Env) (job : Job.t) (research_analyzed : str)
  (d : Scorer.NeuronWriterAnalysis) (w : World) :
  exists calls kept,
    retry_once env Lib.with_links (Some (getFullWritingContext env)) job
               research_analyzed d (clock w) calls kept /\
    drafting w (snd (Lib.write_draft env job research_analyzed (Some d) w))
             calls /\
    returns_kept (fst (Lib.write_draft env job research_analyzed (Some d) w))
                 kept.
Proof.
  unfold Lib.write_draft. run_write_draft w.
Qed.

Lemma edge_write_draft (env : Env) (job : Job.t) (research_analyzed : str)
  (d : Scorer.NeuronWriterAnalysis) (w : World) :
  exists calls kept,
    retry_once env Edge.with_links None job research_analyzed d (clock w)
               calls kept /\
    drafting w (snd (Edge.write_draft env job research_analyzed (Some d) w))
             calls /\
    returns_kept (fst (Edge.write_draft env job research_analyzed (Some d) w))
                 kept.
Proof.
  unfold Edge.write_draft. run_write_draft w.
Qed.

(** ** What the rest of the stage leaves alone *)

(** A predicate on the calls made so far and on the blogs table only. *)
Definition drafts_kept (P : list Call -> list Blog.t -> Prop) (w : World)
  : Prop :=
  P (writeBlog_calls w) (simple_blogs w).

Section Tail.
Variable env : Env.

Lemma updateJobStatus_drafts (P : list Call -> list Blog.t -> Prop)
  (jid : nat) (s : JobStatus) (e : option str) :
  triple (drafts_kept P) (Lib.updateJobStatus env jid s e)
         (fun _ => drafts_kept P) (drafts_kept P).
Proof.
  intros w H. unfold Lib.updateJobStatus, bind, get, request.
  destruct (store_error env (clock w)); exact H.
Qed.

Lemma incrementBatchProgress_drafts (P : list Call -> list Blog.t -> Prop)
  (b : nat) (field : ProgressField) :
  triple (drafts_kept P) (Lib.incrementBatchProgress env b field)
         (fun _ => drafts_kept P) (drafts_kept P).
Proof.
  intros w H. unfold Lib.incrementBatchProgress, bind, get, request.
  destruct (store_error env (clock w)); [exact H|].
  destruct (find_batch b (tick w)); [|exact H].
  cbn. destruct (store_error env (S (clock w))); exact H.
Qed.

Lemma saveBlog_drafts (L : list Call) (B : list Blog.t) (jid : nat)
  (keyword title text : str) (meta : option str) (score : option number) :
  triple (drafts_kept (fun c b => c = L /\ b = B))
         (Lib.saveBlog env jid keyword title text meta score)
         (fun _ => drafts_kept
                     (fun c b => c = L /\
                                 exists blog, b = B ++ [blog] /\
                                   Blog.neuronwriter_score blog = score /\
                                   Blog.content blog = text))
         (drafts_kept (fun c b => c = L /\ b = B)).
Proof.
  intros w [H1 H2]. unfold Lib.saveBlog, bind, get, request.
  destruct (store_error env (clock w)); [split; assumption|].
  change (simple_blogs (tick w)) with (simple_blogs w).
  destruct (existsb _ (simple_blogs w)); [split; assumption|].
  cbn. split; [exact H1|]. eexists. split; [rewrite <- H2; reflexivity|].
  split; reflexivity.
Qed.

Lemma update_job_unchecked_drafts (P : list Call -> list Blog.t -> Prop)
  (jid : nat) (u : JobUpdate) :
  triple (drafts_kept P) (Edge.update_job_unchecked jid u)
         (fun _ => drafts_kept P) (drafts_kept P).
Proof. intros w H. exact H. Qed.

Lemma increment_unchecked_drafts (P : list Call -> list Blog.t -> Prop)
  (b : nat) (field : ProgressField) :
  triple (drafts_kept P) (Edge.increment_unchecked b field)
         (fun _ => drafts_kept P) (drafts_kept P).
Proof.
  intros w H. unfold Edge.increment_unchecked, bind, get.
  destruct (find_batch b w); exact H.
Qed.

Lemma insert_blog_unchecked_drafts (L : list Call) (B : list Blog.t)
  (blog : Blog.t) :
  triple (drafts_kept (fun c b => c = L /\ b = B))
         (Edge.insert_blog_unchecked blog)
         (fun _ => drafts_kept
                     (fun c b => c = L /\ (b = B \/ b = B ++ [blog])))
         (drafts_kept (fun c b => c = L /\ b = B)).
Proof.
  intros w [H1 H2]. unfold Edge.insert_blog_unchecked, bind, get.
  destruct (existsb _ (simple_blogs w)); cbn.
  - split; [exact H1 | left; exact H2].
  - split; [exact H1 | right; rewrite <- H2; reflexivity].
Qed.

(** The provider's own score for a draft, when the analysis has a query
    handle and the import succeeds. *)
Definition official (d : Scorer.NeuronWriterAnalysis) (draft : BlogResult)
  (text : str) (now : nat) : option number :=
  if Edge.nonempty_text (Scorer.queryId d)
  then fst (Edge.import_answer env d draft (Edge.postProcessContent env text)
                               now)
  else None.

Section Step.
Variable job : Job.t.
Variable batchId : nat.
Variable w : World.
Variable research_analyzed : str.
Variable d : Scorer.NeuronWriterAnalysis.

Definition lib_outcome (cs : list Call) (bs : list Blog.t) : Prop :=
  exists calls kept,
    retry_once env Lib.with_links (Some (getFullWritingContext env)) job
               research_analyzed d (clock w) calls kept /\
    cs = writeBlog_calls w ++ calls /\
    (bs = simple_blogs w \/
     exists blog draft text pct,
       kept = Some (draft, text, pct) /\
       bs = simple_blogs w ++ [blog] /\
       Blog.neuronwriter_score blog = Some pct).

Definition edge_outcome (cs : list Call) (bs : list Blog.t) : Prop :=
  exists calls kept,
    retry_once env Edge.with_links None job research_analyzed d (clock w)
               calls kept /\
    cs = writeBlog_calls w ++ calls /\
    (bs = simple_blogs w \/
     exists blog draft text pct,
       kept = Some (draft, text, pct) /\
       bs = simple_blogs w ++ [blog] /\
       Blog.neuronwriter_score blog =
         Edge.finalScore (official d draft text (clock w + length calls))
                         (Some pct)).

Lemma lib_doWriteStep_outcome (row : Job.t) (c : code_unit) (analyzed : str) :
  research_analyzed = c :: analyzed ->
  find_job (Job.id job) w = Some row ->
  Job.research_analyzed row = Some research_analyzed ->
  Job.neuronwriter_data row = Some d ->
  triple (eq w) (Lib.doWriteStep env job batchId)
         (fun _ => drafts_kept lib_outcome) (drafts_kept lib_outcome).
Proof.
  intros Hc Hf Hra Hnd. unfold Lib.doWriteStep.
  eapply triple_try_catch with (E' := drafts_kept lib_outcome).
  2: { intros e. unfold Lib.setJobError.
       eapply triple_bind; [apply updateJobStatus_drafts|]. intros ? .
       eapply triple_bind; [apply incrementBatchProgress_drafts|]. intros ? .
       apply triple_ret. }
  intros w0 <-. unfold bind at 1. unfold get. cbv beta iota zeta.
  rewrite Hf. cbn [option_map]. rewrite Hra, Hnd, Hc. rewrite <- Hc.
  destruct (lib_write_draft env job research_analyzed d w)
    as (calls & kept & Hp & Hd & Hk).
  unfold bind at 1.
  destruct (Lib.write_draft env job research_analyzed (Some d) w)
    as [[final|e] w1]; cbn [fst snd] in Hd, Hk.
  - destruct final as [[draft text] score]. destruct Hk as (pct & -> & ->).
    destruct Hd as (Hcalls & Hblogs & _).
    refine ((_ : triple
                   (drafts_kept (fun cs bs => cs = writeBlog_calls w ++ calls /\
                                              bs = simple_blogs w))
                   _ (fun _ => drafts_kept lib_outcome)
                   (drafts_kept lib_outcome)) w1 (conj Hcalls Hblogs)).
    eapply triple_bind with (Q := fun _ => drafts_kept lib_outcome).
    + eapply triple_weaken; [apply saveBlog_drafts | intros ? HH; exact HH | |].
      * intros _ w2 [H1 (blog & H2 & H3 & _)].
        exists calls, (Some (draft, text, pct)).
        split; [exact Hp|]. split; [exact H1|]. right.
        exists blog, draft, text, pct.
        split; [reflexivity|]. split; [exact H2 | exact H3].
      * intros w2 [H1 H2].
        exists calls, (Some (draft, text, pct)).
        split; [exact Hp|]. split; [exact H1|]. left. exact H2.
    + intros ? .
      eapply triple_bind; [apply updateJobStatus_drafts|]. intros ? .
      eapply triple_bind; [apply incrementBatchProgress_drafts|]. intros ? .
      apply triple_ret.
  - destruct Hd as (Hcalls & Hblogs & _).
    exists calls, kept. split; [exact Hp|]. split; [exact Hcalls|].
    left. exact Hblogs.
Qed.

Lemma edge_tail (L : list Call) (B : list Blog.t) (blog : Blog.t)
  (result : StepResult) :
  (forall cs bs, cs = L /\ (bs = B \/ bs = B ++ [blog]) ->
                 edge_outcome cs bs) ->
  triple (drafts_kept (fun cs bs => cs = L /\ bs = B))
         (Edge.insert_blog_unchecked blog ;;;
          Edge.update_job_unchecked (Job.id job)
            (Edge.status_update completed None (Some (Blog.created_at blog))) ;;;
          Edge.increment_unchecked batchId completed_keywords_field ;;;
          ret result)
         (fun _ => drafts_kept edge_outcome) (drafts_kept edge_outcome).
Proof.
  intros HR.
  eapply triple_bind with (Q := fun _ => drafts_kept edge_outcome).
  - eapply triple_weaken;
      [apply insert_blog_unchecked_drafts | intros ? HH; exact HH | |].
    + intros ? w2 H. apply HR. exact H.
    + intros w2 [H1 H2]. apply HR. split; [exact H1 | left; exact H2].
  - intros ? .
    eapply triple_bind; [apply update_job_unchecked_drafts|]. intros ? .
    eapply triple_bind; [apply increment_unchecked_drafts|]. intros ? .
    apply triple_ret.
Qed.

Lemma edge_doWriteStep_outcome (row : Job.t) (c : code_unit) (analyzed : str) :
  research_analyzed = c :: analyzed ->
  find_job (Job.id job) w = Some row ->
  Job.research_analyzed row = Some research_analyzed ->
  Job.neuronwriter_data row = Some d ->
  triple (eq w) (Edge.doWriteStep env job batchId)
         (fun _ => drafts_kept edge_outcome) (drafts_kept edge_outcome).
Proof.
  intros Hc Hf Hra Hnd. unfold Edge.doWriteStep.
  eapply triple_try_catch with (E' := drafts_kept edge_outcome).
  2: { intros e.
       eapply triple_bind; [apply update_job_unchecked_drafts|]. intros ? .
       eapply triple_bind; [apply increment_unchecked_drafts|]. intros ? .
       apply triple_ret. }
  intros w0 <-. unfold bind at 1. unfold get. cbv beta iota zeta.
  rewrite Hf. cbn [option_map]. rewrite Hra, Hnd, Hc. rewrite <- Hc.
  destruct (edge_write_draft env job research_analyzed d w)
    as (calls & kept & Hp & Hd & Hk).
  unfold bind at 1.
  destruct (Edge.write_draft env job research_analyzed (Some d) w)
    as [[final|e] w1]; cbn [fst snd] in Hd, Hk.
  - destruct final as [[draft text] score]. destruct Hk as (pct & -> & ->).
    destruct Hd as (Hcalls & Hblogs & Hclock).
    assert (HR : forall real url now next cs bs,
               real = official d draft text (clock w + length calls) ->
               cs = writeBlog_calls w ++ calls /\
               (bs = simple_blogs w \/
                bs = simple_blogs w ++
                     [{| Blog.id := next;
                         Blog.job_id := Job.id job;
                         Blog.keyword := Job.keyword job;
                         Blog.title := title draft;
                         Blog.content := Edge.postProcessContent env text;
                         Blog.meta_description := Some (metaDescription draft);
                         Blog.word_count :=
                           Some (length (Edge.postProcessContent env text));
                         Blog.internal_links :=
                           PostProcess.internal_links_of
                             (Edge.postProcessContent env text);
                         Blog.neuronwriter_score :=
                           Edge.finalScore real (Some pct);
                         Blog.neuronwriter_editor_url := url;
                         Blog.created_at := now |}]) ->
               edge_outcome cs bs).
    { intros real url now next cs bs Hreal [H1 H2].
      exists calls, (Some (draft, text, pct)).
      split; [exact Hp|]. split; [exact H1|].
      destruct H2 as [H2|H2]; [left; exact H2|]. right.
      eexists; exists draft, text, pct.
      split; [reflexivity|]. split; [exact H2|]. cbn. rewrite Hreal.
      reflexivity. }
    unfold bind at 1. unfold Edge.import_draft.
    destruct (Edge.nonempty_text (Scorer.queryId d)) eqn:Hq.
    + destruct (Edge.import_answer env d draft
                  (Edge.postProcessContent env text) (clock w1))
        as [real url] eqn:Hi.
      unfold bind at 1. unfold get.
      refine (@edge_tail (writeBlog_calls w ++ calls) (simple_blogs w) _ _ _
                         (tick w1) (conj Hcalls Hblogs)).
      intros cs bs H. eapply HR; [|exact H].
      unfold official. rewrite Hq, <- Hclock, Hi. reflexivity.
    + unfold ret at 1. unfold bind at 1. unfold get.
      refine (@edge_tail (writeBlog_calls w ++ calls) (simple_blogs w) _ _ _
                         w1 (conj Hcalls Hblogs)).
      intros cs bs H. eapply HR; [|exact H].
      unfold official. rewrite Hq. reflexivity.
  - destruct Hd as (Hcalls & Hblogs & _).
    exists calls, kept. split; [exact Hp|]. split; [exact Hcalls|].
    left. exact Hblogs.
Qed.

End Step.

End Tail.

(** C4. With SEO data in the job's row, a write step calls the writing
    fetcher once or twice: the second call is made exactly when the first
    draft, with its links, scores below 60; it carries the missing terms and
    the score of the first draft; its draft gets links and a score of its own
    and is kept whatever that score is.  A blog row written by the library's
    step stores the computed score of the draft kept, the last one generated.
    A blog row written by the edge function stores the provider's own score
    when the import of the draft succeeds with one, and the computed score of
    the last draft otherwise. *)
Theorem doWriteStep_retries_once (env : Env) (job : Job.t) (batchId : nat)
  (w : World) (row : Job.t) (c : code_unit) (analyzed : str)
  (d : Scorer.NeuronWriterAnalysis) :
  find_job (Job.id job) w = Some row ->
  Job.research_analyzed row = Some (c :: analyzed) ->
  Job.neuronwriter_data row = Some d ->
  (exists calls kept,
     retry_once env Lib.with_links (Some (getFullWritingContext env)) job
                (c :: analyzed) d (clock w) calls kept /\
     length calls <= 2 /\
     let w' := snd (Lib.doWriteStep env job batchId w) in
     writeBlog_calls w' = writeBlog_calls w ++ calls /\
     (simple_blogs w' = simple_blogs w \/
      exists blog draft text pct,
        kept = Some (draft, text, pct) /\
        simple_blogs w' = simple_blogs w ++ [blog] /\
        Blog.neuronwriter_score blog = Some pct)) /\
  (exists calls kept,
     retry_once env Edge.with_links None job (c :: analyzed) d (clock w)
                calls kept /\
     length calls <= 2 /\
     let w' := snd (Edge.doWriteStep env job batchId w) in
     writeBlog_calls w' = writeBlog_calls w ++ calls /\
     (simple_blogs w' = simple_blogs w \/
      exists blog draft text pct,
        kept = Some (draft, text, pct) /\
        simple_blogs w' = simple_blogs w ++ [blog] /\
        Blog.neuronwriter_score blog =
          Edge.finalScore
            (official env d draft text (clock w + length calls))
            (Some pct))).
Proof.
  intros Hf Hra Hnd. split.
  - pose proof (@lib_doWriteStep_outcome env job batchId w (c :: analyzed) d
                  row c analyzed eq_refl Hf Hra Hnd w eq_refl) as H.
    destruct (Lib.doWriteStep env job batchId w) as [[r|e] w'];
      destruct H as (calls & kept & Hp & Hcalls & Hblogs);
      exists calls, kept;
      (split; [exact Hp|]);
      (split; [apply (retry_once_at_most_two Hp)|]);
      (split; [exact Hcalls | exact Hblogs]).
  - pose proof (@edge_doWriteStep_outcome env job batchId w (c :: analyzed) d
                  row c analyzed eq_refl Hf Hra Hnd w eq_refl) as H.
    destruct (Edge.doWriteStep env job batchId w) as [[r|e] w'];
      destruct H as (calls & kept & Hp & Hcalls & Hblogs);
      exists calls, kept;
      (split; [exact Hp|]);
      (split; [apply (retry_once_at_most_two Hp)|]);
      (split; [exact Hcalls | exact Hblogs]).
Qed.

End WriteStage.

(* ====================================================================== *)
(** * A batch of one keyword, run to the end *)
(* ====================================================================== *)

Module Scenario.
Import Js Num Store.

Definition draft : BlogResult :=
  {| title := lit "Saving habits"%string;
     content := LinkPlacer.three_paragraphs;
     metaDescription := lit "How to save"%string |}.

Definition analysis : Scorer.NeuronWriterAnalysis :=
  {| Scorer.queryId := Some (lit "q1"%string);
     Scorer.recommendedTerms := [lit "visa"%string; lit "zzz"%string];
     Scorer.competitorHeadings := [];
     Scorer.wordCountTarget := 3000;
     Scorer.topKeywords := [] |}.

(** Fetchers that always answer, the writer always with the same draft; a
    store that refuses the requests [fails] says; a provider whose import
    succeeds with the score [official]. *)
Definition demo (fails : nat -> option str) (official : option number) : Env :=
  {| store_error := fails;
     tie_rank := fun _ _ => 0;
     research := fun _ _ => inr (lit "raw notes"%string);
     analyzeResearch := fun _ _ _ => inr (lit "brief"%string);
     analyzeKeyword := fun _ _ => inr analysis;
     writeBlog := fun _ _ => inr draft;
     importToNeuronWriter :=
       fun _ _ _ _ _ =>
         {| success := true; contentScore := official;
            editorUrl := Some (lit "https://app.neuronwriter.com/e/1"%string) |};
     getFullWritingContext := lit "context"%string;
     removePushyCTAs := fun s => s;
     trim := fun s => s;
     toLowerCase := Scorer.ascii_toLowerCase;
     canonicalize := Scorer.ascii_canonicalize |}.

Definition steady : Env := demo (fun _ => None) (Some (of_Z 71)).

(** The store refuses its twenty-first request, and no other. *)
Definition flaky : Env :=
  demo (fun t => if t =? 20 then Some (lit "timeout"%string) else None)
       (Some (of_Z 71)).

Definition created (env : Env) : World :=
  snd (Lib.createBatch env [lit "savings"%string] true empty_world).

Definition stepped (env : Env) (w : World) : World :=
  snd (Lib.processOneStep env 0 true w).

Definition researched (env : Env) : World := stepped env (created env).
Definition analyzed (env : Env) : World := stepped env (researched env).
Definition written (env : Env) : World := stepped env (analyzed env).

Definition edge_stepped (env : Env) (w : World) : World :=
  snd (Edge.serve env 0 None w).

Definition edge_analyzed (env : Env) : World :=
  edge_stepped env (edge_stepped env (created env)).
Definition edge_written (env : Env) : World :=
  edge_stepped env (edge_analyzed env).

(** The only job of the batch, as the dispatcher finds it before the write
    step. *)
Definition writing_job : Job.t :=
  {| Job.id := 1;
     Job.batch_id := 0;
     Job.keyword := lit "savings"%string;
     Job.status := writing;
     Job.error := None;
     Job.research_raw := Some (lit "raw notes"%string);
     Job.research_analyzed := Some (lit "brief"%string);
     Job.neuronwriter_data := Some analysis;
     Job.started_at := Some 5;
     Job.completed_at := None;
     Job.created_at := 2 |}.

Lemma reachable_analyzed (env : Env) : Invariants.reachable env (analyzed env).
Proof.
  unfold analyzed, researched, stepped, created.
  do 2 apply Invariants.reachable_processOneStep.
  apply Invariants.reachable_createBatch. apply Invariants.reachable_empty.
Qed.

Lemma reachable_written (env : Env) : Invariants.reachable env (written env).
Proof.
  unfold written. unfold stepped at 1.
  apply Invariants.reachable_processOneStep. apply reachable_analyzed.
Qed.

Lemma writing_job_found :
  find_job 1 (analyzed steady) = Some writing_job.
Proof. vm_compute. reflexivity. Qed.

(** ** The batch counters and the batch status *)

(** The batch status is terminal exactly when as many jobs are terminal as
    the batch has keywords. *)
Definition terminal_iff_all_done (w : World) : Prop :=
  forall B, In B (simple_batches w) ->
    (Batch.status B = batch_completed \/ Batch.status B = batch_failed) <->
    Invariants.terminal_count (Batch.id B) (simple_jobs w)
    = Batch.total_keywords B.

Definition running_and_all_done (w : World) (B : Batch.t) : bool :=
  match Batch.status B with
  | batch_running =>
      Invariants.terminal_count (Batch.id B) (simple_jobs w)
      =? Batch.total_keywords B
  | _ => false
  end.

(** After the write step of its only job the batch has one keyword, one
    terminal job, a counter of one, and the status running: the status
    becomes terminal only in the invocation after. *)
Lemma batch_running_after_last_job :
  Invariants.reachable steady (written steady) /\
  ~ terminal_iff_all_done (written steady).
Proof.
  split; [apply reachable_written|].
  assert (Hx : existsb (running_and_all_done (written steady))
                       (simple_batches (written steady)) = true)
    by (vm_compute; reflexivity).
  generalize dependent (written steady). intros w Hx H.
  apply existsb_exists in Hx. destruct Hx as (B & HB & Hx).
  unfold running_and_all_done in Hx.
  destruct (Batch.status B) eqn:Hs;
    [discriminate Hx | | discriminate Hx | discriminate Hx].
  apply Nat.eqb_eq in Hx. apply (H B HB) in Hx.
  destruct Hx as [Hx|Hx]; rewrite Hs in Hx; discriminate Hx.
Qed.

Lemma batch_progress_run :
  let env := steady in
  let w := written steady in
  Invariants.reachable env w /\
  (forall B, In B (simple_batches w) ->
     Batch.completed_keywords B + Batch.failed_keywords B
       <= Batch.total_keywords B /\
     (Batch.status B = batch_failed ->
      Invariants.all_failed (Batch.id B) (simple_jobs w) = true) /\
     (Batch.status B = batch_completed ->
      Invariants.all_terminal (Batch.id B) (simple_jobs w) = true /\
      Invariants.all_failed (Batch.id B) (simple_jobs w) = false)) /\
  (forall b use,
     Invariants.all_terminal b (simple_jobs w) = true ->
     store_error env (clock w) = None ->
     store_error env (3 + clock w) = None ->
     store_error env (4 + clock w) = None ->
     forall B, In B (simple_batches (snd (Lib.processOneStep env b use w))) ->
               Batch.id B = b ->
               Batch.status B =
               if Invariants.all_failed b (simple_jobs w) then batch_failed
               else batch_completed).
Proof.
  intros env w.
  split; [apply reachable_written|].
  apply (@Invariants.batch_progress env w). apply reachable_written.
Defined.

(** ** The score that is stored *)

Definition computed_scores (env : Env) (links : str -> str) (w : World)
  : list (option number) :=
  map (fun call : WriteStage.Call =>
         match snd call with
         | inr blog =>
             Some (Scorer.percentage
                     (Lib.score_of env (links (content blog)) analysis))
         | inl _ => None
         end)
      (writeBlog_calls w).

(** The edge function writes two drafts that both score 58, and stores the
    provider's 71. *)
Lemma edge_stores_provider_score :
  computed_scores steady Edge.with_links (edge_written steady)
  = [Some (of_Z 58); Some (of_Z 58)] /\
  map Blog.neuronwriter_score (simple_blogs (edge_written steady))
  = [Some (of_Z 71)].
Proof. split; vm_compute; reflexivity. Qed.

Lemma doWriteStep_retries_once_run :
  let env := steady in
  let job := writing_job in
  let w := analyzed steady in
  let research_analyzed := lit "brief"%string in
  let d := analysis in
  let batchId := 0 in
  find_job (Job.id job) w = Some job /\
  Job.research_analyzed job = Some research_analyzed /\
  Job.neuronwriter_data job = Some d /\
  (exists calls kept,
     WriteStage.retry_once env Lib.with_links
       (Some (getFullWritingContext env)) job research_analyzed d (clock w)
       calls kept /\
     length calls <= 2 /\
     let w' := snd (Lib.doWriteStep env job batchId w) in
     writeBlog_calls w' = writeBlog_calls w ++ calls /\
     (simple_blogs w' = simple_blogs w \/
      exists blog draft text pct,
        kept = Some (draft, text, pct) /\
        simple_blogs w' = simple_blogs w ++ [blog] /\
        Blog.neuronwriter_score blog = Some pct)) /\
  (exists calls kept,
     WriteStage.retry_once env Edge.with_links None job research_analyzed d
       (clock w) calls kept /\
     length calls <= 2 /\
     let w' := snd (Edge.doWriteStep env job batchId w) in
     writeBlog_calls w' = writeBlog_calls w ++ calls /\
     (simple_blogs w' = simple_blogs w \/
      exists blog draft text pct,
        kept = Some (draft, text, pct) /\
        simple_blogs w' = simple_blogs w ++ [blog] /\
        Blog.neuronwriter_score blog =
          Edge.finalScore
            (WriteStage.official env d draft text (clock w + length calls))
            (Some pct))).
Proof.
  intros env job w research_analyzed d batchId.
  split; [exact writing_job_found|].
  split; [reflexivity|]. split; [reflexivity|].
  apply (@WriteStage.doWriteStep_retries_once env job batchId w job
           98%N (lit "rief"%string) d);
    [exact writing_job_found | reflexivity | reflexivity].
Defined.

(** ** A job that is completed, then failed *)

(** C7, at the input where the library breaks it.  The job is in writing;
    the store answers every request of the write step but the read of the
    batch counters that follows the job's move to completed.  The step saves
    the blog, moves the job to completed, and its handler then moves the
    same job to failed and counts it as failed. *)
Theorem write_step_fails_completed_job :
  let w := analyzed flaky in
  let w' := snd (Lib.processOneStep flaky 0 true w) in
  Invariants.reachable flaky w /\
  map Job.status (simple_jobs w) = [writing] /\
  transitions w' =
    transitions w ++ [(1, writing, completed); (1, completed, failed)] /\
  map Job.status (simple_jobs w') = [failed] /\
  map Blog.job_id (simple_blogs w') = [1] /\
  map (fun B => (Batch.completed_keywords B, Batch.failed_keywords B))
      (simple_batches w') = [(0, 1)].
Proof.
  cbv zeta. split; [apply reachable_analyzed|].
  split; [vm_compute; reflexivity|].
  split; [vm_compute; reflexivity|].
  split; [vm_compute; reflexivity|].
  split; vm_compute; reflexivity.
Qed.

(** The edge function, given the same store, leaves the completed job
    alone: it does not look at the answer to the counter's read. *)
Lemma edge_write_step_keeps_completed_job :
  let w := edge_analyzed flaky in
  let w' := snd (Edge.serve flaky 0 None w) in
  map Job.status (simple_jobs w) = [writing] /\
  transitions w' = transitions w ++ [(1, writing, completed)] /\
  map Job.status (simple_jobs w') = [completed].
Proof.
  cbv zeta. split; [vm_compute; reflexivity|].
  split; vm_compute; reflexivity.
Qed.

(** ** A pending job started while another is in progress *)

(** The store refuses the request made at time [t0], and no other. *)
Definition refusing (t0 : nat) : Env :=
  demo (fun t => if t =? t0 then Some (lit "timeout"%string) else None)
       (Some (of_Z 71)).

Definition two_jobs (env : Env) : World :=
  snd (Lib.createBatch env [lit "savings"%string; lit "budget"%string] true
                       empty_world).

(** The job a dispatcher reports to have worked on. *)
Definition picked (o : outcome StepResult) : option nat :=
  match o with
  | Returned r => jobId r
  | Thrown _ => None
  end.

Definition edge_picked (o : outcome (str + StepResult)) : option nat :=
  match o with
  | Returned (inr r) => jobId r
  | _ => None
  end.

Definition selected_id (o : outcome (option Job.t)) : option nat :=
  match o with
  | Returned (Some job) => Some (Job.id job)
  | _ => None
  end.

Definition rows (w : World) : list (nat * JobStatus * nat) :=
  map (fun j => (Job.id j, Job.status j, Job.created_at j)) (simple_jobs w).

(** C9, at the input where the code breaks it.  A batch has two jobs
    created at the same time; the first is in analyzing, left there by the
    invocation before, and the second is pending.  In the next invocation
    the store refuses the read of the jobs in progress, once, and answers
    every other request.  The selection takes the refusal for an empty
    answer: it returns the pending job, and the dispatcher moves that job to
    researching and on to analyzing while the job in progress waits.  So it
    is for [processOneStep] of the library and for the handler of the edge
    function; with the read answered both select the job in progress. *)
Theorem selection_starts_pending_job :
  let env := refusing 9 in
  let w := stepped env (two_jobs env) in
  let r := Lib.processOneStep env 0 true w in
  let edge_env := refusing 6 in
  let edge_w := edge_stepped edge_env (two_jobs edge_env) in
  let edge_r := Edge.serve edge_env 0 None edge_w in
  (Invariants.reachable env w /\
   rows w = [(1, analyzing, 2); (2, pending, 2)] /\
   store_error env (S (clock w)) = Some (lit "timeout"%string) /\
   picked (fst r) = Some 2 /\
   transitions (snd r) =
     transitions w ++ [(2, pending, researching); (2, researching, analyzing)] /\
   rows (snd r) = [(1, analyzing, 2); (2, analyzing, 2)] /\
   selected_id (fst (Lib.getNextJobToProcess steady 0 w)) = Some 1) /\
  (rows edge_w = [(1, analyzing, 2); (2, pending, 2)] /\
   store_error edge_env (clock edge_w) = Some (lit "timeout"%string) /\
   edge_picked (fst edge_r) = Some 2 /\
   transitions (snd edge_r) =
     transitions edge_w ++
     [(2, pending, researching); (2, researching, analyzing)] /\
   rows (snd edge_r) = [(1, analyzing, 2); (2, analyzing, 2)] /\
   selected_id (fst (Edge.next_job steady 0 edge_w)) = Some 1).
Proof.
  cbv zeta. split.
  - split.
    { unfold stepped, two_jobs.
      apply Invariants.reachable_processOneStep.
      apply Invariants.reachable_createBatch. apply Invariants.reachable_empty. }
    split; [vm_compute; reflexivity|].
    split; [vm_compute; reflexivity|].
    split; [vm_compute; reflexivity|].
    split; [vm_compute; reflexivity|].
    split; vm_compute; reflexivity.
  - split; [vm_compute; reflexivity|].
    split; [vm_compute; reflexivity|].
    split; [vm_compute; reflexivity|].
    split; [vm_compute; reflexivity|].
    split; vm_compute; reflexivity.
Qed.

(** The selection on the same store when the read is answered. *)
Lemma next_job_prefers_in_progress_run :
  let env := steady in
  let b := 0 in
  let w := stepped steady (two_jobs steady) in
  store_error env (clock w) = None /\
  exists next w',
    Lib.getNextJobToProcess env b w = (Returned next, w') /\
    Edge.next_job env b w = (Returned next, w') /\
    simple_batches w' = simple_batches w /\
    simple_jobs w' = simple_jobs w /\
    simple_blogs w' = simple_blogs w /\
    match next with
    | Some job =>
        In job (simple_jobs w) /\ Job.batch_id job = b /\
        ((in_progress (Job.status job) = true /\
          forall j, In j (simple_jobs w) -> Job.batch_id j = b ->
                    in_progress (Job.status j) = true ->
                    Job.created_at job <= Job.created_at j) \/
         (Job.status job = pending /\
          (forall j, In j (simple_jobs w) -> Job.batch_id j = b ->
                     in_progress (Job.status j) = false) /\
          forall j, In j (simple_jobs w) -> Job.batch_id j = b ->
                    Job.status j = pending ->
                    Job.created_at job <= Job.created_at j))
    | None =>
        (forall j, In j (simple_jobs w) -> Job.batch_id j = b ->
                   in_progress (Job.status j) = false) /\
        (store_error env (S (clock w)) = None ->
         forall j, In j (simple_jobs w) -> Job.batch_id j = b ->
                   Job.status j <> pending)
    end.
Proof.
  intros env b w. split; [reflexivity|].
  apply (@Selection.next_job_prefers_in_progress env b w). reflexivity.
Defined.

End Scenario.

(* ====================================================================== *)
(** * More on the scorer *)
(* ====================================================================== *)

Module ScorerBounds.
Import Js Num Scorer.

Section Builtins.
Variable toLowerCase : str -> str.
Variable canonicalize : code_unit -> code_unit.

#[local] Abbreviation calculateScore := (calculateScore toLowerCase canonicalize).
#[local] Abbreviation countOccurrences := (countOccurrences canonicalize).
#[local] Abbreviation occurrences := (occurrences toLowerCase canonicalize).
#[local] Abbreviation tally := (tally toLowerCase canonicalize).

Lemma tier_points_le (credit : str -> nat) (k : nat) (tier : list str) :
  (forall t, credit t <= k) -> tier_points credit tier <= k * length tier.
Proof.
  intros H. induction tier as [|t tier IH]; [cbn; lia|].
  rewrite tier_points_cons. cbn [length]. specialize (H t). lia.
Qed.

Lemma critical_credit_le (n : nat) : critical_credit n <= 3.
Proof. destruct n as [|[|[|n]]]; cbn; lia. Qed.

Lemma important_credit_le (n : nat) : important_credit n <= 2.
Proof. destruct n as [|[|n]]; cbn; lia. Qed.

Lemma tally_scores (content : str) (a : NeuronWriterAnalysis) :
  criticalScore (tally content a) =
    tier_points (fun t => critical_credit (occurrences content t))
                (critical_tier a) /\
  importantScore (tally content a) =
    tier_points (fun t => important_credit (occurrences content t))
                (important_tier a) /\
  supportingScore (tally content a) =
    tier_points (fun t => supporting_credit (present toLowerCase content t))
                (supporting_tier a).
Proof.
  unfold Scorer.tally. cbn [criticalScore importantScore supportingScore].
  rewrite critical_loop, important_loop, supporting_loop. cbn [fst].
  repeat split.
Qed.

Lemma tally_missing (content : str) (a : NeuronWriterAnalysis) :
  missingCritical (tally content a) =
    filter (fun t => occurrences content t <? 3) (critical_tier a) /\
  missingImportant (tally content a) =
    filter (fun t => occurrences content t =? 0) (important_tier a).
Proof.
  unfold Scorer.tally. cbn [missingCritical missingImportant].
  rewrite critical_loop, important_loop. cbn [snd]. split; reflexivity.
Qed.

(** The points never exceed the maximum, which is three per critical term,
    two per important term and one per supporting term. *)
Theorem calculateScore_within_maximum (content : str)
  (a : NeuronWriterAnalysis) :
  score (calculateScore content a) <= maxScore (calculateScore content a) /\
  maxScore (calculateScore content a) =
    3 * length (critical_tier a) + 2 * length (important_tier a)
    + length (supporting_tier a) /\
  maxScore (calculateScore content a) <= 3 * length (recommendedTerms a).
Proof.
  unfold Scorer.calculateScore. cbn [score maxScore].
  destruct (tally_scores content a) as (-> & -> & ->).
  unfold maxCritical, maxImportant, maxSupporting.
  change (criticalTerms (tally content a)) with (critical_tier a).
  change (importantTerms (tally content a)) with (important_tier a).
  change (supportingTerms (tally content a)) with (supporting_tier a).
  pose proof (@tier_points_le
                (fun t => critical_credit (occurrences content t)) 3
                (critical_tier a) (fun t => critical_credit_le _)) as H1.
  pose proof (@tier_points_le
                (fun t => important_credit (occurrences content t)) 2
                (important_tier a) (fun t => important_credit_le _)) as H2.
  pose proof (@tier_points_le
                (fun t => supporting_credit (present toLowerCase content t)) 1
                (supporting_tier a)) as H3.
  assert (H3' : forall t,
             supporting_credit (present toLowerCase content t) <= 1).
  { intros t. destruct (present toLowerCase content t); cbn; lia. }
  specialize (H3 H3').
  assert (L : length (critical_tier a) + length (important_tier a)
              + length (supporting_tier a) = length (recommendedTerms a)).
  { unfold critical_tier, important_tier, supporting_tier.
    rewrite !length_firstn, !length_skipn. lia. }
  repeat split; lia.
Qed.

(** The missing terms are terms of the first two tiers, in rank order; there
    are at most ten critical and five important ones. *)
Theorem calculateScore_missingTerms_bounded (content : str)
  (a : NeuronWriterAnalysis) :
  incl (missingTerms (calculateScore content a))
       (firstn 25 (recommendedTerms a)) /\
  length (missingTerms (calculateScore content a)) <= 15.
Proof.
  unfold Scorer.calculateScore. cbn [missingTerms].
  destruct (tally_missing content a) as (-> & ->).
  unfold slice. cbn [skipn]. rewrite Nat.sub_0_r.
  split.
  - intros t Ht. apply in_app_or in Ht.
    assert (E : firstn 25 (recommendedTerms a)
                = critical_tier a ++ important_tier a).
    { unfold critical_tier, important_tier.
      rewrite <- (firstn_skipn 10 (firstn 25 (recommendedTerms a))).
      rewrite firstn_firstn. cbn [Nat.min]. f_equal.
      rewrite skipn_firstn_comm. reflexivity. }
    rewrite E. apply in_or_app. destruct Ht as [Ht|Ht].
    + left. apply filter_In in Ht. tauto.
    + right.
      assert (Ht' : In t (filter (fun t0 => occurrences content t0 =? 0)
                                 (important_tier a))).
      { rewrite <- (firstn_skipn 5 (filter _ (important_tier a))).
        apply in_or_app. left. exact Ht. }
      apply filter_In in Ht'. tauto.
  - rewrite length_app, length_firstn.
    pose proof (filter_length_le (fun t => occurrences content t <? 3)
                                 (critical_tier a)) as H.
    unfold critical_tier in *. rewrite length_firstn in H. lia.
Qed.

(** ** Full marks *)

Lemma full_critical_share (n : nat) :
  n <= 10 -> tier_share (3 * n) (3 * n) 50 = of_Z 50.
Proof.
  intros H. do 11 (destruct n as [|n]; [vm_compute; reflexivity|]). lia.
Qed.

Lemma full_important_share (n : nat) :
  n <= 15 -> tier_share (2 * n) (2 * n) 30 = of_Z 30.
Proof.
  intros H. do 16 (destruct n as [|n]; [vm_compute; reflexivity|]). lia.
Qed.

(** For an analysis of at most 25 terms (no supporting tier), a content
    with every critical term at least three times and every important term
    at least twice gets 100, all the points, and no missing term.  An
    analysis without any term is the smallest case: every content gets
    100. *)
Theorem calculateScore_full_marks (content : str) (a : NeuronWriterAnalysis) :
  length (recommendedTerms a) <= 25 ->
  Forall (fun t => 3 <= occurrences content t) (critical_tier a) ->
  Forall (fun t => 2 <= occurrences content t) (important_tier a) ->
  percentage (calculateScore content a) = of_Z 100 /\
  score (calculateScore content a) = maxScore (calculateScore content a) /\
  missingTerms (calculateScore content a) = [].
Proof.
  intros Hlen Hc Hi.
  assert (Ls : supporting_tier a = []).
  { unfold supporting_tier. apply skipn_all2. exact Hlen. }
  assert (Lc : length (critical_tier a) <= 10).
  { unfold critical_tier. rewrite length_firstn. lia. }
  assert (Li : length (important_tier a) <= 15).
  { unfold important_tier. rewrite length_firstn. lia. }
  assert (Pc : tier_points (fun t => critical_credit (occurrences content t))
                           (critical_tier a) = 3 * length (critical_tier a)).
  { apply tier_points_const. eapply Forall_impl; [|exact Hc].
    intros t Ht. cbn beta in *. rewrite critical_credit_spec.
    apply Nat.leb_le in Ht. rewrite Ht. reflexivity. }
  assert (Pi : tier_points (fun t => important_credit (occurrences content t))
                           (important_tier a) = 2 * length (important_tier a)).
  { apply tier_points_const. eapply Forall_impl; [|exact Hi].
    intros t Ht. cbn beta in *.
    destruct (occurrences content t) as [|[|n]]; [lia | lia | reflexivity]. }
  split; [|split].
  - unfold Scorer.calculateScore. cbn [percentage].
    rewrite criticalPct_share, importantPct_share, supportingPct_share.
    rewrite Pc, Pi, Ls.
    rewrite (full_critical_share Lc), (full_important_share Li).
    vm_compute. reflexivity.
  - unfold Scorer.calculateScore. cbn [score maxScore].
    destruct (tally_scores content a) as (-> & -> & ->).
    rewrite Pc, Pi, Ls.
    unfold maxCritical, maxImportant, maxSupporting.
    change (criticalTerms (tally content a)) with (critical_tier a).
    change (importantTerms (tally content a)) with (important_tier a).
    change (supportingTerms (tally content a)) with (supporting_tier a).
    rewrite Ls. cbn. lia.
  - unfold Scorer.calculateScore. cbn [missingTerms].
    destruct (tally_missing content a) as (-> & ->).
    assert (E1 : filter (fun t => occurrences content t <? 3) (critical_tier a)
                 = []).
    { clear - Hc. induction Hc as [|t l Ht _ IH]; [reflexivity|].
      cbn [filter]. apply Nat.ltb_ge in Ht. rewrite Ht. exact IH. }
    assert (E2 : filter (fun t => occurrences content t =? 0) (important_tier a)
                 = []).
    { clear - Hi. induction Hi as [|t l Ht _ IH]; [reflexivity|].
      cbn [filter]. destruct (occurrences content t); [lia|]. exact IH. }
    rewrite E1, E2. reflexivity.
Qed.

(** ** The count of a term *)







End Builtins.

(** Ten critical terms three times each and one important term twice. *)
Definition eleven_terms : list str := firstn 11 thirty_terms.

Definition full_content : str :=
  critical_only_content ++ lit " m10 and M10"%string.

Lemma calculateScore_full_marks_run :
  length (recommendedTerms (analysis_of eleven_terms)) <= 25 /\
  percentage (score_ascii full_content (analysis_of eleven_terms)) = of_Z 100 /\
  score (score_ascii full_content (analysis_of eleven_terms)) =
    maxScore (score_ascii full_content (analysis_of eleven_terms)) /\
  missingTerms (score_ascii full_content (analysis_of eleven_terms)) = [].
Proof.
  split; [cbn; lia|].
  apply (@calculateScore_full_marks ascii_toLowerCase ascii_canonicalize
           full_content (analysis_of eleven_terms)).
  - cbn. lia.
  - apply Forall_of_forallb with
      (f := fun t => 3 <=? occurrences ascii_toLowerCase ascii_canonicalize
                             full_content t).
    + intros t. apply Nat.leb_le.
    + vm_compute. reflexivity.
  - apply Forall_of_forallb with
      (f := fun t => 2 <=? occurrences ascii_toLowerCase ascii_canonicalize
                             full_content t).
    + intros t. apply Nat.leb_le.
    + vm_compute. reflexivity.
Defined.


End ScorerBounds.

(* ====================================================================== *)
(** * More on the link placer *)
(* ====================================================================== *)

Module LinkPlacerFacts.
Import Js LinkPlacer.

(** ** Paragraphs: [split] and [join] *)

Definition paragraphs_of (content : str) : list str := split2 10%N 10%N content.

Lemma split2_aux_nonempty (c1 c2 : code_unit) (s : str) :
  forall cur skip, split2_aux c1 c2 cur skip s <> [].
Proof.
  induction s as [|x s IH]; intros cur skip; cbn [split2_aux].
  - discriminate.
  - destruct skip; [apply IH|].
    destruct s as [|y s']; [apply IH|].
    destruct (N.eqb x c1 && N.eqb y c2); [discriminate | apply IH].
Qed.

Lemma join_cons (sep p : str) (rest : list str) :
  rest <> [] -> join sep (p :: rest) = p ++ sep ++ join sep rest.
Proof. destruct rest; [contradiction | reflexivity]. Qed.

Lemma join_split2_aux (c1 c2 : code_unit) (s : str) :
  (forall cur, join [c1; c2] (split2_aux c1 c2 cur false s) = rev cur ++ s) /\
  (forall cur, join [c1; c2] (split2_aux c1 c2 cur true s) = rev cur ++ tl s).
Proof.
  induction s as [|x s [IH1 IH2]].
  - split; intros cur; cbn; rewrite app_nil_r; reflexivity.
  - split; intros cur.
    + cbn [split2_aux]. destruct s as [|y s'].
      * rewrite IH1. cbn [rev]. rewrite <- app_assoc. reflexivity.
      * destruct (N.eqb x c1 && N.eqb y c2) eqn:E.
        -- apply andb_true_iff in E. destruct E as [E1 E2].
           apply N.eqb_eq in E1, E2. subst x y.
           rewrite join_cons by apply split2_aux_nonempty.
           rewrite IH2. reflexivity.
        -- rewrite IH1. cbn [rev]. rewrite <- app_assoc. reflexivity.
    + cbn [split2_aux tl]. apply IH1.
Qed.

(** Splitting a text at the blank lines and joining the pieces with blank
    lines gives the text back; so [insertLinks] without links returns its
    content as it is. *)
Theorem insertLinks_no_links (content : str) :
  join [10; 10]%N (paragraphs_of content) = content /\
  insertLinks content [] = content.
Proof.
  assert (E : join [10; 10]%N (paragraphs_of content) = content).
  { unfold paragraphs_of, split2.
    exact (proj1 (join_split2_aux 10%N 10%N content) []). }
  split; [exact E|]. unfold insertLinks. cbn [sort fold_right fold_left].
  exact E.
Qed.

(** ** What [insertLinks] touches *)

Lemma set_nth_length {A} (i : nat) (x : A) (a : list A) :
  length (set_nth i x a) = length a.
Proof.
  revert i; induction a as [|y a IH]; intros [|i]; cbn; try reflexivity.
  rewrite IH. reflexivity.
Qed.

Lemma set_nth_other {A} (i j : nat) (x : A) (a : list A) :
  i <> j -> nth_error (set_nth i x a) j = nth_error a j.
Proof.
  revert i j; induction a as [|y a IH]; intros [|i] [|j] H; cbn;
    try reflexivity; try contradiction.
  apply IH. intros E. apply H. rewrite E. reflexivity.
Qed.

Lemma insert_link_frame (paragraphs : list str) (l : Link) :
  length (insert_link paragraphs l) = length paragraphs /\
  forall i, paragraph l <> i ->
            nth_error (insert_link paragraphs l) i = nth_error paragraphs i.
Proof.
  unfold insert_link.
  destruct (nth_error paragraphs (paragraph l)) as [[|c text]|];
    try (split; [reflexivity | intros; reflexivity]).
  destruct (includes (c :: text) _);
    [split; [reflexivity | intros; reflexivity]|].
  split; [apply set_nth_length | intros i H; apply set_nth_other; exact H].
Qed.

Lemma insert_links_frame (links : list Link) :
  forall paragraphs,
    length (fold_left insert_link links paragraphs) = length paragraphs /\
    forall i, (forall l, In l links -> paragraph l <> i) ->
              nth_error (fold_left insert_link links paragraphs) i
              = nth_error paragraphs i.
Proof.
  induction links as [|l links IH]; intros paragraphs; cbn [fold_left].
  - split; [reflexivity | intros; reflexivity].
  - destruct (IH (insert_link paragraphs l)) as [H1 H2].
    destruct (insert_link_frame paragraphs l) as [H3 H4].
    split; [rewrite H1; exact H3|].
    intros i Hi. rewrite H2.
    + apply H4. apply Hi. left. reflexivity.
    + intros l' Hl'. apply Hi. right. exact Hl'.
Qed.

(** [insertLinks] keeps the number of paragraphs and rewrites only the
    paragraphs some link names: every other paragraph goes into the joined
    result as it was. *)
Theorem insertLinks_frame (content : str) (links : list Link) :
  exists paragraphs',
    insertLinks content links = join [10; 10]%N paragraphs' /\
    length paragraphs' = length (paragraphs_of content) /\
    forall i, (forall l, In l links -> paragraph l <> i) ->
              nth_error paragraphs' i = nth_error (paragraphs_of content) i.
Proof.
  exists (fold_left insert_link (sort by_paragraph_descending links)
                    (paragraphs_of content)).
  split; [reflexivity|].
  destruct (insert_links_frame (sort by_paragraph_descending links)
                               (paragraphs_of content)) as [H1 H2].
  split; [exact H1|].
  intros i Hi. apply H2. intros l Hl. apply Hi.
  apply (Permutation_in _ (Permutation_sym
                             (sort_perm by_paragraph_descending links))).
  exact Hl.
Qed.

(** ** Where the suggestions point *)

Lemma combine_seq_nth {A} (l : list A) :
  forall a i x, In (i, x) (combine (seq a (length l)) l) ->
                a <= i /\ nth_error l (i - a) = Some x.
Proof.
  induction l as [|y l IH]; intros a i x H; cbn in H; [destruct H|].
  destruct H as [H|H].
  - injection H as <- <-. rewrite Nat.sub_diag. split; [lia | reflexivity].
  - apply IH in H. destruct H as [H1 H2]. split; [lia|].
    replace (i - a) with (S (i - S a)) by lia. exact H2.
Qed.

Lemma entries_nth {A} (l : list A) (i : nat) (x : A) :
  In (i, x) (entries l) -> nth_error l i = Some x.
Proof.
  intros H. apply combine_seq_nth in H. destruct H as [_ H].
  rewrite Nat.sub_0_r in H. exact H.
Qed.

Lemma subsequence_In {A} (l1 l2 : list A) (x : A) :
  subsequence l1 l2 -> In x l1 -> In x l2.
Proof.
  induction 1 as [|y l1 l2 _ IH|y l1 l2 _ IH]; intros H.
  - exact H.
  - right. apply IH. exact H.
  - destruct H as [H|H]; [left; exact H | right; apply IH; exact H].
Qed.

(** A paragraph the placer may link from: not a heading, at least [least]
    units long, without a link yet. *)
Definition linkable (least : nat) (text : str) : Prop :=
  startsWith text (lit "#"%string) = false /\
  least <= length text /\
  includes text (lit "](http"%string) = false.

(** The edge function's suggestion [l] for [content]: its paragraph exists
    and is linkable, its URL is a catalog page's, and its anchor is a keyword
    of that page found in the paragraph. *)
Definition edge_target (content : str) (l : Link) : Prop :=
  exists text page,
    nth_error (paragraphs_of content) (paragraph l) = Some text /\
    linkable 30 text /\
    In page Edge.HABITTO_PAGES /\
    url l = Edge.page_url page /\
    In (anchorText l) (Edge.page_keywords page) /\
    includes text (anchorText l) = true.

Lemma edge_opportunity_target (content : str) (opp : Edge.Opportunity) :
  In opp (Edge.allOpportunities Edge.HABITTO_PAGES content) ->
  edge_target content (Edge.opp_link opp).
Proof.
  unfold Edge.allOpportunities. intros H.
  apply in_flat_map in H. destruct H as ([index text] & He & H).
  apply entries_nth in He.
  unfold Edge.paragraph_opportunities in H.
  destruct (startsWith text (lit "#"%string)) eqn:E1; [destruct H|].
  destruct (length text <? 30) eqn:E2; [destruct H|]. cbn [orb] in H.
  destruct (includes text (lit "](http"%string)) eqn:E3; [destruct H|].
  apply in_flat_map in H. destruct H as (page & Hp & H).
  unfold Edge.page_opportunity in H.
  destruct (find _ (Edge.page_keywords page)) as [keyword|] eqn:F;
    [|destruct H].
  destruct H as [<-|[]]. apply find_some in F. destruct F as [F1 F2].
  exists text, page. cbn [Edge.opp_link paragraph url anchorText].
  split; [exact He|]. split.
  { split; [exact E1|]. split; [apply Nat.ltb_ge; exact E2 | exact E3]. }
  split; [exact Hp|]. split; [reflexivity|]. split; assumption.
Qed.

(** Every insertion the edge function's placer suggests names an existing
    paragraph that is no heading, has 30 units or more and no link yet, and
    in which the anchor text, a keyword of the linked catalog page, occurs. *)
Theorem edge_suggestLinks_targets (content : str) :
  Forall (edge_target content) (Edge.suggestLinks content).
Proof.
  unfold Edge.suggestLinks, Edge.suggestLinks_in.
  destruct (Edge.select_subsequence
              (Edge.sortedOpportunities Edge.HABITTO_PAGES content) [] [])
    as (picked & Hs & ->).
  cbn [app]. apply Forall_forall. intros l Hl.
  apply in_map_iff in Hl. destruct Hl as (opp & <- & Hopp).
  apply edge_opportunity_target.
  apply (@subsequence_In _ _ _ opp Hs) in Hopp.
  unfold Edge.sortedOpportunities in Hopp.
  apply (Permutation_in _ (Permutation_sym
           (sort_perm Edge.by_priority_then_position
                      (Edge.allOpportunities Edge.HABITTO_PAGES content)))).
  exact Hopp.
Qed.


(** ** The library's suggestions *)

Definition suggested_paragraph (s : Lib.Suggestion) : nat :=
  paragraph (Lib.link s).

Section LibraryLoop.
Variable pages : list Lib.HabittoPage.
Variable paragraphs : list str.
Variable halfwayPoint : nat.

(** The library's suggestion [s]: its paragraph exists and is linkable, it
    carries the URL, title and priority of a catalog page, its anchor occurs
    in the paragraph, and a service page (priority 1) is linked from the
    second half only. *)
Definition lib_target_in (s : Lib.Suggestion) : Prop :=
  exists text page,
    nth_error paragraphs (suggested_paragraph s) = Some text /\
    linkable 50 text /\
    In page pages /\
    url (Lib.link s) = Lib.page_url page /\
    Lib.pageTitle s = Lib.page_title page /\
    Lib.priority s = Lib.page_priority page /\
    includes text (anchorText (Lib.link s)) = true /\
    (Lib.priority s = 1 -> halfwayPoint <= suggested_paragraph s).

(** What the loops keep: the suggestions made so far are good ones, for
    pairwise different paragraphs below [bound]. *)
Definition placed_below (bound : nat) (st : list Lib.Suggestion * list str)
  : Prop :=
  Forall (fun s => suggested_paragraph s < bound /\ lib_target_in s) (fst st) /\
  NoDup (map suggested_paragraph (fst st)).

Lemma placed_below_next (bound : nat) (st : list Lib.Suggestion * list str) :
  placed_below bound st -> placed_below (S bound) st.
Proof.
  intros [H1 H2]. split; [|exact H2].
  eapply Forall_impl; [|exact H1]. intros s [H3 H4]. split; [lia | exact H4].
Qed.

Lemma none_at_bound (bound : nat) (st : list Lib.Suggestion * list str) :
  placed_below bound st ->
  existsb (fun s => paragraph (Lib.link s) =? bound) (fst st) = false.
Proof.
  intros [H _]. destruct (existsb _ (fst st)) eqn:E; [|reflexivity].
  apply existsb_exists in E. destruct E as (s & Hs & E).
  apply Nat.eqb_eq in E. rewrite Forall_forall in H.
  destruct (H s Hs) as [Hlt _]. unfold suggested_paragraph in Hlt. lia.
Qed.

Lemma page_loop_placed (index : nat) (text : str) (sub : list Lib.HabittoPage) :
  (forall page, In page sub -> In page pages) ->
  nth_error paragraphs index = Some text ->
  linkable 50 text ->
  forall st,
    placed_below index st ->
    placed_below (S index)
      (Lib.page_loop index text (halfwayPoint <=? index) sub st).
Proof.
  intros Hsub Hnth Hlink.
  induction sub as [|page rest IH]; intros st Hst; cbn [Lib.page_loop].
  - apply placed_below_next. exact Hst.
  - assert (Hrest : forall p, In p rest -> In p pages)
      by (intros p Hp; apply Hsub; right; exact Hp).
    destruct (has (snd st) (Lib.page_url page)); [apply IH; assumption|].
    destruct ((Lib.page_priority page =? 1) && negb (halfwayPoint <=? index))
      eqn:Ehalf; [apply IH; assumption|].
    unfold Lib.push_page.
    destruct (find (fun keyword => includes text keyword)
                   (Lib.page_keywords page)) as [keyword|] eqn:F.
    + cbn [fst].
      rewrite existsb_app. cbn [existsb Lib.link paragraph].
      rewrite Nat.eqb_refl, orb_true_r.
      destruct Hst as [H1 H2]. split; cbn [fst].
      * apply Forall_app. split.
        -- eapply Forall_impl; [|exact H1]. intros s [H3 H4].
           split; [lia | exact H4].
        -- constructor; [|constructor].
           unfold suggested_paragraph. cbn [Lib.link paragraph].
           split; [lia|]. exists text, page.
           unfold suggested_paragraph.
           cbn [Lib.link paragraph url anchorText Lib.pageTitle Lib.priority].
           split; [exact Hnth|]. split; [exact Hlink|].
           split; [apply Hsub; left; reflexivity|].
           split; [reflexivity|]. split; [reflexivity|].
           split; [reflexivity|]. split.
           ++ apply find_some in F. destruct F as [_ F].
              destruct (find (fun a => includes text a)
                             (Lib.page_anchors page)) as [[|c a]|] eqn:G;
                try exact F.
              apply find_some in G. destruct G as [_ G]. exact G.
           ++ intros Hp. apply andb_false_iff in Ehalf.
              destruct Ehalf as [E|E].
              ** apply Nat.eqb_neq in E. contradiction.
              ** apply negb_false_iff, Nat.leb_le in E. exact E.
      * rewrite map_app. cbn [map].
        apply NoDup_app; [exact H2 | constructor; [intros []|constructor]|].
        intros n Hn [<-|[]].
        apply in_map_iff in Hn. destruct Hn as (s & Hs & Hin).
        rewrite Forall_forall in H1. destruct (H1 s Hin) as [Hlt _].
        unfold suggested_paragraph in *. cbn [Lib.link paragraph] in Hs. lia.
    + rewrite (none_at_bound Hst). apply IH; assumption.
Qed.

Lemma paragraph_loop_placed (l : list str) :
  forall a st,
    (forall i x, In (i, x) (combine (seq a (length l)) l) ->
                 nth_error paragraphs i = Some x) ->
    placed_below a st ->
    exists bound,
      placed_below bound
        (fold_left (Lib.paragraph_step pages halfwayPoint)
                   (combine (seq a (length l)) l) st).
Proof.
  induction l as [|text l IH]; intros a st Hnth Hst; cbn [length seq combine].
  - exists a. exact Hst.
  - cbn [fold_left]. apply (IH (S a)).
    + intros i x H. apply Hnth. right. exact H.
    + unfold Lib.paragraph_step.
      destruct (startsWith text (lit "#"%string)) eqn:E1;
        [apply placed_below_next; exact Hst|].
      destruct (length text <? 50) eqn:E2;
        [apply placed_below_next; exact Hst|]. cbn [orb].
      destruct (includes text (lit "](http"%string)) eqn:E3;
        [apply placed_below_next; exact Hst|].
      apply page_loop_placed.
      * intros page H. exact H.
      * apply Hnth. left. reflexivity.
      * split; [exact E1|]. split; [apply Nat.ltb_ge; exact E2 | exact E3].
      * exact Hst.
Qed.

End LibraryLoop.

Definition lib_target (content : str) (s : Lib.Suggestion) : Prop :=
  lib_target_in Lib.HABITTO_PAGES (paragraphs_of content)
                (length (paragraphs_of content) / 2) s.

(** Every insertion the library's placer suggests names an existing
    paragraph that is no heading, has 50 units or more and no link yet, and
    in which the anchor text occurs; a service page (priority 1) is linked
    from the second half of the paragraphs only; and no paragraph gets two
    suggestions. *)
Theorem lib_suggestLinks_targets (content : str) :
  Forall (lib_target content) (Lib.suggestLinks content) /\
  NoDup (map suggested_paragraph (Lib.suggestLinks content)).
Proof.
  unfold Lib.suggestLinks, Lib.suggestLinks_in, slice. cbn [skipn].
  rewrite Nat.sub_0_r.
  change (split2 10%N 10%N content) with (paragraphs_of content).
  destruct (@paragraph_loop_placed Lib.HABITTO_PAGES (paragraphs_of content)
              (length (paragraphs_of content) / 2)
              (paragraphs_of content) 0 ([], []))
    as (bound & H1 & H2).
  - intros i x H. apply entries_nth. exact H.
  - split; constructor.
  - fold (entries (paragraphs_of content)) in H1, H2.
    set (st := fold_left _ _ _) in *.
    pose proof (sort_perm Lib.by_priority (fst st)) as P.
    split.
    + apply Forall_forall. intros s Hs.
      assert (Hin : In s (fst st)).
      { apply (Permutation_in _ (Permutation_sym P)).
        rewrite <- (firstn_skipn 6 (sort Lib.by_priority (fst st))).
        apply in_or_app. left. exact Hs. }
      rewrite Forall_forall in H1. destruct (H1 s Hin) as [_ H]. exact H.
    + rewrite <- firstn_map. apply firstn_NoDup.
      apply (Permutation_NoDup (Permutation_map suggested_paragraph P)).
      exact H2.
Qed.


End LinkPlacerFacts.

(* ====================================================================== *)
(** * More on the link deduplication *)
(* ====================================================================== *)

Module PostProcessFacts.
Import Js PostProcess.

(** The text a reader sees: the anchor texts without their markup. *)
Definition visible (p : piece) : str :=
  match p with
  | Plain c => [c]
  | Linked text _ => text
  end.

Definition visible_text (content : str) : str :=
  concat (map visible (document_pieces content)).

Lemma markup_length (text url : str) :
  length (markup text url) = length text + length url + 4.
Proof.
  unfold markup. rewrite !length_app. cbn [lit length]. lia.
Qed.

Lemma rewritten_length (earlier : list piece) (p : piece) :
  length (rewritten earlier p) <= length (source p).
Proof.
  destruct p as [c|text url]; cbn [rewritten source]; [lia|].
  destruct (has _ _); [rewrite markup_length; lia | lia].
Qed.

Lemma rewrite_from_length (ps : list piece) :
  forall earlier,
    length (rewrite_from earlier ps) <= length (concat (map source ps)).
Proof.
  induction ps as [|p ps IH]; intros earlier; cbn [rewrite_from map concat].
  - lia.
  - rewrite !length_app. specialize (IH (earlier ++ [p])).
    pose proof (rewritten_length earlier p). lia.
Qed.

Lemma rewrite_from_distinct (ps : list piece) :
  forall earlier,
    NoDup (linked_urls (earlier ++ ps)) ->
    rewrite_from earlier ps = concat (map source ps).
Proof.
  induction ps as [|p ps IH]; intros earlier H; [reflexivity|].
  cbn [rewrite_from map concat].
  rewrite IH by (rewrite <- app_assoc; exact H). f_equal.
  destruct p as [c|text url]; [reflexivity|]. cbn [rewritten source].
  destruct (has (linked_urls earlier) (strip_trailing_slash url)) eqn:E;
    [|reflexivity].
  exfalso. apply has_In in E.
  rewrite linked_urls_app in H. cbn in H.
  apply NoDup_remove_2 in H. apply H. apply in_or_app. left. exact E.
Qed.

Lemma rewrite_from_same (ps : list piece) :
  forall earlier,
    NoDup (linked_urls earlier) ->
    length (rewrite_from earlier ps) = length (concat (map source ps)) ->
    NoDup (linked_urls (earlier ++ ps)).
Proof.
  induction ps as [|p ps IH]; intros earlier Hnd Hlen.
  - rewrite app_nil_r. exact Hnd.
  - cbn [rewrite_from map concat] in Hlen. rewrite !length_app in Hlen.
    pose proof (rewritten_length earlier p) as H1.
    pose proof (rewrite_from_length ps (earlier ++ [p])) as H2.
    replace (earlier ++ p :: ps) with ((earlier ++ [p]) ++ ps)
      by (rewrite <- app_assoc; reflexivity).
    apply IH; [|lia].
    rewrite linked_urls_app.
    destruct p as [c|text url]; cbn; [rewrite app_nil_r; exact Hnd|].
    cbn [rewritten source] in H1, Hlen.
    destruct (has (linked_urls earlier) (strip_trailing_slash url)) eqn:E.
    + rewrite markup_length in Hlen. lia.
    + apply has_false in E.
      apply NoDup_app; [exact Hnd | constructor; [intros []|constructor]|].
      intros u Hu [<-|[]]. exact (E Hu).
Qed.

(** The pass never makes a document longer, and it returns the document as
    it is exactly when the internal links it finds have pairwise different
    URLs up to a trailing slash; a document without internal links is one
    such. *)
Theorem dedupeInternalLinks_unchanged (content : str) :
  length (dedupeInternalLinks content) <= length content /\
  (dedupeInternalLinks content = content <->
   NoDup (linked_urls (document_pieces content))).
Proof.
  assert (E : dedupeInternalLinks content =
              rewrite_from [] (document_pieces content)).
  { unfold dedupeInternalLinks, document_pieces.
    apply dedupe_rewrites. intros x. cbn. tauto. }
  pose proof (pieces_cover content) as C. fold (document_pieces content) in C.
  split.
  - rewrite E.
    replace (length content)
      with (length (concat (map source (document_pieces content))))
      by (rewrite C; reflexivity).
    apply rewrite_from_length.
  - split.
    + intros H. apply (rewrite_from_same (document_pieces content) []).
      * constructor.
      * rewrite <- E, H, C. reflexivity.
    + intros H. rewrite E.
      transitivity (concat (map source (document_pieces content)));
        [|exact C].
      apply rewrite_from_distinct. exact H.
Qed.

(** ** Documents of text and links, after the pass *)

Lemma match_link_anchor (text url rest : str) :
  anchor_text text = true -> internal_url url = true ->
  match_link (markup text url ++ rest) = Some (text, url, rest).
Proof.
  intros Ha Hu.
  unfold anchor_text in Ha. unfold internal_url in Hu.
  apply andb_true_iff in Ha. destruct Ha as [Ha _].
  apply andb_true_iff in Ha. destruct Ha as [Ha1 Ha2].
  apply andb_true_iff in Hu. destruct Hu as [Hu Hu3].
  apply andb_true_iff in Hu. destruct Hu as [Hu1 Hu2].
  apply startsWith_spec in Hu1.
  remember (skipn (length internal_prefix) url) as tail eqn:Et.
  clear Et. subst url.
  apply match_link_markup.
  - apply nonempty_spec; assumption.
  - apply no_unit_In; assumption.
  - apply nonempty_spec; assumption.
  - apply no_unit_In; assumption.
Qed.

Definition segment_pieces (g : segment) : list piece :=
  match g with
  | Text t => map Plain t
  | Anchor text url => [Linked text url]
  end.

Lemma pieces_plain (t rest : str) :
  plain_text t = true -> pieces 0 (t ++ rest) = map Plain t ++ pieces 0 rest.
Proof.
  induction t as [|c t IH]; intros H; [reflexivity|].
  cbn in H. apply andb_true_iff in H. destruct H as [Hc Ht].
  apply negb_true_iff in Hc.
  cbn [app pieces map]. unfold match_link. rewrite Hc.
  f_equal. apply IH. exact Ht.
Qed.

Lemma pieces_render (segs : list segment) :
  well_formed segs = true ->
  document_pieces (render segs) = flat_map segment_pieces segs.
Proof.
  unfold well_formed, document_pieces, render.
  induction segs as [|g segs IH]; intros H; [reflexivity|].
  cbn [forallb] in H. apply andb_true_iff in H. destruct H as [Hg Hs].
  cbn [map concat flat_map].
  destruct g as [t|text url]; cbn [segment_source segment_pieces].
  - rewrite pieces_plain by exact Hg. f_equal. apply IH. exact Hs.
  - cbn [well_formed_segment] in Hg.
    apply andb_true_iff in Hg. destruct Hg as [Ha Hu].
    rewrite (@pieces_match _ text url (concat (map segment_source segs)))
      by (apply match_link_anchor; assumption).
    cbn [app]. f_equal. apply IH. exact Hs.
Qed.

(** The normalized URLs of the links of a document given by segments. *)
Definition anchor_urls (segs : list segment) : list str :=
  linked_urls (flat_map segment_pieces segs).

Definition segments_text (segs : list segment) : str :=
  concat (map visible (flat_map segment_pieces segs)).

Lemma linked_urls_plain (t : str) : linked_urls (map Plain t) = [].
Proof. induction t as [|c t IH]; [reflexivity | exact IH]. Qed.

Lemma visible_plain (t : str) : concat (map visible (map Plain t)) = t.
Proof. induction t as [|c t IH]; [reflexivity | cbn; f_equal; exact IH]. Qed.

Lemma anchor_urls_cons (g : segment) (segs : list segment) :
  anchor_urls (g :: segs) =
  match g with
  | Text _ => anchor_urls segs
  | Anchor _ url => strip_trailing_slash url :: anchor_urls segs
  end.
Proof.
  unfold anchor_urls. cbn [flat_map]. rewrite linked_urls_app.
  destruct g as [t|text url]; cbn [segment_pieces].
  - rewrite linked_urls_plain. reflexivity.
  - reflexivity.
Qed.

Lemma segments_text_cons (g : segment) (segs : list segment) :
  segments_text (g :: segs) =
  match g with
  | Text t => t
  | Anchor text _ => text
  end ++ segments_text segs.
Proof.
  unfold segments_text. cbn [flat_map]. rewrite map_app, concat_app.
  destruct g as [t|text url]; cbn [segment_pieces].
  - rewrite visible_plain. reflexivity.
  - cbn. rewrite app_nil_r. reflexivity.
Qed.

Lemma dedupe_segments_urls (segs : list segment) :
  forall seenUrls,
    NoDup (anchor_urls (dedupe_segments seenUrls segs)) /\
    (forall u, In u (anchor_urls (dedupe_segments seenUrls segs)) <->
               In u (anchor_urls segs) /\ ~ In u seenUrls) /\
    segments_text (dedupe_segments seenUrls segs) = segments_text segs.
Proof.
  induction segs as [|g segs IH]; intros seenUrls.
  - cbn. split; [constructor|]. split; [tauto | reflexivity].
  - destruct g as [t|text url]; cbn [dedupe_segments].
    + destruct (IH seenUrls) as (H1 & H2 & H3).
      rewrite !anchor_urls_cons, !segments_text_cons, H3.
      split; [exact H1|]. split; [exact H2 | reflexivity].
    + destruct (has seenUrls (strip_trailing_slash url)) eqn:E.
      * destruct (IH seenUrls) as (H1 & H2 & H3).
        rewrite !anchor_urls_cons, !segments_text_cons, H3.
        split; [exact H1|]. split; [|reflexivity].
        intros u. rewrite (H2 u). cbn [In]. apply has_In in E.
        split; [tauto|]. intros [[<-|H] Hn]; [contradiction | tauto].
      * destruct (IH (add seenUrls (strip_trailing_slash url)))
          as (H1 & H2 & H3).
        rewrite !anchor_urls_cons, !segments_text_cons, H3.
        apply has_false in E.
        split; [|split; [|reflexivity]].
        -- constructor; [|exact H1]. intros Hin. apply H2 in Hin.
           destruct Hin as [_ Hin]. apply Hin. apply add_In. right.
           reflexivity.
        -- intros u. cbn [In]. rewrite (H2 u), add_In. split.
           ++ intros [<-|[Hu Hn]]; [tauto|]. split; [tauto|].
              intros Hs. apply Hn. left. exact Hs.
           ++ intros [[<-|Hu] Hn]; [left; reflexivity|].
              destruct (str_eqb (strip_trailing_slash url) u) eqn:Q.
              ** apply str_eqb_eq in Q. left. exact Q.
              ** right. split; [exact Hu|]. intros [Hs|Hs]; [tauto|].
                 subst u. rewrite str_eqb_refl in Q. discriminate Q.
Qed.

(** On a document made of bracket-free text and links with bracket-free
    anchors to internal URLs, the pass leaves links with pairwise different
    URLs (up to a trailing slash), keeps a link to every URL that was
    linked, and does not change the text a reader sees. *)
Theorem dedupeInternalLinks_distinct_links (segs : list segment) :
  well_formed segs = true ->
  NoDup (linked_urls
           (document_pieces (dedupeInternalLinks (render segs)))) /\
  (forall u,
     In u (linked_urls
             (document_pieces (dedupeInternalLinks (render segs)))) <->
     In u (linked_urls (document_pieces (render segs)))) /\
  visible_text (dedupeInternalLinks (render segs)) =
  visible_text (render segs).
Proof.
  intros H. unfold dedupeInternalLinks, visible_text.
  rewrite (dedupe_render segs [] H).
  rewrite (@pieces_render _ (dedupe_segments_well_formed segs [] H)).
  rewrite (@pieces_render _ H).
  destruct (dedupe_segments_urls segs []) as (H1 & H2 & H3).
  split; [exact H1|]. split; [|exact H3].
  intros u. unfold anchor_urls in H2. rewrite (H2 u). cbn. tauto.
Qed.

Lemma dedupeInternalLinks_distinct_links_run :
  let segs :=
    [Text (lit "See "%string);
     Anchor (lit "the account"%string)
            (lit "https://www.habitto.com/account/"%string);
     Text (lit ", then "%string);
     Anchor (lit "our account"%string)
            (lit "https://www.habitto.com/account"%string);
     Text (lit " and "%string);
     Anchor (lit "the card"%string)
            (lit "https://www.habitto.com/card/"%string)] in
  well_formed segs = true /\
  NoDup (linked_urls
           (document_pieces (dedupeInternalLinks (render segs)))) /\
  (forall u,
     In u (linked_urls
             (document_pieces (dedupeInternalLinks (render segs)))) <->
     In u (linked_urls (document_pieces (render segs)))) /\
  visible_text (dedupeInternalLinks (render segs)) =
  visible_text (render segs).
Proof.
  intros segs. split; [reflexivity|].
  apply dedupeInternalLinks_distinct_links. reflexivity.
Defined.


End PostProcessFacts.

(* ====================================================================== *)
(** * The softening pass ([removePushyCTAs]) *)
(* ====================================================================== *)

(** ** The regular expressions it uses *)

Module Regex.
Import Js.

(** The constructs of the patterns of [removePushyCTAs]: a sequence of
    characters, a character class, a class under the greedy star, an
    optional group, an alternative and a concatenation. *)
Inductive regex :=
| Chars (p : str)
| Class (member : code_unit -> bool)
| Star (member : code_unit -> bool)
| Opt (r : regex)
| Alt (r1 r2 : regex)
| Seq (r1 r2 : regex).

(** Backtracking: [k] is what is left of the pattern; it is tried on what
    is left of the text, the longest run of the class first. *)
Fixpoint star (member : code_unit -> bool) (k : str -> option str) (s : str)
  : option str :=
  match s with
  | c :: s' =>
      if member c then
        match star member k s' with
        | Some rest => Some rest
        | None => k s
        end
      else k s
  | [] => k []
  end.

Fixpoint run (r : regex) (k : str -> option str) (s : str) : option str :=
  match r with
  | Chars p => if startsWith s p then k (skipn (length p) s) else None
  | Class member =>
      match s with
      | c :: s' => if member c then k s' else None
      | [] => None
      end
  | Star member => star member k s
  | Opt r' =>
      match run r' k s with
      | Some rest => Some rest
      | None => k s
      end
  | Alt r1 r2 =>
      match run r1 k s with
      | Some rest => Some rest
      | None => run r2 k s
      end
  | Seq r1 r2 => run r1 (run r2 k) s
  end.

(** The match at the start of [s], if any: what follows it. *)
Definition match_at (r : regex) (s : str) : option str := run r Some s.

(** [r.test(s)] and [s.match(r) !== null] for a fresh global [r]. *)
Fixpoint test (r : regex) (s : str) : bool :=
  match match_at r s with
  | Some _ => true
  | None =>
      match s with
      | [] => false
      | _ :: s' => test r s'
      end
  end.

(** [s.replace(r, replacement)] for a global [r] and a replacement without
    [$]: the matches are found from the left, each search resuming behind
    the last match (one unit further after an empty match). *)
Fixpoint replace_all (r : regex) (replacement : str) (skip : nat) (s : str)
  : str :=
  match s with
  | [] =>
      match skip, match_at r [] with
      | O, Some _ => replacement
      | _, _ => []
      end
  | c :: s' =>
      match skip with
      | S k => replace_all r replacement k s'
      | O =>
          match match_at r s with
          | Some rest =>
              match length s - length rest with
              | O => replacement ++ c :: replace_all r replacement 0 s'
              | S n => replacement ++ replace_all r replacement n s'
              end
          | None => c :: replace_all r replacement 0 s'
          end
      end
  end.

Lemma replace_all_no_match (r : regex) (replacement s : str) :
  test r s = false -> replace_all r replacement 0 s = s.
Proof.
  induction s as [|c s IH]; cbn [test replace_all]; intros H.
  - destruct (match_at r []); [discriminate H | reflexivity].
  - destruct (match_at r (c :: s)); [discriminate H|].
    f_equal. apply IH. exact H.
Qed.

Lemma replace_all_skip (r : regex) (replacement m rest : str) :
  replace_all r replacement (length m) (m ++ rest) =
  replace_all r replacement 0 rest.
Proof.
  induction m as [|c m IH]; [destruct rest; reflexivity | exact IH].
Qed.

(** ** Patterns that need a character *)

(** Every match of [r] holds the unit [c]. *)
Fixpoint needs (c : code_unit) (r : regex) : bool :=
  match r with
  | Chars p => existsb (N.eqb c) p
  | Class _ => false
  | Star _ => false
  | Opt _ => false
  | Alt r1 r2 => needs c r1 && needs c r2
  | Seq r1 r2 => needs c r1 || needs c r2
  end.

Lemma startsWith_In (s p : str) (c : code_unit) :
  startsWith s p = true -> In c p -> In c s.
Proof.
  revert s. induction p as [|x p IH]; intros s H Hin; [destruct Hin|].
  destruct s as [|y s]; [discriminate H|]. cbn in H.
  apply andb_true_iff in H. destruct H as [E H]. apply N.eqb_eq in E.
  destruct Hin as [<-|Hin]; [left; symmetry; exact E|].
  right. apply IH; assumption.
Qed.

Lemma skipn_not_In {A} (n : nat) (l : list A) (x : A) :
  ~ In x l -> ~ In x (skipn n l).
Proof.
  intros H Hin. apply H. rewrite <- (firstn_skipn n l).
  apply in_or_app. right. exact Hin.
Qed.

Section Absent.
Variable c : code_unit.

Definition fails_without (k : str -> option str) : Prop :=
  forall s, ~ In c s -> k s = None.

Lemma star_absent (member : code_unit -> bool) (k : str -> option str) :
  fails_without k -> fails_without (star member k).
Proof.
  intros Hk s. induction s as [|x s IH]; intros H; cbn [star].
  - apply Hk. exact H.
  - assert (Hs : ~ In c s) by (intros Hin; apply H; right; exact Hin).
    destruct (member x); [rewrite (IH Hs)|]; apply Hk; exact H.
Qed.

Lemma run_absent (r : regex) :
  forall k, fails_without k -> fails_without (run r k).
Proof.
  induction r as [p|member|member|r IH|r1 IH1 r2 IH2|r1 IH1 r2 IH2];
    intros k Hk s H; cbn [run].
  - destruct (startsWith s p); [|reflexivity].
    apply Hk. apply skipn_not_In. exact H.
  - destruct s as [|x s]; [reflexivity|].
    destruct (member x); [|reflexivity].
    apply Hk. intros Hin. apply H. right. exact Hin.
  - apply star_absent; assumption.
  - rewrite (IH k Hk s H). apply Hk. exact H.
  - rewrite (IH1 k Hk s H). apply IH2; assumption.
  - apply IH1; [|exact H]. apply IH2. exact Hk.
Qed.

Lemma run_needs (r : regex) :
  needs c r = true -> forall k, fails_without (run r k).
Proof.
  induction r as [p|member|member|r IH|r1 IH1 r2 IH2|r1 IH1 r2 IH2];
    cbn [needs]; intros Hn k s H; try discriminate Hn; cbn [run].
  - destruct (startsWith s p) eqn:E; [|reflexivity].
    exfalso. apply H. apply existsb_exists in Hn.
    destruct Hn as (x & Hx & Ex). apply N.eqb_eq in Ex. subst x.
    apply (@startsWith_In s p c E Hx).
  - apply andb_true_iff in Hn. destruct Hn as [H1 H2].
    rewrite (IH1 H1 k s H). apply IH2; assumption.
  - apply orb_true_iff in Hn. destruct Hn as [Hn|Hn].
    + apply IH1; assumption.
    + apply run_absent; [|exact H]. apply IH2. exact Hn.
Qed.

(** A pattern that needs [c] is not found in a text without [c]. *)
Lemma test_needs (r : regex) (s : str) :
  needs c r = true -> ~ In c s -> test r s = false.
Proof.
  intros Hn. induction s as [|x s IH]; intros H; cbn [test];
    unfold match_at; rewrite (run_needs r Hn Some _ H); [reflexivity|].
  apply IH. intros Hin. apply H. right. exact Hin.
Qed.

End Absent.

End Regex.

Module Softener.
Import Js Regex.

Definition now_phrase : str := [20170; 12377; 12368]%N. (* 今すぐ *)

Definition not_closing_bracket (c : code_unit) : bool := negb (N.eqb c 93).

(** [[！!]] *)
Definition exclamation (c : code_unit) : bool :=
  N.eqb c 65281 || N.eqb c 33.

(** [/\*\*\\\[今すぐ[^\]]*\\\]\*\*/g], [/\\\[今すぐ[^\]]*\\\]/g] and
    [/\[今すぐ[^\]]*\]/g] *)
Definition removePatterns : list regex :=
  [Seq (Chars (lit "**\["%string ++ now_phrase))
       (Seq (Star not_closing_bracket) (Chars (lit "\]**"%string)));
   Seq (Chars (lit "\["%string ++ now_phrase))
       (Seq (Star not_closing_bracket) (Chars (lit "\]"%string)));
   Seq (Chars (lit "["%string ++ now_phrase))
       (Seq (Star not_closing_bracket) (Chars (lit "]"%string)))].

(** [/今すぐHabitto(で)?口座(を)?開設[！!]?/g],
    [/今すぐ(申し込み|始め)[！!]/g] and [/(断然|絶対)(に)?おすすめ/g],
    each with its replacement. *)
Definition softenPatterns : list (regex * str) :=
  [(Seq (Chars (now_phrase ++ lit "Habitto"%string))
        (Seq (Opt (Chars [12391]%N)) (* で *)
        (Seq (Chars [21475; 24231]%N) (* 口座 *)
        (Seq (Opt (Chars [12434]%N)) (* を *)
        (Seq (Chars [38283; 35373]%N) (* 開設 *)
             (Opt (Class exclamation)))))),
    (* Habittoの貯蓄口座もチェックしてみてください *)
    [72; 97; 98; 105; 116; 116; 111; 12398; 36015; 33988; 21475; 24231;
     12418; 12481; 12455; 12483; 12463; 12375; 12390; 12415; 12390; 12367;
     12384; 12373; 12356]%N);
   (Seq (Chars now_phrase)
        (Seq (Alt (Chars [30003; 12375; 36796; 12415]%N) (* 申し込み *)
                  (Chars [22987; 12417]%N)) (* 始め *)
             (Class exclamation)),
    (* 詳しくは公式サイトをご覧ください *)
    [35443; 12375; 12367; 12399; 20844; 24335; 12469; 12452; 12488; 12434;
     12372; 35239; 12367; 12384; 12373; 12356]%N);
   (Seq (Alt (Chars [26029; 28982]%N) (* 断然 *)
             (Chars [32118; 23550]%N)) (* 絶対 *)
        (Seq (Opt (Chars [12395]%N)) (* に *)
             (Chars [12362; 12377; 12377; 12417]%N)), (* おすすめ *)
    (* 選択肢の一つ *)
    [36984; 25246; 32930; 12398; 19968; 12388]%N)].

(** [c{k}c+]: a run of more than [k] units [c]. *)
Definition run_over (c : code_unit) (k : nat) : regex :=
  Seq (Chars (repeat c k)) (Seq (Class (N.eqb c)) (Star (N.eqb c))).

Definition remove_step (processed : str) (pattern : regex) : str :=
  if test pattern processed then replace_all pattern [] 0 processed
  else processed.

Definition soften_step (processed : str) (entry : regex * str) : str :=
  let (pattern, replacement) := entry in
  if test pattern processed then replace_all pattern replacement 0 processed
  else processed.

(** The clean-up: [/\n\n\n+/g] becomes two newlines, [/  +/g] one space. *)
Definition clean_up (processed : str) : str :=
  replace_all (run_over 32%N 1) (lit " "%string) 0
    (replace_all (run_over 10%N 2) [10; 10]%N 0 processed).

Definition removePushyCTAs (content : str) : str :=
  clean_up
    (fold_left soften_step softenPatterns
       (fold_left remove_step removePatterns content)).

(** ** Runs of one character *)

(** The text does not go on with [c]. *)
Definition not_headed (c : code_unit) (s : str) : Prop :=
  match s with
  | [] => True
  | x :: _ => x <> c
  end.

Lemma run_split (c : code_unit) (s : str) :
  exists n rest, s = repeat c n ++ rest /\ not_headed c rest.
Proof.
  induction s as [|x s (n & rest & E & H)].
  - exists 0, []. split; [reflexivity | exact I].
  - destruct (N.eqb x c) eqn:Ex.
    + apply N.eqb_eq in Ex. subst x. exists (S n), rest.
      split; [cbn; f_equal; exact E | exact H].
    + apply N.eqb_neq in Ex. exists 0, (x :: s).
      split; [reflexivity | exact Ex].
Qed.

Lemma star_run (c : code_unit) (n : nat) (rest : str) :
  not_headed c rest ->
  star (N.eqb c) Some (repeat c n ++ rest) = Some rest.
Proof.
  intros H. induction n as [|n IH]; cbn [repeat app].
  - destruct rest as [|x rest]; [reflexivity|]. cbn [star].
    cbn in H. apply not_eq_sym in H. apply N.eqb_neq in H. rewrite H.
    reflexivity.
  - cbn [star]. rewrite N.eqb_refl, IH. reflexivity.
Qed.

Lemma startsWith_run (c : code_unit) (n k : nat) (rest : str) :
  not_headed c rest ->
  startsWith (repeat c n ++ rest) (repeat c k) = (k <=? n).
Proof.
  intros H. revert k. induction n as [|n IH]; intros [|k]; cbn [repeat app].
  - destruct rest; reflexivity.
  - destruct rest as [|x rest]; [reflexivity|]. cbn [startsWith].
    cbn in H. apply not_eq_sym in H. apply N.eqb_neq in H. rewrite H.
    reflexivity.
  - reflexivity.
  - cbn [startsWith]. rewrite N.eqb_refl, IH. reflexivity.
Qed.

Lemma skipn_run (c : code_unit) (n k : nat) (rest : str) :
  k <= n -> skipn k (repeat c n ++ rest) = repeat c (n - k) ++ rest.
Proof.
  revert k. induction n as [|n IH]; intros [|k] H; cbn; try reflexivity;
    try lia.
  apply IH. lia.
Qed.

Lemma match_run_over (c : code_unit) (k n : nat) (rest : str) :
  not_headed c rest ->
  match_at (run_over c k) (repeat c n ++ rest) =
  if k <? n then Some rest else None.
Proof.
  intros H. unfold match_at, run_over. cbn [run].
  rewrite repeat_length, startsWith_run by exact H.
  destruct (k <=? n) eqn:E1.
  - apply Nat.leb_le in E1. rewrite skipn_run by exact E1.
    destruct (k <? n) eqn:E2.
    + apply Nat.ltb_lt in E2.
      replace (n - k) with (S (n - k - 1)) by lia. cbn [repeat app].
      rewrite N.eqb_refl. apply star_run. exact H.
    + apply Nat.ltb_ge in E2. replace (n - k) with 0 by lia. cbn [repeat app].
      destruct rest as [|x rest]; [reflexivity|].
      cbn in H. apply not_eq_sym in H. apply N.eqb_neq in H. rewrite H.
      reflexivity.
  - apply Nat.leb_gt in E1.
    assert (E2 : (k <? n) = false) by (apply Nat.ltb_ge; lia).
    rewrite E2. reflexivity.
Qed.

(** The replacement, one run at a time. *)
Lemma replace_run (c : code_unit) (k : nat) (rest : str) :
  1 <= k -> not_headed c rest ->
  forall n,
    replace_all (run_over c k) (repeat c k) 0 (repeat c n ++ rest) =
    repeat c (Nat.min n k) ++
    replace_all (run_over c k) (repeat c k) 0 rest.
Proof.
  intros Hk H n. destruct (k <? n) eqn:E.
  - apply Nat.ltb_lt in E. destruct n as [|n]; [lia|].
    cbn [repeat app replace_all].
    change (c :: repeat c n ++ rest) with (repeat c (S n) ++ rest).
    rewrite match_run_over by exact H.
    assert (E' : (k <? S n) = true) by (apply Nat.ltb_lt; exact E).
    rewrite E'.
    replace (length (repeat c (S n) ++ rest) - length rest) with (S n)
      by (rewrite length_app, repeat_length; lia).
    replace (Nat.min (S n) k) with k by lia. f_equal.
    rewrite <- (repeat_length c n) at 1. apply replace_all_skip.
  - apply Nat.ltb_ge in E. replace (Nat.min n k) with n by lia.
    induction n as [|n IH]; [reflexivity|].
    cbn [repeat app replace_all].
    change (c :: repeat c n ++ rest) with (repeat c (S n) ++ rest).
    rewrite match_run_over by exact H.
    assert (E' : (k <? S n) = false) by (apply Nat.ltb_ge; exact E).
    rewrite E'. f_equal. apply IH. lia.
Qed.

(** The same text without the units [c] that follow [k] or more of them;
    [seen] is the number of units [c] just before. *)
Fixpoint squeeze (c : code_unit) (k seen : nat) (s : str) : str :=
  match s with
  | [] => []
  | x :: s' =>
      if N.eqb x c then
        if seen <? k then x :: squeeze c k (S seen) s'
        else squeeze c k (S seen) s'
      else x :: squeeze c k 0 s'
  end.

Lemma squeeze_not_headed (c : code_unit) (k seen : nat) (rest : str) :
  not_headed c rest -> squeeze c k seen rest = squeeze c k 0 rest.
Proof.
  destruct rest as [|x rest]; [reflexivity|]. cbn. intros H.
  apply N.eqb_neq in H. rewrite H. reflexivity.
Qed.

Lemma squeeze_run (c : code_unit) (k : nat) (rest : str) :
  forall n seen,
    squeeze c k seen (repeat c n ++ rest) =
    repeat c (Nat.min (seen + n) k - Nat.min seen k) ++
    squeeze c k (seen + n) rest.
Proof.
  induction n as [|n IH]; intros seen; cbn [repeat app].
  - rewrite Nat.add_0_r, Nat.sub_diag. reflexivity.
  - cbn [squeeze]. rewrite N.eqb_refl, IH.
    replace (S seen + n) with (seen + S n) by lia.
    destruct (seen <? k) eqn:E.
    + apply Nat.ltb_lt in E.
      replace (Nat.min (seen + S n) k - Nat.min seen k)
        with (S (Nat.min (seen + S n) k - Nat.min (S seen) k)) by lia.
      reflexivity.
    + apply Nat.ltb_ge in E.
      replace (Nat.min (seen + S n) k - Nat.min seen k) with 0 by lia.
      replace (Nat.min (seen + S n) k - Nat.min (S seen) k) with 0 by lia.
      reflexivity.
Qed.

(** The replacement of the runs is that squeeze. *)
Lemma replace_runs_squeeze (c : code_unit) (k : nat) :
  1 <= k ->
  forall s,
    replace_all (run_over c k) (repeat c k) 0 s = squeeze c k 0 s.
Proof.
  intros Hk s. induction s as [s IH] using PostProcess.suffix_induction.
  destruct s as [|x s]; [destruct k; [lia | reflexivity]|].
  destruct (N.eqb x c) eqn:Ex.
  - apply N.eqb_eq in Ex. subst x.
    destruct (run_split c s) as (n & rest & -> & H).
    change (c :: repeat c n ++ rest) with (repeat c (S n) ++ rest).
    rewrite (@replace_run c k rest Hk H (S n)), squeeze_run.
    rewrite (squeeze_not_headed c k _ rest H).
    cbn [Nat.add]. replace (Nat.min 0 k) with 0 by lia. rewrite Nat.sub_0_r.
    f_equal. apply IH. cbn [repeat app length]. rewrite length_app. lia.
  - assert (M : match_at (run_over c k) (x :: s) = None).
    { unfold match_at, run_over. cbn [run].
      destruct k as [|k]; [lia|]. cbn [repeat startsWith].
      rewrite N.eqb_sym, Ex. reflexivity. }
    cbn [replace_all squeeze]. rewrite M, Ex. f_equal. apply IH. cbn. lia.
Qed.

(** ** What the squeeze leaves *)

Lemma startsWith_longer_run (c : code_unit) (t : str) :
  forall j j', j <= j' -> startsWith t (repeat c j) = false ->
               startsWith t (repeat c j') = false.
Proof.
  induction t as [|x t IH]; intros [|j] [|j'] H E; cbn in *;
    try discriminate E; try lia; try reflexivity.
  destruct (N.eqb c x); [|reflexivity]. cbn [andb] in *.
  apply (IH j j'); [lia | exact E].
Qed.

Lemma includes_cons (x : code_unit) (t p : str) :
  includes (x :: t) p = startsWith (x :: t) p || includes t p.
Proof. reflexivity. Qed.

(** No run of more than [k] units [c] is left. *)
Lemma squeeze_runs (c : code_unit) (k : nat) (s : str) :
  forall seen,
    startsWith (squeeze c k seen s) (repeat c (S (k - Nat.min seen k)))
      = false /\
    includes (squeeze c k seen s) (repeat c (S k)) = false.
Proof.
  induction s as [|x s IH]; intros seen; [split; reflexivity|].
  cbn [squeeze]. destruct (N.eqb x c) eqn:Ex.
  - apply N.eqb_eq in Ex. subst x.
    destruct (IH (S seen)) as [H1 H2].
    destruct (seen <? k) eqn:E.
    + apply Nat.ltb_lt in E.
      replace (Nat.min (S seen) k) with (S seen) in H1 by lia.
      split.
      * replace (k - Nat.min seen k) with (S (k - S seen)) by lia.
        cbn [repeat startsWith] in *. rewrite N.eqb_refl. exact H1.
      * rewrite includes_cons, H2, orb_false_r.
        cbn [repeat startsWith]. rewrite N.eqb_refl. cbn [andb].
        apply (@startsWith_longer_run c _ (S (k - S seen)) k);
          [lia | exact H1].
    + apply Nat.ltb_ge in E.
      replace (Nat.min (S seen) k) with k in H1 by lia.
      replace (Nat.min seen k) with k by lia.
      split; [exact H1 | exact H2].
  - destruct (IH 0) as [_ H2]. split.
    + cbn [repeat startsWith]. rewrite N.eqb_sym, Ex. reflexivity.
    + rewrite includes_cons, H2, orb_false_r.
      cbn [repeat startsWith]. rewrite N.eqb_sym, Ex. reflexivity.
Qed.

(** Squeezing the runs of [c] makes no run of another unit [d]. *)
Lemma squeeze_other_runs (c d : code_unit) (k m : nat) (s : str) :
  c <> d -> 1 <= k ->
  forall seen,
    includes s (repeat d (S m)) = false ->
    includes (squeeze c k seen s) (repeat d (S m)) = false /\
    (seen = 0 ->
     forall j, startsWith (squeeze c k 0 s) (repeat d j) = true ->
               startsWith s (repeat d j) = true).
Proof.
  intros Hcd Hk. induction s as [|x s IH]; intros seen H.
  - split; [reflexivity|]. intros _ j E. exact E.
  - rewrite includes_cons in H. apply orb_false_iff in H.
    destruct H as [Hs Hi]. cbn [squeeze].
    destruct (N.eqb x c) eqn:Ex.
    + apply N.eqb_eq in Ex. subst x.
      assert (Edc : N.eqb d c = false)
        by (apply N.eqb_neq; intros E; apply Hcd; symmetry; exact E).
      destruct (IH (S seen) Hi) as [H1 _].
      destruct (seen <? k) eqn:E.
      * split.
        -- rewrite includes_cons, H1, orb_false_r.
           cbn [repeat startsWith]. rewrite Edc. reflexivity.
        -- intros -> [|j] Ej; [reflexivity|].
           rewrite E in Ej. cbn [repeat startsWith] in Ej.
           rewrite Edc in Ej. discriminate Ej.
      * split; [exact H1|]. intros ->. apply Nat.ltb_ge in E. lia.
    + destruct (IH 0 Hi) as [H1 H2]. specialize (H2 eq_refl).
      assert (S' : forall j,
                 startsWith (x :: squeeze c k 0 s) (repeat d j) = true ->
                 startsWith (x :: s) (repeat d j) = true).
      { intros [|j] Ej; [reflexivity|]. cbn [repeat startsWith] in *.
        apply andb_true_iff in Ej. destruct Ej as [E1 E2].
        rewrite E1. cbn [andb]. apply H2. exact E2. }
      split.
      * rewrite includes_cons, H1, orb_false_r.
        destruct (startsWith (x :: squeeze c k 0 s) (repeat d (S m))) eqn:Q;
          [|reflexivity].
        apply S' in Q. rewrite Q in Hs. discriminate Hs.
      * intros _. exact S'.
Qed.

(** A text without a run of more than [k] units [c] is left as it is. *)
Lemma squeeze_unchanged (c : code_unit) (k : nat) (s : str) :
  forall seen,
    startsWith s (repeat c (S (k - Nat.min seen k))) = false ->
    includes s (repeat c (S k)) = false ->
    squeeze c k seen s = s.
Proof.
  induction s as [|x s IH]; intros seen Hs Hi; [reflexivity|].
  rewrite includes_cons in Hi. apply orb_false_iff in Hi.
  destruct Hi as [Hi1 Hi2]. cbn [squeeze].
  destruct (N.eqb x c) eqn:Ex.
  - apply N.eqb_eq in Ex. subst x.
    cbn [repeat startsWith] in Hs. rewrite N.eqb_refl in Hs. cbn [andb] in Hs.
    destruct (seen <? k) eqn:E.
    + apply Nat.ltb_lt in E. f_equal. apply IH; [|exact Hi2].
      replace (Nat.min (S seen) k) with (S seen) by lia.
      replace (k - Nat.min seen k) with (S (k - S seen)) in Hs by lia.
      exact Hs.
    + apply Nat.ltb_ge in E.
      replace (k - Nat.min seen k) with 0 in Hs by lia.
      cbn in Hs. destruct s; discriminate Hs.
  - f_equal. apply IH; [|exact Hi2].
    replace (k - Nat.min 0 k) with k by lia.
    destruct s as [|y s]; [reflexivity|].
    rewrite includes_cons in Hi2. apply orb_false_iff in Hi2. tauto.
Qed.

Lemma clean_up_squeeze (processed : str) :
  clean_up processed = squeeze 32%N 1 0 (squeeze 10%N 2 0 processed).
Proof.
  unfold clean_up.
  change (lit " "%string) with (repeat 32%N 1).
  change [10; 10]%N with (repeat 10%N 2).
  rewrite !replace_runs_squeeze by lia. reflexivity.
Qed.

(** Whatever the content, the text [removePushyCTAs] returns holds neither
    three newlines in a row nor two spaces in a row. *)
Theorem removePushyCTAs_clean (content : str) :
  includes (removePushyCTAs content) [10; 10; 10]%N = false /\
  includes (removePushyCTAs content) (lit "  "%string) = false.
Proof.
  unfold removePushyCTAs. rewrite clean_up_squeeze.
  set (processed := fold_left soften_step _ _).
  split.
  - apply (@squeeze_other_runs 32%N 10%N 1 2); [discriminate | lia|].
    apply (squeeze_runs 10%N 2 processed 0).
  - apply (squeeze_runs 32%N 1 (squeeze 10%N 2 0 processed) 0).
Qed.

(** Every pattern of the two lists holds the syllable [す] (U+3059): a
    content without it, without three newlines in a row and without two
    spaces in a row comes back as it is. *)
Theorem removePushyCTAs_unchanged (content : str) :
  ~ In 12377%N content ->
  includes content [10; 10; 10]%N = false ->
  includes content (lit "  "%string) = false ->
  removePushyCTAs content = content.
Proof.
  intros Hsu Hnl Hsp. unfold removePushyCTAs.
  assert (R : fold_left remove_step removePatterns content = content).
  { unfold removePatterns. cbn [fold_left]. unfold remove_step.
    rewrite !(@test_needs 12377%N _ content) by (reflexivity || exact Hsu).
    reflexivity. }
  rewrite R.
  assert (S' : fold_left soften_step softenPatterns content = content).
  { unfold softenPatterns. cbn [fold_left]. unfold soften_step.
    rewrite !(@test_needs 12377%N _ content) by (reflexivity || exact Hsu).
    reflexivity. }
  rewrite S', clean_up_squeeze.
  assert (N1 : squeeze 10%N 2 0 content = content).
  { apply squeeze_unchanged; [|exact Hnl].
    destruct content as [|x content]; [reflexivity|].
    rewrite includes_cons in Hnl. apply orb_false_iff in Hnl. tauto. }
  rewrite N1. apply squeeze_unchanged; [|exact Hsp].
  destruct content as [|x content]; [reflexivity|].
  rewrite includes_cons in Hsp. apply orb_false_iff in Hsp. tauto.
Qed.

Lemma removePushyCTAs_unchanged_run :
  let content := LinkPlacer.three_paragraphs in
  ~ In 12377%N content /\
  includes content [10; 10; 10]%N = false /\
  includes content (lit "  "%string) = false /\
  removePushyCTAs content = content.
Proof.
  intros content.
  assert (H1 : ~ In 12377%N content).
  { intros H.
    assert (E : existsb (N.eqb 12377) content = false)
      by (vm_compute; reflexivity).
    assert (E' : existsb (N.eqb 12377) content = true).
    { apply existsb_exists. exists 12377%N. split; [exact H|].
      apply N.eqb_refl. }
    rewrite E in E'. discriminate E'. }
  assert (H2 : includes content [10; 10; 10]%N = false)
    by (vm_compute; reflexivity).
  assert (H3 : includes content (lit "  "%string) = false)
    by (vm_compute; reflexivity).
  split; [exact H1|]. split; [exact H2|]. split; [exact H3|].
  exact (@removePushyCTAs_unchanged content H1 H2 H3).
Defined.

(** A run on a text with a bracketed call to action, a pushy phrase and
    too much white space. *)
Example removePushyCTAs_run :
  removePushyCTAs
    (lit "Save  more."%string ++ [10; 10; 10; 10]%N ++
     lit "["%string ++ now_phrase ++ lit " go]"%string ++
     [32118; 23550; 12395; 12362; 12377; 12377; 12417]%N) (* 絶対におすすめ *)
  = lit "Save more."%string ++ [10; 10]%N ++
    [36984; 25246; 32930; 12398; 19968; 12388]%N. (* 選択肢の一つ *)
Proof. vm_compute. reflexivity. Qed.


End Softener.

(* ====================================================================== *)
(** * More on the store access layer *)
(* ====================================================================== *)

Module StoreFacts.
Import Js Num Store Triples.

Section WithEnv.
Variable env : Env.

(** ** [createBatch] *)

Definition created_batch (keywords : list str) (useNeuronwriter : bool)
  (w : World) : Batch.t :=
  Lib.new_batch useNeuronwriter (length keywords) (tick w).

Definition created_jobs (keywords : list str) (w : World) : list Job.t :=
  map (fun entry => Lib.new_job (next_id w) (S (S (clock w)))
                                (S (next_id w) + fst entry)
                                (trim env (snd entry)))
      (entries keywords).

Lemma entries_map {A B} (f : A -> B) (l : list A) :
  entries (map f l) = map (fun e => (fst e, f (snd e))) (entries l).
Proof.
  unfold entries. rewrite length_map. generalize 0.
  induction l as [|x l IH]; intros n; [reflexivity|].
  cbn. f_equal. apply IH.
Qed.

Lemma createBatch_run (keywords : list str) (useNeuronwriter : bool)
  (w : World) :
  store_error env (clock w) = None ->
  store_error env (S (clock w)) = None ->
  Lib.createBatch env keywords useNeuronwriter w =
  (Returned (created_batch keywords useNeuronwriter w),
   {| simple_batches :=
        simple_batches w ++ [created_batch keywords useNeuronwriter w];
      simple_jobs := simple_jobs w ++ created_jobs keywords w;
      simple_blogs := simple_blogs w;
      clock := S (S (clock w));
      next_id := S (next_id w) + length keywords;
      writeBlog_calls := writeBlog_calls w;
      transitions := transitions w |}).
Proof.
  intros E0 E1.
  unfold Lib.createBatch, bind, request, get, put, ret. rewrite E0.
  cbn [clock tick Lib.insert_batch]. rewrite E1.
  unfold Lib.insert_jobs, created_batch, created_jobs.
  cbn [simple_batches simple_jobs simple_blogs clock next_id writeBlog_calls
       transitions tick Lib.insert_batch Lib.new_batch Batch.id].
  rewrite entries_map, map_map, length_map. cbn [fst snd]. reflexivity.
Qed.

Lemma sort_in_order {A} (cmp : A -> A -> Z) (l : list A) :
  (forall x y, In x l -> In y l -> (cmp x y <= 0)%Z) -> sort cmp l = l.
Proof.
  induction l as [|x l IH]; intros H; [reflexivity|].
  cbn [sort fold_right]. fold (sort cmp l).
  rewrite IH by (intros a b Ha Hb; apply H; right; assumption).
  destruct l as [|y l]; [reflexivity|]. cbn [insert].
  assert (E : (cmp x y <=? 0)%Z = true).
  { apply Z.leb_le. apply H; [left; reflexivity | right; left; reflexivity]. }
  rewrite E. reflexivity.
Qed.

Lemma jobs_of_none (b : nat) (l : list Job.t) :
  (forall j, In j l -> Job.batch_id j <> b) -> jobs_of b l = [].
Proof.
  intros H. unfold jobs_of.
  induction l as [|j l IH]; [reflexivity|]. cbn [filter].
  destruct (Job.batch_id j =? b) eqn:E.
  - apply Nat.eqb_eq in E. exfalso. apply (H j (or_introl eq_refl) E).
  - apply IH. intros j' Hj'. apply H. right. exact Hj'.
Qed.

Lemma jobs_of_all (b : nat) (l : list Job.t) :
  (forall j, In j l -> Job.batch_id j = b) -> jobs_of b l = l.
Proof.
  intros H. unfold jobs_of.
  induction l as [|j l IH]; [reflexivity|]. cbn [filter].
  rewrite (H j (or_introl eq_refl)), Nat.eqb_refl. f_equal.
  apply IH. intros j' Hj'. apply H. right. exact Hj'.
Qed.

Lemma find_batch_last (B : Batch.t) (l : list Batch.t) :
  (forall B', In B' l -> Batch.id B' <> Batch.id B) ->
  find (fun b => Batch.id b =? Batch.id B) (l ++ [B]) = Some B.
Proof.
  intros H. induction l as [|B' l IH]; cbn [app find].
  - rewrite Nat.eqb_refl. reflexivity.
  - destruct (Batch.id B' =? Batch.id B) eqn:E.
    + apply Nat.eqb_eq in E. exfalso. apply (H B' (or_introl eq_refl) E).
    + apply IH. intros B'' HB''. apply H. right. exact HB''.
Qed.

(** When the store takes both inserts, [createBatch] returns a pending
    batch whose [total_keywords] is the number of keywords; looking the batch
    up finds that row, and [getJobsForBatch], when the store answers it,
    returns one pending job per keyword, with the trimmed keyword, in an
    order the store chooses (the jobs share their creation time); the rows
    that were there before are untouched. *)
Theorem createBatch_then_lookup (keywords : list str)
  (useNeuronwriter : bool) (w : World) :
  Invariants.well_keyed w ->
  store_error env (clock w) = None ->
  store_error env (S (clock w)) = None ->
  store_error env (S (S (clock w))) = None ->
  exists batch w' jobs w'',
    Lib.createBatch env keywords useNeuronwriter w = (Returned batch, w') /\
    Batch.total_keywords batch = length keywords /\
    Batch.status batch = batch_pending /\
    Batch.completed_keywords batch = 0 /\ Batch.failed_keywords batch = 0 /\
    Batch.use_neuronwriter batch = useNeuronwriter /\
    find_batch (Batch.id batch) w' = Some batch /\
    Lib.getJobsForBatch env (Batch.id batch) w' = (Returned jobs, w'') /\
    Permutation (map (fun j => (Job.keyword j, Job.status j)) jobs)
                (map (fun k => (trim env k, pending)) keywords) /\
    simple_batches w' = simple_batches w ++ [batch] /\
    firstn (length (simple_jobs w)) (simple_jobs w') = simple_jobs w.
Proof.
  intros (K1 & K2 & K3 & K4) E0 E1 E2.
  eexists. eexists. eexists. eexists.
  split; [apply createBatch_run; assumption|].
  cbn [simple_batches simple_jobs].
  unfold created_batch at 1 2 3 4 5.
  cbn [Lib.new_batch Batch.total_keywords Batch.status
       Batch.completed_keywords Batch.failed_keywords Batch.use_neuronwriter].
  do 5 (split; [reflexivity|]).
  assert (Hid : Batch.id (created_batch keywords useNeuronwriter w)
                = next_id w) by reflexivity.
  split; [|split; [|split; [|split]]].
  - unfold find_batch. cbn [simple_batches]. apply find_batch_last.
    intros B' HB'. rewrite Hid. specialize (K4 B' HB'). lia.
  - apply Invariants.getJobsForBatch_run. exact E2.
  - eapply perm_trans;
      [apply Permutation_map, Permutation_sym, Invariants.select_all_perm|].
    cbn [simple_jobs tick]. rewrite Hid.
    assert (J : jobs_of (next_id w) (simple_jobs w ++ created_jobs keywords w)
                = created_jobs keywords w).
    { unfold jobs_of. rewrite filter_app.
      fold (jobs_of (next_id w) (simple_jobs w)).
      fold (jobs_of (next_id w) (created_jobs keywords w)).
      rewrite jobs_of_none, jobs_of_all; [reflexivity | |].
      - intros j Hj. unfold created_jobs in Hj. apply in_map_iff in Hj.
        destruct Hj as (e & <- & _). reflexivity.
      - intros j Hj. destruct (K3 j Hj). lia. }
    rewrite J.
    assert (K : map (fun j => (Job.keyword j, Job.status j))
                    (created_jobs keywords w)
                = map (fun k => (trim env k, pending)) keywords).
    { unfold created_jobs. rewrite map_map.
      cbn [Lib.new_job Job.keyword Job.status].
      unfold entries. clear. generalize 0.
      induction keywords as [|k keywords IH]; intros n; [reflexivity|].
      cbn. f_equal. apply IH. }
    rewrite K. apply Permutation_refl.
  - reflexivity.
  - rewrite firstn_app, Nat.sub_diag, firstn_all. cbn [firstn].
    apply app_nil_r.
Qed.

(** ** A batch left without jobs *)

Lemma createBatch_jobs_refused (keywords : list str) (useNeuronwriter : bool)
  (w : World) (e : str) :
  store_error env (clock w) = None ->
  store_error env (S (clock w)) = Some e ->
  Lib.createBatch env keywords useNeuronwriter w =
  (Thrown (lit "Failed to create jobs: "%string ++ e),
   tick (Lib.insert_batch (created_batch keywords useNeuronwriter w)
                          (tick w))).
Proof.
  intros E0 E1.
  unfold Lib.createBatch, bind, request, get, put, ret, throw. rewrite E0.
  cbn [clock tick Lib.insert_batch]. rewrite E1. reflexivity.
Qed.

Lemma processOneStep_final_run (b : nat) (use : bool) (w : World) :
  Invariants.all_terminal b (simple_jobs w) = true ->
  store_error env (clock w) = None ->
  store_error env (3 + clock w) = None ->
  store_error env (4 + clock w) = None ->
  exists final now1 now2,
    snd (Lib.processOneStep env b use w) =
    update_batch b (set_batch_status final now2)
      (tick (tick (tick (tick
         (update_batch b (set_batch_status batch_running now1)
                       (tick w)))))).
Proof.
  intros Hall E0 E1 E2.
  set (w1 := update_batch b (set_batch_status batch_running (S (clock w)))
                          (tick w)).
  set (w2 := tick (tick w1)).
  set (jobs := select_jobs env b (fun _ => true) (tick w2)).
  assert (Hperm : Permutation (jobs_of b (simple_jobs w)) jobs)
    by apply (Invariants.select_all_perm env b (tick w2)).
  assert (Hcount : Lib.count_status completed jobs +
                   Lib.count_status failed jobs = length jobs).
  { rewrite <- (Invariants.count_status_perm completed Hperm),
            <- (Invariants.count_status_perm failed Hperm),
            <- (Permutation_length Hperm).
    apply Invariants.all_terminal_count. exact Hall. }
  exists (Invariants.final_status jobs), (S (clock w)), (5 + clock w).
  unfold Lib.processOneStep, try_catch.
  unfold bind at 1.
  rewrite (Invariants.updateBatchStatus_run env b batch_running w E0).
  fold w1. unfold bind at 1.
  rewrite (Invariants.getNextJobToProcess_none env b w1 Hall). fold w2.
  unfold bind at 1. rewrite (Invariants.getJobsForBatch_run env b w2 E1).
  fold jobs. cbv zeta. rewrite Hcount, Nat.eqb_refl.
  unfold bind at 1.
  rewrite (Invariants.updateBatchStatus_run env b _ (tick w2) E2).
  reflexivity.
Qed.

(** When the store takes the batch row and refuses the job rows,
    [createBatch] throws and the batch row stays behind without any job; the
    next dispatcher call for that batch, if the store answers its three
    checked requests (whatever it answers to the two reads of the job
    selection between them), finds nothing to do and reports the batch
    failed. *)
Theorem createBatch_without_jobs (keywords : list str)
  (useNeuronwriter use : bool) (w : World) (e : str) :
  Invariants.well_keyed w ->
  store_error env (clock w) = None ->
  store_error env (S (clock w)) = Some e ->
  store_error env (2 + clock w) = None ->
  store_error env (5 + clock w) = None ->
  store_error env (6 + clock w) = None ->
  let w1 := snd (Lib.createBatch env keywords useNeuronwriter w) in
  let w2 := snd (Lib.processOneStep env (next_id w) use w1) in
  fst (Lib.createBatch env keywords useNeuronwriter w) =
    Thrown (lit "Failed to create jobs: "%string ++ e) /\
  simple_jobs w1 = simple_jobs w /\
  jobs_of (next_id w) (simple_jobs w2) = [] /\
  exists B,
    find_batch (next_id w) w2 = Some B /\
    Batch.total_keywords B = length keywords /\
    Batch.status B = batch_failed.
Proof.
  intros (K1 & K2 & K3 & K4) E0 E1 E2 E3 E4. cbv zeta.
  rewrite (createBatch_jobs_refused keywords useNeuronwriter w E0 E1).
  cbn [fst snd].
  set (batch := created_batch keywords useNeuronwriter w).
  set (w1 := tick (Lib.insert_batch batch (tick w))).
  assert (Hnone : jobs_of (next_id w) (simple_jobs w1) = []).
  { apply jobs_of_none. intros j Hj. destruct (K3 j Hj). lia. }
  assert (Hall : Invariants.all_terminal (next_id w) (simple_jobs w1) = true).
  { unfold Invariants.all_terminal, Invariants.statuses. rewrite Hnone.
    reflexivity. }
  destruct (@processOneStep_final_run (next_id w) use w1 Hall E2 E3 E4)
    as (final & now1 & now2 & Run).
  assert (Hfail : forall B,
             In B (simple_batches
                     (snd (Lib.processOneStep env (next_id w) use w1))) ->
             Batch.id B = next_id w -> Batch.status B = batch_failed).
  { intros B HB Hid.
    rewrite (@Invariants.processOneStep_finalizes env (next_id w) use w1
               Hall E2 E3 E4 B HB Hid).
    unfold Invariants.all_failed, Invariants.statuses. rewrite Hnone.
    reflexivity. }
  split; [reflexivity|]. split; [reflexivity|].
  rewrite Run in *. split; [exact Hnone|].
  set (B2 := set_batch_status final now2
               (set_batch_status batch_running now1 batch)).
  exists B2.
  assert (Hfind : find_batch (next_id w)
                    (update_batch (next_id w) (set_batch_status final now2)
                       (tick (tick (tick (tick
                          (update_batch (next_id w)
                             (set_batch_status batch_running now1)
                             (tick w1))))))) = Some B2).
  { unfold find_batch. cbn [simple_batches update_batch set_tables tick w1
                            Lib.insert_batch].
    rewrite !map_app. cbn [map].
    change (Batch.id batch) with (next_id w). rewrite Nat.eqb_refl.
    cbn [set_batch_status Batch.id]. rewrite Nat.eqb_refl.
    fold B2.
    refine (@find_batch_last B2 _ _).
    intros B' HB'. apply in_map_iff in HB'. destruct HB' as (B1 & <- & HB1).
    apply in_map_iff in HB1. destruct HB1 as (B0 & <- & HB0).
    specialize (K4 B0 HB0). change (Batch.id B2) with (next_id w).
    assert (E : (Batch.id B0 =? next_id w) = false)
      by (apply Nat.eqb_neq; lia).
    rewrite E, E. lia. }
  split; [exact Hfind|]. split; [reflexivity|].
  apply Hfail; [|reflexivity].
  unfold find_batch in Hfind. apply find_some in Hfind. tauto.
Qed.


End WithEnv.

End StoreFacts.

Module StoreRuns.
Import Js Num Store.

(** The store refuses its second request, and no other. *)
Definition refusing_jobs : Env :=
  Scenario.demo (fun t => if t =? 1 then Some (lit "timeout"%string) else None)
                None.

Definition two_keywords : list str :=
  [lit "savings"%string; lit "debit card"%string].

Lemma createBatch_then_lookup_run :
  let env := Scenario.steady in
  let w := empty_world in
  let keywords := two_keywords in
  let useNeuronwriter := true in
  Invariants.well_keyed w /\
  store_error env (clock w) = None /\
  store_error env (S (clock w)) = None /\
  store_error env (S (S (clock w))) = None /\
  exists batch w' jobs w'',
    Lib.createBatch env keywords useNeuronwriter w = (Returned batch, w') /\
    Batch.total_keywords batch = length keywords /\
    Batch.status batch = batch_pending /\
    Batch.completed_keywords batch = 0 /\ Batch.failed_keywords batch = 0 /\
    Batch.use_neuronwriter batch = useNeuronwriter /\
    find_batch (Batch.id batch) w' = Some batch /\
    Lib.getJobsForBatch env (Batch.id batch) w' = (Returned jobs, w'') /\
    Permutation (map (fun j => (Job.keyword j, Job.status j)) jobs)
                (map (fun k => (trim env k, pending)) keywords) /\
    simple_batches w' = simple_batches w ++ [batch] /\
    firstn (length (simple_jobs w)) (simple_jobs w') = simple_jobs w.
Proof.
  intros env w keywords useNeuronwriter.
  pose proof (proj1 Invariants.invariant_empty) as K.
  split; [exact K|]. split; [reflexivity|]. split; [reflexivity|].
  split; [reflexivity|].
  apply (@StoreFacts.createBatch_then_lookup env keywords useNeuronwriter w K);
    reflexivity.
Defined.

Lemma createBatch_without_jobs_run :
  let env := refusing_jobs in
  let w := empty_world in
  let keywords := two_keywords in
  let e := lit "timeout"%string in
  Invariants.well_keyed w /\
  store_error env (S (clock w)) = Some e /\
  let w1 := snd (Lib.createBatch env keywords true w) in
  let w2 := snd (Lib.processOneStep env (next_id w) true w1) in
  fst (Lib.createBatch env keywords true w) =
    Thrown (lit "Failed to create jobs: "%string ++ e) /\
  simple_jobs w1 = simple_jobs w /\
  jobs_of (next_id w) (simple_jobs w2) = [] /\
  exists B,
    find_batch (next_id w) w2 = Some B /\
    Batch.total_keywords B = length keywords /\
    Batch.status B = batch_failed.
Proof.
  intros env w keywords e.
  pose proof (proj1 Invariants.invariant_empty) as K.
  split; [exact K|]. split; [reflexivity|].
  apply (@StoreFacts.createBatch_without_jobs env keywords true true w e K);
    reflexivity.
Defined.

End StoreRuns.

(* ====================================================================== *)
(** * What one invocation of a dispatcher touches *)
(* ====================================================================== *)

Module Dispatch.
Import Js Num Store Triples.

(** The status writes of the edge function's handlers, as (from, to). *)
Definition edge_legal (from to : JobStatus) : bool :=
  match from, to with
  | pending, researching
  | researching, researching
  | researching, analyzing
  | analyzing, writing
  | writing, completed
  | researching, failed
  | analyzing, failed
  | writing, failed => true
  | _, _ => false
  end.

(** The library's handlers have one more: the write step's handler of a
    failure that comes after the job was marked completed. *)
Definition lib_legal (from to : JobStatus) : bool :=
  edge_legal from to ||
  match from, to with
  | completed, failed => true
  | _, _ => false
  end.

Definition rank (s : JobStatus) : nat :=
  match s with
  | pending => 0
  | researching => 1
  | analyzing => 2
  | writing => 3
  | completed => 4
  | failed => 5
  end.

(** Every row with the identifier [jid] has the status [s]. *)
Definition current (jid : nat) (s : JobStatus) (w : World) : Prop :=
  forall j, In j (simple_jobs w) -> Job.id j = jid -> Job.status j = s.

Definition has_blog (jid : nat) (w : World) : Prop :=
  exists blog, In blog (simple_blogs w) /\ Blog.job_id blog = jid.

(** What a call leaves of a job row and of a batch row. *)
Definition job_kept (b : nat) (j j' : Job.t) : Prop :=
  Job.id j' = Job.id j /\
  Job.batch_id j' = Job.batch_id j /\
  Job.keyword j' = Job.keyword j /\
  Job.created_at j' = Job.created_at j /\
  (Job.batch_id j <> b -> j' = j) /\
  (terminal (Job.status j) = true -> j' = j).

Definition batch_kept (b : nat) (B B' : Batch.t) : Prop :=
  Batch.id B' = Batch.id B /\
  Batch.use_neuronwriter B' = Batch.use_neuronwriter B /\
  Batch.total_keywords B' = Batch.total_keywords B /\
  Batch.created_at B' = Batch.created_at B /\
  (Batch.id B <> b -> B' = B).

Definition blog_of_batch (b : nat) (w : World) (blog : Blog.t) : Prop :=
  exists j, In j (simple_jobs w) /\ Job.batch_id j = b /\
            Blog.job_id blog = Job.id j.

(** Every job marked completed has a blog. *)
Definition completed_have_blogs (w : World) : Prop :=
  forall j, In j (simple_jobs w) -> Job.status j = completed ->
            has_blog (Job.id j) w.

Lemma has_blog_incl (jid : nat) (w w' : World) :
  incl (simple_blogs w) (simple_blogs w') -> has_blog jid w -> has_blog jid w'.
Proof.
  intros Hi (blog & H & E). exists blog. split; [apply Hi; exact H | exact E].
Qed.

Lemma current_updated (jid : nat) (u : JobUpdate) (to : JobStatus) (w : World) :
  set_status u = Some to -> current jid to (update_job jid u w).
Proof.
  intros Hu j' Hj' E. cbn in Hj'. rewrite Invariants.update_job_rows_map in Hj'.
  apply in_map_iff in Hj'. destruct Hj' as (j & <- & Hj).
  rewrite Invariants.updated_id in E.
  rewrite Invariants.updated_status, Hu.
  apply Nat.eqb_eq in E. rewrite E. reflexivity.
Qed.

Lemma current_data (jid : nat) (u : JobUpdate) (s : JobStatus) (w : World) :
  set_status u = None -> current jid s w -> current jid s (update_job jid u w).
Proof.
  intros Hu H j' Hj' E. cbn in Hj'. rewrite Invariants.update_job_rows_map in Hj'.
  apply in_map_iff in Hj'. destruct Hj' as (j & <- & Hj).
  rewrite Invariants.updated_id in E.
  rewrite Invariants.updated_status, Hu. cbn [or_else].
  rewrite (H j Hj E). destruct (Job.id j =? jid); reflexivity.
Qed.

(** ** The changes of one invocation *)

Section Changes.
Variable legal : JobStatus -> JobStatus -> bool.
Variables b jid : nat.

Inductive change : World -> World -> Prop :=
| change_tick w : change w (tick w)
| change_log c w : change w (log_call c w)
| change_blog blog w : Blog.job_id blog = jid -> change w (add_blog blog w)
| change_data u w : set_status u = None -> change w (update_job jid u w)
| change_status u from to w :
    set_status u = Some to -> current jid from w -> legal from to = true ->
    (to = completed -> has_blog jid w) ->
    change w (update_job jid u w)
| change_batch_status s now w :
    change w (update_batch b (set_batch_status s now) w)
| change_progress field value now w :
    change w (update_batch b (set_progress field value now) w).

Inductive trace (w0 : World) : World -> Prop :=
| trace_nil : trace w0 w0
| trace_snoc w w' : trace w0 w -> change w w' -> trace w0 w'.

Lemma trace_trans (w0 w1 w2 : World) :
  trace w0 w1 -> trace w1 w2 -> trace w0 w2.
Proof.
  intros H1 H2. induction H2 as [|w w' _ IH Hc]; [exact H1|].
  apply (trace_snoc IH Hc).
Qed.

(** The invocation so far, with the status of its job. *)
Definition along (w0 : World) (s : JobStatus) (w : World) : Prop :=
  trace w0 w /\ current jid s w.

Lemma along_tick (w0 : World) (s : JobStatus) (w : World) :
  along w0 s w -> along w0 s (tick w).
Proof.
  intros [H C]. split; [apply (trace_snoc H (change_tick w)) | exact C].
Qed.

Lemma along_log (w0 : World) (s : JobStatus) c (w : World) :
  along w0 s w -> along w0 s (log_call c w).
Proof.
  intros [H C]. split; [apply (trace_snoc H (change_log c w)) | exact C].
Qed.

Lemma along_blog (w0 : World) (s : JobStatus) (blog : Blog.t) (w : World) :
  Blog.job_id blog = jid -> along w0 s w -> along w0 s (add_blog blog w).
Proof.
  intros E [H C]. split; [apply (trace_snoc H (change_blog blog w E)) | exact C].
Qed.

Lemma along_batch_status (w0 : World) (s : JobStatus) (st : BatchStatus)
  (now : nat) (w : World) :
  along w0 s w -> along w0 s (update_batch b (set_batch_status st now) w).
Proof.
  intros [H C].
  split; [apply (trace_snoc H (change_batch_status st now w)) | exact C].
Qed.

Lemma along_progress (w0 : World) (s : JobStatus) (field : ProgressField)
  (value now : nat) (w : World) :
  along w0 s w -> along w0 s (update_batch b (set_progress field value now) w).
Proof.
  intros [H C].
  split; [apply (trace_snoc H (change_progress field value now w)) | exact C].
Qed.

Lemma along_data (w0 : World) (s : JobStatus) (u : JobUpdate) (w : World) :
  set_status u = None -> along w0 s w -> along w0 s (update_job jid u w).
Proof.
  intros Hu [H C].
  split; [apply (trace_snoc H (change_data u w Hu)) | apply current_data; assumption].
Qed.

Lemma along_status (w0 : World) (from to : JobStatus) (u : JobUpdate)
  (w : World) :
  set_status u = Some to -> legal from to = true ->
  (to = completed -> has_blog jid w) ->
  along w0 from w -> along w0 to (update_job jid u w).
Proof.
  intros Hu L Hb [H C]. split.
  - apply (trace_snoc H (@change_status u from to w Hu C L Hb)).
  - apply current_updated. exact Hu.
Qed.

Lemma timeless_along (w0 : World) (s : JobStatus) : timeless (along w0 s).
Proof. intros w H. apply along_tick. exact H. Qed.

(** ** What a trace keeps *)

Definition job_moved (j j' : Job.t) : Prop :=
  Job.id j' = Job.id j /\
  Job.batch_id j' = Job.batch_id j /\
  Job.keyword j' = Job.keyword j /\
  Job.created_at j' = Job.created_at j /\
  (Job.id j <> jid -> j' = j).

Lemma job_moved_updated (u : JobUpdate) (j0 j : Job.t) :
  job_moved j0 j -> job_moved j0 (Invariants.updated jid u j).
Proof.
  intros (H1 & H2 & H3 & H4 & H5). unfold job_moved, Invariants.updated.
  destruct (Job.id j =? jid) eqn:E.
  - apply Nat.eqb_eq in E. cbn. repeat split; try assumption.
    intros N. exfalso. apply N. rewrite <- H1. exact E.
  - repeat split; assumption.
Qed.

Lemma Forall2_map_r {A B} (R : A -> B -> Prop) (f : B -> B) (l : list A)
  (l' : list B) :
  (forall x y, R x y -> R x (f y)) -> Forall2 R l l' -> Forall2 R l (map f l').
Proof.
  intros Hf H. induction H as [|x y l l' Hxy _ IH]; [constructor|].
  cbn. constructor; [apply Hf; exact Hxy | exact IH].
Qed.

Lemma Forall2_refl {A} (R : A -> A -> Prop) (l : list A) :
  (forall x, R x x) -> Forall2 R l l.
Proof. intros HR. induction l; constructor; [apply HR | assumption]. Qed.

Lemma trace_jobs (w0 w : World) :
  trace w0 w -> Forall2 job_moved (simple_jobs w0) (simple_jobs w).
Proof.
  induction 1 as [|w w' _ IH Hc].
  - apply Forall2_refl. intros j. repeat split.
  - destruct Hc; try exact IH.
    + cbn. rewrite Invariants.update_job_rows_map.
      apply Forall2_map_r; [apply job_moved_updated | exact IH].
    + cbn. rewrite Invariants.update_job_rows_map.
      apply Forall2_map_r; [apply job_moved_updated | exact IH].
Qed.

Lemma trace_batches (w0 w : World) :
  trace w0 w -> Forall2 (batch_kept b) (simple_batches w0) (simple_batches w).
Proof.
  induction 1 as [|w w' _ IH Hc].
  - apply Forall2_refl. intros B. repeat split.
  - destruct Hc; try exact IH.
    + cbn. apply Forall2_map_r; [|exact IH].
      intros B0 B (H1 & H2 & H3 & H4 & H5).
      destruct (Batch.id B =? b) eqn:E; [|repeat split; assumption].
      apply Nat.eqb_eq in E. cbn. repeat split; try assumption.
      intros N. exfalso. apply N. rewrite <- H1. exact E.
    + cbn. apply Forall2_map_r; [|exact IH].
      intros B0 B (H1 & H2 & H3 & H4 & H5).
      destruct (Batch.id B =? b) eqn:E; [|repeat split; assumption].
      apply Nat.eqb_eq in E. cbn. repeat split; try assumption.
      intros N. exfalso. apply N. rewrite <- H1. exact E.
Qed.

Lemma trace_blogs (w0 w : World) :
  trace w0 w ->
  exists new, simple_blogs w = simple_blogs w0 ++ new /\
              Forall (fun blog => Blog.job_id blog = jid) new.
Proof.
  induction 1 as [|w w' _ (new & E & F) Hc].
  - exists []. rewrite app_nil_r. split; [reflexivity | constructor].
  - destruct Hc; try (exists new; split; [exact E | exact F]).
    exists (new ++ [blog]). cbn. rewrite E, app_assoc. split; [reflexivity|].
    apply Forall_app. split; [exact F|]. constructor; [assumption | constructor].
Qed.

Lemma trace_transitions (w0 w : World) :
  trace w0 w ->
  exists new, transitions w = transitions w0 ++ new /\
              Forall (fun t => fst (fst t) = jid /\
                               legal (snd (fst t)) (snd t) = true) new.
Proof.
  induction 1 as [|w w' _ (new & E & F) Hc].
  - exists []. rewrite app_nil_r. split; [reflexivity | constructor].
  - destruct Hc as [w|c w|blog w Hb|u w Hu|u from to w Hu C L Hb|s now w
                    |field value now w];
      try (exists new; split; [exact E | exact F]).
    + exists new. cbn. unfold status_writes. rewrite Hu, app_nil_r.
      split; [exact E | exact F].
    + exists (new ++ status_writes jid u (simple_jobs w)). cbn.
      rewrite E, app_assoc. split; [reflexivity|].
      apply Forall_app. split; [exact F|].
      unfold status_writes. rewrite Hu. apply Forall_forall.
      intros t Ht. apply in_map_iff in Ht. destruct Ht as (j & <- & Hj).
      apply filter_In in Hj. destruct Hj as [Hj Hid].
      apply Nat.eqb_eq in Hid. cbn. split; [exact Hid|].
      rewrite (C j Hj Hid). exact L.
Qed.

Lemma trace_rank (w0 w : World) :
  (forall from to, legal from to = true -> rank from <= rank to) ->
  trace w0 w ->
  Forall2 (fun j j' => rank (Job.status j) <= rank (Job.status j'))
          (simple_jobs w0) (simple_jobs w).
Proof.
  intros Hl. induction 1 as [|w w' _ IH Hc].
  - apply Forall2_refl. intros j. apply Nat.le_refl.
  - destruct Hc as [w|c w|blog w Hb|u w Hu|u from to w Hu C L Hb|s now w
                    |field value now w]; try exact IH.
    + cbn. rewrite Invariants.update_job_rows_map.
      clear - IH Hu. induction IH as [|j0 j l0 l Hj _ IHl]; [constructor|].
      cbn. constructor; [|exact IHl].
      rewrite Invariants.updated_status, Hu. cbn.
      destruct (Job.id j =? jid); exact Hj.
    + cbn. rewrite Invariants.update_job_rows_map.
      assert (C' : forall j, In j (simple_jobs w) -> Job.id j = jid ->
                             Job.status j = from) by exact C.
      clear - IH Hu C' L Hl.
      induction IH as [|j0 j l0 l Hj _ IHl]; [constructor|].
      cbn. constructor.
      * rewrite Invariants.updated_status, Hu. cbn.
        destruct (Job.id j =? jid) eqn:E; [|exact Hj].
        apply Nat.eqb_eq in E.
        rewrite (C' j (or_introl eq_refl) E) in Hj.
        specialize (Hl _ _ L). lia.
      * apply IHl. intros j1 H1. apply C'. right. exact H1.
Qed.

Lemma trace_completed (w0 w : World) :
  trace w0 w -> completed_have_blogs w0 -> completed_have_blogs w.
Proof.
  induction 1 as [|w w' _ IH Hc]; [auto|].
  intros H0. specialize (IH H0).
  destruct Hc as [w|c w|blog w Hb|u w Hu|u from to w Hu C L Hb|s now w
                  |field value now w]; try exact IH.
  - intros j Hj Hs. apply (@has_blog_incl _ w); [|apply IH; assumption].
    cbn. apply incl_appl, incl_refl.
  - intros j' Hj' Hs. cbn in Hj'. rewrite Invariants.update_job_rows_map in Hj'.
    apply in_map_iff in Hj'. destruct Hj' as (j & <- & Hj).
    rewrite Invariants.updated_id.
    rewrite Invariants.updated_status, Hu in Hs. cbn [or_else] in Hs.
    assert (Hs' : Job.status j = completed)
      by (destruct (Job.id j =? jid); exact Hs).
    apply (IH j Hj Hs').
  - intros j' Hj' Hs. cbn in Hj'. rewrite Invariants.update_job_rows_map in Hj'.
    apply in_map_iff in Hj'. destruct Hj' as (j & <- & Hj).
    rewrite Invariants.updated_id.
    rewrite Invariants.updated_status, Hu in Hs. cbn [or_else] in Hs.
    destruct (Job.id j =? jid) eqn:E.
    + apply Nat.eqb_eq in E. rewrite E. apply Hb. exact Hs.
    + apply (IH j Hj Hs).
Qed.

End Changes.


(** ** The library's handlers *)

Section Library.
Variable env : Env.
Variables b jid : nat.
Variable w0 : World.

#[local] Abbreviation al := (along lib_legal b jid w0).
#[local] Abbreviation tr := (trace lib_legal b jid w0).

Lemma lib_updateJobStatus (from to : JobStatus) (e : option str) :
  lib_legal from to = true ->
  triple (fun w => al from w /\ (to = completed -> has_blog jid w))
         (Lib.updateJobStatus env jid to e)
         (fun _ => al to) (al from).
Proof.
  intros L. unfold Lib.updateJobStatus.
  eapply triple_bind;
    [apply triple_get_to
       with (Q := fun _ w => al from w /\ (to = completed -> has_blog jid w));
     intros w H; exact H|].
  intros w1. cbv zeta. apply Invariants.triple_checked_put.
  - intros w [H _]. apply along_tick. exact H.
  - intros w [H Hb]. apply along_status with (from := from);
      [reflexivity | exact L | exact Hb | apply along_tick; exact H].
Qed.

Lemma lib_setJobError (from : JobStatus) (e : str) :
  lib_legal from failed = true ->
  triple (al from) (Lib.setJobError env jid e) (fun _ => al failed) (al from).
Proof.
  intros L. unfold Lib.setJobError.
  eapply triple_weaken;
    [apply (@lib_updateJobStatus from failed (Some e) L)
    | intros w H; split; [exact H | discriminate]
    | intros ? ? H; exact H | intros ? H; exact H].
Qed.

Lemma lib_incrementBatchProgress (s : JobStatus) (field : ProgressField) :
  triple (al s) (Lib.incrementBatchProgress env b field)
         (fun _ => al s) (al s).
Proof.
  unfold Lib.incrementBatchProgress.
  eapply triple_bind;
    [apply triple_request; apply timeless_along|].
  intros fetchError.
  eapply triple_bind;
    [apply triple_get_to with (Q := fun _ => al s); intros w H; exact H|].
  intros w1. destruct fetchError as [e|]; [apply triple_throw|].
  destruct (find_batch b w1) as [batch|]; [|apply triple_throw].
  cbv zeta. apply Invariants.triple_checked_put.
  - intros w H. apply along_tick. exact H.
  - intros w H. apply along_progress, along_tick. exact H.
Qed.

Lemma lib_saveNeuronwriterData (s : JobStatus)
  (d : Scorer.NeuronWriterAnalysis) :
  triple (al s) (Lib.saveNeuronwriterData env jid d) (fun _ => al s) (al s).
Proof.
  unfold Lib.saveNeuronwriterData. apply Invariants.triple_checked_put.
  - intros w H. apply along_tick. exact H.
  - intros w H. apply along_data; [reflexivity | apply along_tick; exact H].
Qed.

Lemma lib_saveBlog (s : JobStatus) (k t c : str) (m : option str)
  (sc : option number) :
  triple (al s) (Lib.saveBlog env jid k t c m sc)
         (fun _ w => al s w /\ has_blog jid w) (al s).
Proof.
  intros w H. unfold Lib.saveBlog, bind, request, get, throw, put, ret. cbn.
  pose proof (along_tick H) as Ht.
  destruct (store_error env (clock w)); [exact Ht|]. cbn.
  destruct (existsb _ (simple_blogs w)); [exact Ht|]. cbn.
  split.
  - apply along_blog; [reflexivity | exact Ht].
  - eexists. split; [apply in_or_app; right; left; reflexivity | reflexivity].
Qed.

Lemma lib_call_writeBlog (s : JobStatus) (args : WriteBlogArgs) :
  triple (al s) (Lib.call_writeBlog env args) (fun _ => al s) (al s).
Proof.
  intros w H. unfold Lib.call_writeBlog.
  assert (Ht : al s (log_call (args, writeBlog env (clock w) args) (tick w)))
    by (apply along_log, along_tick; exact H).
  destruct (writeBlog env (clock w) args); exact Ht.
Qed.

Lemma lib_write_draft_along (s : JobStatus) (job : Job.t) (ra : str)
  (d : option Scorer.NeuronWriterAnalysis) :
  triple (al s) (Lib.write_draft env job ra d) (fun _ => al s) (al s).
Proof.
  unfold Lib.write_draft. cbv zeta.
  eapply triple_bind; [apply lib_call_writeBlog|].
  intros blogResult. destruct d as [d|]; [|apply triple_ret].
  destruct (Num.ltb _ Lib.MIN_ACCEPTABLE_SCORE); [|apply triple_ret].
  eapply triple_bind; [apply lib_call_writeBlog|].
  intros blogResult'. apply triple_ret.
Qed.

Lemma lib_doResearchStep (job : Job.t) (s : JobStatus) :
  Job.id job = jid -> lib_legal s researching = true ->
  triple (al s) (Lib.doResearchStep env job) (fun _ => tr) tr.
Proof.
  intros Hid L. unfold Lib.doResearchStep. rewrite Hid.
  eapply triple_bind.
  { eapply triple_weaken;
      [apply (@lib_updateJobStatus s researching None L)
      | intros w H; split; [exact H | discriminate]
      | intros ? ? H; exact H | intros w [H _]; exact H]. }
  intros ? .
  apply triple_try_catch with (E' := al researching).
  - eapply triple_bind.
    { apply triple_fetch. apply timeless_along. }
    intros rawResearch.
    eapply triple_bind; [apply triple_request; apply timeless_along|].
    intros [e|]; [apply triple_throw|].
    eapply triple_bind.
    + apply triple_put_to with (Q := fun _ => tr).
      intros w H.
      apply (@along_status lib_legal b jid w0 researching analyzing);
        [reflexivity | reflexivity | discriminate | exact H].
    + intros ? . apply triple_ret_to. intros w H. exact H.
  - intros e. eapply triple_bind.
    + eapply triple_weaken;
        [apply (@lib_setJobError researching e eq_refl)
        | auto | intros ? ? H; exact H | intros w [H _]; exact H].
    + intros ? . apply triple_ret_to. intros w [H _]. exact H.
Qed.

Lemma lib_doAnalyzeStep (job : Job.t) (useNeuronwriter : bool) :
  Job.id job = jid ->
  triple (al analyzing) (Lib.doAnalyzeStep env job useNeuronwriter)
         (fun _ => tr) tr.
Proof.
  intros Hid. unfold Lib.doAnalyzeStep. rewrite Hid.
  apply triple_try_catch with (E' := al analyzing).
  - eapply triple_bind;
      [apply triple_get_to with (Q := fun _ => al analyzing);
       intros w H; exact H|].
    intros w1.
    destruct (option_map Job.research_raw (find_job jid w1))
      as [[[|c raw]|]|]; try apply triple_throw.
    cbv zeta.
    eapply triple_bind; [apply triple_fetch; apply timeless_along|].
    intros analyzedResearch.
    eapply triple_bind with (Q := fun _ => al analyzing).
    { destruct useNeuronwriter; [|apply triple_ret].
      eapply triple_bind.
      - apply triple_caught. apply triple_fetch. apply timeless_along.
      - intros [e|data]; [apply triple_ret|].
        eapply triple_bind; [|intros ?; apply triple_ret].
        apply triple_caught. apply lib_saveNeuronwriterData. }
    intros neuronwriterData.
    eapply triple_bind; [apply triple_request; apply timeless_along|].
    intros [e|]; [apply triple_throw|].
    eapply triple_bind.
    + apply triple_put_to with (Q := fun _ => tr).
      intros w H.
      apply (@along_status lib_legal b jid w0 analyzing writing);
        [reflexivity | reflexivity | discriminate | exact H].
    + intros ? . apply triple_ret_to. intros w H. exact H.
  - intros e. eapply triple_bind.
    + eapply triple_weaken;
        [apply (@lib_setJobError analyzing e eq_refl)
        | auto | intros ? ? H; exact H | intros w [H _]; exact H].
    + intros ? . apply triple_ret_to. intros w [H _]. exact H.
Qed.

Lemma lib_doWriteStep (job : Job.t) :
  Job.id job = jid ->
  triple (al writing) (Lib.doWriteStep env job b) (fun _ => tr) tr.
Proof.
  intros Hid. unfold Lib.doWriteStep. rewrite Hid.
  apply triple_try_catch
    with (E' := fun w => al writing w \/ al completed w).
  - eapply triple_bind;
      [apply triple_get_to with (Q := fun _ => al writing);
       intros w H; exact H|].
    intros w1.
    destruct (option_map Job.research_analyzed (find_job jid w1))
      as [[[|c analyzed]|]|];
      try (apply triple_throw_to; intros w H; left; exact H).
    cbv zeta.
    eapply triple_bind.
    { eapply triple_weaken;
        [apply (@lib_write_draft_along writing)
        | auto | intros ? ? H; exact H | intros w H; left; exact H]. }
    intros [[blogResult content] score].
    eapply triple_bind.
    { eapply triple_weaken;
        [apply (@lib_saveBlog writing)
        | auto | intros ? ? H; exact H | intros w H; left; exact H]. }
    intros savedBlog.
    eapply triple_bind.
    { eapply triple_weaken;
        [apply (@lib_updateJobStatus writing completed None eq_refl)
        | intros w [H Hb]; split; [exact H | intros _; exact Hb]
        | intros ? ? H; exact H | intros w H; left; exact H]. }
    intros ? .
    eapply triple_bind.
    { eapply triple_weaken;
        [apply (@lib_incrementBatchProgress completed)
        | auto | intros ? ? H; exact H | intros w H; right; exact H]. }
    intros ? . apply triple_ret_to. intros w [H _]. exact H.
  - intros e. eapply triple_bind with (Q := fun _ => al failed).
    + intros w [H|H].
      * apply (@lib_setJobError writing e eq_refl w) in H.
        destruct (Lib.setJobError env jid e w) as [[a|x] w'];
          [exact H | destruct H as [H _]; exact H].
      * apply (@lib_setJobError completed e eq_refl w) in H.
        destruct (Lib.setJobError env jid e w) as [[a|x] w'];
          [exact H | destruct H as [H _]; exact H].
    + intros ? . eapply triple_bind.
      * eapply triple_weaken;
          [apply (@lib_incrementBatchProgress failed)
          | auto | intros ? ? H; exact H | intros w [H _]; exact H].
      * intros ? . apply triple_ret_to. intros w [H _]. exact H.
Qed.

End Library.


(** ** The dispatchers *)

(** An invocation either changes no job and adds no blog, or works on one
    job of its batch that is not completed or failed. *)
Definition idle (legal : JobStatus -> JobStatus -> bool) (b : nat)
  (w0 w : World) : Prop :=
  forall jid, trace legal b jid w0 w.

Definition selected (b : nat) (w0 : World) (job : Job.t) : Prop :=
  In job (simple_jobs w0) /\ Job.batch_id job = b /\
  terminal (Job.status job) = false.

Definition worked (legal : JobStatus -> JobStatus -> bool) (b : nat)
  (w0 w : World) : Prop :=
  idle legal b w0 w \/
  exists job, selected b w0 job /\ trace legal b (Job.id job) w0 w.

Lemma triple_pure {A} (F : Prop) (P : World -> Prop) (m : M A)
  (Q : A -> World -> Prop) (E : World -> Prop) :
  (F -> triple P m Q E) -> triple (fun w => F /\ P w) m Q E.
Proof. intros H w [HF HP]. apply (H HF w HP). Qed.

Lemma idle_tick (legal : JobStatus -> JobStatus -> bool) (b : nat)
  (w0 w : World) : idle legal b w0 w -> idle legal b w0 (tick w).
Proof. intros H jid. apply (trace_snoc (H jid) (change_tick _ _ _ w)). Qed.

Lemma idle_batch_status (legal : JobStatus -> JobStatus -> bool) (b : nat)
  (s : BatchStatus) (now : nat) (w0 w : World) :
  idle legal b w0 w ->
  idle legal b w0 (update_batch b (set_batch_status s now) w).
Proof.
  intros H jid. apply (trace_snoc (H jid) (change_batch_status _ _ _ s now w)).
Qed.

(** The selection of both dispatchers, on a table with unique identifiers
    and whatever the store answers to its reads: no job, or a job of the
    batch that is in progress or pending. *)
Definition chosen (env : Env) (legal : JobStatus -> JobStatus -> bool)
  (b : nat) (w0 : World) (next : option Job.t) (w : World) : Prop :=
  match next with
  | Some job =>
      (selected b w0 job /\
       (in_progress (Job.status job) = true \/ Job.status job = pending)) /\
      along legal b (Job.id job) w0 (Job.status job) w
  | None =>
      (simple_jobs w = simple_jobs w0 /\ idle legal b w0 w) /\
      Invariants.none_left env b w
  end.

Lemma next_job_chosen (env : Env) (legal : JobStatus -> JobStatus -> bool)
  (b : nat) (w0 : World) (E : World -> Prop) :
  NoDup (map Job.id (simple_jobs w0)) ->
  triple (fun w => simple_jobs w = simple_jobs w0 /\ idle legal b w0 w)
         (Lib.getNextJobToProcess env b) (chosen env legal b w0) E.
Proof.
  intros Hnd. eapply triple_weaken.
  - apply (@Invariants.getNextJobToProcess_selected env b
             (fun w => simple_jobs w = simple_jobs w0 /\ idle legal b w0 w) E).
    intros w [Hj Ht]. split; [exact Hj | apply idle_tick; exact Ht].
  - intros w H. exact H.
  - intros [job|] w [[Hj Ht] Hsel]; [|split; [split|]; assumption].
    destruct Hsel as (Hin & Hb & Hs). rewrite Hj in Hin.
    split; [split; [split; [exact Hin | split; [exact Hb|]] | exact Hs]|].
    + destruct Hs as [Hs|Hs]; [|rewrite Hs; reflexivity].
      destruct (Job.status job); try discriminate Hs; reflexivity.
    + split; [apply Ht|].
      intros j H Eq. rewrite Hj in H.
      rewrite (@Invariants.NoDup_map_injective _ _ Job.id _ j job Hnd H Hin Eq).
      reflexivity.
  - intros w H. exact H.
Qed.

Lemma lib_processOneStep (env : Env) (b : nat) (use : bool) (w0 : World) :
  NoDup (map Job.id (simple_jobs w0)) ->
  worked lib_legal b w0 (snd (Lib.processOneStep env b use w0)).
Proof.
  intros Hnd.
  apply (@Invariants.triple_snd _ (fun w => w = w0)); [|reflexivity].
  unfold Lib.processOneStep.
  apply triple_try_catch with (E' := worked lib_legal b w0);
    [|intros e; apply triple_ret].
  eapply triple_bind
    with (Q := fun _ w => simple_jobs w = simple_jobs w0 /\
                          idle lib_legal b w0 w).
  { unfold Lib.updateBatchStatus. apply Invariants.triple_checked_put.
    - intros w ->. left. apply idle_tick. intros jid. apply trace_nil.
    - intros w ->. split; [reflexivity|].
      apply idle_batch_status, idle_tick. intros jid. apply trace_nil. }
  intros ? .
  eapply triple_bind; [apply (next_job_chosen env _ Hnd)|].
  intros [job|]; unfold chosen.
  - apply triple_pure. intros [Hsel Hp].
    assert (Hw : forall w, trace lib_legal b (Job.id job) w0 w ->
                           worked lib_legal b w0 w)
      by (intros w H; right; exists job; split; [exact Hsel | exact H]).
    destruct (Job.status job) eqn:S.
    + eapply triple_weaken;
        [apply (@lib_doResearchStep env b (Job.id job) w0 job pending
                  eq_refl eq_refl)
        | auto | intros ?; exact Hw | exact Hw].
    + eapply triple_weaken;
        [apply (@lib_doResearchStep env b (Job.id job) w0 job researching
                  eq_refl eq_refl)
        | auto | intros ?; exact Hw | exact Hw].
    + eapply triple_weaken;
        [apply (@lib_doAnalyzeStep env b (Job.id job) w0 job use eq_refl)
        | auto | intros ?; exact Hw | exact Hw].
    + eapply triple_weaken;
        [apply (@lib_doWriteStep env b (Job.id job) w0 job eq_refl)
        | auto | intros ?; exact Hw | exact Hw].
    + apply triple_ret_to. intros w [H _]. apply Hw. exact H.
    + apply triple_ret_to. intros w [H _]. apply Hw. exact H.
  - eapply triple_bind with (Q := fun _ => idle lib_legal b w0).
    { intros w [[_ H] _].
      unfold Lib.getJobsForBatch, bind, request, get, ret, throw.
      destruct (store_error env (clock w)); [left|]; apply idle_tick; exact H. }
    intros jobs. cbv zeta.
    destruct (Lib.count_status completed jobs + Lib.count_status failed jobs
              =? length jobs).
    + eapply triple_bind; [|intros ?; apply triple_ret_to; intros w H; exact H].
      unfold Lib.updateBatchStatus. apply Invariants.triple_checked_put.
      * intros w H. left. apply idle_tick. exact H.
      * intros w H. left. apply idle_batch_status, idle_tick. exact H.
    + apply triple_ret_to. intros w H. left. exact H.
Qed.


(** ** The edge function's handlers *)

Section EdgeFunction.
Variable env : Env.
Variables b jid : nat.
Variable w0 : World.

#[local] Abbreviation al := (along edge_legal b jid w0).
#[local] Abbreviation tr := (trace edge_legal b jid w0).

Lemma edge_status_update (from to : JobStatus) (e : option str)
  (at_ : option nat) (E : World -> Prop) :
  edge_legal from to = true ->
  triple (fun w => al from w /\ (to = completed -> has_blog jid w))
         (Edge.update_job_unchecked jid (Edge.status_update to e at_))
         (fun _ => al to) E.
Proof.
  intros L. unfold Edge.update_job_unchecked. apply triple_put_to.
  intros w [H Hb].
  apply along_status with (from := from);
    [reflexivity | exact L | exact Hb | exact H].
Qed.

Lemma edge_failed (from : JobStatus) (e : str) :
  edge_legal from failed = true ->
  triple (al from)
         (Edge.update_job_unchecked jid
            (Edge.status_update failed (Some e) None))
         (fun _ => al failed) (al from).
Proof.
  intros L.
  eapply triple_weaken;
    [apply (@edge_status_update from failed (Some e) None (al from) L)
    | intros w H; split; [exact H | discriminate]
    | intros ? ? H; exact H | intros ? H; exact H].
Qed.

Lemma edge_increment_unchecked (s : JobStatus) (field : ProgressField)
  (E : World -> Prop) :
  triple (al s) (Edge.increment_unchecked b field) (fun _ => al s) E.
Proof.
  intros w H. unfold Edge.increment_unchecked, bind, get, put, ret.
  destruct (find_batch b w) as [batch|]; [|exact H].
  apply along_progress. exact H.
Qed.

Lemma edge_insert_blog_unchecked (s : JobStatus) (blog : Blog.t)
  (E : World -> Prop) :
  Blog.job_id blog = jid ->
  triple (al s) (Edge.insert_blog_unchecked blog)
         (fun _ w => al s w /\ has_blog jid w) E.
Proof.
  intros Hb w H. unfold Edge.insert_blog_unchecked, bind, get, put, ret.
  destruct (existsb _ (simple_blogs w)) eqn:X.
  - split; [exact H|]. apply existsb_exists in X.
    destruct X as (blog' & Hin & Eq). apply Nat.eqb_eq in Eq.
    exists blog'. split; [exact Hin | rewrite Eq; exact Hb].
  - split; [apply along_blog; assumption|].
    exists blog. split; [apply in_or_app; right; left; reflexivity | exact Hb].
Qed.

Lemma edge_write_draft_along (s : JobStatus) (job : Job.t) (ra : str)
  (d : option Scorer.NeuronWriterAnalysis) :
  triple (al s) (Edge.write_draft env job ra d) (fun _ => al s) (al s).
Proof.
  assert (C : forall args,
             triple (al s) (Lib.call_writeBlog env args) (fun _ => al s) (al s)).
  { intros args w H. unfold Lib.call_writeBlog.
    assert (Ht : al s (log_call (args, writeBlog env (clock w) args) (tick w)))
      by (apply along_log, along_tick; exact H).
    destruct (writeBlog env (clock w) args); exact Ht. }
  unfold Edge.write_draft. cbv zeta.
  eapply triple_bind; [apply C|].
  intros blogResult. destruct d as [d|]; [|apply triple_ret].
  destruct (Num.ltb _ Edge.MIN_ACCEPTABLE_SCORE); [|apply triple_ret].
  eapply triple_bind; [apply C|].
  intros blogResult'. apply triple_ret.
Qed.

Lemma edge_import_draft (s : JobStatus)
  (d : option Scorer.NeuronWriterAnalysis) (blogResult : BlogResult)
  (content : str) :
  triple (al s) (Edge.import_draft env d blogResult content)
         (fun _ => al s) (al s).
Proof.
  unfold Edge.import_draft. destruct d as [d|]; [|apply triple_ret].
  destruct (Edge.nonempty_text (Scorer.queryId d)); [|apply triple_ret].
  intros w H. apply along_tick. exact H.
Qed.

Lemma edge_doResearchStep (job : Job.t) (s : JobStatus) :
  Job.id job = jid -> edge_legal s researching = true ->
  triple (al s) (Edge.doResearchStep env job) (fun _ => tr) tr.
Proof.
  intros Hid L. unfold Edge.doResearchStep. rewrite Hid.
  eapply triple_bind.
  { eapply triple_weaken;
      [apply (@edge_status_update s researching None None (al s) L)
      | intros w H; split; [exact H | discriminate]
      | intros ? ? H; exact H | intros w [H _]; exact H]. }
  intros ? .
  apply triple_try_catch with (E' := al researching).
  - eapply triple_bind.
    { apply triple_fetch. apply timeless_along. }
    intros rawResearch.
    eapply triple_bind; [apply triple_request; apply timeless_along|].
    intros [e|]; [apply triple_throw|].
    eapply triple_bind.
    + apply triple_put_to with (Q := fun _ => tr).
      intros w H.
      apply (@along_status edge_legal b jid w0 researching analyzing);
        [reflexivity | reflexivity | discriminate | exact H].
    + intros ? . apply triple_ret_to. intros w H. exact H.
  - intros e. eapply triple_bind.
    + eapply triple_weaken;
        [apply (@edge_failed researching e eq_refl)
        | auto | intros ? ? H; exact H | intros w [H _]; exact H].
    + intros ? . apply triple_ret_to. intros w [H _]. exact H.
Qed.

Lemma edge_doAnalyzeStep (job : Job.t) (useNeuronwriter : bool) :
  Job.id job = jid ->
  triple (al analyzing) (Edge.doAnalyzeStep env job useNeuronwriter)
         (fun _ => tr) tr.
Proof.
  intros Hid. unfold Edge.doAnalyzeStep. rewrite Hid.
  apply triple_try_catch with (E' := al analyzing).
  - eapply triple_bind;
      [apply triple_get_to with (Q := fun _ => al analyzing);
       intros w H; exact H|].
    intros w1.
    destruct (option_map Job.research_raw (find_job jid w1))
      as [[[|c raw]|]|]; try apply triple_throw.
    cbv zeta.
    eapply triple_bind.
    { apply triple_caught. apply triple_fetch. apply timeless_along. }
    intros analysis.
    eapply triple_bind with (Q := fun _ => al analyzing).
    { destruct useNeuronwriter; [|apply triple_ret].
      eapply triple_bind.
      - apply triple_caught. apply triple_fetch. apply timeless_along.
      - intros [e|data]; apply triple_ret. }
    intros neuronwriterData.
    destruct analysis as [e|analyzedResearch]; [apply triple_throw|].
    eapply triple_bind with (Q := fun _ => al analyzing).
    { destruct neuronwriterData as [data|]; [|apply triple_ret].
      unfold Edge.update_job_unchecked. apply triple_put_to.
      intros w H. apply along_data; [reflexivity | exact H]. }
    intros ? .
    eapply triple_bind; [apply triple_request; apply timeless_along|].
    intros [e|]; [apply triple_throw|].
    eapply triple_bind.
    + apply triple_put_to with (Q := fun _ => tr).
      intros w H.
      apply (@along_status edge_legal b jid w0 analyzing writing);
        [reflexivity | reflexivity | discriminate | exact H].
    + intros ? . apply triple_ret_to. intros w H. exact H.
  - intros e. eapply triple_bind.
    + eapply triple_weaken;
        [apply (@edge_failed analyzing e eq_refl)
        | auto | intros ? ? H; exact H | intros w [H _]; exact H].
    + intros ? . apply triple_ret_to. intros w [H _]. exact H.
Qed.

Lemma edge_doWriteStep (job : Job.t) :
  Job.id job = jid ->
  triple (al writing) (Edge.doWriteStep env job b) (fun _ => tr) tr.
Proof.
  intros Hid. unfold Edge.doWriteStep. rewrite Hid.
  apply triple_try_catch with (E' := al writing).
  - eapply triple_bind;
      [apply triple_get_to with (Q := fun _ => al writing);
       intros w H; exact H|].
    intros w1.
    destruct (option_map Job.research_analyzed (find_job jid w1))
      as [[[|c analyzed]|]|]; try apply triple_throw.
    cbv zeta.
    eapply triple_bind; [apply (@edge_write_draft_along writing)|].
    intros [[blogResult content] score].
    eapply triple_bind; [apply (@edge_import_draft writing)|].
    intros [neuronwriterRealScore neuronwriterEditorUrl].
    eapply triple_bind;
      [apply triple_get_to with (Q := fun _ => al writing);
       intros w H; exact H|].
    intros w2.
    eapply triple_bind;
      [apply (@edge_insert_blog_unchecked writing); reflexivity|].
    intros ? .
    eapply triple_bind.
    { eapply triple_weaken;
        [apply (@edge_status_update writing completed None
                  (Some (clock w2)) (al writing) eq_refl)
        | intros w [H Hb]; split; [exact H | intros _; exact Hb]
        | intros ? ? H; exact H | intros w H; exact H]. }
    intros ? .
    eapply triple_bind; [apply (@edge_increment_unchecked completed)|].
    intros ? . apply triple_ret_to. intros w [H _]. exact H.
  - intros e. eapply triple_bind.
    + eapply triple_weaken;
        [apply (@edge_failed writing e eq_refl)
        | auto | intros ? ? H; exact H | intros w [H _]; exact H].
    + intros ? .
      eapply triple_bind; [apply (@edge_increment_unchecked failed)|].
      intros ? . apply triple_ret_to. intros w [H _]. exact H.
Qed.

End EdgeFunction.

Lemma edge_serve (env : Env) (b : nat) (use : option bool) (w0 : World) :
  NoDup (map Job.id (simple_jobs w0)) ->
  worked edge_legal b w0 (snd (Edge.serve env b use w0)).
Proof.
  intros Hnd.
  apply (@Invariants.triple_snd _ (fun w => w = w0)); [|reflexivity].
  unfold Edge.serve. apply triple_caught.
  eapply triple_bind
    with (Q := fun _ w => simple_jobs w = simple_jobs w0 /\
                          idle edge_legal b w0 w).
  { apply triple_put_to. intros w ->. split; [reflexivity|].
    apply idle_batch_status. intros jid. apply trace_nil. }
  intros ? .
  eapply triple_bind; [apply (next_job_chosen env _ Hnd)|].
  intros [job|]; unfold chosen.
  - apply triple_pure. intros [Hsel Hp].
    assert (Hw : forall w, trace edge_legal b (Job.id job) w0 w ->
                           worked edge_legal b w0 w)
      by (intros w H; right; exists job; split; [exact Hsel | exact H]).
    destruct (Job.status job) eqn:S;
      try (destruct Hp as [Hp|Hp]; discriminate Hp).
    + eapply triple_weaken;
        [apply (@edge_doResearchStep env b (Job.id job) w0 job pending
                  eq_refl eq_refl)
        | auto | intros ?; exact Hw | exact Hw].
    + eapply triple_weaken;
        [apply (@edge_doResearchStep env b (Job.id job) w0 job researching
                  eq_refl eq_refl)
        | auto | intros ?; exact Hw | exact Hw].
    + eapply triple_weaken;
        [apply (@edge_doAnalyzeStep env b (Job.id job) w0 job
                  (or_else use true) eq_refl)
        | auto | intros ?; exact Hw | exact Hw].
    + eapply triple_weaken;
        [apply (@edge_doWriteStep env b (Job.id job) w0 job eq_refl)
        | auto | intros ?; exact Hw | exact Hw].
  - eapply triple_bind;
      [apply triple_get_to
         with (Q := fun _ w => idle edge_legal b w0 w);
       intros w [[_ H] _]; exact H|].
    intros w1. cbv zeta.
    destruct (Lib.count_status completed (jobs_of b (simple_jobs w1)) +
              Lib.count_status failed (jobs_of b (simple_jobs w1))
              =? length (jobs_of b (simple_jobs w1))).
    + eapply triple_bind;
        [|intros ?; apply triple_ret_to; intros w H; exact H].
      apply triple_put_to. intros w H. left.
      apply idle_batch_status. exact H.
    + apply triple_ret_to. intros w H. left. exact H.
Qed.


(** ** What an invocation leaves as it is *)

Lemma Forall2_In_impl {A B} (R R' : A -> B -> Prop) (l : list A)
  (l' : list B) :
  (forall x y, In x l -> R x y -> R' x y) -> Forall2 R l l' -> Forall2 R' l l'.
Proof.
  intros HR H. induction H as [|x y l l' Hxy _ IH]; [constructor|].
  constructor; [apply HR; [left; reflexivity | exact Hxy]|].
  apply IH. intros x' y' Hx'. apply HR. right. exact Hx'.
Qed.

Lemma Forall2_same {A} (l l' : list A) : Forall2 eq l l' -> l = l'.
Proof. induction 1 as [|x y l l' -> _ IH]; [reflexivity | rewrite IH; reflexivity]. Qed.

Lemma idle_untouched (legal : JobStatus -> JobStatus -> bool) (b : nat)
  (w0 w : World) :
  idle legal b w0 w ->
  simple_jobs w = simple_jobs w0 /\ simple_blogs w = simple_blogs w0.
Proof.
  intros H. split.
  - symmetry. apply Forall2_same.
    set (fresh := S (list_max (map Job.id (simple_jobs w0)))).
    apply (@Forall2_In_impl _ _ (job_moved fresh)); [|apply trace_jobs with legal b, H].
    intros j j' Hj (_ & _ & _ & _ & Hm). symmetry. apply Hm.
    assert (Hle : Job.id j <= list_max (map Job.id (simple_jobs w0))).
    { pose proof (proj1 (list_max_le (map Job.id (simple_jobs w0)) _)
                        (Nat.le_refl _)) as Hall.
      rewrite Forall_forall in Hall. apply Hall, in_map, Hj. }
    unfold fresh. lia.
  - destruct (trace_blogs (H 0)) as (new & E & F).
    destruct (trace_blogs (H 1)) as (new' & E' & F').
    rewrite E in E'. apply app_inv_head in E'. subst new'.
    destruct new as [|blog new]; [rewrite app_nil_r in E; exact E|].
    inversion F as [|? ? F0 _]. inversion F' as [|? ? F1 _]. congruence.
Qed.

Lemma worked_footprint (legal : JobStatus -> JobStatus -> bool) (b : nat)
  (w0 w : World) :
  NoDup (map Job.id (simple_jobs w0)) -> worked legal b w0 w ->
  Forall2 (job_kept b) (simple_jobs w0) (simple_jobs w) /\
  (exists jid, Forall2 (fun j j' => Job.id j <> jid -> j' = j)
                       (simple_jobs w0) (simple_jobs w)) /\
  Forall2 (batch_kept b) (simple_batches w0) (simple_batches w) /\
  exists new, simple_blogs w = simple_blogs w0 ++ new /\
              Forall (blog_of_batch b w0) new.
Proof.
  intros Hnd [H|(job & (Hin & Hb & Hnt) & H)].
  - destruct (idle_untouched H) as [Ej Eb]. rewrite Ej, Eb.
    split; [apply Forall2_refl; intros j; repeat split|].
    split; [exists 0; apply Forall2_refl; intros j _; reflexivity|].
    split; [apply (trace_batches (H 0))|].
    exists []. rewrite app_nil_r. split; [reflexivity | constructor].
  - pose proof (trace_jobs H) as Hj.
    assert (U : forall j, In j (simple_jobs w0) -> Job.id j = Job.id job ->
                          j = job).
    { intros j Hj' E.
      apply (@Invariants.NoDup_map_injective _ _ Job.id _ j job Hnd Hj' Hin E). }
    split; [|split; [|split]].
    + apply (@Forall2_In_impl _ _ (job_moved (Job.id job))); [|exact Hj].
      intros j j' Hj' (H1 & H2 & H3 & H4 & H5).
      repeat split; try assumption.
      * intros N. apply H5. intros E. apply N. rewrite (U j Hj' E). exact Hb.
      * intros T. apply H5. intros E. rewrite (U j Hj' E) in T. congruence.
    + exists (Job.id job).
      apply (@Forall2_In_impl _ _ (job_moved (Job.id job))); [|exact Hj].
      intros j j' _ (_ & _ & _ & _ & H5). exact H5.
    + apply (trace_batches H).
    + destruct (trace_blogs H) as (new & E & F). exists new.
      split; [exact E|]. apply Forall_forall. intros blog Hblog.
      rewrite Forall_forall in F. exists job.
      split; [exact Hin | split; [exact Hb | apply F; exact Hblog]].
Qed.

Lemma worked_status_writes (legal : JobStatus -> JobStatus -> bool) (b : nat)
  (w0 w : World) :
  (forall from to, legal from to = true -> rank from <= rank to) ->
  worked legal b w0 w ->
  (exists jid new,
     transitions w = transitions w0 ++ new /\
     Forall (fun t => fst (fst t) = jid /\
                      legal (snd (fst t)) (snd t) = true) new) /\
  Forall2 (fun j j' => rank (Job.status j) <= rank (Job.status j'))
          (simple_jobs w0) (simple_jobs w).
Proof.
  intros Hl [H|(job & _ & H)].
  - split; [exists 0; apply (trace_transitions (H 0))
           | apply (trace_rank Hl (H 0))].
  - split; [exists (Job.id job); apply (trace_transitions H)
           | apply (trace_rank Hl H)].
Qed.

Lemma lib_legal_rank (from to : JobStatus) :
  lib_legal from to = true -> rank from <= rank to.
Proof. destruct from, to; cbn; intros H; try discriminate H; lia. Qed.

Lemma edge_legal_rank (from to : JobStatus) :
  edge_legal from to = true -> rank from <= rank to.
Proof. destruct from, to; cbn; intros H; try discriminate H; lia. Qed.

(** One call of [processOneStep] for batch [b], on a jobs table with unique
    identifiers, changes at most one job row, a job of batch [b] that is
    not completed or failed when the call starts; no row is added, removed
    or moved, and no row changes its identifier, batch, keyword or creation
    time.  Of the batches only the row of [b] changes, and not its
    identifier, total, provider flag or creation time.  The blogs that were
    there stay, and a blog that is added belongs to a job of batch [b]. *)
Theorem processOneStep_footprint (env : Env) (b : nat) (use : bool)
  (w : World) :
  NoDup (map Job.id (simple_jobs w)) ->
  let w' := snd (Lib.processOneStep env b use w) in
  Forall2 (job_kept b) (simple_jobs w) (simple_jobs w') /\
  (exists jid, Forall2 (fun j j' => Job.id j <> jid -> j' = j)
                       (simple_jobs w) (simple_jobs w')) /\
  Forall2 (batch_kept b) (simple_batches w) (simple_batches w') /\
  exists new, simple_blogs w' = simple_blogs w ++ new /\
              Forall (blog_of_batch b w) new.
Proof.
  intros Hnd. apply (@worked_footprint lib_legal b w _ Hnd).
  apply lib_processOneStep. exact Hnd.
Qed.

(** The status writes of one call of [processOneStep], on a jobs table with
    unique identifiers, all concern one job and each is one of: pending or
    researching to researching, researching to analyzing, analyzing to
    writing, writing to completed, researching, analyzing, writing or
    completed to failed.  So no job is set back to pending, a failed job is
    never written again, and over the call no job's status moves backwards
    in the order pending, researching, analyzing, writing, completed,
    failed. *)
Theorem processOneStep_status_writes (env : Env) (b : nat) (use : bool)
  (w : World) :
  NoDup (map Job.id (simple_jobs w)) ->
  let w' := snd (Lib.processOneStep env b use w) in
  (exists jid new,
     transitions w' = transitions w ++ new /\
     Forall (fun t => fst (fst t) = jid /\
                      lib_legal (snd (fst t)) (snd t) = true) new) /\
  Forall2 (fun j j' => rank (Job.status j) <= rank (Job.status j'))
          (simple_jobs w) (simple_jobs w').
Proof.
  intros Hnd. apply (@worked_status_writes lib_legal b w _ lib_legal_rank).
  apply lib_processOneStep. exact Hnd.
Qed.

(** The same footprint for one invocation of the edge function's handler. *)
Theorem serve_footprint (env : Env) (b : nat) (use : option bool)
  (w : World) :
  NoDup (map Job.id (simple_jobs w)) ->
  let w' := snd (Edge.serve env b use w) in
  Forall2 (job_kept b) (simple_jobs w) (simple_jobs w') /\
  (exists jid, Forall2 (fun j j' => Job.id j <> jid -> j' = j)
                       (simple_jobs w) (simple_jobs w')) /\
  Forall2 (batch_kept b) (simple_batches w) (simple_batches w') /\
  exists new, simple_blogs w' = simple_blogs w ++ new /\
              Forall (blog_of_batch b w) new.
Proof.
  intros Hnd. apply (@worked_footprint edge_legal b w _ Hnd).
  apply edge_serve. exact Hnd.
Qed.

(** The status writes of one invocation of the edge function's handler all
    concern one job and each is one of: pending or researching to
    researching, researching to analyzing, analyzing to writing, writing to
    completed, researching, analyzing or writing to failed.  The edge
    function never writes the status of a job that is completed or
    failed. *)
Theorem serve_status_writes (env : Env) (b : nat) (use : option bool)
  (w : World) :
  NoDup (map Job.id (simple_jobs w)) ->
  let w' := snd (Edge.serve env b use w) in
  (exists jid new,
     transitions w' = transitions w ++ new /\
     Forall (fun t => fst (fst t) = jid /\
                      edge_legal (snd (fst t)) (snd t) = true) new) /\
  Forall2 (fun j j' => rank (Job.status j) <= rank (Job.status j'))
          (simple_jobs w) (simple_jobs w').
Proof.
  intros Hnd. apply (@worked_status_writes edge_legal b w _ edge_legal_rank).
  apply edge_serve. exact Hnd.
Qed.

(** ** Completed jobs and their blogs *)

Lemma createBatch_completed (env : Env) (keywords : list str) (use : bool)
  (w : World) :
  completed_have_blogs w ->
  completed_have_blogs (snd (Lib.createBatch env keywords use w)).
Proof.
  intros H. unfold Lib.createBatch, bind, request, get, put, throw, ret.
  cbn. destruct (store_error env (clock w)); [exact H|]. cbn.
  destruct (store_error env (S (clock w))); [exact H|]. cbn.
  intros j Hj Hs. cbn in Hj. apply in_app_or in Hj.
  destruct Hj as [Hj|Hj]; [apply (H j Hj Hs)|].
  apply in_map_iff in Hj. destruct Hj as (entry & <- & _). discriminate Hs.
Qed.

Lemma reachable_completed (env : Env) (w : World) :
  Invariants.reachable env w -> completed_have_blogs w.
Proof.
  induction 1 as [|w keywords use Hr IH|w b use Hr IH].
  - intros j [].
  - apply createBatch_completed. exact IH.
  - assert (Hnd : NoDup (map Job.id (simple_jobs w))).
    { destruct (Invariants.reachable_invariant Hr) as [(Hnd & _) _]. exact Hnd. }
    destruct (@lib_processOneStep env b use w Hnd) as [H|(job & _ & H)].
    + apply (trace_completed (H 0) IH).
    + apply (trace_completed H IH).
Qed.

(** In every store reached by creating batches and invoking the library's
    dispatcher, a job whose status is completed has a blog row. *)
Theorem completed_jobs_have_blogs (env : Env) (w : World) :
  Invariants.reachable env w ->
  forall j, In j (simple_jobs w) -> Job.status j = completed ->
            exists blog, In blog (simple_blogs w) /\
                         Blog.job_id blog = Job.id j.
Proof. intros Hr j Hj Hs. apply (reachable_completed Hr j Hj Hs). Qed.

End Dispatch.

Module DispatchRuns.
Import Js Num Store Dispatch.

Lemma analyzed_unique : NoDup (map Job.id (simple_jobs (Scenario.analyzed Scenario.steady))).
Proof. vm_compute. constructor; [intros [] | constructor]. Qed.

Lemma edge_analyzed_unique :
  NoDup (map Job.id (simple_jobs (Scenario.edge_analyzed Scenario.steady))).
Proof. vm_compute. constructor; [intros [] | constructor]. Qed.

Lemma processOneStep_footprint_run :
  let env := Scenario.steady in
  let b := 0 in
  let w := Scenario.analyzed Scenario.steady in
  NoDup (map Job.id (simple_jobs w)) /\
  let w' := snd (Lib.processOneStep env b true w) in
  Forall2 (job_kept b) (simple_jobs w) (simple_jobs w') /\
  (exists jid, Forall2 (fun j j' => Job.id j <> jid -> j' = j)
                       (simple_jobs w) (simple_jobs w')) /\
  Forall2 (batch_kept b) (simple_batches w) (simple_batches w') /\
  exists new, simple_blogs w' = simple_blogs w ++ new /\
              Forall (blog_of_batch b w) new.
Proof.
  intros env b w. split; [exact analyzed_unique|].
  apply (@processOneStep_footprint env b true w analyzed_unique).
Defined.

Lemma processOneStep_status_writes_run :
  let env := Scenario.flaky in
  let b := 0 in
  let w := Scenario.analyzed Scenario.steady in
  NoDup (map Job.id (simple_jobs w)) /\
  let w' := snd (Lib.processOneStep env b true w) in
  (exists jid new,
     transitions w' = transitions w ++ new /\
     Forall (fun t => fst (fst t) = jid /\
                      lib_legal (snd (fst t)) (snd t) = true) new) /\
  Forall2 (fun j j' => rank (Job.status j) <= rank (Job.status j'))
          (simple_jobs w) (simple_jobs w').
Proof.
  intros env b w. split; [exact analyzed_unique|].
  apply (@processOneStep_status_writes env b true w analyzed_unique).
Defined.

Lemma serve_footprint_run :
  let env := Scenario.steady in
  let b := 0 in
  let w := Scenario.edge_analyzed Scenario.steady in
  NoDup (map Job.id (simple_jobs w)) /\
  let w' := snd (Edge.serve env b None w) in
  Forall2 (job_kept b) (simple_jobs w) (simple_jobs w') /\
  (exists jid, Forall2 (fun j j' => Job.id j <> jid -> j' = j)
                       (simple_jobs w) (simple_jobs w')) /\
  Forall2 (batch_kept b) (simple_batches w) (simple_batches w') /\
  exists new, simple_blogs w' = simple_blogs w ++ new /\
              Forall (blog_of_batch b w) new.
Proof.
  intros env b w. split; [exact edge_analyzed_unique|].
  apply (@serve_footprint env b None w edge_analyzed_unique).
Defined.

Lemma serve_status_writes_run :
  let env := Scenario.steady in
  let b := 0 in
  let w := Scenario.edge_analyzed Scenario.steady in
  NoDup (map Job.id (simple_jobs w)) /\
  let w' := snd (Edge.serve env b None w) in
  (exists jid new,
     transitions w' = transitions w ++ new /\
     Forall (fun t => fst (fst t) = jid /\
                      edge_legal (snd (fst t)) (snd t) = true) new) /\
  Forall2 (fun j j' => rank (Job.status j) <= rank (Job.status j'))
          (simple_jobs w) (simple_jobs w').
Proof.
  intros env b w. split; [exact edge_analyzed_unique|].
  apply (@serve_status_writes env b None w edge_analyzed_unique).
Defined.

Lemma completed_jobs_have_blogs_run :
  let env := Scenario.steady in
  let w := Scenario.written Scenario.steady in
  Invariants.reachable env w /\
  forall j, In j (simple_jobs w) -> Job.status j = completed ->
            exists blog, In blog (simple_blogs w) /\
                         Blog.job_id blog = Job.id j.
Proof.
  intros env w. split; [apply Scenario.reachable_written|].
  apply (@completed_jobs_have_blogs env w). apply Scenario.reachable_written.
Defined.

End DispatchRuns.

(* ====================================================================== *)
(** * The store's reads and the batch routes
      ([supabase.ts], [app/api/batch]) *)
(* ====================================================================== *)

Module Api.
Import Js Num Store.

(** The answer of a route: a body with status 200, or an error with its
    status. *)
Inductive Response (A : Type) :=
| json (body : A)
| failure (status : nat) (error : str).
Arguments json {A} body.
Arguments failure {A} status error.

(** [POST /api/batch] *)
Record Created := {
  batchId : nat;
  totalKeywords : nat;
  useNeuronwriter : bool
}.

(** [GET /api/batch/[batchId]] *)
Record JobSummary := {
  n_pending : nat;
  n_researching : nat;
  n_analyzing : nat;
  n_writing : nat;
  n_completed : nat;
  n_failed : nat
}.

Record ActiveJob := {
  active_id : nat;
  active_keyword : str;
  active_status : JobStatus
}.

Record JobDetail := {
  detail_id : nat;
  detail_keyword : str;
  detail_status : JobStatus;
  detail_error : option str;
  startedAt : option nat;
  completedAt : option nat
}.

Record BatchReport := {
  batch : Batch.t;
  jobs : JobSummary;
  activeJob : option ActiveJob;
  jobDetails : list JobDetail
}.

(** [GET /api/batch/[batchId]/blogs] *)
Record BlogView := {
  view_id : nat;
  jobId : nat;
  view_keyword : str;
  view_title : str;
  view_content : str;
  metaDescription : option str;
  wordCount : option nat;
  internalLinks : list str;
  neuronwriterScore : option number;
  createdAt : nat
}.

Record BlogsReport := {
  report_batchId : nat;
  totalBlogs : nat;
  blogs : list BlogView
}.

Definition by_blog_created_at (a b : Blog.t) : Z :=
  Z.of_nat (Blog.created_at a) - Z.of_nat (Blog.created_at b).

(** [k.length > 0] *)
Definition nonempty (k : str) : bool := 0 <? length k.

Definition summary (jobs : list Job.t) : JobSummary :=
  {| n_pending := Lib.count_status pending jobs;
     n_researching := Lib.count_status researching jobs;
     n_analyzing := Lib.count_status analyzing jobs;
     n_writing := Lib.count_status writing jobs;
     n_completed := Lib.count_status completed jobs;
     n_failed := Lib.count_status failed jobs |}.

Definition active (j : Job.t) : ActiveJob :=
  {| active_id := Job.id j;
     active_keyword := Job.keyword j;
     active_status := Job.status j |}.

Definition detail (j : Job.t) : JobDetail :=
  {| detail_id := Job.id j;
     detail_keyword := Job.keyword j;
     detail_status := Job.status j;
     detail_error := Job.error j;
     startedAt := Job.started_at j;
     completedAt := Job.completed_at j |}.

Definition view (b : Blog.t) : BlogView :=
  {| view_id := Blog.id b;
     jobId := Blog.job_id b;
     view_keyword := Blog.keyword b;
     view_title := Blog.title b;
     view_content := Blog.content b;
     metaDescription := Blog.meta_description b;
     wordCount := Blog.word_count b;
     internalLinks := Blog.internal_links b;
     neuronwriterScore := Blog.neuronwriter_score b;
     createdAt := Blog.created_at b |}.

Section WithEnv.
Variable env : Env.

(** ** [supabase.ts]: the reads *)

(** [if (error || !data) return null] *)
Definition getBatch (batchId : nat) : M (option Batch.t) :=
  error <- request env ;;
  w <- get ;;
  match error with
  | Some _ => ret None
  | None => ret (find_batch batchId w)
  end.

Definition getBlog (jobId : nat) : M (option Blog.t) :=
  error <- request env ;;
  w <- get ;;
  match error with
  | Some _ => ret None
  | None => ret (find (fun b => Blog.job_id b =? jobId) (simple_blogs w))
  end.

Definition getBlogsForBatch (batchId : nat) : M (list Blog.t) :=
  jobsError <- request env ;;
  w <- get ;;
  match jobsError with
  | Some e => throw (lit "Failed to get jobs: "%string ++ e)
  | None =>
      let jobIds := map Job.id (jobs_of batchId (simple_jobs w)) in
      blogsError <- request env ;;
      w' <- get ;;
      match blogsError with
      | Some e => throw (lit "Failed to get blogs: "%string ++ e)
      | None =>
          ret (sort by_blog_created_at
                 (filter (fun b => existsb (Nat.eqb (Blog.job_id b)) jobIds)
                         (simple_blogs w')))
      end
  end.

(** ** [POST /api/batch]: [keywords] is [None] when the body has no array
    under that name. *)
Definition POST_batch (keywords : option (list str))
  (useNeuronwriter : option bool) : M (Response Created) :=
  try_catch
    (match keywords with
     | None | Some [] =>
         ret (failure 400 (lit "Keywords array is required"%string))
     | Some keywords =>
         if 500 <? length keywords then
           ret (failure 400 (lit "Maximum 500 keywords allowed"%string))
         else
           let cleanKeywords :=
             filter nonempty (map (trim env) keywords) in
           match cleanKeywords with
           | [] => ret (failure 400 (lit "No valid keywords provided"%string))
           | _ :: _ =>
               let useNeuronwriter := or_else useNeuronwriter true in
               batch <- Lib.createBatch env cleanKeywords useNeuronwriter ;;
               ret (json {| batchId := Batch.id batch;
                            totalKeywords := length cleanKeywords;
                            useNeuronwriter := useNeuronwriter |})
           end
     end)
    (fun error => ret (failure 500 error)).

(** ** [GET /api/batch/[batchId]] *)
Definition GET_batch (batchId : nat) : M (Response BatchReport) :=
  try_catch
    (batch <- getBatch batchId ;;
     match batch with
     | None => ret (failure 404 (lit "Batch not found"%string))
     | Some batch =>
         jobs <- Lib.getJobsForBatch env batchId ;;
         ret (json {| batch := batch;
                      jobs := summary jobs;
                      activeJob :=
                        option_map active
                          (find (fun j => in_progress (Job.status j)) jobs);
                      jobDetails := map detail jobs |})
     end)
    (fun error => ret (failure 500 error)).

(** ** [GET /api/batch/[batchId]/blogs] *)
Definition GET_blogs (batchId : nat) : M (Response BlogsReport) :=
  try_catch
    (batch <- getBatch batchId ;;
     match batch with
     | None => ret (failure 404 (lit "Batch not found"%string))
     | Some _ =>
         blogs <- getBlogsForBatch batchId ;;
         ret (json {| report_batchId := batchId;
                      totalBlogs := length blogs;
                      blogs := map view blogs |})
     end)
    (fun error => ret (failure 500 error)).

End WithEnv.

(** ** The job the status route shows as active *)

Section SortFilter.
Context {A : Type}.
Variable cmp : A -> A -> Z.
Variable p : A -> bool.
Hypothesis cmp_total : forall x y, (0 < cmp x y)%Z -> (cmp y x <= 0)%Z.
Hypothesis cmp_trans :
  forall x y z, (cmp x y <= 0)%Z -> (cmp y z <= 0)%Z -> (cmp x z <= 0)%Z.

Lemma insert_first (x : A) (l : list A) :
  Forall (before cmp x) l -> insert cmp x l = x :: l.
Proof.
  intros H. destruct l as [|y l]; [reflexivity|]. cbn [insert].
  inversion H as [|? ? Hy _]; subst. unfold before in Hy.
  apply Z.leb_le in Hy. rewrite Hy. reflexivity.
Qed.

Lemma filter_insert (x : A) (l : list A) :
  StronglySorted (before cmp) l ->
  filter p (insert cmp x l) =
  if p x then insert cmp x (filter p l) else filter p l.
Proof.
  induction 1 as [|y l Hs IH Hy]; cbn [insert filter].
  - destruct (p x); reflexivity.
  - destruct (cmp x y <=? 0)%Z eqn:E.
    + cbn [filter]. destruct (p x) eqn:Px; [|reflexivity].
      destruct (p y) eqn:Py.
      * cbn [insert]. rewrite E. reflexivity.
      * symmetry. apply insert_first.
        apply Forall_forall. intros z Hz. apply filter_In in Hz.
        destruct Hz as [Hz _]. rewrite Forall_forall in Hy.
        apply Z.leb_le in E. apply (cmp_trans E (Hy z Hz)).
    + cbn [filter]. rewrite IH.
      destruct (p y) eqn:Py, (p x) eqn:Px; try reflexivity.
      cbn [insert]. rewrite E. reflexivity.
Qed.

Lemma filter_sort (l : list A) :
  filter p (sort cmp l) = sort cmp (filter p l).
Proof.
  induction l as [|x l IH]; [reflexivity|].
  cbn [sort fold_right]. fold (sort cmp l).
  rewrite filter_insert by (apply sort_sorted; assumption).
  rewrite IH. cbn [filter]. destruct (p x); reflexivity.
Qed.

End SortFilter.

Lemma find_filter {A} (p : A -> bool) (l : list A) :
  find p l = hd_error (filter p l).
Proof.
  induction l as [|x l IH]; [reflexivity|]. cbn [find filter].
  destruct (p x); [reflexivity | exact IH].
Qed.

Lemma hd_error_firstn {A} (l : list A) :
  hd_error l = hd_error (firstn 1 l).
Proof. destruct l; reflexivity. Qed.

(** The first job in progress among the jobs as the store lists them is
    the first of the jobs in progress, listed at the same time. *)
Lemma find_in_progress (env : Env) (b : nat) (w : World) :
  find (fun j => in_progress (Job.status j))
       (select_jobs env b (fun _ => true) w)
  = hd_error (firstn 1 (select_jobs env b in_progress w)).
Proof.
  rewrite find_filter, <- hd_error_firstn. unfold select_jobs.
  rewrite Invariants.filter_all.
  rewrite filter_sort;
    [reflexivity | apply Selection.by_created_at_total
     | apply Selection.by_created_at_trans].
Qed.

Lemma count_status_sum (l : list Job.t) :
  Lib.count_status pending l + Lib.count_status researching l +
  Lib.count_status analyzing l + Lib.count_status writing l +
  Lib.count_status completed l + Lib.count_status failed l = length l.
Proof.
  unfold Lib.count_status. induction l as [|j l IH]; [reflexivity|].
  cbn [filter length]. destruct (Job.status j); cbn [JobStatus_eqb length]; lia.
Qed.


(** The status route never throws and changes no table.  With status 200
    it reports the batch row; its six counts add up to the number of job
    details, which are the jobs of the batch; and the job it shows as
    active is a job of the batch that is researching, analyzing or writing,
    no such job having been created earlier, there being none exactly when
    no job of the batch is researching, analyzing or writing.  It answers
    404 when the store refuses the read of the batch or has no such batch,
    and 500 when the store refuses the read of the jobs. *)
Theorem GET_batch_report (env : Env) (b : nat) (w : World) :
  exists r w',
    GET_batch env b w = (Returned r, w') /\
    simple_batches w' = simple_batches w /\
    simple_jobs w' = simple_jobs w /\
    simple_blogs w' = simple_blogs w /\
    match r with
    | json body =>
        find_batch b w = Some (batch body) /\
        n_pending (jobs body) + n_researching (jobs body) +
        n_analyzing (jobs body) + n_writing (jobs body) +
        n_completed (jobs body) + n_failed (jobs body)
        = length (jobDetails body) /\
        Permutation (map detail (jobs_of b (simple_jobs w))) (jobDetails body) /\
        match activeJob body with
        | Some a =>
            exists job,
              In job (simple_jobs w) /\ Job.batch_id job = b /\
              a = active job /\ in_progress (Job.status job) = true /\
              forall j, In j (simple_jobs w) -> Job.batch_id j = b ->
                        in_progress (Job.status j) = true ->
                        Job.created_at job <= Job.created_at j
        | None =>
            forall j, In j (simple_jobs w) -> Job.batch_id j = b ->
                      in_progress (Job.status j) = false
        end
    | failure status _ =>
        (status = 404 /\
         (store_error env (clock w) <> None \/ find_batch b w = None)) \/
        (status = 500 /\ store_error env (clock w) = None /\
         store_error env (S (clock w)) <> None)
    end.
Proof.
  unfold GET_batch, getBatch, try_catch, bind, request, get, ret.
  destruct (store_error env (clock w)) as [e|] eqn:E0.
  { eexists. eexists. split; [reflexivity|]. repeat split.
    left. split; [reflexivity|]. left. discriminate. }
  change (find_batch b (tick w)) with (find_batch b w).
  destruct (find_batch b w) as [B|] eqn:F.
  2: { eexists. eexists. split; [reflexivity|]. repeat split.
       left. split; [reflexivity|]. right. reflexivity. }
  unfold Lib.getJobsForBatch, bind, request, get, ret, throw.
  cbn [clock tick].
  destruct (store_error env (S (clock w))) as [e|] eqn:E1.
  { eexists. eexists. split; [reflexivity|]. repeat split.
    right. split; [reflexivity|]. split; [reflexivity | discriminate]. }
  eexists. eexists. split; [reflexivity|].
  split; [reflexivity|]. split; [reflexivity|]. split; [reflexivity|].
  cbn [batch jobs activeJob jobDetails summary n_pending n_researching
       n_analyzing n_writing n_completed n_failed].
  split; [reflexivity|].
  split; [rewrite length_map; apply count_status_sum|].
  split.
  { apply Permutation_map.
    apply (Invariants.select_all_perm env b (tick (tick w))). }
  rewrite find_in_progress.
  destruct (firstn 1 (select_jobs env b in_progress (tick (tick w))))
    as [|job rest] eqn:S1.
  - cbn [hd_error option_map]. apply (@Selection.none_selected _ _ _ _ S1).
  - cbn [hd_error option_map]. exists job.
    apply Selection.oldest_selected in S1.
    destruct S1 as (H1 & H2 & H3 & H4).
    split; [exact H1|]. split; [exact H2|]. split; [reflexivity|].
    split; [exact H3 | exact H4].
Qed.

(** ** Saving a blog and reading it back *)

Lemma find_app_none {A} (p : A -> bool) (l l' : list A) :
  find p l = None -> find p (l ++ l') = find p l'.
Proof.
  induction l as [|x l IH]; [reflexivity|]. cbn [find app].
  destruct (p x); [discriminate | exact IH].
Qed.

(** When the store answers: [saveBlog] for a job that has no blog stores
    the blog it returns, with the length of the content as word count and
    the content's links to habitto.com as internal links, and [getBlog]
    then returns that blog; for a job that has a blog already it throws,
    stores nothing, and [getBlog] still returns the old blog. *)
Theorem saveBlog_then_getBlog (env : Env) (job : nat)
  (keyword title content : str) (meta : option str) (score : option number)
  (w : World) :
  store_error env (clock w) = None ->
  store_error env (S (clock w)) = None ->
  let run := Lib.saveBlog env job keyword title content meta score w in
  match find (fun b => Blog.job_id b =? job) (simple_blogs w) with
  | None =>
      exists blog,
        fst run = Returned blog /\
        simple_blogs (snd run) = simple_blogs w ++ [blog] /\
        getBlog env job (snd run) = (Returned (Some blog), tick (snd run)) /\
        Blog.job_id blog = job /\ Blog.keyword blog = keyword /\
        Blog.title blog = title /\ Blog.content blog = content /\
        Blog.meta_description blog = meta /\
        Blog.neuronwriter_score blog = score /\
        Blog.word_count blog = Some (length content) /\
        Blog.internal_links blog = PostProcess.internal_links_of content /\
        Forall (fun url => includes url (lit "habitto.com"%string) = true)
               (Blog.internal_links blog)
  | Some old =>
      fst run = Thrown (lit "Failed to save blog: "%string ++
                        Lib.duplicate_job_id) /\
      simple_blogs (snd run) = simple_blogs w /\
      getBlog env job (snd run) = (Returned (Some old), tick (snd run))
  end.
Proof.
  intros E0 E1. cbv zeta.
  unfold Lib.saveBlog, bind, request, get, put, throw, ret. rewrite E0.
  cbn [simple_blogs tick].
  destruct (find (fun b => Blog.job_id b =? job) (simple_blogs w))
    as [old|] eqn:F.
  - assert (X : existsb (fun b => Blog.job_id b =? job) (simple_blogs w) = true).
    { apply existsb_exists. apply find_some in F. exists old. exact F. }
    rewrite X. cbn [fst snd].
    split; [reflexivity|]. split; [reflexivity|].
    unfold getBlog, bind, request, get, ret. cbn [clock tick]. rewrite E1.
    cbn [simple_blogs tick]. rewrite F. reflexivity.
  - assert (X : existsb (fun b => Blog.job_id b =? job) (simple_blogs w) = false).
    { destruct (existsb _ (simple_blogs w)) eqn:X; [|reflexivity].
      apply existsb_exists in X. destruct X as (b0 & H0 & H1).
      rewrite (find_none _ _ F b0 H0) in H1. discriminate H1. }
    rewrite X. cbn [fst snd]. eexists.
    split; [reflexivity|]. split; [reflexivity|].
    split.
    { unfold getBlog, bind, request, get, ret.
      cbn [clock tick add_blog]. rewrite E1.
      cbn [simple_blogs tick add_blog].
      rewrite (find_app_none _ _ _ F). cbn [find Blog.job_id].
      rewrite Nat.eqb_refl. reflexivity. }
    cbn [Blog.job_id Blog.keyword Blog.title Blog.content
         Blog.meta_description Blog.neuronwriter_score Blog.word_count
         Blog.internal_links].
    do 8 (split; [reflexivity|]).
    unfold PostProcess.internal_links_of. apply Forall_forall.
    intros url Hu. apply filter_In in Hu. tauto.
Qed.


(** ** Creating a batch through the route *)

Lemma entries_snd {A} (l : list A) : map snd (entries l) = l.
Proof.
  unfold entries. generalize 0.
  induction l as [|x l IH]; intros n; [reflexivity|].
  cbn. f_equal. apply IH.
Qed.

Lemma created_jobs_keywords (env : Env) (keywords : list str) (w : World) :
  map Job.keyword (StoreFacts.created_jobs env keywords w)
  = map (trim env) keywords.
Proof.
  unfold StoreFacts.created_jobs. rewrite map_map. cbn [Lib.new_job Job.keyword].
  rewrite <- (entries_snd keywords) at 2. rewrite map_map. reflexivity.
Qed.

(** [String.prototype.trim] removes the white space and the line
    terminators of ECMAScript at both ends. *)
Definition white_space (c : code_unit) : bool :=
  existsb (N.eqb c)
    [9; 10; 11; 12; 13; 32; 160; 5760; 8232; 8233; 8239; 8287; 12288; 65279]%N
  || ((8192 <=? c)%N && (c <=? 8202)%N).

Fixpoint drop_spaces (s : str) : str :=
  match s with
  | [] => []
  | c :: s' => if white_space c then drop_spaces s' else s
  end.

Definition js_trim (s : str) : str :=
  rev (drop_spaces (rev (drop_spaces s))).

Lemma drop_spaces_head (c : code_unit) (s : str) :
  white_space c = false -> drop_spaces (c :: s) = c :: s.
Proof. intros H. cbn [drop_spaces]. rewrite H. reflexivity. Qed.

Lemma drop_spaces_last (s : str) (c : code_unit) :
  white_space c = false ->
  drop_spaces (s ++ [c]) = drop_spaces s ++ [c].
Proof.
  intros H. induction s as [|x s IH]; cbn [app drop_spaces].
  - rewrite H. reflexivity.
  - destruct (white_space x); [exact IH | reflexivity].
Qed.

Lemma drop_spaces_starts (s : str) :
  drop_spaces s = [] \/
  exists c rest, drop_spaces s = c :: rest /\ white_space c = false.
Proof.
  induction s as [|x s IH]; [left; reflexivity|]. cbn [drop_spaces].
  destruct (white_space x) eqn:E; [exact IH|].
  right. exists x, s. split; [reflexivity | exact E].
Qed.

Lemma drop_spaces_again (s : str) :
  drop_spaces (drop_spaces s) = drop_spaces s.
Proof.
  destruct (drop_spaces_starts s) as [E|(c & rest & E & Hc)]; rewrite E.
  - reflexivity.
  - apply drop_spaces_head. exact Hc.
Qed.

Lemma js_trim_idempotent (s : str) : js_trim (js_trim s) = js_trim s.
Proof.
  unfold js_trim.
  destruct (drop_spaces_starts s) as [E|(c & rest & E & Hc)]; rewrite E.
  - reflexivity.
  - cbn [rev]. rewrite drop_spaces_last by exact Hc.
    rewrite rev_app_distr. cbn [rev app].
    rewrite drop_spaces_head by exact Hc. cbn [rev].
    rewrite rev_involutive, drop_spaces_last by exact Hc.
    rewrite drop_spaces_again, rev_app_distr. reflexivity.
Qed.

(** The route that creates a batch never throws.  With status 200 it has
    added one pending batch row and between 1 and 500 pending jobs of that
    batch: one for each keyword that is not empty once trimmed, in the
    order given and with the trimmed keyword, so that no job has an empty
    keyword; [totalKeywords] and the row's [total_keywords] are their
    number.  With status 400 it has made no request to the store: the body
    had no array of keywords, or one of more than 500, or none that is not
    empty once trimmed.  With status 500 it has created no job. *)
Theorem POST_batch_validates (env : Env) (keywords : option (list str))
  (use : option bool) (w : World) :
  (forall s, trim env (trim env s) = trim env s) ->
  exists r w',
    POST_batch env keywords use w = (Returned r, w') /\
    let given := or_else keywords [] in
    let clean := filter nonempty (map (trim env) given) in
    match r with
    | json body =>
        exists B new,
          simple_batches w' = simple_batches w ++ [B] /\
          simple_jobs w' = simple_jobs w ++ new /\
          Batch.id B = batchId body /\
          Batch.total_keywords B = totalKeywords body /\
          Batch.status B = batch_pending /\
          Batch.use_neuronwriter B = or_else use true /\
          useNeuronwriter body = or_else use true /\
          totalKeywords body = length new /\
          1 <= length new <= 500 /\
          map Job.keyword new = clean /\
          Forall (fun j => Job.batch_id j = batchId body /\
                           Job.status j = pending /\
                           Job.keyword j <> []) new
    | failure status _ =>
        (status = 400 /\ w' = w /\
         (keywords = None \/ 500 < length given \/ clean = [])) \/
        (status = 500 /\ simple_jobs w' = simple_jobs w)
    end.
Proof.
  intros Hidem. unfold POST_batch, try_catch.
  destruct keywords as [[|k0 ks]|].
  - eexists. eexists. split; [reflexivity|]. cbv zeta.
    left. split; [reflexivity|]. split; [reflexivity|]. right. right. reflexivity.
  - cbn [or_else]. set (kws := k0 :: ks).
    destruct (500 <? length kws) eqn:L.
    { eexists. eexists. split; [reflexivity|]. cbv zeta.
      left. split; [reflexivity|]. split; [reflexivity|]. right. left.
      apply Nat.ltb_lt. exact L. }
    apply Nat.ltb_ge in L. cbv zeta.
    assert (Hlen : length (filter nonempty (map (trim env) kws)) <= 500).
    { pose proof (filter_length_le nonempty (map (trim env) kws)) as H.
      rewrite length_map in H. lia. }
    assert (Hclean : forall k, In k (filter nonempty (map (trim env) kws)) ->
                       k <> [] /\ trim env k = k).
    { intros k Hk. apply filter_In in Hk.
      destruct Hk as [Hk Hn]. apply in_map_iff in Hk.
      destruct Hk as (k' & <- & Hk'). split; [|apply Hidem].
      intros E. rewrite E in Hn. discriminate Hn. }
    destruct (filter nonempty (map (trim env) kws)) as [|c0 cs] eqn:C.
    { eexists. eexists. split; [reflexivity|].
      left. split; [reflexivity|]. split; [reflexivity|]. right. right.
      reflexivity. }
    set (clean := c0 :: cs) in *.
    assert (Hpos : 1 <= length clean) by (cbn; lia).
    unfold bind.
    destruct (store_error env (clock w)) as [e|] eqn:E0.
    { unfold Lib.createBatch, bind, request, throw. rewrite E0.
      eexists. eexists. split; [reflexivity|].
      right. split; reflexivity. }
    destruct (store_error env (S (clock w))) as [e|] eqn:E1.
    { rewrite (StoreFacts.createBatch_jobs_refused env clean (or_else use true)
                 w E0 E1).
      eexists. eexists. split; [reflexivity|].
      right. split; reflexivity. }
    rewrite (StoreFacts.createBatch_run env clean (or_else use true) w E0 E1).
    eexists. eexists. split; [reflexivity|].
    exists (StoreFacts.created_batch clean (or_else use true) w),
           (StoreFacts.created_jobs env clean w).
    cbn [simple_batches simple_jobs batchId totalKeywords useNeuronwriter].
    assert (Hk : map Job.keyword (StoreFacts.created_jobs env clean w) = clean).
    { rewrite created_jobs_keywords. rewrite <- (map_id clean) at 2.
      apply map_ext_in. intros k Hk. apply Hclean. exact Hk. }
    assert (Hn : length (StoreFacts.created_jobs env clean w) = length clean).
    { rewrite <- (length_map Job.keyword), Hk. reflexivity. }
    do 7 (split; [reflexivity|]).
    split; [symmetry; exact Hn|]. split; [lia|].
    split; [exact Hk|].
    apply Forall_forall. intros j Hj.
    assert (Hin : In (Job.keyword j) clean)
      by (rewrite <- Hk; apply in_map; exact Hj).
    unfold StoreFacts.created_jobs in Hj.
    apply in_map_iff in Hj. destruct Hj as (entry & <- & _).
    split; [reflexivity|]. split; [reflexivity|].
    apply (Hclean _ Hin).
  - eexists. eexists. split; [reflexivity|]. cbv zeta.
    left. split; [reflexivity|]. split; [reflexivity|]. left. reflexivity.
Qed.

(** ** The blogs of a batch *)

Lemma StronglySorted_map {A B} (R : A -> A -> Prop) (R' : B -> B -> Prop)
  (f : A -> B) (l : list A) :
  (forall x y, R x y -> R' (f x) (f y)) ->
  StronglySorted R l -> StronglySorted R' (map f l).
Proof.
  intros HR. induction 1 as [|x l _ IH Hx]; cbn [map]; constructor.
  - exact IH.
  - apply Forall_forall. intros y Hy. apply in_map_iff in Hy.
    destruct Hy as (y0 & <- & Hy0). rewrite Forall_forall in Hx.
    apply HR, Hx, Hy0.
Qed.

Lemma blogs_of_batch_In (b : nat) (w : World) (blog : Blog.t) :
  In blog (sort by_blog_created_at
             (filter (fun x => existsb (Nat.eqb (Blog.job_id x))
                                       (map Job.id (jobs_of b (simple_jobs w))))
                     (simple_blogs w))) <->
  In blog (simple_blogs w) /\ Dispatch.blog_of_batch b w blog.
Proof.
  unfold Dispatch.blog_of_batch. split.
  - intros H.
    apply (Permutation_in _ (Permutation_sym (sort_perm _ _))) in H.
    apply filter_In in H. destruct H as [H X]. split; [exact H|].
    apply existsb_exists in X. destruct X as (i & Hi & E).
    apply Nat.eqb_eq in E. apply in_map_iff in Hi.
    destruct Hi as (j & <- & Hj). unfold jobs_of in Hj.
    apply filter_In in Hj. destruct Hj as [Hj Hb]. apply Nat.eqb_eq in Hb.
    exists j. split; [exact Hj | split; [exact Hb | exact E]].
  - intros (H & j & Hj & Hb & E).
    apply (Permutation_in _ (sort_perm _ _)).
    apply filter_In. split; [exact H|]. apply existsb_exists.
    exists (Job.id j). split; [|apply Nat.eqb_eq; exact E].
    apply in_map. unfold jobs_of. apply filter_In.
    split; [exact Hj | apply Nat.eqb_eq; exact Hb].
Qed.

(** In a store reached by creating batches and invoking the library's
    dispatcher, the blogs route never throws and changes no table.  With
    status 200 it lists, oldest first, exactly the blogs of the jobs of the
    batch, [totalBlogs] is their number, and every completed job of the
    batch has its blog in the list.  It answers 404 when the store refuses
    the read of the batch or has no such batch, and 500 when the store
    refuses the read of the jobs or of the blogs. *)
Theorem GET_blogs_report (env : Env) (b : nat) (w : World) :
  Invariants.reachable env w ->
  exists r w',
    GET_blogs env b w = (Returned r, w') /\
    simple_batches w' = simple_batches w /\
    simple_jobs w' = simple_jobs w /\
    simple_blogs w' = simple_blogs w /\
    match r with
    | json body =>
        totalBlogs body = length (blogs body) /\
        (forall v, In v (blogs body) <->
                   exists blog, v = view blog /\ In blog (simple_blogs w) /\
                                Dispatch.blog_of_batch b w blog) /\
        StronglySorted (fun u v => createdAt u <= createdAt v) (blogs body) /\
        (forall j, In j (simple_jobs w) -> Job.batch_id j = b ->
                   Job.status j = completed ->
                   exists v, In v (blogs body) /\ jobId v = Job.id j)
    | failure status _ =>
        (status = 404 /\
         (store_error env (clock w) <> None \/ find_batch b w = None)) \/
        (status = 500 /\
         (store_error env (S (clock w)) <> None \/
          store_error env (S (S (clock w))) <> None))
    end.
Proof.
  intros Hr.
  unfold GET_blogs, getBatch, getBlogsForBatch, try_catch, bind, request, get,
         ret, throw.
  destruct (store_error env (clock w)) as [e|] eqn:E0.
  { eexists. eexists. split; [reflexivity|]. repeat split.
    left. split; [reflexivity|]. left. discriminate. }
  change (find_batch b (tick w)) with (find_batch b w).
  destruct (find_batch b w) as [B|] eqn:F.
  2: { eexists. eexists. split; [reflexivity|]. repeat split.
       left. split; [reflexivity|]. right. reflexivity. }
  cbn [clock tick].
  destruct (store_error env (S (clock w))) as [e|] eqn:E1.
  { eexists. eexists. split; [reflexivity|]. repeat split.
    right. split; [reflexivity|]. left. discriminate. }
  cbn [clock tick].
  destruct (store_error env (S (S (clock w)))) as [e|] eqn:E2.
  { eexists. eexists. split; [reflexivity|]. repeat split.
    right. split; [reflexivity|]. right. discriminate. }
  eexists. eexists. split; [reflexivity|].
  split; [reflexivity|]. split; [reflexivity|]. split; [reflexivity|].
  cbn [totalBlogs blogs simple_jobs simple_blogs tick].
  split; [rewrite length_map; reflexivity|].
  split; [|split].
  - intros v. rewrite in_map_iff. split.
    + intros (blog & <- & H). apply blogs_of_batch_In in H.
      exists blog. split; [reflexivity | exact H].
    + intros (blog & -> & H). exists blog. split; [reflexivity|].
      apply blogs_of_batch_In. exact H.
  - apply StronglySorted_map with (R := before by_blog_created_at).
    + intros x y H. unfold before, by_blog_created_at in H.
      cbn [view createdAt]. lia.
    + apply sort_sorted; unfold by_blog_created_at; intros; lia.
  - intros j Hj Hb Hs.
    destruct (Dispatch.reachable_completed Hr j Hj Hs) as (blog & H & E).
    exists (view blog). split; [|exact E].
    apply in_map. apply blogs_of_batch_In. split; [exact H|].
    exists j. split; [exact Hj | split; [exact Hb | exact E]].
Qed.

End Api.

Module ApiRuns.
Import Js Num Store Api.

(** The fetchers and the store of [Scenario.steady], with the trim of the
    language. *)
Definition trimming : Env :=
  {| store_error := store_error Scenario.steady;
     tie_rank := tie_rank Scenario.steady;
     research := research Scenario.steady;
     analyzeResearch := analyzeResearch Scenario.steady;
     analyzeKeyword := analyzeKeyword Scenario.steady;
     writeBlog := writeBlog Scenario.steady;
     importToNeuronWriter := importToNeuronWriter Scenario.steady;
     getFullWritingContext := getFullWritingContext Scenario.steady;
     removePushyCTAs := removePushyCTAs Scenario.steady;
     trim := js_trim;
     toLowerCase := toLowerCase Scenario.steady;
     canonicalize := canonicalize Scenario.steady |}.

Definition typed_keywords : list str :=
  [lit "  savings "%string; lit "   "%string; lit "debit card"%string].

Lemma POST_batch_validates_run :
  let env := trimming in
  let keywords := Some typed_keywords in
  let use := None in
  let w := empty_world in
  (forall s, trim env (trim env s) = trim env s) /\
  exists r w',
    POST_batch env keywords use w = (Returned r, w') /\
    let given := or_else keywords [] in
    let clean := filter nonempty (map (trim env) given) in
    match r with
    | json body =>
        exists B new,
          simple_batches w' = simple_batches w ++ [B] /\
          simple_jobs w' = simple_jobs w ++ new /\
          Batch.id B = batchId body /\
          Batch.total_keywords B = totalKeywords body /\
          Batch.status B = batch_pending /\
          Batch.use_neuronwriter B = or_else use true /\
          useNeuronwriter body = or_else use true /\
          totalKeywords body = length new /\
          1 <= length new <= 500 /\
          map Job.keyword new = clean /\
          Forall (fun j => Job.batch_id j = batchId body /\
                           Job.status j = pending /\
                           Job.keyword j <> []) new
    | failure status _ =>
        (status = 400 /\ w' = w /\
         (keywords = None \/ 500 < length given \/ clean = [])) \/
        (status = 500 /\ simple_jobs w' = simple_jobs w)
    end.
Proof.
  intros env keywords use w.
  split; [exact js_trim_idempotent|].
  apply (@POST_batch_validates env keywords use w). exact js_trim_idempotent.
Defined.

(** The keywords of the jobs that request creates. *)
Example POST_batch_keywords :
  map Job.keyword
      (simple_jobs (snd (POST_batch trimming (Some typed_keywords) None
                                    empty_world)))
  = [lit "savings"%string; lit "debit card"%string].
Proof. vm_compute. reflexivity. Qed.

Lemma saveBlog_then_getBlog_run :
  let env := Scenario.steady in
  let w := Scenario.analyzed Scenario.steady in
  let job := 1 in
  let keyword := lit "savings"%string in
  let title := lit "Saving habits"%string in
  let content := LinkPlacer.three_paragraphs in
  let meta := Some (lit "How to save"%string) in
  let score := Some (of_Z 58) in
  store_error env (clock w) = None /\
  store_error env (S (clock w)) = None /\
  let run := Lib.saveBlog env job keyword title content meta score w in
  match find (fun b => Blog.job_id b =? job) (simple_blogs w) with
  | None =>
      exists blog,
        fst run = Returned blog /\
        simple_blogs (snd run) = simple_blogs w ++ [blog] /\
        getBlog env job (snd run) = (Returned (Some blog), tick (snd run)) /\
        Blog.job_id blog = job /\ Blog.keyword blog = keyword /\
        Blog.title blog = title /\ Blog.content blog = content /\
        Blog.meta_description blog = meta /\
        Blog.neuronwriter_score blog = score /\
        Blog.word_count blog = Some (length content) /\
        Blog.internal_links blog = PostProcess.internal_links_of content /\
        Forall (fun url => includes url (lit "habitto.com"%string) = true)
               (Blog.internal_links blog)
  | Some old =>
      fst run = Thrown (lit "Failed to save blog: "%string ++
                        Lib.duplicate_job_id) /\
      simple_blogs (snd run) = simple_blogs w /\
      getBlog env job (snd run) = (Returned (Some old), tick (snd run))
  end.
Proof.
  intros env w job keyword title content meta score.
  split; [reflexivity|]. split; [reflexivity|].
  apply (@saveBlog_then_getBlog env job keyword title content meta score w);
    reflexivity.
Defined.

Lemma GET_blogs_report_run :
  let env := Scenario.steady in
  let w := Scenario.written Scenario.steady in
  let b := 0 in
  Invariants.reachable env w /\
  exists r w',
    GET_blogs env b w = (Returned r, w') /\
    simple_batches w' = simple_batches w /\
    simple_jobs w' = simple_jobs w /\
    simple_blogs w' = simple_blogs w /\
    match r with
    | json body =>
        totalBlogs body = length (blogs body) /\
        (forall v, In v (blogs body) <->
                   exists blog, v = view blog /\ In blog (simple_blogs w) /\
                                Dispatch.blog_of_batch b w blog) /\
        StronglySorted (fun u v => createdAt u <= createdAt v) (blogs body) /\
        (forall j, In j (simple_jobs w) -> Job.batch_id j = b ->
                   Job.status j = completed ->
                   exists v, In v (blogs body) /\ jobId v = Job.id j)
    | failure status _ =>
        (status = 404 /\
         (store_error env (clock w) <> None \/ find_batch b w = None)) \/
        (status = 500 /\
         (store_error env (S (clock w)) <> None \/
          store_error env (S (S (clock w))) <> None))
    end.
Proof.
  intros env w b. split; [apply Scenario.reachable_written|].
  apply (@GET_blogs_report env b w). apply Scenario.reachable_written.
Defined.

End ApiRuns.

(* ====================================================================== *)
(** * The loop of [processBatch] ([pipeline.ts]) *)
(* ====================================================================== *)

Module Loop.
Import Js Num Store Triples Dispatch.

(** An entry of [results]. *)
Record KeywordResult := {
  result_keyword : str;
  success : bool;
  result_error : option str
}.

Record BatchOutcome := {
  completed_count : nat;
  failed_count : nat;
  results : list KeywordResult
}.

(** [!stepResult.error] *)
Definition no_error (error : option str) : bool :=
  match error with
  | Some (_ :: _) => false
  | _ => true
  end.

(** [if (stepResult.step === 'write' && stepResult.nextStep === 'completed')
    results.push(...)] *)
Definition push_result (stepResult : StepResult)
  (results : list KeywordResult) : list KeywordResult :=
  match step stepResult, nextStep stepResult with
  | Some write_name, Some completed_name =>
      results ++
      [{| result_keyword := or_else (keyword stepResult) [];
          success := no_error (error stepResult);
          result_error := error stepResult |}]
  | _, _ => results
  end.

Section WithEnv.
Variable env : Env.

(** The [while] loop, with the number of iterations it may still make;
    [None] when they are used up and the loop would go on. *)
Fixpoint processBatch_loop (fuel : nat) (batchId : nat)
  (useNeuronwriter : bool) (results : list KeywordResult)
  : M (option (list KeywordResult)) :=
  match fuel with
  | O => ret None
  | S fuel' =>
      stepResult <- Lib.processOneStep env batchId useNeuronwriter ;;
      let results := push_result stepResult results in
      match result_status stepResult with
      | step_completed | no_work => ret (Some results)
      | processing =>
          processBatch_loop fuel' batchId useNeuronwriter results
      end
  end.

Definition processBatch (fuel : nat) (batchId : nat) (useNeuronwriter : bool)
  : M (option BatchOutcome) :=
  looped <- processBatch_loop fuel batchId useNeuronwriter [] ;;
  match looped with
  | None => ret None
  | Some results =>
      jobs <- Lib.getJobsForBatch env batchId ;;
      ret (Some {| completed_count := Lib.count_status completed jobs;
                   failed_count := Lib.count_status failed jobs;
                   results := results |})
  end.

End WithEnv.

(** ** The steps a job still needs *)

Definition weight (s : JobStatus) : nat :=
  match s with
  | pending | researching => 3
  | analyzing => 2
  | writing => 1
  | completed | failed => 0
  end.

Definition job_weight (b : nat) (j : Job.t) : nat :=
  if Job.batch_id j =? b then weight (Job.status j) else 0.

Fixpoint work (b : nat) (l : list Job.t) : nat :=
  match l with
  | [] => 0
  | j :: l' => job_weight b j + work b l'
  end.

Definition work_left (b : nat) (w : World) : nat := work b (simple_jobs w).

Lemma work_left_bound (b : nat) (w : World) :
  work_left b w <= 3 * length (jobs_of b (simple_jobs w)).
Proof.
  unfold work_left, jobs_of. induction (simple_jobs w) as [|j l IH]; [cbn; lia|].
  cbn [work filter]. unfold job_weight at 1.
  destruct (Job.batch_id j =? b); cbn [length].
  - destruct (Job.status j); cbn [weight]; lia.
  - lia.
Qed.

Lemma work_left_zero (b : nat) (w : World) :
  work_left b w = 0 <-> Invariants.all_terminal b (simple_jobs w) = true.
Proof.
  unfold work_left, Invariants.all_terminal, Invariants.statuses, jobs_of.
  induction (simple_jobs w) as [|j l IH]; [cbn; tauto|].
  cbn [work filter]. unfold job_weight at 1.
  destruct (Job.batch_id j =? b); cbn [map forallb].
  - rewrite andb_true_iff, <- IH.
    destruct (Job.status j); cbn [weight terminal]; split; intros H;
      try lia; try (destruct H; discriminate); try (split; [reflexivity|lia]).
  - exact IH.
Qed.

(** One row moves on, the others stay. *)
Lemma work_left_decreases (b jid : nat) (s' : JobStatus) (job : Job.t)
  (l l' : list Job.t) :
  (forall j, In j l -> Job.id j = jid -> j = job) ->
  Job.batch_id job = b -> weight s' < weight (Job.status job) ->
  Forall2 (job_moved jid) l l' ->
  (forall j', In j' l' -> Job.id j' = jid -> Job.status j' = s') ->
  work b l' <= work b l /\
  (In job l -> Job.id job = jid ->
   work b l' < work b l).
Proof.
  intros U Hb Hw H. induction H as [|j j' l l' Hj _ IH]; intros C.
  - split; [apply Nat.le_refl | intros []].
  - destruct IH as [IH1 IH2].
    + intros x Hx. apply U. right. exact Hx.
    + intros x Hx. apply C. right. exact Hx.
    + destruct Hj as (H1 & H2 & _ & _ & H5).
      cbn [work].
      destruct (Nat.eq_dec (Job.id j) jid) as [E|N].
      * assert (Ej : j = job) by (apply U; [left; reflexivity | exact E]).
        assert (Es : Job.status j' = s')
          by (apply C; [left; reflexivity | rewrite H1; exact E]).
        assert (Hlt : job_weight b j' < job_weight b j).
        { unfold job_weight. rewrite H2, Es, Ej, Hb, Nat.eqb_refl. exact Hw. }
        split; [lia|]. intros _ _. lia.
      * rewrite (H5 N). split; [lia|].
        intros [Ej|Hin] Hid; [exfalso; apply N; rewrite Ej; exact Hid|].
        specialize (IH2 Hin Hid). lia.
Qed.

Lemma moved_ids (jid : nat) (l l' : list Job.t) :
  Forall2 (job_moved jid) l l' ->
  map Job.id l' = map Job.id l /\
  map Job.batch_id l' = map Job.batch_id l.
Proof.
  induction 1 as [|j j' l l' (H1 & H2 & _) _ [IH1 IH2]]; [split; reflexivity|].
  cbn [map]. rewrite H1, H2, IH1, IH2. split; reflexivity.
Qed.

Lemma jobs_of_length (b : nat) (l l' : list Job.t) :
  map Job.batch_id l' = map Job.batch_id l ->
  length (jobs_of b l') = length (jobs_of b l).
Proof.
  unfold jobs_of. revert l'. induction l as [|j l IH]; intros [|j' l'] H;
    try discriminate H; [reflexivity|].
  cbn [map] in H. injection H as Hj Hl. cbn [filter]. rewrite Hj.
  destruct (Job.batch_id j =? b); cbn [length]; rewrite (IH l' Hl); reflexivity.
Qed.


(** ** One call, when the store answers every request *)

(** What the loop looks at in the result of a step. *)
Definition goes_on (r : StepResult) : Prop :=
  result_status r = processing /\
  (nextStep r = Some completed_name -> Store.error r = None).

Section Answering.
Variable env : Env.
Hypothesis ok : forall t, store_error env t = None.
Variables b jid : nat.
Variable w0 : World.

#[local] Abbreviation al := (along lib_legal b jid w0).

Lemma request_ok (P : World -> Prop) (Q : option str -> World -> Prop)
  (E : World -> Prop) :
  (forall w, P w -> Q None (tick w)) -> triple P (request env) Q E.
Proof. intros H w HP. unfold request. rewrite ok. apply H. exact HP. Qed.

Lemma checked_put_ok (P : World -> Prop) (Q : unit -> World -> Prop)
  (E : World -> Prop) (f : World -> World) (msg : str -> str) :
  (forall w, P w -> Q tt (f (tick w))) ->
  triple P
    (bind (request env)
          (fun error => match error with
                        | Some e => throw (msg e)
                        | None => put f
                        end))
    Q E.
Proof. intros H w HP. unfold bind, request. rewrite ok. apply H. exact HP. Qed.

Lemma updateJobStatus_ok (from to : JobStatus) (e : option str)
  (E : World -> Prop) :
  lib_legal from to = true ->
  triple (fun w => al from w /\ (to = completed -> has_blog jid w))
         (Lib.updateJobStatus env jid to e) (fun _ => al to) E.
Proof.
  intros L. unfold Lib.updateJobStatus.
  eapply triple_bind;
    [apply triple_get_to
       with (Q := fun _ w => al from w /\ (to = completed -> has_blog jid w));
     intros w H; exact H|].
  intros w1. cbv zeta. apply checked_put_ok.
  intros w [H Hb]. apply along_status with (from := from);
    [reflexivity | exact L | exact Hb | apply along_tick; exact H].
Qed.

Lemma setJobError_ok (from : JobStatus) (e : str) (E : World -> Prop) :
  lib_legal from failed = true ->
  triple (al from) (Lib.setJobError env jid e) (fun _ => al failed) E.
Proof.
  intros L. unfold Lib.setJobError.
  eapply triple_weaken;
    [apply (@updateJobStatus_ok from failed (Some e) E L)
    | intros w H; split; [exact H | discriminate]
    | intros ? ? H; exact H | intros ? H; exact H].
Qed.

(** The status a handler leaves: the next one, or failed. *)
Definition advanced (next : JobStatus) (w : World) : Prop :=
  al next w \/ al failed w.

Lemma doResearchStep_ok (job : Job.t) (s : JobStatus) (E : World -> Prop) :
  Job.id job = jid -> lib_legal s researching = true ->
  triple (al s) (Lib.doResearchStep env job)
         (fun r w => advanced analyzing w /\ goes_on r) E.
Proof.
  intros Hid L. unfold Lib.doResearchStep. rewrite Hid.
  eapply triple_bind.
  { eapply triple_weaken;
      [apply (@updateJobStatus_ok s researching None E L)
      | intros w H; split; [exact H | discriminate]
      | intros ? ? H; exact H | intros w H; exact H]. }
  intros ? .
  apply triple_try_catch with (E' := al researching).
  - eapply triple_bind.
    { apply triple_fetch. apply timeless_along. }
    intros rawResearch.
    eapply triple_bind;
      [apply request_ok with (Q := fun error w => error = None /\
                                                  al researching w);
       intros w H; split; [reflexivity | apply along_tick; exact H]|].
    intros [e|]; [intros w [H _]; discriminate H|].
    eapply triple_bind.
    + apply triple_put_to with (Q := fun _ => al analyzing).
      intros w [_ H].
      apply (@along_status lib_legal b jid w0 researching analyzing);
        [reflexivity | reflexivity | discriminate | exact H].
    + intros ? . apply triple_ret_to. intros w H.
      split; [left; exact H|]. split; [reflexivity | discriminate].
  - intros e. eapply triple_bind.
    + apply (@setJobError_ok researching e E eq_refl).
    + intros ? . apply triple_ret_to. intros w H.
      split; [right; exact H|]. split; [reflexivity | discriminate].
Qed.

Lemma doAnalyzeStep_ok (job : Job.t) (useNeuronwriter : bool)
  (E : World -> Prop) :
  Job.id job = jid ->
  triple (al analyzing) (Lib.doAnalyzeStep env job useNeuronwriter)
         (fun r w => advanced writing w /\ goes_on r) E.
Proof.
  intros Hid. unfold Lib.doAnalyzeStep. rewrite Hid.
  apply triple_try_catch with (E' := al analyzing).
  - eapply triple_bind;
      [apply triple_get_to with (Q := fun _ => al analyzing);
       intros w H; exact H|].
    intros w1.
    destruct (option_map Job.research_raw (find_job jid w1))
      as [[[|c raw]|]|]; try apply triple_throw.
    cbv zeta.
    eapply triple_bind; [apply triple_fetch; apply timeless_along|].
    intros analyzedResearch.
    eapply triple_bind with (Q := fun _ => al analyzing).
    { destruct useNeuronwriter; [|apply triple_ret].
      eapply triple_bind.
      - apply triple_caught. apply triple_fetch. apply timeless_along.
      - intros [e|data]; [apply triple_ret|].
        eapply triple_bind; [|intros ?; apply triple_ret].
        apply triple_caught. apply lib_saveNeuronwriterData. }
    intros neuronwriterData.
    eapply triple_bind;
      [apply request_ok with (Q := fun error w => error = None /\
                                                  al analyzing w);
       intros w H; split; [reflexivity | apply along_tick; exact H]|].
    intros [e|]; [intros w [H _]; discriminate H|].
    eapply triple_bind.
    + apply triple_put_to with (Q := fun _ => al writing).
      intros w [_ H].
      apply (@along_status lib_legal b jid w0 analyzing writing);
        [reflexivity | reflexivity | discriminate | exact H].
    + intros ? . apply triple_ret_to. intros w H.
      split; [left; exact H|]. split; [reflexivity | discriminate].
  - intros e. eapply triple_bind.
    + apply (@setJobError_ok analyzing e E eq_refl).
    + intros ? . apply triple_ret_to. intros w H.
      split; [right; exact H|]. split; [reflexivity | discriminate].
Qed.

(** The write step may still throw, when the batch row is missing. *)
Lemma doWriteStep_ok (job : Job.t) :
  Job.id job = jid ->
  triple (al writing) (Lib.doWriteStep env job b)
         (fun r w => advanced completed w /\ goes_on r) (al failed).
Proof.
  intros Hid. unfold Lib.doWriteStep. rewrite Hid.
  apply triple_try_catch
    with (E' := fun w => al writing w \/ al completed w).
  - eapply triple_bind;
      [apply triple_get_to with (Q := fun _ => al writing);
       intros w H; exact H|].
    intros w1.
    destruct (option_map Job.research_analyzed (find_job jid w1))
      as [[[|c analyzed]|]|];
      try (apply triple_throw_to; intros w H; left; exact H).
    cbv zeta.
    eapply triple_bind.
    { eapply triple_weaken;
        [apply (@lib_write_draft_along env b jid w0 writing)
        | auto | intros ? ? H; exact H | intros w H; left; exact H]. }
    intros [[blogResult content] score].
    eapply triple_bind.
    { eapply triple_weaken;
        [apply (@lib_saveBlog env b jid w0 writing)
        | auto | intros ? ? H; exact H | intros w H; left; exact H]. }
    intros savedBlog.
    eapply triple_bind.
    { eapply triple_weaken;
        [apply (@updateJobStatus_ok writing completed None
                  (fun w => al writing w \/ al completed w) eq_refl)
        | intros w [H Hb]; split; [exact H | intros _; exact Hb]
        | intros ? ? H; exact H | auto]. }
    intros ? .
    eapply triple_bind.
    { eapply triple_weaken;
        [apply (@lib_incrementBatchProgress env b jid w0 completed)
        | auto | intros ? ? H; exact H | intros w H; right; exact H]. }
    intros ? . apply triple_ret_to. intros w H.
    split; [left; exact H|]. split; [reflexivity | reflexivity].
  - intros e. eapply triple_bind with (Q := fun _ => al failed).
    + intros w [H|H].
      * apply (@setJobError_ok writing e (al failed) eq_refl w) in H.
        destruct (Lib.setJobError env jid e w) as [[a|x] w']; exact H.
      * apply (@setJobError_ok completed e (al failed) eq_refl w) in H.
        destruct (Lib.setJobError env jid e w) as [[a|x] w']; exact H.
    + intros ? . eapply triple_bind.
      * apply (@lib_incrementBatchProgress env b jid w0 failed).
      * intros ? . apply triple_ret_to. intros w H.
        split; [right; exact H|]. split; [reflexivity | discriminate].
Qed.

End Answering.


(** ** The dispatcher, when the store answers every request *)

Section AnsweringStore.
Variable env : Env.
Hypothesis ok : forall t, store_error env t = None.
Variable b : nat.
Variable use : bool.

Definition same_rows (w w' : World) : Prop :=
  map Job.id (simple_jobs w') = map Job.id (simple_jobs w) /\
  map Job.batch_id (simple_jobs w') = map Job.batch_id (simple_jobs w).

(** The last call of the loop, or a call that moves one job on. *)
Definition stepped (w : World) (r : StepResult) (w' : World) : Prop :=
  same_rows w w' /\
  ((result_status r = step_completed /\ nextStep r = None /\
    simple_jobs w' = simple_jobs w /\
    Invariants.all_terminal b (simple_jobs w) = true) \/
   (goes_on r /\ work_left b w' < work_left b w)).

Lemma along_same_rows (jid : nat) (s : JobStatus) (w w' : World) :
  along lib_legal b jid w s w' -> same_rows w w'.
Proof. intros [H _]. apply (moved_ids (trace_jobs H)). Qed.

Lemma along_less (job : Job.t) (s' : JobStatus) (w w' : World) :
  NoDup (map Job.id (simple_jobs w)) ->
  selected b w job -> weight s' < weight (Job.status job) ->
  along lib_legal b (Job.id job) w s' w' ->
  work_left b w' < work_left b w.
Proof.
  intros Hnd (Hin & Hb & _) Hw [H C].
  refine (proj2 (@work_left_decreases b (Job.id job) s' job _ _ _ Hb Hw
                   (trace_jobs H) C) Hin eq_refl).
  intros j Hj E.
  apply (@Invariants.NoDup_map_injective _ _ Job.id _ j job Hnd Hj Hin E).
Qed.

Lemma advanced_less (job : Job.t) (next : JobStatus) (w w' : World) :
  NoDup (map Job.id (simple_jobs w)) ->
  selected b w job -> weight next < weight (Job.status job) ->
  advanced b (Job.id job) w next w' ->
  same_rows w w' /\ work_left b w' < work_left b w.
Proof.
  intros Hnd Hsel Hw [H|H].
  - split; [apply (along_same_rows H) | apply (along_less Hnd Hsel Hw H)].
  - split; [apply (along_same_rows H)|].
    apply (@along_less job failed w w' Hnd Hsel); [|exact H].
    cbn [weight]. lia.
Qed.

Lemma processOneStep_ok (w : World) :
  NoDup (map Job.id (simple_jobs w)) ->
  exists r w',
    Lib.processOneStep env b use w = (Returned r, w') /\ stepped w r w'.
Proof.
  intros Hnd.
  assert (T : triple (fun w1 => w1 = w) (Lib.processOneStep env b use)
                     (fun r w' => stepped w r w') (fun _ => False)).
  2: { specialize (T w eq_refl).
       destruct (Lib.processOneStep env b use w) as [[r|e] w'];
         [exists r, w'; split; [reflexivity | exact T] | destruct T]. }
  unfold Lib.processOneStep.
  apply triple_try_catch
    with (E' := fun w' => same_rows w w' /\ work_left b w' < work_left b w).
  2: { intros e. apply triple_ret_to. intros w' [H1 H2].
       split; [exact H1|]. right. split; [|exact H2].
       split; [reflexivity | discriminate]. }
  eapply triple_bind
    with (Q := fun _ w1 => simple_jobs w1 = simple_jobs w /\
                           idle lib_legal b w w1).
  { unfold Lib.updateBatchStatus. apply checked_put_ok; [exact ok|].
    intros w1 ->. split; [reflexivity|].
    apply idle_batch_status, idle_tick. intros jid. apply trace_nil. }
  intros ? .
  eapply triple_bind
    with (Q := fun next w1 =>
                 match next with
                 | Some job =>
                     (selected b w job /\
                      (in_progress (Job.status job) = true \/
                       Job.status job = pending)) /\
                     along lib_legal b (Job.id job) w (Job.status job) w1
                 | None =>
                     (simple_jobs w1 = simple_jobs w /\
                      Invariants.all_terminal b (simple_jobs w) = true)
                 end).
  { eapply triple_weaken;
      [apply (@next_job_chosen env lib_legal b w _ Hnd)
      | auto | | intros w1 H; exact H].
    intros [job|] w1; unfold chosen; [auto|].
    intros [[Hj _] Hall]. split; [exact Hj|].
    rewrite <- Hj. apply Hall. exact ok. }
  intros [job|].
  - apply triple_pure. intros [Hsel Hp].
    assert (Hadv : forall next r w',
               weight next < weight (Job.status job) ->
               advanced b (Job.id job) w next w' /\ goes_on r ->
               stepped w r w').
    { intros next r w' Hw [Ha Hg].
      destruct (advanced_less Hnd Hsel Hw Ha) as [H1 H2].
      split; [exact H1|]. right. split; assumption. }
    destruct (Job.status job) eqn:S; try (destruct Hp; discriminate).
    + eapply triple_weaken;
        [apply (@doResearchStep_ok env ok b (Job.id job) w job pending
                  (fun _ => False) eq_refl eq_refl)
        | auto
        | intros r w'; apply Hadv; cbn [weight]; lia
        | intros w' []].
    + eapply triple_weaken;
        [apply (@doResearchStep_ok env ok b (Job.id job) w job researching
                  (fun _ => False) eq_refl eq_refl)
        | auto
        | intros r w'; apply Hadv; cbn [weight]; lia
        | intros w' []].
    + eapply triple_weaken;
        [apply (@doAnalyzeStep_ok env ok b (Job.id job) w job use
                  (fun _ => False) eq_refl)
        | auto
        | intros r w'; apply Hadv; cbn [weight]; lia
        | intros w' []].
    + eapply triple_weaken;
        [apply (@doWriteStep_ok env ok b (Job.id job) w job eq_refl)
        | auto
        | intros r w'; apply Hadv; cbn [weight]; lia
        | intros w' H].
      split; [apply (along_same_rows H)|].
      apply (@along_less job failed w w' Hnd Hsel); [|exact H].
      rewrite S. cbn [weight]. lia.
  - eapply triple_bind
      with (Q := fun jobs w1 =>
                   (simple_jobs w1 = simple_jobs w /\
                    Invariants.all_terminal b (simple_jobs w) = true) /\
                   Permutation (jobs_of b (simple_jobs w)) jobs).
    { intros w1 [Hj Hall]. unfold Lib.getJobsForBatch, bind, request, get, ret.
      rewrite ok. split; [split; [exact Hj | exact Hall]|].
      rewrite <- Hj. apply (Invariants.select_all_perm env b (tick w1)). }
    intros jobs. cbv zeta.
    destruct (Lib.count_status completed jobs + Lib.count_status failed jobs
              =? length jobs) eqn:C.
    + eapply triple_bind
        with (Q := fun _ w1 => simple_jobs w1 = simple_jobs w /\
                               Invariants.all_terminal b (simple_jobs w) = true).
      * unfold Lib.updateBatchStatus. apply checked_put_ok; [exact ok|].
        intros w1 [H _]. exact H.
      * intros ? . apply triple_ret_to. intros w1 [Hj Hall].
        split; [unfold same_rows; rewrite Hj; split; reflexivity|].
        left. split; [reflexivity|]. split; [reflexivity|].
        split; [exact Hj | exact Hall].
    + apply triple_ret_to. intros w1 [[Hj Hall] Hperm]. exfalso.
      apply Nat.eqb_neq in C. apply C.
      rewrite <- (Invariants.count_status_perm completed Hperm),
              <- (Invariants.count_status_perm failed Hperm),
              <- (Permutation_length Hperm).
      apply Invariants.all_terminal_count. exact Hall.
Qed.


Lemma push_result_success (r : StepResult) (results : list KeywordResult) :
  (nextStep r = Some completed_name -> Store.error r = None) ->
  Forall (fun k => success k = true) results ->
  Forall (fun k => success k = true) (push_result r results).
Proof.
  intros Hr H. unfold push_result.
  destruct (step r) as [[]|]; try exact H;
    destruct (nextStep r) as [[]|] eqn:N; try exact H.
  apply Forall_app. split; [exact H|].
  constructor; [|constructor]. cbn [success]. rewrite Hr; reflexivity.
Qed.

Lemma same_rows_trans (w1 w2 w3 : World) :
  same_rows w1 w2 -> same_rows w2 w3 -> same_rows w1 w3.
Proof.
  intros [H1 H2] [H3 H4]. split; [rewrite H3; exact H1 | rewrite H4; exact H2].
Qed.

Lemma processBatch_loop_ends (fuel : nat) (w : World)
  (results : list KeywordResult) :
  NoDup (map Job.id (simple_jobs w)) ->
  work_left b w < fuel ->
  Forall (fun k => success k = true) results ->
  exists results' last w',
    processBatch_loop env fuel b use results w = (Returned (Some results'), w') /\
    same_rows w w' /\
    Forall (fun k => success k = true) results' /\
    Invariants.all_terminal b (simple_jobs last) = true /\
    simple_jobs w' = simple_jobs last /\
    w' = snd (Lib.processOneStep env b use last).
Proof.
  revert w results. induction fuel as [|fuel IH]; intros w results Hnd Hf Hs;
    [lia|].
  destruct (@processOneStep_ok w Hnd) as (r & w1 & Run & Hrows & Hcase).
  cbn [processBatch_loop]. unfold bind. rewrite Run.
  destruct Hcase as [(Hst & Hnext & Hj & Hall)|([Hst Hnext] & Hless)].
  - rewrite Hst. unfold ret.
    exists (push_result r results), w, w1.
    split; [reflexivity|]. split; [exact Hrows|].
    split; [apply push_result_success; [rewrite Hnext; discriminate | exact Hs]|].
    split; [exact Hall|]. split; [exact Hj|]. rewrite Run. reflexivity.
  - rewrite Hst.
    assert (Hnd1 : NoDup (map Job.id (simple_jobs w1)))
      by (rewrite (proj1 Hrows); exact Hnd).
    destruct (IH w1 (push_result r results) Hnd1) as
      (results' & last & w' & Run' & Hrows' & Hs' & Hall & Hj & Hlast);
      [lia | apply push_result_success; assumption|].
    exists results', last, w'.
    split; [exact Run'|]. split; [apply (same_rows_trans Hrows Hrows')|].
    repeat split; assumption.
Qed.

End AnsweringStore.

(** When the store answers every request and job identifiers are unique,
    [processBatch] returns after at most three calls of [processOneStep]
    for each job of the batch and one more.  Every job of the batch is then
    completed or failed, no job row was added or removed, the two counts it
    returns are the numbers of completed and of failed jobs and add up to
    the number of jobs of the batch, every entry of [results] is a success,
    and the batch row has status failed when all jobs failed and completed
    otherwise. *)
Theorem processBatch_terminates (env : Env) (b : nat) (use : bool)
  (fuel : nat) (w : World) :
  (forall t, store_error env t = None) ->
  NoDup (map Job.id (simple_jobs w)) ->
  3 * length (jobs_of b (simple_jobs w)) < fuel ->
  exists outcome w',
    processBatch env fuel b use w = (Returned (Some outcome), w') /\
    Invariants.all_terminal b (simple_jobs w') = true /\
    map Job.id (simple_jobs w') = map Job.id (simple_jobs w) /\
    completed_count outcome =
      Lib.count_status completed (jobs_of b (simple_jobs w')) /\
    failed_count outcome =
      Lib.count_status failed (jobs_of b (simple_jobs w')) /\
    completed_count outcome + failed_count outcome
      = length (jobs_of b (simple_jobs w)) /\
    Forall (fun k => success k = true) (results outcome) /\
    forall B, In B (simple_batches w') -> Batch.id B = b ->
              Batch.status B =
              if Invariants.all_failed b (simple_jobs w') then batch_failed
              else batch_completed.
Proof.
  intros ok Hnd Hfuel.
  pose proof (work_left_bound b w) as Hb.
  destruct (@processBatch_loop_ends env ok b use fuel w [] Hnd) as
    (results' & last & w1 & Run & [Hid Hbid] & Hs & Hall & Hj & Hlast);
    [lia | constructor|].
  unfold processBatch, bind. rewrite Run.
  unfold Lib.getJobsForBatch, bind, request, get, ret. rewrite ok.
  eexists. eexists. split; [reflexivity|].
  cbn [simple_jobs simple_batches tick completed_count failed_count results].
  pose proof (Invariants.select_all_perm env b (tick w1)) as Hperm.
  change (simple_jobs (tick w1)) with (simple_jobs w1) in Hperm.
  rewrite <- (Invariants.count_status_perm completed Hperm),
          <- (Invariants.count_status_perm failed Hperm).
  rewrite Hj.
  split; [exact Hall|]. split; [rewrite <- Hj; exact Hid|].
  split; [reflexivity|]. split; [reflexivity|].
  split.
  { rewrite (Invariants.all_terminal_count _ Hall).
    rewrite <- Hj. apply jobs_of_length. exact Hbid. }
  split; [exact Hs|].
  intros B HB Hb'. rewrite Hlast in HB.
  apply (@Invariants.processOneStep_finalizes env b use last Hall
           (ok _) (ok _) (ok _) B HB Hb').
Qed.

(** When the store refuses every request, the loop of [processBatch] never
    ends: each call of [processOneStep] catches the error and reports the
    step as still processing, so that after any number of iterations the
    loop goes on, with no row changed. *)
Theorem processBatch_spins (env : Env) (b : nat) (use : bool) (fuel : nat)
  (w : World) :
  (forall t, store_error env t <> None) ->
  exists w',
    processBatch env fuel b use w = (Returned None, w') /\
    simple_batches w' = simple_batches w /\
    simple_jobs w' = simple_jobs w /\
    simple_blogs w' = simple_blogs w /\
    clock w' = clock w + fuel.
Proof.
  intros Hno.
  assert (L : forall results,
             exists w',
               processBatch_loop env fuel b use results w = (Returned None, w') /\
               simple_batches w' = simple_batches w /\
               simple_jobs w' = simple_jobs w /\
               simple_blogs w' = simple_blogs w /\
               clock w' = clock w + fuel).
  { revert w. induction fuel as [|fuel IH]; intros w results.
    - exists w. cbn. repeat split. lia.
    - cbn [processBatch_loop]. unfold bind.
      unfold Lib.processOneStep, try_catch, bind, Lib.updateBatchStatus, bind,
             request, throw, ret.
      destruct (store_error env (clock w)) as [e|] eqn:E;
        [|exfalso; apply (Hno _ E)].
      cbn [result_status Lib.step_result push_result step nextStep].
      destruct (IH (tick w) results) as (w' & Run & H1 & H2 & H3 & H4).
      exists w'. split; [exact Run|]. cbn [clock tick] in H4.
      repeat split; try assumption. lia. }
  destruct (L []) as (w' & Run & H). exists w'.
  split; [|exact H]. unfold processBatch, bind. rewrite Run. reflexivity.
Qed.

End Loop.

Module LoopRuns.
Import Js Num Store Loop.

(** The store refuses every request. *)
Definition refusing : Env :=
  Scenario.demo (fun _ => Some (lit "timeout"%string)) None.

Lemma created_unique :
  NoDup (map Job.id (simple_jobs (Scenario.created Scenario.steady))).
Proof. vm_compute. constructor; [intros [] | constructor]. Qed.

Lemma processBatch_terminates_run :
  let env := Scenario.steady in
  let w := Scenario.created Scenario.steady in
  let b := 0 in
  let use := true in
  let fuel := 4 in
  (forall t, store_error env t = None) /\
  NoDup (map Job.id (simple_jobs w)) /\
  3 * length (jobs_of b (simple_jobs w)) < fuel /\
  exists outcome w',
    processBatch env fuel b use w = (Returned (Some outcome), w') /\
    Invariants.all_terminal b (simple_jobs w') = true /\
    map Job.id (simple_jobs w') = map Job.id (simple_jobs w) /\
    completed_count outcome =
      Lib.count_status completed (jobs_of b (simple_jobs w')) /\
    failed_count outcome =
      Lib.count_status failed (jobs_of b (simple_jobs w')) /\
    completed_count outcome + failed_count outcome
      = length (jobs_of b (simple_jobs w)) /\
    Forall (fun k => success k = true) (results outcome) /\
    forall B, In B (simple_batches w') -> Batch.id B = b ->
              Batch.status B =
              if Invariants.all_failed b (simple_jobs w') then batch_failed
              else batch_completed.
Proof.
  intros env w b use fuel.
  assert (Hok : forall t, store_error env t = None) by reflexivity.
  assert (Hfuel : 3 * length (jobs_of b (simple_jobs w)) < fuel)
    by (vm_compute; lia).
  split; [exact Hok|]. split; [exact created_unique|]. split; [exact Hfuel|].
  apply (@processBatch_terminates env b use fuel w Hok created_unique Hfuel).
Defined.

Lemma processBatch_spins_run :
  let env := refusing in
  let w := Scenario.created Scenario.steady in
  let b := 0 in
  let fuel := 1000 in
  (forall t, store_error env t <> None) /\
  exists w',
    processBatch env fuel b true w = (Returned None, w') /\
    simple_batches w' = simple_batches w /\
    simple_jobs w' = simple_jobs w /\
    simple_blogs w' = simple_blogs w /\
    clock w' = clock w + fuel.
Proof.
  intros env w b fuel.
  assert (Hno : forall t, store_error env t <> None) by (intros t; discriminate).
  split; [exact Hno|].
  apply (@processBatch_spins env b true fuel w Hno).
Defined.

(** The run of the first of the two: the only keyword is researched,
    analyzed and written, and the fourth call ends the loop. *)
Example processBatch_run :
  option_map (fun o => (completed_count o, failed_count o,
                        map success (results o)))
    match fst (processBatch Scenario.steady 4 0 true
                 (Scenario.created Scenario.steady)) with
    | Returned o => o
    | Thrown _ => None
    end
  = Some (1, 0, [true]).
Proof. vm_compute. reflexivity. Qed.

End LoopRuns.

(* ====================================================================== *)
(** * The batch counters under the edge function *)
(* ====================================================================== *)

Module EdgeInvariants.
Import Js Num Store Triples Invariants.

Section WithEnv.
Variable env : Env.

Lemma edge_update_live (b jid : nat) (u : JobUpdate) (E : World -> Prop) :
  (set_status u = None \/
   exists s, set_status u = Some s /\ terminal s = false) ->
  triple (live b jid) (Edge.update_job_unchecked jid u)
         (fun _ => live b jid) E.
Proof.
  intros Hu. unfold Edge.update_job_unchecked. apply triple_put_to.
  intros w H. apply live_update_job; assumption.
Qed.

Lemma edge_update_terminal (b jid : nat) (u : JobUpdate) (s : JobStatus)
  (E : World -> Prop) :
  set_status u = Some s -> terminal s = true ->
  triple (live b jid) (Edge.update_job_unchecked jid u)
         (fun _ => owing b jid) E.
Proof.
  intros Hu Hs. unfold Edge.update_job_unchecked. apply triple_put_to.
  intros w H. apply (@live_update_job_terminal b jid u s w H Hu Hs).
Qed.

Lemma edge_increment_owing (b jid : nat) (field : ProgressField)
  (E : World -> Prop) :
  triple (owing b jid) (Edge.increment_unchecked b field)
         (fun _ => invariant) E.
Proof.
  intros w H. unfold Edge.increment_unchecked, bind, get, put, ret.
  destruct (find_batch b w) as [batch|] eqn:F.
  - apply (@owing_increment b jid (clock w) field w batch H F).
  - apply (owing_invariant H).
Qed.

Lemma edge_write_draft_live (b jid : nat) (job : Job.t) (ra : str)
  (d : option Scorer.NeuronWriterAnalysis) :
  triple (live b jid) (Edge.write_draft env job ra d)
         (fun _ => live b jid) (live b jid).
Proof.
  unfold Edge.write_draft. cbv zeta.
  eapply triple_bind;
    [apply call_writeBlog_stable; apply (@stable_live b jid)|].
  intros blogResult. destruct d as [d|]; [|apply triple_ret].
  destruct (Num.ltb _ Edge.MIN_ACCEPTABLE_SCORE); [|apply triple_ret].
  eapply triple_bind;
    [apply call_writeBlog_stable; apply (@stable_live b jid)|].
  intros blogResult'. apply triple_ret.
Qed.

Lemma edge_import_draft_live (b jid : nat)
  (d : option Scorer.NeuronWriterAnalysis) (blogResult : BlogResult)
  (content : str) :
  triple (live b jid) (Edge.import_draft env d blogResult content)
         (fun _ => live b jid) (live b jid).
Proof.
  unfold Edge.import_draft. destruct d as [d|]; [|apply triple_ret].
  destruct (Edge.nonempty_text (Scorer.queryId d)); [|apply triple_ret].
  intros w H. apply (live_extends (extends_tick w) H).
Qed.

Lemma edge_doResearchStep_invariant (b : nat) (job : Job.t) :
  triple (live b (Job.id job)) (Edge.doResearchStep env job)
         (fun _ => invariant) invariant.
Proof.
  unfold Edge.doResearchStep.
  eapply triple_bind.
  { apply edge_update_live with (E := invariant).
    right. exists researching. split; reflexivity. }
  intros ? .
  apply triple_try_catch with (E' := live b (Job.id job)).
  - eapply triple_bind.
    { apply triple_fetch. intros w H. apply (live_extends (extends_tick w) H). }
    intros rawResearch.
    eapply triple_bind.
    { apply triple_request. intros w H. apply (live_extends (extends_tick w) H). }
    intros [e|]; [apply triple_throw|].
    eapply triple_bind.
    + apply triple_put_to with (Q := fun _ => invariant).
      intros w H. eapply live_invariant. apply live_update_job; [exact H|].
      right. exists analyzing. split; reflexivity.
    + intros ? . apply triple_ret.
  - intros e. eapply triple_bind.
    + apply edge_update_terminal with (s := failed) (E := invariant);
        reflexivity.
    + intros ? . apply triple_ret_to. intros w H. apply (owing_invariant H).
Qed.

Lemma edge_doAnalyzeStep_invariant (b : nat) (job : Job.t)
  (useNeuronwriter : bool) :
  triple (live b (Job.id job)) (Edge.doAnalyzeStep env job useNeuronwriter)
         (fun _ => invariant) invariant.
Proof.
  unfold Edge.doAnalyzeStep.
  apply triple_try_catch with (E' := live b (Job.id job)).
  - eapply triple_bind;
      [apply triple_get_to with (Q := fun _ => live b (Job.id job));
       intros w H; exact H|].
    intros w0.
    destruct (option_map Job.research_raw (find_job (Job.id job) w0))
      as [[[|c raw]|]|]; try apply triple_throw.
    cbv zeta.
    assert (T : timeless (live b (Job.id job)))
      by (intros w H; apply (live_extends (extends_tick w) H)).
    eapply triple_bind.
    { apply triple_caught. apply triple_fetch. exact T. }
    intros analysis.
    eapply triple_bind with (Q := fun _ => live b (Job.id job)).
    { destruct useNeuronwriter; [|apply triple_ret].
      eapply triple_bind.
      - apply triple_caught. apply triple_fetch. exact T.
      - intros [e|data]; apply triple_ret. }
    intros neuronwriterData.
    destruct analysis as [e|analyzedResearch]; [apply triple_throw|].
    eapply triple_bind with (Q := fun _ => live b (Job.id job)).
    { destruct neuronwriterData as [data|]; [|apply triple_ret].
      apply edge_update_live. left. reflexivity. }
    intros ? .
    eapply triple_bind; [apply triple_request; exact T|].
    intros [e|]; [apply triple_throw|].
    eapply triple_bind.
    + apply triple_put_to with (Q := fun _ => invariant).
      intros w H. eapply live_invariant. apply live_update_job; [exact H|].
      right. exists writing. split; reflexivity.
    + intros ? . apply triple_ret.
  - intros e. eapply triple_bind.
    + apply edge_update_terminal with (s := failed) (E := invariant);
        reflexivity.
    + intros ? . apply triple_ret_to. intros w H. apply (owing_invariant H).
Qed.

Lemma edge_doWriteStep_invariant (b : nat) (job : Job.t) :
  triple (live b (Job.id job)) (Edge.doWriteStep env job b)
         (fun _ => invariant) invariant.
Proof.
  unfold Edge.doWriteStep.
  apply triple_try_catch with (E' := live b (Job.id job)).
  - eapply triple_bind;
      [apply triple_get_to with (Q := fun _ => live b (Job.id job));
       intros w H; exact H|].
    intros w0.
    destruct (option_map Job.research_analyzed (find_job (Job.id job) w0))
      as [[[|c analyzed]|]|]; try apply triple_throw.
    cbv zeta.
    eapply triple_bind; [apply edge_write_draft_live|].
    intros [[blogResult content] score].
    eapply triple_bind; [apply edge_import_draft_live|].
    intros [neuronwriterRealScore neuronwriterEditorUrl].
    eapply triple_bind;
      [apply triple_get_to with (Q := fun _ => live b (Job.id job));
       intros w H; exact H|].
    intros w2.
    eapply triple_bind with (Q := fun _ => live b (Job.id job)).
    { intros w H. unfold Edge.insert_blog_unchecked, bind, get, put, ret.
      destruct (existsb _ (simple_blogs w)); [exact H|].
      apply (live_extends (extends_add_blog _ w) H). }
    intros ? .
    eapply triple_bind.
    { apply edge_update_terminal with (s := completed)
                                      (E := live b (Job.id job));
        reflexivity. }
    intros ? .
    eapply triple_bind; [apply edge_increment_owing|].
    intros ? . apply triple_ret.
  - intros e. eapply triple_bind.
    + apply edge_update_terminal with (s := failed) (E := invariant);
        reflexivity.
    + intros ? . eapply triple_bind; [apply edge_increment_owing|].
      intros ? . apply triple_ret.
Qed.

Lemma serve_invariant (b : nat) (use : option bool) :
  triple invariant (Edge.serve env b use) (fun _ => invariant) invariant.
Proof.
  unfold Edge.serve. apply triple_caught.
  eapply triple_bind
    with (Q := fun _ w => invariant w /\ running b w).
  { apply triple_put_to. intros w H. apply invariant_running. exact H. }
  intros ? .
  eapply triple_bind; [apply (@getNextJobToProcess_live env b)|].
  intros [job|].
  - destruct (Job.status job).
    + apply edge_doResearchStep_invariant.
    + apply edge_doResearchStep_invariant.
    + apply edge_doAnalyzeStep_invariant.
    + apply edge_doWriteStep_invariant.
    + apply triple_ret_to. apply live_invariant.
    + apply triple_ret_to. apply live_invariant.
  - eapply triple_bind;
      [apply triple_get_to with (Q := fun w0 w => w0 = w /\ invariant w);
       intros w H; split; [reflexivity | exact H]|].
    intros w0. cbv zeta.
    destruct (Lib.count_status completed (jobs_of b (simple_jobs w0)) +
              Lib.count_status failed (jobs_of b (simple_jobs w0))
              =? length (jobs_of b (simple_jobs w0))) eqn:C.
    + apply Nat.eqb_eq in C.
      eapply triple_bind; [|intros ?; apply triple_ret].
      apply triple_put_to. intros w (-> & H).
      apply (@invariant_final b (clock w) w (jobs_of b (simple_jobs w)) H
               (Permutation_refl _) C).
    + apply triple_ret_to. intros w (_ & H). exact H.
Qed.

(** The stores reached from the empty one by creating batches through the
    library and invoking the edge function, one call after the other. *)
Inductive edge_reachable : World -> Prop :=
| edge_reachable_empty : edge_reachable empty_world
| edge_reachable_createBatch (w : World) (keywords : list str) (use : bool) :
    edge_reachable w ->
    edge_reachable (snd (Lib.createBatch env keywords use w))
| edge_reachable_serve (w : World) (batchId : nat) (use : option bool) :
    edge_reachable w -> edge_reachable (snd (Edge.serve env batchId use w)).

Lemma edge_reachable_invariant (w : World) : edge_reachable w -> invariant w.
Proof.
  induction 1 as [|w keywords use _ IH|w b use _ IH].
  - apply invariant_empty.
  - apply (@triple_snd _ _ _ _ (createBatch_invariant env keywords use) w IH).
  - apply (@triple_snd _ _ _ _ (serve_invariant b use) w IH).
Qed.


(** An invocation that finds every job of the batch terminal. *)
Lemma serve_finalizes (b : nat) (use : option bool) (w : World) :
  all_terminal b (simple_jobs w) = true ->
  forall B, In B (simple_batches (snd (Edge.serve env b use w))) ->
            Batch.id B = b ->
            Batch.status B =
            if all_failed b (simple_jobs w) then batch_failed
            else batch_completed.
Proof.
  intros Hall.
  set (w1 := update_batch b (set_batch_status batch_running (clock w)) w).
  set (jobs := jobs_of b (simple_jobs w)).
  assert (Hcount : Lib.count_status completed jobs +
                   Lib.count_status failed jobs = length jobs)
    by (apply all_terminal_count; exact Hall).
  assert (Run : snd (Edge.serve env b use w) =
                update_batch b
                  (set_batch_status (final_status jobs) (S (S (clock w))))
                  (tick (tick w1))).
  { unfold Edge.serve, caught, try_catch.
    unfold bind at 1. unfold bind at 1. unfold put at 1. fold w1.
    unfold bind at 1.
    change (Edge.next_job env b w1) with (Lib.getNextJobToProcess env b w1).
    rewrite (getNextJobToProcess_none env b w1 Hall).
    unfold bind, get, put, ret. cbv zeta.
    change (jobs_of b (simple_jobs (tick (tick w1)))) with jobs.
    rewrite Hcount, Nat.eqb_refl. reflexivity. }
  rewrite Run. clear Run.
  intros B HB Hid.
  apply In_update_batch in HB. destruct HB as (B1 & HB1 & ->).
  change (simple_batches (tick (tick w1))) with (simple_batches w1) in HB1.
  apply In_update_batch in HB1. destruct HB1 as (B0 & HB0 & ->).
  destruct (Batch.id B0 =? b) eqn:E0'.
  2: { rewrite E0' in *. apply Nat.eqb_neq in E0'. contradiction. }
  cbn [Batch.id set_batch_status] in *. rewrite E0' in *.
  cbn [Batch.status set_batch_status].
  unfold final_status.
  pose proof (count_failed_all jobs) as Hf.
  unfold all_failed, statuses. fold jobs.
  destruct (Lib.count_status failed jobs =? length jobs) eqn:F.
  - apply Nat.eqb_eq in F. apply Hf in F. rewrite F. reflexivity.
  - apply Nat.eqb_neq in F.
    destruct (forallb is_failed (map Job.status jobs)) eqn:G; [|reflexivity].
    exfalso. apply F. apply Hf. reflexivity.
Qed.

End WithEnv.

(** In every store reached by creating batches and invoking the edge
    function one call after the other (the store carrying out the requests
    whose result the edge function does not check), every batch has
    completed_keywords + failed_keywords at most total_keywords; a batch
    whose status is failed has only failed jobs, and a batch whose status is
    completed has only terminal jobs, not all of them failed; and an
    invocation that finds every job of its batch terminal sets the batch
    status: failed when all jobs failed, completed otherwise. *)
Theorem serve_batch_progress (env : Env) (w : World) :
  edge_reachable env w ->
  (forall B, In B (simple_batches w) ->
     Batch.completed_keywords B + Batch.failed_keywords B
       <= Batch.total_keywords B /\
     (Batch.status B = batch_failed ->
      all_failed (Batch.id B) (simple_jobs w) = true) /\
     (Batch.status B = batch_completed ->
      all_terminal (Batch.id B) (simple_jobs w) = true /\
      all_failed (Batch.id B) (simple_jobs w) = false)) /\
  (forall b use,
     all_terminal b (simple_jobs w) = true ->
     forall B, In B (simple_batches (snd (Edge.serve env b use w))) ->
               Batch.id B = b ->
               Batch.status B =
               if all_failed b (simple_jobs w) then batch_failed
               else batch_completed).
Proof.
  intros Hr. split.
  - intros B HB. destruct (edge_reachable_invariant Hr) as [_ Hb].
    destruct (Hb B HB) as (H1 & H2 & H3 & H4).
    split; [|split; assumption].
    unfold terminal_count, nothing_owed in H1.
    pose proof (filter_length_le terminal (statuses (Batch.id B) (simple_jobs w))).
    lia.
  - intros b use. apply serve_finalizes.
Qed.

End EdgeInvariants.

Module EdgeRuns.
Import Js Num Store Invariants EdgeInvariants.

Lemma edge_reachable_written (env : Env) :
  edge_reachable env (Scenario.edge_written env).
Proof.
  unfold Scenario.edge_written, Scenario.edge_analyzed, Scenario.edge_stepped,
         Scenario.created.
  do 3 apply edge_reachable_serve.
  apply edge_reachable_createBatch. apply edge_reachable_empty.
Qed.

Lemma serve_batch_progress_run :
  let env := Scenario.steady in
  let w := Scenario.edge_written Scenario.steady in
  edge_reachable env w /\
  (forall B, In B (simple_batches w) ->
     Batch.completed_keywords B + Batch.failed_keywords B
       <= Batch.total_keywords B /\
     (Batch.status B = batch_failed ->
      all_failed (Batch.id B) (simple_jobs w) = true) /\
     (Batch.status B = batch_completed ->
      all_terminal (Batch.id B) (simple_jobs w) = true /\
      all_failed (Batch.id B) (simple_jobs w) = false)) /\
  (forall b use,
     all_terminal b (simple_jobs w) = true ->
     forall B, In B (simple_batches (snd (Edge.serve env b use w))) ->
               Batch.id B = b ->
               Batch.status B =
               if all_failed b (simple_jobs w) then batch_failed
               else batch_completed).
Proof.
  intros env w. split; [apply edge_reachable_written|].
  apply (@serve_batch_progress env w). apply edge_reachable_written.
Defined.

End EdgeRuns.

(* ====================================================================== *)
(** * The percentage of an analysis without supporting tier *)
(* ====================================================================== *)

Module PercentageRange.
Import Js Num Scorer.

(** The shares a tier of at most [size] terms, worth [points] each, can
    have. *)
Definition shares (size points : nat) (weight : Z) : list number :=
  flat_map (fun n => map (fun achieved =>
                            tier_share achieved (points * n) weight)
                         (seq 0 (points * n + 1)))
           (seq 0 (size + 1)).

Definition critical_shares : list number := shares 10 3 50.
Definition important_shares : list number := shares 15 2 30.
Definition no_supporting : number := tier_share 0 0 20.
Definition twenty : number := of_Z 20.
Definition hundred : number := of_Z 100.

Definition in_range (c i : number) : bool :=
  let p := Math_round (add (add c i) no_supporting) in
  negb (ltb p twenty) && negb (ltb hundred p).

(** The finitely many pairs of shares, one by one. *)
Lemma shares_in_range (c i : number) :
  In c critical_shares -> In i important_shares -> in_range c i = true.
Proof.
  assert (H : forallb (fun c => forallb (in_range c) important_shares)
                      critical_shares = true)
    by (vm_compute; reflexivity).
  intros Hc Hi. rewrite forallb_forall in H. specialize (H c Hc).
  rewrite forallb_forall in H. exact (H i Hi).
Qed.

Lemma shares_In (size points : nat) (weight : Z) (n achieved : nat) :
  n <= size -> achieved <= points * n ->
  In (tier_share achieved (points * n) weight) (shares size points weight).
Proof.
  intros Hn Ha. unfold shares. apply in_flat_map. exists n.
  split; [apply in_seq; lia|].
  apply in_map_iff. exists achieved. split; [reflexivity | apply in_seq; lia].
Qed.

Section Builtins.
Variable toLowerCase : str -> str.
Variable canonicalize : code_unit -> code_unit.

(** For an analysis of at most 25 terms, which has no supporting tier,
    the percentage is at least 20 and at most 100, whatever the content:
    the supporting tier contributes its whole weight of 20. *)
Theorem calculateScore_percentage_range (content : str)
  (a : NeuronWriterAnalysis) :
  length (recommendedTerms a) <= 25 ->
  let p := percentage (calculateScore toLowerCase canonicalize content a) in
  ltb p (of_Z 20) = false /\ ltb (of_Z 100) p = false.
Proof.
  intros Hlen. cbv zeta.
  unfold calculateScore. cbn [percentage].
  rewrite criticalPct_share, importantPct_share, supportingPct_share.
  assert (Hs : supporting_tier a = []).
  { unfold supporting_tier. apply skipn_all2. exact Hlen. }
  rewrite Hs. cbn [length tier_points map list_sum fold_right].
  set (c := tier_points _ (critical_tier a)).
  set (i := tier_points _ (important_tier a)).
  assert (Hc : In (tier_share c (3 * length (critical_tier a)) 50)
                  critical_shares).
  { unfold critical_shares. apply shares_In.
    - unfold critical_tier. rewrite length_firstn. lia.
    - unfold c. apply ScorerBounds.tier_points_le.
      intros t. apply ScorerBounds.critical_credit_le. }
  assert (Hi : In (tier_share i (2 * length (important_tier a)) 30)
                  important_shares).
  { unfold important_shares. apply shares_In.
    - unfold important_tier. rewrite length_firstn. lia.
    - unfold i. apply ScorerBounds.tier_points_le.
      intros t. apply ScorerBounds.important_credit_le. }
  pose proof (shares_in_range Hc Hi) as R.
  unfold in_range in R. cbv zeta in R.
  apply andb_true_iff in R. destruct R as [R1 R2].
  apply negb_true_iff in R1, R2. split; assumption.
Qed.

End Builtins.

Lemma calculateScore_percentage_range_run :
  let content := ScorerBounds.full_content in
  let a := Scenario.analysis in
  length (recommendedTerms a) <= 25 /\
  let p := percentage (calculateScore Scorer.ascii_toLowerCase
                         Scorer.ascii_canonicalize content a) in
  ltb p (of_Z 20) = false /\ ltb (of_Z 100) p = false.
Proof.
  intros content a.
  assert (H : length (recommendedTerms a) <= 25) by (cbn; lia).
  split; [exact H|].
  apply (@calculateScore_percentage_range Scorer.ascii_toLowerCase
           Scorer.ascii_canonicalize content a H).
Defined.

End PercentageRange.

(* ====================================================================== *)
(** * The analysis used when the provider gives none
      ([getFallbackAnalysis], [generateRelatedTerms]) *)
(* ====================================================================== *)

Module Fallback.
Import Js Num Scorer.

Definition baseTerms (keyword : str) : list str :=
  [ keyword;
    keyword ++ [32; 12392; 12399]%N;                      (* ␣とは *)
    keyword ++ [32; 12420; 12426; 26041]%N;               (* ␣やり方 *)
    keyword ++ [32; 12513; 12522; 12483; 12488]%N;        (* ␣メリット *)
    keyword ++ [32; 12487; 12513; 12522; 12483; 12488]%N; (* ␣デメリット *)
    keyword ++ [32; 21021; 24515; 32773]%N;               (* ␣初心者 *)
    keyword ++ [32; 12362; 12377; 12377; 12417]%N;        (* ␣おすすめ *)
    keyword ++ [32; 27604; 36611]%N;                      (* ␣比較 *)
    keyword ++ [32; 50; 48; 50; 52]%N;                    (* ␣2024 *)
    keyword ++ [32; 12467; 12484]%N                       (* ␣コツ *)
  ].

Definition habittoTerms : list str :=
  [ [36015; 33988]%N;                                     (* 貯蓄 *)
    [37329; 21033]%N;                                     (* 金利 *)
    [31680; 32004]%N;                                     (* 節約 *)
    [36015; 37329]%N;                                     (* 貯金 *)
    [12487; 12499; 12483; 12488; 12459; 12540; 12489]%N;  (* デビットカード *)
    [12461; 12515; 12483; 12471; 12517; 12496; 12483; 12463]%N;
                                                          (* キャッシュバック *)
    [39640; 37329; 21033]%N;                              (* 高金利 *)
    [12493; 12483; 12488; 37504; 34892]%N                 (* ネット銀行 *)
  ].

(** [[...baseTerms, ...habittoTerms.filter(t => !baseTerms.includes(t))]] *)
Definition generateRelatedTerms (keyword : str) : list str :=
  baseTerms keyword ++
  filter (fun t => negb (has (baseTerms keyword) t)) habittoTerms.

Definition headings (keyword : str) : list str :=
  [ keyword ++ [12392; 12399; 65311; 22522; 30990; 30693; 35672; 12434;
                35299; 35500]%N;           (* とは？基礎知識を解説 *)
    keyword ++ [12398; 12513; 12522; 12483; 12488; 12539; 12487; 12513;
                12522; 12483; 12488]%N;    (* のメリット・デメリット *)
    keyword ++ [12398; 22987; 12417; 26041; 12539; 12420; 12426; 26041]%N;
                                           (* の始め方・やり方 *)
    keyword ++ [12398; 36984; 12403; 26041; 12398; 12509; 12452; 12531;
                12488]%N;                  (* の選び方のポイント *)
    keyword ++ [12395; 38306; 12377; 12427; 12424; 12367; 12354; 12427;
                36074; 21839]%N;           (* に関するよくある質問 *)
    [12414; 12392; 12417; 65306]%N ++ keyword ++
      [12391; 36066; 12367; 12362; 37329; 12434; 31649; 29702; 12375;
       12424; 12358]%N                     (* まとめ：…で賢くお金を管理しよう *)
  ].

(** [terms.map((term, i) => ({ term, weight: 100 - i * 5 }))] *)
Definition weighted (terms : list str) : list (str * number) :=
  map (fun entry => (snd entry, of_Z (100 - Z.of_nat (fst entry) * 5)))
      (entries terms).

Module Lib.
Definition getFallbackAnalysis (keyword : str) (queryId : option str)
  : NeuronWriterAnalysis :=
  let relatedTerms := generateRelatedTerms keyword in
  {| queryId := queryId;
     recommendedTerms := relatedTerms;
     competitorHeadings := headings keyword;
     wordCountTarget := 3000;
     topKeywords := weighted (slice 0 10 relatedTerms) |}.
End Lib.

(** The edge function's copy; its [queryId: null] and the library's absent
    [queryId] are both [None]. *)
Module Edge.
Definition getFallbackAnalysis (keyword : str) : NeuronWriterAnalysis :=
  {| queryId := None;
     recommendedTerms :=
       baseTerms keyword ++
       filter (fun t => negb (has (baseTerms keyword) t)) habittoTerms;
     competitorHeadings := headings keyword;
     wordCountTarget := 3000;
     topKeywords := weighted (slice 0 10 (baseTerms keyword)) |}.
End Edge.

(** ** The terms *)

Definition suffixes : list str :=
  [ [];
    [32; 12392; 12399]%N;
    [32; 12420; 12426; 26041]%N;
    [32; 12513; 12522; 12483; 12488]%N;
    [32; 12487; 12513; 12522; 12483; 12488]%N;
    [32; 21021; 24515; 32773]%N;
    [32; 12362; 12377; 12377; 12417]%N;
    [32; 27604; 36611]%N;
    [32; 50; 48; 50; 52]%N;
    [32; 12467; 12484]%N ].

Lemma baseTerms_suffixes (keyword : str) :
  baseTerms keyword = map (app keyword) suffixes.
Proof. cbn [suffixes map]. rewrite app_nil_r. reflexivity. Qed.

Ltac distinct :=
  repeat (constructor; [cbn [In]; intuition discriminate|]); constructor.

Lemma suffixes_distinct : NoDup suffixes.
Proof. unfold suffixes. distinct. Qed.

Lemma habittoTerms_distinct : NoDup habittoTerms.
Proof. unfold habittoTerms. distinct. Qed.

Lemma baseTerms_distinct (keyword : str) : NoDup (baseTerms keyword).
Proof.
  rewrite baseTerms_suffixes.
  apply Finite.Injective_map_NoDup; [|exact suffixes_distinct].
  intros x y H. apply (app_inv_head _ _ _ H).
Qed.

(** A Habitto term holds no space, so it is a base term only as the
    keyword itself. *)
Lemma habitto_base (keyword t : str) :
  In t habittoTerms ->
  has (baseTerms keyword) t = str_eqb t keyword.
Proof.
  intros Ht.
  assert (Hs : ~ In 32%N t).
  { unfold habittoTerms in Ht. cbn [In] in Ht.
    repeat (destruct Ht as [<-|Ht];
            [cbn [In]; intuition discriminate|]).
    destruct Ht. }
  destruct (str_eqb t keyword) eqn:E.
  - apply str_eqb_eq in E. subst t. apply has_In. left. reflexivity.
  - apply has_false. rewrite baseTerms_suffixes. intros H.
    apply in_map_iff in H. destruct H as (s & <- & Hin).
    unfold suffixes in Hin. cbn [In] in Hin.
    destruct Hin as [<-|Hin].
    + rewrite app_nil_r, str_eqb_refl in E. discriminate E.
    + apply Hs. apply in_or_app. right.
      repeat (destruct Hin as [<-|Hin]; [left; reflexivity|]).
      destruct Hin.
Qed.

Lemma related_terms (keyword : str) :
  generateRelatedTerms keyword =
  baseTerms keyword ++ filter (fun t => negb (str_eqb t keyword)) habittoTerms.
Proof.
  unfold generateRelatedTerms. f_equal. apply filter_ext_in.
  intros t Ht. rewrite (habitto_base keyword Ht). reflexivity.
Qed.

Lemma filter_one_out (keyword : str) (l : list str) :
  NoDup l ->
  length l - 1 <= length (filter (fun t => negb (str_eqb t keyword)) l)
  <= length l.
Proof.
  intros H. split; [|apply filter_length_le].
  induction H as [|x l Hx Hl IH]; [cbn; lia|]. cbn [filter length].
  destruct (str_eqb x keyword) eqn:E; cbn [negb length]; [|lia].
  apply str_eqb_eq in E. subst x.
  assert (F : filter (fun t => negb (str_eqb t keyword)) l = l).
  { clear IH Hl. induction l as [|y l IHl]; [reflexivity|]. cbn [filter].
    destruct (str_eqb y keyword) eqn:Ey.
    - apply str_eqb_eq in Ey. subst y. exfalso. apply Hx. left. reflexivity.
    - cbn [negb]. f_equal. apply IHl. intros H. apply Hx. right. exact H. }
  rewrite F. lia.
Qed.

(** The fallback analysis of the edge function is that of the library
    without query handle.  Its recommended terms are pairwise different:
    the keyword and nine phrases made of the keyword, a space and a word,
    which are the critical tier, followed by the eight Habitto terms, less
    the keyword if it is one of them, which are the important tier; there is
    no supporting tier, so the maximum score is 44 or 46; and the top
    keywords are the ten critical terms. *)
Theorem getFallbackAnalysis_terms (keyword : str) (queryId : option str) :
  let a := Lib.getFallbackAnalysis keyword queryId in
  Edge.getFallbackAnalysis keyword = Lib.getFallbackAnalysis keyword None /\
  NoDup (recommendedTerms a) /\
  critical_tier a = baseTerms keyword /\
  Forall (fun t => startsWith t keyword = true) (critical_tier a) /\
  important_tier a =
    filter (fun t => negb (str_eqb t keyword)) habittoTerms /\
  supporting_tier a = [] /\
  17 <= length (recommendedTerms a) <= 18 /\
  map fst (topKeywords a) = baseTerms keyword /\
  forall toLowerCase canonicalize content,
    maxScore (calculateScore toLowerCase canonicalize content a)
    = 2 * length (recommendedTerms a) + 10.
Proof.
  cbv zeta.
  pose proof (filter_one_out keyword habittoTerms_distinct) as Hlen.
  set (rest := filter (fun t => negb (str_eqb t keyword)) habittoTerms) in *.
  change (length habittoTerms) with 8 in Hlen.
  assert (Hterms : recommendedTerms (Lib.getFallbackAnalysis keyword queryId)
                   = baseTerms keyword ++ rest)
    by apply related_terms.
  assert (Hcrit : critical_tier (Lib.getFallbackAnalysis keyword queryId)
                  = baseTerms keyword).
  { unfold critical_tier. rewrite Hterms. reflexivity. }
  assert (Himp : important_tier (Lib.getFallbackAnalysis keyword queryId)
                 = rest).
  { unfold important_tier. rewrite Hterms.
    change (skipn 10 (baseTerms keyword ++ rest)) with rest.
    apply firstn_all2. lia. }
  assert (Hsup : supporting_tier (Lib.getFallbackAnalysis keyword queryId)
                 = []).
  { unfold supporting_tier. rewrite Hterms. apply skipn_all2.
    rewrite length_app. cbn [baseTerms length]. lia. }
  split; [reflexivity|].
  split.
  { rewrite Hterms. apply NoDup_app.
    - apply baseTerms_distinct.
    - apply NoDup_filter. exact habittoTerms_distinct.
    - intros t Hb Hr. unfold rest in Hr. apply filter_In in Hr.
      destruct Hr as [Hh Hn].
      assert (Hhas : has (baseTerms keyword) t = true) by (apply has_In; exact Hb).
      rewrite (habitto_base keyword Hh) in Hhas. rewrite Hhas in Hn.
      discriminate Hn. }
  split; [exact Hcrit|].
  split.
  { rewrite Hcrit, baseTerms_suffixes. apply Forall_forall.
    intros t Ht. apply in_map_iff in Ht. destruct Ht as (s & <- & _).
    clear. induction keyword as [|c k IH]; [destruct s; reflexivity|].
    cbn [app startsWith]. rewrite N.eqb_refl. exact IH. }
  split; [exact Himp|]. split; [exact Hsup|].
  split; [rewrite Hterms, length_app; cbn [baseTerms length]; lia|].
  split.
  { cbn [Lib.getFallbackAnalysis topKeywords]. unfold weighted.
    rewrite map_map. cbn [fst].
    change (slice 0 10 (generateRelatedTerms keyword)) with (baseTerms keyword).
    apply (Api.entries_snd (baseTerms keyword)). }
  intros toLowerCase canonicalize content.
  unfold calculateScore. cbn [maxScore]. unfold maxCritical, maxImportant,
    maxSupporting.
  destruct (tiers_of_tally toLowerCase canonicalize content
              (Lib.getFallbackAnalysis keyword queryId)) as (T1 & T2 & T3).
  rewrite T1, T2, T3, Hcrit, Himp, Hsup, Hterms, length_app.
  cbn [baseTerms length]. lia.
Qed.

End Fallback.
